(** * Gomercator: a shallow embedding of the broadcast simulator

    The development follows the Go sources of the repository:
    - package [handlware]: the constants and the types [Graph], [Message],
      [TestResult], [KaryMessage]; [utils.go] (delays, [Clamp],
      [NthElement]); the Geohash functions, the XOR distance and the k-bucket
      filling; [vivaldi.go] ([Observe]); the priority queue and
      [SingleRootSimulation];
    - package [algorithms]: [Mercator] and the default [BaseAlgorithm].

    Modelling conventions.
    - A Go [int] is a [Z].  An [int] that is an index, a length or a counter
      is bounded by the sizes of the slices involved, so the 64-bit
      wrap-around is not observable there; where the machine width matters,
      in the [uint] arithmetic of [XorDistance] and in the product of
      [ComputeKaryChildren], the wrap-around is written out.
    - A Go [float64] is a primitive binary64 float ([PrimFloat.float]); the
      operations [+ - * /], [math.Sqrt], [math.Abs] and the comparisons are
      the IEEE-754 ones, evaluated one by one (no fused multiply-add, as on
      amd64).  [math.Cos], [math.Sin], [math.Acos] and the generator behind
      [rand.NormFloat64] belong to the Go library and are parameters.
    - A Go string is a [string] of bytes; the modelled functions range over
      runes, which are the bytes for the ASCII strings Geohash works on.
    - A run-time panic (index out of range, [make] with a size out of range)
      is [None] in the option monad; running out of memory and [fmt.Printf]
      output are not modelled. *)

From Stdlib Require Import ZArith List String Ascii Bool Lia Floats.
From stdpp Require Import base option list gmap strings sorting.
Import ListNotations.

#[local] Open Scope Z_scope.
#[local] Set Warnings "-inexact-float".

(** * Part I: the embedding *)

(** ** Slices indexed by Go integers *)

(** [xs[i]]: panics ([None]) when [i] is negative or past the end. *)
Definition at_ {A} (xs : list A) (i : Z) : option A :=
  if decide (0 <= i) then xs !! Z.to_nat i else None.

(** [xs[i] = x], for an index already known to be in range. *)
Definition set_at {A} (xs : list A) (i : Z) (x : A) : list A :=
  <[Z.to_nat i := x]> xs.

Definition len {A} (xs : list A) : Z := Z.of_nat (length xs).

(** [for i := lo; i < hi; i++]: the values the loop variable takes. *)
Definition range (lo hi : Z) : list Z :=
  map (fun k => lo + Z.of_nat k) (seq 0 (Z.to_nat (hi - lo))).

(** A loop body run over the values of the loop variable, threading the
    state and stopping at the first panic. *)
Fixpoint for_each {S X} (body : S -> X -> option S) (xs : list X) (s : S) : option S :=
  match xs with
  | [] => Some s
  | x :: xs' => s' ← body s x; for_each body xs' s'
  end.

(** ** Floating point: conversions and comparisons of Go *)

(** [a > b], [a >= b] on [float64]. *)
Definition fgt (a b : float) : bool := PrimFloat.ltb b a.
Definition fge (a b : float) : bool := PrimFloat.leb b a.

(** [float64(n)] for an [int]. *)
Definition float_of_int (n : Z) : float :=
  if n <? 0 then PrimFloat.opp (PrimFloat.of_uint63 (Uint63.of_Z (- n)))
  else PrimFloat.of_uint63 (Uint63.of_Z n).

(** [int(x)] for a finite [float64] within the range of [int]: truncation
    towards zero. *)
Definition int_of_float (x : float) : Z :=
  match Prim2SF x with
  | S754_finite s m e =>
      let a := if 0 <=? e then Z.pos m * 2 ^ e else Z.pos m / 2 ^ (- e) in
      if s then - a else a
  | _ => 0
  end.

(** ** Constants of package [handlware] *)

Definition K : Z := 8.
Definition MaxDepth : Z := 40.
Definition FixedDelay : float := 250%float.
Definition EarthRadius : float := 6371000%float.
Definition Pi : float := 3.141592653589793%float.
Definition GeoBitsPerChar : Z := 5.
Definition inf : float := 1e8%float.

(** ** Graph *)

Module Graph.

Record t := mk { N : Z; M : Z; InBound : list (list Z); OutBound : list (list Z) }.

(** [make([][]int, n)] panics for a negative [n]. *)
Definition NewGraph (n : Z) : option t :=
  if decide (0 <= n) then
    Some {| N := n; M := 0;
            InBound := replicate (Z.to_nat n) [];
            OutBound := replicate (Z.to_nat n) [] |}
  else None.

(** [for _, nb := range xs { if nb == v { return false } }] *)
Definition Contains (xs : list Z) (v : Z) : bool := existsb (Z.eqb v) xs.

Definition AddEdge (g : t) (u v : Z) : option (t * bool) :=
  if u =? v then Some (g, false)
  else
    outU ← at_ (OutBound g) u;
    if Contains outU v then Some (g, false)
    else
      let out' := set_at (OutBound g) u (outU ++ [v]) in
      inV ← at_ (InBound g) v;
      let in' := set_at (InBound g) v (inV ++ [u]) in
      Some ({| N := N g; M := M g + 1; InBound := in'; OutBound := out' |}, true).

(** The position of the first element equal to [v]. *)
Fixpoint index_of (xs : list Z) (v : Z) : option nat :=
  match xs with
  | [] => None
  | x :: xs' => if x =? v then Some 0%nat else S <$> index_of xs' v
  end.

(** [xs[i] = xs[len(xs)-1]; xs = xs[:len(xs)-1]; break] at the first [i]
    with [xs[i] == v]; the slice is left alone when [v] does not occur. *)
Definition swap_remove (xs : list Z) (v : Z) : list Z :=
  match index_of xs v with
  | Some i =>
      match last xs with
      | Some l => take (length xs - 1) (<[i := l]> xs)
      | None => xs
      end
  | None => xs
  end.

Definition DelEdge (g : t) (u v : Z) : option t :=
  outU ← at_ (OutBound g) u;
  let out' := set_at (OutBound g) u (swap_remove outU v) in
  inV ← at_ (InBound g) v;
  let in' := set_at (InBound g) v (swap_remove inV u) in
  Some {| N := N g; M := M g - 1; InBound := in'; OutBound := out' |}.

Definition Outbound (g : t) (u : Z) : option (list Z) := at_ (OutBound g) u.
Definition Inbound (g : t) (u : Z) : option (list Z) := at_ (InBound g) u.

(** A call of the mutating interface, and a sequence of calls. *)
Inductive op := Add (u v : Z) | Del (u v : Z).

Definition step (g : t) (o : op) : option t :=
  match o with
  | Add u v => fst <$> AddEdge g u v
  | Del u v => DelEdge g u v
  end.

Definition run (g : t) (os : list op) : option t := for_each step os g.

(** The sum of the out-degrees. *)
Definition out_total (g : t) : Z := foldr (fun l acc => len l + acc) 0 (OutBound g).

(** The invariant of the data model: an edge is in both lists or in none,
    there are no self-loops and no repeated edges. *)
Definition edge (g : t) (u v : Z) : Prop :=
  exists l, at_ (OutBound g) u = Some l /\ v ∈ l.
Definition redge (g : t) (u v : Z) : Prop :=
  exists l, at_ (InBound g) v = Some l /\ u ∈ l.

Record consistent (g : t) : Prop := {
  cons_len : length (InBound g) = length (OutBound g);
  cons_iff : forall u v, edge g u v <-> redge g u v;
  cons_loop : forall u, ~ edge g u u;
  cons_nodup_out : Forall NoDup (OutBound g);
  cons_nodup_in : Forall NoDup (InBound g)
}.

End Graph.

(** ** Geographic delays ([utils.go]) *)

(** The functions of Go's [math] package the code calls besides [Sqrt] and
    [Abs], and the process-wide generator of [math/rand]. *)
Class MathLib := {
  math_Cos : float -> float;
  math_Sin : float -> float;
  math_Acos : float -> float
}.

Class RandLib := {
  rng : Type;
  rand_NormFloat64 : rng -> float * rng
}.

Record LatLonCoordinate := { Lat : float; Lon : float }.

Definition Rad (deg : float) : float := (deg * Pi / 180)%float.

Definition Distance `{MathLib} (a b : LatLonCoordinate) : float :=
  if PrimFloat.ltb (abs (Lat a - Lat b)) 0.1 && PrimFloat.ltb (abs (Lon a - Lon b)) 0.1
  then 0%float
  else
    let latA := Rad (Lat a) in
    let lonA := Rad (Lon a) in
    let latB := Rad (Lat b) in
    let lonB := Rad (Lon b) in
    let c := (math_Cos latA * math_Cos latB * math_Cos (lonA - lonB)
              + math_Sin latA * math_Sin latB)%float in
    let c := if fgt c 1 then 1%float
             else if PrimFloat.ltb c (-1) then (-1)%float else c in
    let dist := (math_Acos c * EarthRadius)%float in
    (dist / 100000 * 2)%float.

Definition Clamp (val min max : float) : float :=
  if PrimFloat.ltb val min then min
  else if fgt val max then max
  else val.

Definition CalculateTransmissionDelay (dataSize bandwidth : float) : float :=
  ((dataSize * 8 / bandwidth) * 1000)%float.

Definition CalculatePropagationDelay `{MathLib} (u v : Z)
    (coords : list LatLonCoordinate) (bandwidth dataSize : float) : option float :=
  cu ← at_ coords u;
  cv ← at_ coords v;
  let distDelay := (Distance cu cv * 3)%float in
  let dataDelay := CalculateTransmissionDelay dataSize bandwidth in
  Some (distDelay + dataDelay)%float.

Definition RandomNormal `{RandLib} (mean std : float) (r : rng) : float * rng :=
  let draw := rand_NormFloat64 r in ((draw.1 * std + mean)%float, draw.2).

Definition CalculateProcessingDelay `{RandLib} (r : rng) : float * rng :=
  let base := (FixedDelay - 50)%float in
  let draw := RandomNormal 50 10 r in
  let noise := Clamp draw.1 0 100 in
  ((base + noise)%float, draw.2).

(** *** Selection *)

(** [xs[i], xs[j] = xs[j], xs[i]] *)
Definition swap_at {A} (xs : list A) (i j : Z) : option (list A) :=
  a ← at_ xs i;
  b ← at_ xs j;
  Some (set_at (set_at xs i b) j a).

(** [partition(slice, left, right)] returns the slice and the place of the
    pivot. *)
Definition partition (slice : list float) (left right : Z) : option (list float * Z) :=
  pivot ← at_ slice right;
  '(slice, i) ←
    for_each
      (fun '(slice, i) j =>
         x ← at_ slice j;
         if PrimFloat.leb x pivot then
           slice ← swap_at slice i j;
           Some (slice, i + 1)
         else Some (slice, i))
      (range left right) (slice, left);
  slice ← swap_at slice i right;
  Some (slice, i).

(** [quickSelect(slice, left, right, k)]; a call works on fewer places than
    the one that makes it. *)
Fixpoint quickSelect (fuel : nat) (slice : list float) (left right k : Z)
    : option (list float) :=
  if right <=? left then Some slice
  else match fuel with
       | O => None
       | S fuel' =>
           '(slice, pivotIndex) ← partition slice left right;
           if pivotIndex =? k then Some slice
           else if k <? pivotIndex then quickSelect fuel' slice left (pivotIndex - 1) k
           else quickSelect fuel' slice (pivotIndex + 1) right k
       end.

Definition NthElement (slice : list float) (n : Z) : option (list float) :=
  if (n <? 0) || (len slice <=? n) then Some slice
  else quickSelect (length slice) slice 0 (len slice - 1) n.

(** ** Geohash *)

Definition Base32Charset : string := "0123456789bcdefghjkmnpqrstuvwxyz".

(** [s[i]] for a string. *)
Definition byte_at (s : string) (i : Z) : option ascii :=
  if decide (0 <= i) then String.get (Z.to_nat i) s else None.

Definition slen (s : string) : Z := Z.of_nat (String.length s).

Fixpoint IndexRune_from (s : string) (ch : ascii) (i : Z) : Z :=
  match s with
  | EmptyString => -1
  | String c s' => if Ascii.eqb c ch then i else IndexRune_from s' ch (i + 1)
  end.

(** [strings.IndexRune(s, ch)]: the first position of [ch], or [-1]. *)
Definition IndexRune (s : string) (ch : ascii) : Z := IndexRune_from s ch 0.

Record GeoRange := { Min : float; Max : float }.

Definition Mid (gr : GeoRange) : float := ((Min gr + Max gr) / 2)%float.

(** The state of the loop of [Encode]. *)
Record EncState := {
  latRange : GeoRange;
  lonRange : GeoRange;
  isEven : bool;
  bit : Z;
  idx : Z;
  geohash : string
}.

(** One turn of the loop of [Encode]. *)
Definition encode_step (lat lon : float) (st : EncState) : option EncState :=
  let '(la, lo, ix) :=
    if isEven st then
      let mid := Mid (lonRange st) in
      if fge lon mid
      then (latRange st, {| Min := mid; Max := Max (lonRange st) |}, idx st * 2 + 1)
      else (latRange st, {| Min := Min (lonRange st); Max := mid |}, idx st * 2)
    else
      let mid := Mid (latRange st) in
      if fge lat mid
      then ({| Min := mid; Max := Max (latRange st) |}, lonRange st, idx st * 2 + 1)
      else ({| Min := Min (latRange st); Max := mid |}, lonRange st, idx st * 2) in
  let b := bit st + 1 in
  if b =? 5 then
    c ← byte_at Base32Charset ix;
    Some {| latRange := la; lonRange := lo; isEven := negb (isEven st);
            bit := 0; idx := 0; geohash := String.append (geohash st) (String c EmptyString) |}
  else
    Some {| latRange := la; lonRange := lo; isEven := negb (isEven st);
            bit := b; idx := ix; geohash := geohash st |}.

(** [for geohash.Len() < ge.Precision { ... }] *)
Fixpoint encode_loop (fuel : nat) (precision : Z) (lat lon : float) (st : EncState)
    : option string :=
  if slen (geohash st) <? precision then
    match fuel with
    | O => None
    | S fuel' => st' ← encode_step lat lon st; encode_loop fuel' precision lat lon st'
    end
  else Some (geohash st).

Definition lat0 : GeoRange := {| Min := (-90)%float; Max := 90%float |}.
Definition lon0 : GeoRange := {| Min := (-180)%float; Max := 180%float |}.

(** [GeohashEncoder{Precision}.Encode(lat, lon)]; five turns of the loop
    write one character, so [5 * Precision] turns are all it takes. *)
Definition Encode (precision : Z) (lat lon : float) : option string :=
  if precision <=? 0 then Some EmptyString
  else encode_loop (5 * Z.to_nat precision) precision lat lon
         {| latRange := lat0; lonRange := lon0; isEven := true;
            bit := 0; idx := 0; geohash := EmptyString |}.

(** The state of [Decode]: the two ranges and [isEven]. *)
Definition DecState : Type := GeoRange * GeoRange * bool.

(** The body of [for i := 4; i >= 0; i--] in [Decode], for one [bit]. *)
Definition decode_bit (st : DecState) (b : Z) : DecState :=
  let '(la, lo, ev) := st in
  if ev then
    let mid := Mid lo in
    if b =? 1 then (la, {| Min := mid; Max := Max lo |}, negb ev)
    else (la, {| Min := Min lo; Max := mid |}, negb ev)
  else
    let mid := Mid la in
    if b =? 1 then ({| Min := mid; Max := Max la |}, lo, negb ev)
    else ({| Min := Min la; Max := mid |}, lo, negb ev).

(** [(idx >> uint(i)) & 1] *)
Definition bit_of (ix i : Z) : Z := Z.land (Z.shiftr ix i) 1.

Definition decode_char (st : DecState) (ix : Z) : DecState :=
  fold_left (fun st i => decode_bit st (bit_of ix i)) [4; 3; 2; 1; 0] st.

Fixpoint decode_loop (s : string) (st : DecState) : DecState :=
  match s with
  | EmptyString => st
  | String ch s' =>
      let ix := IndexRune Base32Charset ch in
      if ix =? -1 then decode_loop s' st else decode_loop s' (decode_char st ix)
  end.

(** [Decode(geohash)] returns [(latitude, longitude)]. *)
Definition Decode (s : string) : float * float :=
  let '(la, lo, _) := decode_loop s (lat0, lon0, true) in (Mid la, Mid lo).

Definition CharToBits (ch : ascii) : string :=
  let ix := IndexRune Base32Charset ch in
  let ix := if ix =? -1 then 0 else ix in
  fold_left (fun bits i =>
               String.append bits (if bit_of ix i =? 1 then "1"%string else "0"%string))
            [4; 3; 2; 1; 0] EmptyString.

(** [for _, ch := range geohash { binary.WriteString(CharToBits(ch)) }], over
    the characters of an ASCII string. *)
Fixpoint ToBinary (s : string) : string :=
  match s with
  | EmptyString => EmptyString
  | String ch s' => String.append (CharToBits ch) (ToBinary s')
  end.

(** *** The XOR distance and the bucket index *)

(** A [uint] is 64 bits wide: sums and shifts are taken modulo [2 ^ 64], so
    [1 << s] is [0] from [s = 64] on. *)
Definition uint_wrap (z : Z) : Z := z mod 2 ^ 64.
Definition shl_uint (x s : Z) : Z := uint_wrap (Z.shiftl x s).

Definition XorDistance (binaryA binaryB : string) : Z :=
  let maxLen := Z.min (slen binaryA) (slen binaryB) in
  fold_left
    (fun distance i =>
       if decide (byte_at binaryA i = byte_at binaryB i) then distance
       else uint_wrap (distance + shl_uint 1 (maxLen - i - 1)))
    (range 0 maxLen) 0.

(** [for dist > 0 { dist >>= 1; idx++ }]: a turn drops the lowest bit of a
    positive [dist]. *)
Fixpoint shift_out (dist : positive) (idx : Z) : Z :=
  match dist with
  | xH => idx + 1
  | xO d | xI d => shift_out d (idx + 1)
  end.

Definition GetGeoBucketIndex (hashA hashB : string) (totalBits : Z) : Z :=
  let binaryA := ToBinary hashA in
  let binaryB := ToBinary hashB in
  let dist := XorDistance binaryA binaryB in
  if dist =? 0 then 0
  else match dist with
       | Z.pos d => shift_out d 0
       | _ => 0
       end.

(** [for i := 0; i < minLen; i++ { if a[i] != b[i] { return i } }; return -1] *)
Definition FirstDiffBitPos (aBin bBin : string) : Z :=
  let minLen := Z.min (slen aBin) (slen bBin) in
  default (-1)
    (List.find (fun i => bool_decide (byte_at aBin i <> byte_at bBin i)) (range 0 minLen)).

(** *** The k-ary tree *)

(** An [int] is 64 bits wide: products and sums are taken modulo [2 ^ 64]
    into the range from [- 2 ^ 63] to [2 ^ 63 - 1]. *)
Definition int_wrap (z : Z) : Z := (z + 2 ^ 63) mod 2 ^ 64 - 2 ^ 63.

(** The most bytes [make] asks the allocator for ([maxAlloc] of the Go
    runtime on amd64). *)
Definition maxAlloc : Z := 2 ^ 48.

(** [make([]int, 0, k)] panics for a negative [k] and for a [k] whose
    [8 * k] bytes exceed [maxAlloc]; [nodeIdx*k + i] is a product and a sum
    of [int]s. *)
Definition ComputeKaryChildren (nodeIdx totalNodes k : Z) : option (list Z) :=
  if decide (0 <= k /\ 8 * k <= maxAlloc) then
    Some (fold_left
            (fun children i =>
               let childIdx := int_wrap (int_wrap (nodeIdx * k) + i) in
               if childIdx <? totalNodes then children ++ [childIdx] else children)
            (range 1 (k + 1)) [])
  else None.

(** *** Filling the k-buckets *)

(** [kBuckets[node][bucket]] of every node. *)
Definition KBucketTable : Type := list (list (list Z)).

Definition InitializeKBuckets (n totalBits : Z) : option KBucketTable :=
  if decide (0 <= n) then
    if decide (n = 0 \/ 0 <= totalBits + 1) then
      Some (replicate (Z.to_nat n) (replicate (Z.to_nat (totalBits + 1)) []))
    else None
  else None.

(** [kBuckets[i][b] = append(kBuckets[i][b], x)] *)
Definition append_to (kBuckets : KBucketTable) (i b x : Z) : option KBucketTable :=
  row ← at_ kBuckets i;
  bkt ← at_ row b;
  Some (set_at kBuckets i (set_at row b (bkt ++ [x]))).

(** The groups are visited in the order of [map_to_list]; Go leaves the order
    of a map's iteration open, and the groups write to different nodes. *)
Definition FillK0Bucket (kBuckets : KBucketTable) (geohashGroups : gmap string (list Z))
    : option (KBucketTable * Z) :=
  for_each
    (fun st (g : string * list Z) =>
       let group := g.2 in
       if 1 <? len group then
         for_each
           (fun st i =>
              for_each
                (fun '(kb, pairCount) j =>
                   if i =? j then Some (kb, pairCount)
                   else
                     gi ← at_ group i;
                     gj ← at_ group j;
                     kb' ← append_to kb gi 0 gj;
                     Some (kb', pairCount + 1))
                (range 0 (len group)) st)
           (range 0 (len group)) st
       else Some st)
    (map_to_list geohashGroups) (kBuckets, 0).

Definition DedupIntsStable (xs : list Z) : list Z :=
  if len xs <=? 1 then xs
  else
    (fold_left
       (fun '(seen, out) v =>
          if decide (v ∈ seen) then (seen, out)
          else ({[v]} ∪ seen, out ++ [v]))
       xs ((∅ : gset Z), [])).2.

(** [struct { dist float64; id int }] *)
Definition cand : Type := float * Z.

(** The first differing position as [FillOtherKBuckets] computes it in
    place: [diffPos := -1; for b := 0; b < minLen; b++ { if binI[b] !=
    binJ[b] { diffPos = b; break } }]. *)
Definition diff_pos (binI binJ : string) : Z :=
  let minLen := Z.min (slen binI) (slen binJ) in
  default (-1)
    (List.find (fun b => bool_decide (byte_at binI b <> byte_at binJ b)) (range 0 minLen)).

(** The body of the inner loop over [j]; [row] is [kBuckets[i]]. *)
Definition scan_body `{MathLib} (nodeGeohashBinary : list string)
    (coords : list LatLonCoordinate) (bucketSize totalBits i : Z) (binI : string)
    (st : list (list Z) * list cand * Z) (j : Z)
    : option (list (list Z) * list cand * Z) :=
  let '(row, candidates, connections) := st in
  if i =? j then Some st
  else
    binJ ← at_ nodeGeohashBinary j;
    let diffPos := diff_pos binI binJ in
    if diffPos =? -1 then Some st
    else
      let calcBucketIdx := totalBits - diffPos in
      if (1 <=? calcBucketIdx) && (calcBucketIdx <=? totalBits) then
        bkt ← at_ row calcBucketIdx;
        if len bkt <? bucketSize then
          ci ← at_ coords i;
          cj ← at_ coords j;
          let dist := Distance ci cj in
          Some (set_at row calcBucketIdx (bkt ++ [j]),
                candidates ++ [(dist, j)], connections + 1)
        else Some st
      else Some st.

(** [if candidates[a].dist > candidates[b].dist { swap }] *)
Definition sort_swap (cs : list cand) (a b : Z) : option (list cand) :=
  ca ← at_ cs a;
  cb ← at_ cs b;
  if fgt ca.1 cb.1 then Some (set_at (set_at cs a cb) b ca) else Some cs.

Definition sort_candidates (cs : list cand) : option (list cand) :=
  for_each
    (fun cs a => for_each (fun cs b => sort_swap cs a b) (range (a + 1) (len cs)) cs)
    (range 0 (len cs - 1)) cs.

(** The second write: the first [limit] candidates go to the bucket of the
    outer loop. *)
Definition second_write (row : list (list Z)) (bucketIdx : Z) (candidates : list cand)
    (bucketSize connections : Z) : option (list (list Z) * Z) :=
  let limit := if len candidates <? bucketSize then len candidates else bucketSize in
  for_each
    (fun '(row, connections) c =>
       cd ← at_ candidates c;
       bkt ← at_ row bucketIdx;
       Some (set_at row bucketIdx (bkt ++ [cd.2]), connections + 1))
    (range 0 limit) (row, connections).

(** One turn of the loop over [bucketIdx]. *)
Definition fill_bucket `{MathLib} (nodeGeohashBinary : list string)
    (coords : list LatLonCoordinate) (bucketSize totalBits i : Z) (binI : string)
    (st : list (list Z) * Z) (bucketIdx : Z) : option (list (list Z) * Z) :=
  let '(row, connections) := st in
  bkt ← at_ row bucketIdx;
  if bucketSize <=? len bkt then Some st
  else
    '(row, candidates, connections) ←
      for_each (scan_body nodeGeohashBinary coords bucketSize totalBits i binI)
               (range 0 (len nodeGeohashBinary)) (row, [], connections);
    candidates ← sort_candidates candidates;
    second_write row bucketIdx candidates bucketSize connections.

(** [for b := 0; b <= totalBits; b++ { row[b] = DedupIntsStable(row[b]) }] *)
Definition dedup_row (totalBits : Z) (row : list (list Z)) : option (list (list Z)) :=
  for_each (fun row b => bkt ← at_ row b; Some (set_at row b (DedupIntsStable bkt)))
           (range 0 (totalBits + 1)) row.

(** One turn of the loop over the node [i]; nothing of [kBuckets[i]] is read
    when [totalBits] is negative. *)
Definition fill_node `{MathLib} (nodeGeohashBinary : list string)
    (coords : list LatLonCoordinate) (bucketSize totalBits : Z)
    (st : KBucketTable * Z) (i : Z) : option (KBucketTable * Z) :=
  let '(kBuckets, connections) := st in
  if totalBits <? 0 then Some st
  else
    binI ← at_ nodeGeohashBinary i;
    row ← at_ kBuckets i;
    '(row, connections) ←
      for_each (fill_bucket nodeGeohashBinary coords bucketSize totalBits i binI)
               (range 1 (totalBits + 1)) (row, connections);
    row ← dedup_row totalBits row;
    Some (set_at kBuckets i row, connections).

Definition FillOtherKBuckets `{MathLib} (kBuckets : KBucketTable)
    (nodeGeohashBinary : list string) (coords : list LatLonCoordinate)
    (bucketSize totalBits : Z) : option (KBucketTable * Z) :=
  for_each (fill_node nodeGeohashBinary coords bucketSize totalBits)
           (range 0 (len nodeGeohashBinary)) (kBuckets, 0).

(** ** Messages and the algorithm interface *)

Record Message := {
  Root : Z;
  Src : Z;
  Dst : Z;
  Step : Z;
  SendTime : float;
  RecvTime : float
}.

Definition NewMessage (root src dst step : Z) (sendTime recvTime : float) : Message :=
  {| Root := root; Src := src; Dst := dst; Step := step;
     SendTime := sendTime; RecvTime := recvTime |}.

(** The interface [Algorithm]; [Respond] may change the state of the
    algorithm and may panic. *)
Class Algorithm (S : Type) := {
  Respond : S -> Message -> option (list Z * S);
  SetRoot : S -> Z -> S;
  GetAlgoName : S -> string;
  NeedSpecifiedRoot : S -> bool
}.

(** [for _, v := range xs { if v != src { relay = append(relay, v) } }] *)
Definition append_except (relay xs : list Z) (src : Z) : list Z :=
  relay ++ filter (fun v => v <> src) xs.

(** *** [BaseAlgorithm]: the default implementation over a graph *)

Record BaseAlgorithm := {
  BaseName : string;
  SpecifiedRoot : bool;
  BaseGraph : Graph.t;
  BaseCoords : list LatLonCoordinate;
  BaseRoot : Z
}.

#[export] Instance BaseAlgorithm_Algorithm : Algorithm BaseAlgorithm := {
  Respond ba msg :=
    nbU ← Graph.Outbound (BaseGraph ba) (Dst msg);
    Some (append_except [] nbU (Src msg), ba);
  SetRoot ba root :=
    {| BaseName := BaseName ba; SpecifiedRoot := SpecifiedRoot ba;
       BaseGraph := BaseGraph ba; BaseCoords := BaseCoords ba; BaseRoot := root |};
  GetAlgoName ba := BaseName ba;
  NeedSpecifiedRoot ba := SpecifiedRoot ba
}.

(** ** Mercator *)

Record KaryMessage := { RootNode : Z; IsKary : bool }.

Module Mercator.

(** The fields of [Mercator] that its methods read or write; the prefix
    tree, which only the disabled XOR-anchor phase reads, is left out.
    [KaryMsgInfo] holds one record per node: [NewMercator] allocates them
    apart, so the pointers of the Go slice alias nothing. *)
Record t := mk {
  Graph : Graph.t;
  Coords : list LatLonCoordinate;
  DisplayCoords : list LatLonCoordinate;
  NodeGeohash : list string;
  NodeGeohashBin : list string;
  KBuckets : KBucketTable;
  GeohashGroups : gmap string (list Z);
  TreeRoot : Z;
  Visited : list (list bool);
  GeoPrec : Z;
  BucketSize : Z;
  K0Threshold : Z;
  KaryFactor : Z;
  TotalBits : Z;
  KaryMsgInfo : list KaryMessage
}.

Definition with_Visited (m : t) (v : list (list bool)) : t :=
  mk (Graph m) (Coords m) (DisplayCoords m) (NodeGeohash m) (NodeGeohashBin m)
     (KBuckets m) (GeohashGroups m) (TreeRoot m) v (GeoPrec m) (BucketSize m)
     (K0Threshold m) (KaryFactor m) (TotalBits m) (KaryMsgInfo m).

Definition with_KaryMsgInfo (m : t) (k : list KaryMessage) : t :=
  mk (Graph m) (Coords m) (DisplayCoords m) (NodeGeohash m) (NodeGeohashBin m)
     (KBuckets m) (GeohashGroups m) (TreeRoot m) (Visited m) (GeoPrec m) (BucketSize m)
     (K0Threshold m) (KaryFactor m) (TotalBits m) k.

Definition with_GeohashGroups (m : t) (g : gmap string (list Z)) : t :=
  mk (Graph m) (Coords m) (DisplayCoords m) (NodeGeohash m) (NodeGeohashBin m)
     (KBuckets m) g (TreeRoot m) (Visited m) (GeoPrec m) (BucketSize m)
     (K0Threshold m) (KaryFactor m) (TotalBits m) (KaryMsgInfo m).

Definition with_TreeRoot (m : t) (root : Z) : t :=
  mk (Graph m) (Coords m) (DisplayCoords m) (NodeGeohash m) (NodeGeohashBin m)
     (KBuckets m) (GeohashGroups m) root (Visited m) (GeoPrec m) (BucketSize m)
     (K0Threshold m) (KaryFactor m) (TotalBits m) (KaryMsgInfo m).

(** [for j := 0; j < len(row); j++ { row[j] = false }] *)
Definition reset_row (row : list bool) : list bool :=
  fold_left (fun row j => set_at row j false) (range 0 (len row)) row.

Definition ResetVisited (m : t) : t :=
  let visited :=
    fold_left
      (fun vis i => match at_ vis i with
                    | Some row => set_at vis i (reset_row row)
                    | None => vis
                    end)
      (range 0 (len (Visited m))) (Visited m) in
  let kary :=
    fold_left (fun ks i => set_at ks i {| RootNode := -1; IsKary := false |})
              (range 0 (len (KaryMsgInfo m))) (KaryMsgInfo m) in
  with_KaryMsgInfo (with_Visited m visited) kary.

Definition SetRoot (m : t) (root : Z) : t := ResetVisited (with_TreeRoot m root).

(** [sort.Ints]: the ascending arrangement of the slice. *)
Definition sort_Ints (xs : list Z) : list Z := merge_sort Z.le xs.

(** [uIdx := -1; for idx, node := range same { if node == u { uIdx = idx; break } }] *)
Definition position (same : list Z) (u : Z) : Z :=
  match Graph.index_of same u with
  | Some i => Z.of_nat i
  | None => -1
  end.

(** The k-ary forwarding inside the group of the Geohash of [root], which
    [Respond] spells out three times: from the source and from a relay with
    [root = u], and along a k-ary tree with [root = karyRoot].  [sort.Ints]
    sorts the slice the map holds, in place. *)
Definition kary_forward (m : t) (u src root : Z) (relayNodes : list Z)
    : option (list Z * t) :=
  h ← at_ (NodeGeohash m) root;
  let same := sort_Ints (default [] (GeohashGroups m !! h)) in
  let m := match GeohashGroups m !! h with
           | Some _ => with_GeohashGroups m (<[h := same]> (GeohashGroups m))
           | None => m
           end in
  let uIdx := position same u in
  if uIdx =? -1 then Some (relayNodes, m)
  else
    children ← ComputeKaryChildren uIdx (len same) (KaryFactor m);
    for_each
      (fun '(relay, m) childIdx =>
         if childIdx <? len same then
           v ← at_ same childIdx;
           if decide (v <> src) then
             _ ← at_ (KaryMsgInfo m) v;
             Some (relay ++ [v],
                   with_KaryMsgInfo m
                     (set_at (KaryMsgInfo m) v {| RootNode := root; IsKary := true |}))
           else Some (relay, m)
         else Some (relay, m))
      children (relayNodes, m).

(** The handling of bucket 0: flooding up to the threshold, the k-ary tree
    above it. *)
Definition k0_forward (m : t) (u src : Z) (relayNodes : list Z) : option (list Z * t) :=
  row ← at_ (KBuckets m) u;
  k0 ← at_ row 0;
  if len k0 <=? K0Threshold m then Some (append_except relayNodes k0 src, m)
  else kary_forward m u src u relayNodes.

(** [for bucketIdx := 1; bucketIdx < hi; bucketIdx++ { ... }] over
    [m.KBuckets[u]]. *)
Definition outer_forward (m : t) (u src hi : Z) (relayNodes : list Z) : option (list Z) :=
  for_each
    (fun relay bucketIdx =>
       row ← at_ (KBuckets m) u;
       bkt ← at_ row bucketIdx;
       Some (append_except relay bkt src))
    (range 1 hi) relayNodes.

Definition Respond (m : t) (msg : Message) : option (list Z * t) :=
  let u := Dst msg in
  row ← at_ (Visited m) u;
  seen ← at_ row (Step msg);
  if (seen : bool) then Some ([], m)
  else
    let m := with_Visited m (set_at (Visited m) u (set_at row (Step msg) true)) in
    if Step msg =? 0 then
      '(relay, m) ← k0_forward m u (Src msg) [];
      row ← at_ (KBuckets m) u;
      relay ← outer_forward m u (Src msg) (len row) relay;
      Some (relay, m)
    else
      hu ← at_ (NodeGeohash m) u;
      hs ← at_ (NodeGeohash m) (Src msg);
      let srcBucket := GetGeoBucketIndex hu hs (TotalBits m) in
      info ← at_ (KaryMsgInfo m) u;
      '(relay, m) ←
        (if IsKary info then kary_forward m u (Src msg) (RootNode info) []
         else if 0 <? srcBucket then k0_forward m u (Src msg) []
         else Some ([], m));
      relay ← outer_forward m u (Src msg) srcBucket relay;
      Some (relay, m).

End Mercator.

#[export] Instance Mercator_Algorithm : Algorithm Mercator.t := {
  Respond := Mercator.Respond;
  SetRoot := Mercator.SetRoot;
  GetAlgoName _ := "mercator"%string;
  NeedSpecifiedRoot _ := false
}.

(** ** Vivaldi ([vivaldi.go]) *)

Definition VivaldiCc : float := 0.25%float.
Definition VivaldiCe : float := 0.5%float.
Definition VivaldiMinError : float := 0.01%float.

Record VivaldiCoordinate := {
  Vector : list float;
  Height : float;
  Error : float
}.

Record VivaldiModel := {
  NodeID : Z;
  LocalCoord : VivaldiCoordinate;
  RandomPeerSet : list Z;
  HaveEnoughPeer : bool
}.

Definition DistanceEuclidean (a b : list float) : float :=
  if decide (length a = length b) then
    let sum :=
      fold_left (fun sum (p : float * float) =>
                   let diff := (p.1 - p.2)%float in (sum + diff * diff)%float)
                (zip a b) 0%float in
    PrimFloat.sqrt sum
  else 0%float.

Definition DistanceVivaldi (a b : VivaldiCoordinate) : float :=
  let euclidean := DistanceEuclidean (Vector a) (Vector b) in
  (euclidean + Height a + Height b)%float.

(** [for i := 0; i < len(local); i++ { direction := local[i] - peer[i];
    local[i] += force * direction / predictedRTT }]; [peer[i]] panics when
    the peer's vector is the shorter one. *)
Definition move_vector (local peer : list float) (force predictedRTT : float)
    : option (list float) :=
  for_each
    (fun vec i =>
       x ← at_ vec i;
       y ← at_ peer i;
       let direction := (x - y)%float in
       Some (set_at vec i (x + force * direction / predictedRTT)%float))
    (range 0 (len local)) local.

Definition Observe (vm : VivaldiModel) (peerID : Z) (peerCoord : VivaldiCoordinate)
    (rtt : float) : option VivaldiModel :=
  let lc := LocalCoord vm in
  let predictedRTT := DistanceVivaldi lc peerCoord in
  let relativeError := (abs (predictedRTT - rtt) / rtt)%float in
  let relativeError := if PrimFloat.ltb rtt 1e-6 then 0%float else relativeError in
  let localError := Error lc in
  let peerError := Error peerCoord in
  let weight := (localError / (localError + peerError))%float in
  let weight := if fgt weight 1 then 1%float else weight in
  let weight := if PrimFloat.ltb weight 0 then 0%float else weight in
  let error := (relativeError * VivaldiCe * weight
                + localError * (1 - VivaldiCe * weight))%float in
  let error := if PrimFloat.ltb error VivaldiMinError then VivaldiMinError else error in
  let delta := (VivaldiCc * weight)%float in
  let delta := if fgt delta 1 then 1%float else delta in
  let force := (delta * (rtt - predictedRTT))%float in
  vector ← (if fgt predictedRTT 1e-6
            then move_vector (Vector lc) (Vector peerCoord) force predictedRTT
            else Some (Vector lc));
  let heightDiff := (Height lc - Height peerCoord)%float in
  let height :=
    if fgt (abs heightDiff) 1e-6
    then (Height lc + force * heightDiff / abs heightDiff)%float
    else Height lc in
  let height := if PrimFloat.ltb height 0 then 0%float else height in
  Some {| NodeID := NodeID vm;
          LocalCoord := {| Vector := vector; Height := height; Error := error |};
          RandomPeerSet := RandomPeerSet vm;
          HaveEnoughPeer := HaveEnoughPeer vm |}.

(** ** The message queue: [container/heap] over [MessageQueue] *)

Definition MessageQueue : Type := list Message.

(** [mq.Less(i, j)]: [mq[i].RecvTime < mq[j].RecvTime]. *)
Definition Less (mq : MessageQueue) (i j : Z) : option bool :=
  a ← at_ mq i;
  b ← at_ mq j;
  Some (PrimFloat.ltb (RecvTime a) (RecvTime b)).

Definition Swap (mq : MessageQueue) (i j : Z) : option MessageQueue :=
  a ← at_ mq i;
  b ← at_ mq j;
  Some (set_at (set_at mq i b) j a).

(** [heap.up]: [for { i := (j - 1) / 2; if i == j || !h.Less(j, i) { break };
    h.Swap(i, j); j = i }]; the division truncates towards zero. *)
Fixpoint heap_up (fuel : nat) (mq : MessageQueue) (j : Z) : option MessageQueue :=
  let i := Z.quot (j - 1) 2 in
  if i =? j then Some mq
  else
    lt ← Less mq j i;
    if negb lt then Some mq
    else match fuel with
         | O => None
         | S fuel' => mq' ← Swap mq i j; heap_up fuel' mq' i
         end.

(** [heap.down] from [i] over the first [n] elements. *)
Fixpoint heap_down (fuel : nat) (mq : MessageQueue) (i n : Z) : option MessageQueue :=
  let j1 := 2 * i + 1 in
  if (n <=? j1) || (j1 <? 0) then Some mq
  else
    let j2 := j1 + 1 in
    right ← (if j2 <? n then Less mq j2 j1 else Some false);
    let j := if (right : bool) then j2 else j1 in
    lt ← Less mq j i;
    if negb lt then Some mq
    else match fuel with
         | O => None
         | S fuel' => mq' ← Swap mq i j; heap_down fuel' mq' j n
         end.

(** [pq.Push(msg)]: append, then sift up; the walk to the top of the heap is
    shorter than the queue. *)
Definition Push (mq : MessageQueue) (msg : Message) : option MessageQueue :=
  let mq := mq ++ [msg] in
  heap_up (length mq) mq (len mq - 1).

(** [pq.Pop()] on a queue that is not empty: the first element changes
    places with the last, the heap is restored below it and the last element
    is taken off. *)
Definition Pop (mq : MessageQueue) : option (Message * MessageQueue) :=
  let n := len mq - 1 in
  mq ← Swap mq 0 n;
  mq ← heap_down (length mq) mq 0 n;
  msg ← last mq;
  Some (msg, take (length mq - 1) mq).

Definition Empty (mq : MessageQueue) : bool := len mq =? 0.

(** ** The simulator *)

Record SimulatorConfig := { Bandwidth : float; DataSize : float; MaxNodes : Z }.

Record TestResult := {
  AvgBandwidth : float;
  AvgLatency : float;
  Latency : list float;
  DepthCDF : list float;
  AvgDist : list float;
  ClusterAvgLatency : list float;
  ClusterAvgDepth : list float;
  SuccessChildren : list (list Z)
}.

Definition NewTestResult (n : Z) : TestResult :=
  {| AvgBandwidth := 0; AvgLatency := 0;
     Latency := replicate 21 0%float;
     DepthCDF := replicate (Z.to_nat MaxDepth) 0%float;
     AvgDist := replicate (Z.to_nat MaxDepth) 0%float;
     ClusterAvgLatency := replicate (Z.to_nat K) 0%float;
     ClusterAvgDepth := replicate (Z.to_nat K) 0%float;
     SuccessChildren := replicate (Z.to_nat n) [] |}.

Record ClusterResult := {
  ClusterK : Z;
  ClusterID : list Z;
  ClusterList : list (list Z);
  ClusterCnt : list Z
}.

(** The variables of one repetition of [SingleRootSimulation], with the
    algorithm and the generator, which the loop changes as it goes. *)
Record SimState {S : Type} `{RandLib} := {
  recvFlag : list bool;
  recvTime : list float;
  recvDist : list float;
  recvParent : list Z;
  depth : list Z;
  recvList : list Z;
  dupMsg : Z;
  successChildren : list (list Z);
  msgQueue : MessageQueue;
  algo : S;
  gen : rng
}.
Arguments SimState S {_}.

(** The messages of one relay list: [for _, v := range relayList { ... }]. *)
Definition relay_message `{MathLib} (root u : Z) (msg : Message) (recvTimeU delayTime : float)
    (coords : list LatLonCoordinate) (config : SimulatorConfig) (v : Z) : option Message :=
  dist ← CalculatePropagationDelay u v coords (Bandwidth config) (DataSize config);
  Some (NewMessage root u v (Step msg + 1)
          (recvTimeU + delayTime)%float (recvTimeU + dist + delayTime)%float).

Definition send_all `{MathLib} (root u : Z) (msg : Message) (recvTimeU delayTime : float)
    (coords : list LatLonCoordinate) (config : SimulatorConfig)
    (relayList : list Z) (mq : MessageQueue) : option MessageQueue :=
  for_each
    (fun mq v =>
       newMsg ← relay_message root u msg recvTimeU delayTime coords config v;
       Push mq newMsg)
    relayList mq.

(** One turn of [for !msgQueue.Empty() { ... }]. *)
Definition process_message `{MathLib} `{RandLib} {S} `{Algorithm S} (root : Z)
    (coords : list LatLonCoordinate) (malFlags leaveFlags : list bool)
    (config : SimulatorConfig) (st : SimState S) : option (SimState S) :=
  '(msg, mq) ← Pop (msgQueue st);
  let u := Dst msg in
  received ← at_ (recvFlag st) u;
  if (received : bool) then
    Some {| recvFlag := recvFlag st; recvTime := recvTime st; recvDist := recvDist st;
            recvParent := recvParent st; depth := depth st; recvList := recvList st;
            dupMsg := dupMsg st + 1; successChildren := successChildren st;
            msgQueue := mq; algo := algo st; gen := gen st |}
  else
    success ← (if decide (Src msg <> u) then
                 ch ← at_ (successChildren st) (Src msg);
                 Some (set_at (successChildren st) (Src msg) (ch ++ [u]))
               else Some (successChildren st));
    let flag := set_at (recvFlag st) u true in
    let time := set_at (recvTime st) u (RecvTime msg) in
    let dist := set_at (recvDist st) u (RecvTime msg - SendTime msg)%float in
    let parent := set_at (recvParent st) u (Src msg) in
    let nodes := recvList st ++ [u] in
    dep ← (if decide (u <> root) then
             d ← at_ (depth st) (Src msg);
             Some (set_at (depth st) u (d + 1))
           else Some (depth st));
    mal ← at_ malFlags u;
    silent ← (if (mal : bool) then Some true else at_ leaveFlags u);
    if (silent : bool) then
      Some {| recvFlag := flag; recvTime := time; recvDist := dist;
              recvParent := parent; depth := dep; recvList := nodes;
              dupMsg := dupMsg st; successChildren := success;
              msgQueue := mq; algo := algo st; gen := gen st |}
    else
      '(relayList, algo') ← Respond (algo st) msg;
      let delay := CalculateProcessingDelay (gen st) in
      let delayTime := delay.1 in
      let gen' := delay.2 in
      mq ← send_all root u msg (RecvTime msg) delayTime coords config relayList mq;
      Some {| recvFlag := flag; recvTime := time; recvDist := dist;
              recvParent := parent; depth := dep; recvList := nodes;
              dupMsg := dupMsg st; successChildren := success;
              msgQueue := mq; algo := algo'; gen := gen' |}.

(** [for !msgQueue.Empty() { ... }]; [None] also when [fuel] turns do not
    empty the queue. *)
Fixpoint event_loop `{MathLib} `{RandLib} {S} `{Algorithm S} (fuel : nat) (root : Z)
    (coords : list LatLonCoordinate) (malFlags leaveFlags : list bool)
    (config : SimulatorConfig) (st : SimState S) : option (SimState S) :=
  if Empty (msgQueue st) then Some st
  else match fuel with
       | O => None
       | S fuel' =>
           st' ← process_message root coords malFlags leaveFlags config st;
           event_loop fuel' root coords malFlags leaveFlags config st'
       end.

(** *** The statistics of one repetition *)

(** The variables the loop over the nodes updates. *)
Record Tally := {
  t_recvTime : list float;
  t_recvList : list Z;
  t_depth : list Z;
  t_recvCount : Z;
  t_avgLatency : float;
  t_clusterRecvCount : list Z;
  t_clusterAvgDepth : list float;
  t_clusterAvgLatency : list float
}.

(** [xs[i] += x] *)
Definition add_at (xs : list float) (i : Z) (x : float) : option (list float) :=
  y ← at_ xs i; Some (set_at xs i (y + x)%float).

(** [xs[i] /= x] *)
Definition div_at (xs : list float) (i : Z) (x : float) : option (list float) :=
  y ← at_ xs i; Some (set_at xs i (y / x)%float).

(** [xs[i]++] *)
Definition incr_at (xs : list Z) (i : Z) : option (list Z) :=
  y ← at_ xs i; Some (set_at xs i (y + 1)).

(** The body of [for i := 0; i < n; i++] after the event loop. *)
Definition tally_node (flags malFlags leaveFlags : list bool)
    (clusterResult : option ClusterResult) (t : Tally) (i : Z) : option Tally :=
  received ← at_ flags i;
  uncovered ← (if (received : bool) then Some false
               else
                 mal ← at_ malFlags i;
                 if (mal : bool) then Some false
                 else leave ← at_ leaveFlags i; Some (negb leave));
  if (uncovered : bool) then
    _ ← at_ (t_recvTime t) i;
    _ ← at_ (t_depth t) i;
    Some {| t_recvTime := set_at (t_recvTime t) i inf;
            t_recvList := t_recvList t ++ [i];
            t_depth := set_at (t_depth t) i (MaxDepth - 1);
            t_recvCount := t_recvCount t;
            t_avgLatency := t_avgLatency t;
            t_clusterRecvCount := t_clusterRecvCount t;
            t_clusterAvgDepth := t_clusterAvgDepth t;
            t_clusterAvgLatency := t_clusterAvgLatency t |}
  else if (received : bool) then
    time ← at_ (t_recvTime t) i;
    '(cnt, cdepth, clat) ←
      match clusterResult with
      | Some cr =>
          c ← at_ (ClusterID cr) i;
          if (0 <=? c) && (c <? K) then
            cnt ← incr_at (t_clusterRecvCount t) c;
            d ← at_ (t_depth t) i;
            cdepth ← add_at (t_clusterAvgDepth t) c (float_of_int d);
            clat ← add_at (t_clusterAvgLatency t) c time;
            Some (cnt, cdepth, clat)
          else Some (t_clusterRecvCount t, t_clusterAvgDepth t, t_clusterAvgLatency t)
      | None => Some (t_clusterRecvCount t, t_clusterAvgDepth t, t_clusterAvgLatency t)
      end;
    Some {| t_recvTime := t_recvTime t;
            t_recvList := t_recvList t;
            t_depth := t_depth t;
            t_recvCount := t_recvCount t + 1;
            t_avgLatency := (t_avgLatency t + time)%float;
            t_clusterRecvCount := cnt;
            t_clusterAvgDepth := cdepth;
            t_clusterAvgLatency := clat |}
  else Some t.

Definition tally_nodes (n : Z) (flags malFlags leaveFlags : list bool)
    (clusterResult : option ClusterResult) (t : Tally) : option Tally :=
  for_each (tally_node flags malFlags leaveFlags clusterResult) (range 0 n) t.

(** [for c := 0; c < K; c++ { if clusterRecvCount[c] > 0 { ... } }] *)
Definition cluster_averages (counts : list Z) (cdepth clat : list float)
    : option (list float * list float) :=
  for_each
    (fun '(cdepth, clat) c =>
       k ← at_ counts c;
       if 0 <? k then
         cdepth ← div_at cdepth c (float_of_int k);
         clat ← div_at clat c (float_of_int k);
         Some (cdepth, clat)
       else Some (cdepth, clat))
    (range 0 K) (cdepth, clat).

(** [for _, u := range recvList { d := depth[u]; if d >= 0 && d < MaxDepth
    { DepthCDF[d] += 1; AvgDist[d] += recvDist[u]; depthCnt[d]++ } }] *)
Definition depth_stats (nodes : list Z) (dep : list Z) (dist : list float)
    (st : list float * list float * list Z) : option (list float * list float * list Z) :=
  for_each
    (fun '(cdf, avg, depthCnt) u =>
       d ← at_ dep u;
       if (0 <=? d) && (d <? MaxDepth) then
         cdf ← add_at cdf d 1;
         x ← at_ dist u;
         avg ← add_at avg d x;
         depthCnt ← incr_at depthCnt d;
         Some (cdf, avg, depthCnt)
       else Some (cdf, avg, depthCnt))
    nodes st.

(** [for i := 0; i < MaxDepth; i++ { DepthCDF[i] /= float64(nonMalNode); if
    depthCnt[i] > 0 { AvgDist[i] /= float64(depthCnt[i]) } }] *)
Definition normalise (nonMalNode : Z) (depthCnt : list Z) (st : list float * list float)
    : option (list float * list float) :=
  for_each
    (fun '(cdf, avg) i =>
       cdf ← div_at cdf i (float_of_int nonMalNode);
       k ← at_ depthCnt i;
       if 0 <? k then avg ← div_at avg i (float_of_int k); Some (cdf, avg)
       else Some (cdf, avg))
    (range 0 MaxDepth) st.

(** [sort.Slice(recvList, func(i, j) { return recvTime[recvList[i]] <
    recvTime[recvList[j]] })]: the nodes with their times, arranged so that
    no node is before one it is not less than.  The percentiles read the
    times only, on which all such arrangements of numbers agree. *)
Fixpoint insert_by_time (x : float * Z) (xs : list (float * Z)) : list (float * Z) :=
  match xs with
  | [] => [x]
  | y :: xs' => if PrimFloat.ltb x.1 y.1 then x :: xs else y :: insert_by_time x xs'
  end.

Definition sort_by_time (times : list float) (nodes : list Z) : option (list Z) :=
  keyed ← mapM (fun u => t ← at_ times u; Some (t, u)) nodes;
  Some (map snd (foldr insert_by_time [] keyed)).

(** [cnt := 0; for pct := 0.05; pct <= 1.0; pct += 0.05 { ... cnt++ }] *)
Fixpoint percentiles (fuel : nat) (pct : float) (cnt nonMalNode : Z)
    (times : list float) (nodes : list Z) (latency : list float) : option (list float) :=
  if PrimFloat.leb pct 1 then
    match fuel with
    | O => None
    | S fuel' =>
        let idx := int_of_float (float_of_int nonMalNode * pct) in
        let idx := if nonMalNode <=? idx then nonMalNode - 1 else idx in
        u ← at_ nodes idx;
        t ← at_ times u;
        latency ← add_at latency cnt t;
        percentiles fuel' (pct + 0.05)%float (cnt + 1) nonMalNode times nodes latency
    end
  else Some latency.

(** The variables of a repetition before its event loop. *)
Definition init_state `{RandLib} {S} (n : Z) (success : list (list Z)) (a : S) (g : rng)
    (mq : MessageQueue) : SimState S :=
  let zeros := Z.to_nat n in
  {| recvFlag := replicate zeros false;
     recvTime := replicate zeros 0%float;
     recvDist := replicate zeros 0%float;
     recvParent := replicate zeros (-1);
     depth := replicate zeros 0;
     recvList := [];
     dupMsg := 0;
     successChildren := success;
     msgQueue := mq;
     algo := a;
     gen := g |}.

(** [float64(dupMsg+nonMalNode) / float64(nonMalNode)] *)
Definition bandwidth_ratio (dupMsg nonMalNode : Z) : float :=
  (float_of_int (dupMsg + nonMalNode) / float_of_int nonMalNode)%float.

(** The variables of the loop over the nodes when it starts: [clusterRecvCount
    := make([]int, K); recvCount := 0; avgLatency := 0.0]. *)
Definition initial_tally `{RandLib} {S} (result : TestResult) (st : SimState S) : Tally :=
  {| t_recvTime := recvTime st;
     t_recvList := recvList st;
     t_depth := depth st;
     t_recvCount := 0;
     t_avgLatency := 0;
     t_clusterRecvCount := replicate (Z.to_nat K) 0;
     t_clusterAvgDepth := ClusterAvgDepth result;
     t_clusterAvgLatency := ClusterAvgLatency result |}.

(** The statistics of a repetition, from the state its event loop ends in. *)
Definition statistics `{RandLib} {S} (n : Z) (malFlags leaveFlags : list bool)
    (clusterResult : option ClusterResult) (result : TestResult) (st : SimState S)
    : option TestResult :=
  t ← tally_nodes n (recvFlag st) malFlags leaveFlags clusterResult (initial_tally result st);
  let avgLatency :=
    if 0 <? t_recvCount t then (t_avgLatency t / float_of_int (t_recvCount t))%float
    else t_avgLatency t in
  '(cdepth, clat) ←
    match clusterResult with
    | Some _ => cluster_averages (t_clusterRecvCount t)
                  (t_clusterAvgDepth t) (t_clusterAvgLatency t)
    | None => Some (t_clusterAvgDepth t, t_clusterAvgLatency t)
    end;
  let nonMalNode := len (t_recvList t) in
  let bandwidth := (AvgBandwidth result + bandwidth_ratio (dupMsg st) nonMalNode)%float in
  '(cdf, avg, depthCnt) ←
    depth_stats (t_recvList t) (t_depth t) (recvDist st)
      (DepthCDF result, AvgDist result, replicate (Z.to_nat MaxDepth) 0);
  '(cdf, avg) ← normalise nonMalNode depthCnt (cdf, avg);
  sorted ← sort_by_time (t_recvTime t) (t_recvList t);
  latency ← percentiles 32 0.05 0 nonMalNode (t_recvTime t) sorted (Latency result);
  Some {| AvgBandwidth := bandwidth;
          AvgLatency := avgLatency;
          Latency := latency;
          DepthCDF := cdf;
          AvgDist := avg;
          ClusterAvgLatency := clat;
          ClusterAvgDepth := cdepth;
          SuccessChildren := successChildren st |}.

(** One turn of [for rept := 0; rept < reptTime; rept++]. *)
Definition repetition `{MathLib} `{RandLib} {S} `{Algorithm S} (fuel : nat) (root : Z)
    (coords : list LatLonCoordinate) (malFlags leaveFlags : list bool)
    (config : SimulatorConfig) (clusterResult : option ClusterResult)
    (st : TestResult * list (list Z) * S * rng) (rept : Z)
    : option (TestResult * list (list Z) * S * rng) :=
  let '(result, success, a, g) := st in
  let n := len coords in
  mq ← Push [] (NewMessage root root root 0 0 0);
  st ← event_loop fuel root coords malFlags leaveFlags config
         (init_state n success a g mq);
  result ← statistics n malFlags leaveFlags clusterResult result st;
  Some (result, successChildren st, algo st, gen st).

(** The averages over the repetitions: [tmp := int(Latency[i] / inf);
    Latency[i] -= float64(tmp) * inf; ...]. *)
Definition average_latency (reptTime : Z) (x : float) : float :=
  let tmp := int_of_float (x / inf) in
  let x := (x - float_of_int tmp * inf)%float in
  let validCount := reptTime - tmp in
  let x := if validCount =? 0 then 0%float else (x / float_of_int validCount)%float in
  if PrimFloat.ltb x 0.1 then inf else x.

Definition SingleRootSimulation `{MathLib} `{RandLib} {S} `{Algorithm S} (fuel : nat)
    (root reptTime : Z) (coords : list LatLonCoordinate) (malFlags leaveFlags : list bool)
    (a : S) (g : rng) (config : SimulatorConfig) (clusterResult : option ClusterResult)
    : option (TestResult * S * rng) :=
  let n := len coords in
  let result := NewTestResult n in
  let success := replicate (Z.to_nat n) [] in
  let a := SetRoot a root in
  '(result, _, a, g) ←
    for_each (repetition fuel root coords malFlags leaveFlags config clusterResult)
             (range 0 reptTime) (result, success, a, g);
  let r := float_of_int reptTime in
  Some ({| AvgBandwidth := (AvgBandwidth result / r)%float;
           AvgLatency := AvgLatency result;
           Latency := map (average_latency reptTime) (Latency result);
           DepthCDF := map (fun x => (x / r)%float) (DepthCDF result);
           AvgDist := AvgDist result;
           ClusterAvgLatency := ClusterAvgLatency result;
           ClusterAvgDepth := ClusterAvgDepth result;
           SuccessChildren := SuccessChildren result |}, a, g).

(** ** The construction of a Mercator overlay *)

(** The first loop of [fillKBuckets]: the Geohash of every node, its binary
    form and the groups of equal Geohash. *)
Definition hash_nodes (geoPrec n : Z) (displayCoords : list LatLonCoordinate)
    : option (list string * list string * gmap string (list Z)) :=
  for_each
    (fun '(hashes, bins, groups) i =>
       c ← at_ displayCoords i;
       h ← Encode geoPrec (Lat c) (Lon c);
       Some (hashes ++ [h], bins ++ [ToBinary h],
             <[h := default [] (groups !! h) ++ [i]]> groups))
    (range 0 n) ([], [], ∅).

(** The last loop of [fillKBuckets]: an edge for every entry of a bucket. *)
Definition connect_buckets (kBuckets : KBucketTable) (n : Z) (g : Graph.t)
    : option (Graph.t * Z) :=
  for_each
    (fun st i =>
       row ← at_ kBuckets i;
       for_each
         (fun st bkt =>
            for_each
              (fun '(g, edges) neighbor =>
                 '(g', added) ← Graph.AddEdge g i neighbor;
                 Some (g', if (added : bool) then edges + 1 else edges))
              bkt st)
         row st)
    (range 0 n) (g, 0).

Definition NewMercator `{MathLib} (n : Z) (realCoords displayCoords : list LatLonCoordinate)
    (root geoPrec bucketSize k0Threshold karyFactor : Z) : option Mercator.t :=
  let totalBits := geoPrec * GeoBitsPerChar in
  g ← Graph.NewGraph n;
  let visited := replicate (Z.to_nat n) (replicate (Z.to_nat (MaxDepth + 1)) false) in
  let kary := replicate (Z.to_nat n) {| RootNode := -1; IsKary := false |} in
  '(hashes, bins, groups) ← hash_nodes geoPrec n displayCoords;
  kb ← InitializeKBuckets n totalBits;
  '(kb, _) ← FillK0Bucket kb groups;
  '(kb, _) ← FillOtherKBuckets kb bins realCoords bucketSize totalBits;
  '(g, _) ← connect_buckets kb n g;
  Some (Mercator.mk g realCoords displayCoords hashes bins kb groups root visited
          geoPrec bucketSize k0Threshold karyFactor totalBits kary).

(** ** Valid Geohash strings *)

Definition alphabet : list ascii := list_ascii_of_string Base32Charset.

(** A string over the Base32 alphabet of Geohash. *)
Definition valid_geohash (h : string) : Prop :=
  Forall (fun c => c ∈ alphabet) (list_ascii_of_string h).

(** The character of the alphabet with the given five bits. *)
Definition char_of_bits (bits : string) : option ascii :=
  List.find (fun c => String.eqb (CharToBits c) bits) alphabet.

(** [XorDistance] started from a distance [d]. *)
Definition xor_from (a b : string) (d : Z) : Z :=
  let maxLen := Z.min (slen a) (slen b) in
  fold_left
    (fun distance i =>
       if decide (byte_at a i = byte_at b i) then distance
       else uint_wrap (distance + shl_uint 1 (maxLen - i - 1)))
    (range 0 maxLen) d.

(** The sum [XorDistance] computes when nothing wraps around: [2 ^ k] for
    every differing position, [k] counted from the end of the shorter
    string. *)
Fixpoint xor_sum (a b : string) : Z :=
  match a, b with
  | String x a', String y b' =>
      (if decide (x = y) then 0 else 2 ^ Z.min (slen a') (slen b')) + xor_sum a' b'
  | _, _ => 0
  end.

(** ** Geohash as a path of halvings *)

(** One halving of a range, as [Encode] and [Decode] do it: the upper half
    for a 1, the lower half for a 0. *)
Definition halve (r : GeoRange) (b : bool) : GeoRange :=
  if b then {| Min := Mid r; Max := Max r |} else {| Min := Min r; Max := Mid r |}.

Definition descend (r : GeoRange) (bs : list bool) : GeoRange := fold_left halve bs r.

(** The midpoint of a range computed in [float64] is in the range and below
    its upper end. *)
Definition cell_ok (r : GeoRange) : bool :=
  PrimFloat.leb (Min r) (Mid r) && PrimFloat.ltb (Mid r) (Max r).

(** Every range reached from [r] by at most [depth] halvings is [cell_ok]. *)
Fixpoint tree_ok (depth : nat) (r : GeoRange) : bool :=
  cell_ok r &&
  match depth with
  | O => true
  | S d => tree_ok d (halve r true) && tree_ok d (halve r false)
  end.

(** Every range on the way from [r] along [bs] is [cell_ok]. *)
Fixpoint path_ok (r : GeoRange) (bs : list bool) : bool :=
  cell_ok r &&
  match bs with
  | [] => true
  | b :: bs' => path_ok (halve r b) bs'
  end.

(** The bits of a Geohash that halve the longitude, when the first bit of
    [bs] is a longitude bit ([ev]) or a latitude bit. *)
Fixpoint lon_bits (ev : bool) (bs : list bool) : list bool :=
  match bs with
  | [] => []
  | b :: bs' => if ev then b :: lon_bits (negb ev) bs' else lon_bits (negb ev) bs'
  end.

Definition lat_bits (ev : bool) (bs : list bool) : list bool := lon_bits (negb ev) bs.

(** The five bits of a character, highest first, and the bits of a string. *)
Definition char_bits (c : ascii) : list bool :=
  map (fun i => bit_of (IndexRune Base32Charset c) i =? 1) [4; 3; 2; 1; 0].

Fixpoint bits_of (h : string) : list bool :=
  match h with
  | EmptyString => []
  | String c h' => char_bits c ++ bits_of h'
  end.

(** [decode_bit] on a bit given as a [bool]. *)
Definition dec_step (st : DecState) (b : bool) : DecState :=
  let '(la, lo, ev) := st in
  if ev then (la, halve lo b, negb ev) else (halve la b, lo, negb ev).

(** The characters [Encode] writes for a sequence of bits, from a state with
    [bit] bits of the current character read and [idx] their value. *)
Fixpoint chars_of_bits (bit idx : Z) (bs : list bool) : option string :=
  match bs with
  | [] => Some EmptyString
  | b :: bs' =>
      let ix := idx * 2 + (if b then 1 else 0) in
      if bit + 1 =? 5 then
        c ← byte_at Base32Charset ix;
        String c <$> chars_of_bits 0 0 bs'
      else chars_of_bits (bit + 1) ix bs'
  end.

(** The midpoints on the way of a Geohash string, for the longitude and for
    the latitude, are all computed inside their ranges. *)
Definition geohash_path_ok (h : string) : bool :=
  path_ok lon0 (lon_bits true (bits_of h)) && path_ok lat0 (lat_bits true (bits_of h)).

(** ** Notions the statements about the simulator use *)

(** A node the broadcast did not reach although it is neither malicious nor
    absent: [!recvFlag[i] && !malFlags[i] && !leaveFlags[i]]. *)
Definition uncovered (flags malFlags leaveFlags : list bool) (i : Z) : bool :=
  match at_ flags i, at_ malFlags i, at_ leaveFlags i with
  | Some false, Some false, Some false => true
  | _, _, _ => false
  end.

(** The tables of a clustering have an entry for every node and for every
    cluster. *)
Definition cluster_ok (n : Z) (clusterResult : option ClusterResult) (t : Tally) : Prop :=
  match clusterResult with
  | None => True
  | Some cr =>
      len (ClusterID cr) = n /\ len (t_clusterRecvCount t) = K
      /\ len (t_clusterAvgDepth t) = K /\ len (t_clusterAvgLatency t) = K
  end.

(** A float that is not a negative number: [int] of it is not negative. *)
Definition not_negative (x : float) : bool :=
  match Prim2SF x with S754_finite true _ _ => false | _ => true end.

(** The values [pct] takes in [for pct := 0.05; pct <= 1.0; pct += 0.05]. *)
Fixpoint pct_values (fuel : nat) (pct : float) : option (list float) :=
  if PrimFloat.leb pct 1 then
    match fuel with
    | O => None
    | S fuel' => cons pct <$> pct_values fuel' (pct + 0.05)%float
    end
  else Some [].

(** The slices of a [TestResult] have the lengths [NewTestResult] gives
    them. *)
Definition result_ok (n : Z) (clusterResult : option ClusterResult) (result : TestResult)
    : Prop :=
  len (DepthCDF result) = MaxDepth /\ len (AvgDist result) = MaxDepth
  /\ len (Latency result) = 21
  /\ match clusterResult with
     | None => True
     | Some cr => len (ClusterID cr) = n /\ len (ClusterAvgDepth result) = K
                  /\ len (ClusterAvgLatency result) = K
     end.

(** The slices of a repetition have an entry for every node, and the
    receive list holds nodes that are marked as reached. *)
Definition state_ok `{RandLib} {S} (n : Z) (st : SimState S) : Prop :=
  len (recvFlag st) = n /\ len (recvTime st) = n /\ len (recvDist st) = n
  /\ len (depth st) = n /\ Forall (fun u => 0 <= u < n) (recvList st)
  /\ Forall (fun u => at_ (recvFlag st) u = Some true) (recvList st).

(** The state after a duplicate message is dropped: [dupMsg++; continue]. *)
Definition drop_duplicates `{RandLib} {S} (st : SimState S) (k : Z) (mq : MessageQueue)
    : SimState S :=
  {| recvFlag := recvFlag st; recvTime := recvTime st; recvDist := recvDist st;
     recvParent := recvParent st; depth := depth st; recvList := recvList st;
     dupMsg := dupMsg st + k; successChildren := successChildren st;
     msgQueue := mq; algo := algo st; gen := gen st |}.

(** ** The fill of the outer buckets, as the specification words it *)

(** A stable deduplication: the first occurrence of every value stays, in
    its place. *)
Fixpoint first_occurrences (xs : list Z) : list Z :=
  match xs with
  | [] => []
  | x :: xs' => x :: filter (fun y => y <> x) (first_occurrences xs')
  end.

(** Ascending by distance: no candidate stands before one that is strictly
    closer. *)
Definition ascending (cs : list cand) : Prop :=
  StronglySorted (fun x y : cand => PrimFloat.ltb y.1 x.1 = false) cs.

(** The inner loop of the exchange sort as a function: the candidate held at the
    position of the outer loop, the candidates passed and those to come. *)
Fixpoint sift (h : cand) (rest passed : list cand) : cand * list cand :=
  match rest with
  | [] => (h, passed)
  | y :: rest' =>
      if fgt h.1 y.1 then sift y rest' (passed ++ [h]) else sift h rest' (passed ++ [y])
  end.

(** Bucket [b] of the row of a node. *)
Definition bucket_of (row : list (list Z)) (b : Z) : list Z := default [] (at_ row b).

(** [realBucket = TotalBits - first_diff_bit_pos(bin(i), bin(j))] *)
Definition real_bucket (totalBits : Z) (binI binJ : string) : Z :=
  totalBits - FirstDiffBitPos binI binJ.

(** The scan of one [j]: when [j != i], the real bucket lies in
    [[1, TotalBits]] and is not yet at capacity [K], [j] is appended to
    it and [(distance(i, j), j)] is recorded as a candidate. *)
Definition spec_scan_step `{MathLib} (bin : Z -> string) (pos : Z -> LatLonCoordinate)
    (K T i : Z) (st : list (list Z) * list cand) (j : Z) : list (list Z) * list cand :=
  let rb := real_bucket T (bin i) (bin j) in
  if decide (j <> i /\ 1 <= rb <= T /\ len (bucket_of st.1 rb) < K) then
    (set_at st.1 rb (bucket_of st.1 rb ++ [j]), st.2 ++ [(Distance (pos i) (pos j), j)])
  else st.

(** The scan of every [j] of the [n] nodes, in the order of the node
    numbers. *)
Definition spec_scan `{MathLib} (bin : Z -> string) (pos : Z -> LatLonCoordinate)
    (K T n i : Z) (row : list (list Z)) : list (list Z) * list cand :=
  fold_left (spec_scan_step bin pos K T i) (range 0 n) (row, []).

(** The [min(K, |cands|)] candidates of smallest distance, in ascending
    order. *)
Definition closest (K : Z) (cands : list cand) (ids : list Z) : Prop :=
  exists sorted,
    sorted ≡ₚ cands /\ ascending sorted
    /\ ids = (take (Z.to_nat (Z.min K (len cands))) sorted).*2.

(** The outer bucket [B]: skipped when it holds at least [K] entries;
    otherwise the scan, then the closest candidates appended to bucket [B]
    itself. *)
Definition spec_bucket_step `{MathLib} (bin : Z -> string) (pos : Z -> LatLonCoordinate)
    (K T n i B : Z) (row row' : list (list Z)) : Prop :=
  if decide (K <= len (bucket_of row B)) then row' = row
  else
    let scanned := spec_scan bin pos K T n i row in
    exists ids,
      closest K scanned.2 ids
      /\ row' = set_at scanned.1 B (bucket_of scanned.1 B ++ ids).

(** The outer buckets one after the other. *)
Fixpoint spec_buckets (step : Z -> list (list Z) -> list (list Z) -> Prop) (Bs : list Z)
    (row row' : list (list Z)) : Prop :=
  match Bs with
  | [] => row' = row
  | B :: Bs' => exists mid, step B row mid /\ spec_buckets step Bs' mid row'
  end.

(** The fill of node [i]: every [B] in [[1, TotalBits]], then the stable
    deduplication of every bucket. *)
Definition spec_fill_node `{MathLib} (bin : Z -> string) (pos : Z -> LatLonCoordinate)
    (K T n i : Z) (row final : list (list Z)) : Prop :=
  exists row',
    spec_buckets (spec_bucket_step bin pos K T n i) (range 1 (T + 1)) row row'
    /\ final = map first_occurrences row'.

(** ** Notions the statements about the graph use *)

(** The calls of a sequence that delete an edge the graph does not have at
    that moment. *)
Fixpoint absent_deletes (g : Graph.t) (os : list Graph.op) : Z :=
  match os with
  | [] => 0
  | o :: os' =>
      (match o with
       | Graph.Del u v =>
           if Graph.Contains (default [] (at_ (Graph.OutBound g) u)) v then 0 else 1
       | Graph.Add _ _ => 0
       end)
      + match Graph.step g o with
        | Some g' => absent_deletes g' os'
        | None => 0
        end
  end.

(** ** Notions the statements about the queue use *)

(** The parent of position [k] in the heap: [(k - 1) / 2]. *)
Definition heap_parent (k : Z) : Z := Z.quot (k - 1) 2.

(** [a] is received no later than [b]. *)
Definition no_later (a b : Message) : Prop :=
  PrimFloat.leb (RecvTime a) (RecvTime b) = true.

(** The receive times are numbers, and no message is received before the
    message at its parent position. *)
Definition heap_ok (mq : MessageQueue) : Prop :=
  Forall (fun m => is_nan (RecvTime m) = false) mq
  /\ forall k a b, 0 < k -> at_ mq k = Some b -> at_ mq (heap_parent k) = Some a ->
       no_later a b.

(** The order of the heap on the first [n] positions. *)
Definition heap_prefix (mq : MessageQueue) (n : Z) : Prop :=
  forall k a b, 0 < k < n -> at_ mq k = Some b -> at_ mq (heap_parent k) = Some a ->
    no_later a b.

(** The state of [heap.up] at position [j]: the order holds except between
    [j] and its parent, and the children of [j] are no earlier than the
    parent of [j]. *)
Definition up_inv (mq : MessageQueue) (j : Z) : Prop :=
  (forall k a b, 0 < k -> k <> j -> at_ mq k = Some b ->
     at_ mq (heap_parent k) = Some a -> no_later a b)
  /\ (0 < j -> forall k a b, 0 < k -> heap_parent k = j -> at_ mq k = Some b ->
        at_ mq (heap_parent j) = Some a -> no_later a b).

(** The state of [heap.down] at position [i]: the order holds on the first
    [n] positions except between [i] and its children, which are no earlier
    than the parent of [i]. *)
Definition down_inv (mq : MessageQueue) (i n : Z) : Prop :=
  (forall k a b, 0 < k < n -> heap_parent k <> i -> at_ mq k = Some b ->
     at_ mq (heap_parent k) = Some a -> no_later a b)
  /\ (0 < i -> forall k a b, 0 < k < n -> heap_parent k = i -> at_ mq k = Some b ->
        at_ mq (heap_parent i) = Some a -> no_later a b).

(** ** Notions of the statements about Geohash strings *)

(** A string of ASCII characters: every rune of it is one byte. *)
Definition ascii_only (s : string) : Prop :=
  Forall (fun c => (nat_of_ascii c < 128)%nat) (list_ascii_of_string s).

(** A string without its characters outside the alphabet. *)
Fixpoint drop_foreign (s : string) : string :=
  match s with
  | EmptyString => EmptyString
  | String c s' =>
      if decide (c ∈ alphabet) then String c (drop_foreign s') else drop_foreign s'
  end.

(** A string with ['0'] in the place of its characters outside the alphabet. *)
Fixpoint zero_foreign (s : string) : string :=
  match s with
  | EmptyString => EmptyString
  | String c s' =>
      String (if decide (c ∈ alphabet) then c else "0"%char) (zero_foreign s')
  end.

(** ** Notions of the statements about [Respond] *)

(** What [Respond] leaves alone in the overlay, and a relay list without
    the sender. *)
Definition respond_frame (src : Z) (m : Mercator.t) (st : list Z * Mercator.t) : Prop :=
  Mercator.Visited st.2 = Mercator.Visited m
  /\ Mercator.KBuckets st.2 = Mercator.KBuckets m
  /\ Mercator.NodeGeohash st.2 = Mercator.NodeGeohash m
  /\ Mercator.Graph st.2 = Mercator.Graph m
  /\ Mercator.TotalBits st.2 = Mercator.TotalBits m
  /\ (src ∉ st.1).


(** [m.Visited[u][step]] is set. *)
Definition marked (m : Mercator.t) (u step : Z) : Prop :=
  exists row, at_ (Mercator.Visited m) u = Some row /\ at_ row step = Some true.

(** ** Notions of the statements about the event loop *)

(** A message in the queue comes from a node that has received, unless
    nobody has received yet and it is a message of the root to itself. *)
Definition sender_ok (root : Z) (nodes : list Z) (msg : Message) : Prop :=
  Src msg ∈ nodes \/ (nodes = [] /\ Src msg = root /\ Dst msg = root).

(** The records of a receiver [u] other than the root: its parent has
    received, is one step nearer to the root, and lists [u] among its
    successful children. *)
Definition hangs_below `{RandLib} {S} (st : SimState S) (u : Z) : Prop :=
  exists p d ch,
    at_ (recvParent st) u = Some p /\ p ∈ recvList st /\ p <> u
    /\ at_ (depth st) p = Some d /\ 0 <= d /\ at_ (depth st) u = Some (d + 1)
    /\ at_ (successChildren st) p = Some ch /\ u ∈ ch.

Definition tree_inv `{RandLib} {S} (root n : Z) (st : SimState S) : Prop :=
  len (recvFlag st) = n /\ len (recvParent st) = n /\ len (depth st) = n
  /\ NoDup (recvList st)
  /\ (forall u, at_ (recvFlag st) u = Some true <-> u ∈ recvList st)
  /\ Forall (sender_ok root (recvList st)) (msgQueue st)
  /\ (recvList st = [] \/ exists rest, recvList st = root :: rest)
  /\ (forall d, at_ (depth st) root = Some d -> d = 0)
  /\ (root ∈ recvList st -> at_ (recvParent st) root = Some root)
  /\ Forall (fun d => 0 <= d) (depth st)
  /\ (forall u, u ∈ recvList st -> u <> root -> hangs_below st u).

(** ** Notions of the statements about the overlay graph *)

(** [c] stands in some bucket of node [a]. *)
Definition in_buckets (kBuckets : KBucketTable) (a c : Z) : Prop :=
  exists row bkt, at_ kBuckets a = Some row /\ bkt ∈ row /\ c ∈ bkt.

(** [x] stands in bucket [b] of node [r]. *)
Definition in_bucket (kBuckets : KBucketTable) (r b x : Z) : Prop :=
  exists row bkt, at_ kBuckets r = Some row /\ at_ row b = Some bkt /\ x ∈ bkt.

(** ** Notions of the statements about selection *)

(** [xs'] is [xs] with the places from [lo] to [hi] rearranged. *)
Definition rearranged (xs xs' : list float) (lo hi : Z) : Prop :=
  xs' ≡ₚ xs
  /\ (forall a, a < lo \/ hi < a -> at_ xs' a = at_ xs a)
  /\ (forall a, lo <= a <= hi -> exists a', lo <= a' <= hi /\ at_ xs' a = at_ xs a').

(** The place [k] holds an element that those before it, from [lo] on, do not
    exceed and that does not exceed those after it, up to [hi]. *)
Definition selected (xs : list float) (lo hi k : Z) : Prop :=
  exists x, at_ xs k = Some x
    /\ (forall a y, lo <= a < k -> at_ xs a = Some y -> PrimFloat.leb y x = true)
    /\ (forall b y, k < b <= hi -> at_ xs b = Some y -> PrimFloat.leb x y = true).

(** ** Notions of the statements about flooding *)

(** The nodes a flood from [root] can reach: the root, and the neighbours of
    a reached node that is neither malicious nor absent. *)
Inductive reached (g : Graph.t) (malFlags leaveFlags : list bool) (root : Z) : Z -> Prop :=
  | reached_root : reached g malFlags leaveFlags root root
  | reached_step u v :
      reached g malFlags leaveFlags root u ->
      at_ malFlags u = Some false -> at_ leaveFlags u = Some false ->
      Graph.edge g u v ->
      reached g malFlags leaveFlags root v.

(** In the middle of a flood: what has been received or is on its way can
    be reached, and the neighbours of a receiver that relays have received
    or have a message on its way. *)
Definition flood_inv `{RandLib} (ba : BaseAlgorithm) (malFlags leaveFlags : list bool)
    (root : Z) (st : SimState BaseAlgorithm) : Prop :=
  algo st = ba
  /\ Forall (fun msg => reached (BaseGraph ba) malFlags leaveFlags root (Dst msg))
            (msgQueue st)
  /\ Forall (reached (BaseGraph ba) malFlags leaveFlags root) (recvList st)
  /\ forall u v,
       u ∈ recvList st -> at_ malFlags u = Some false -> at_ leaveFlags u = Some false ->
       Graph.edge (BaseGraph ba) u v ->
       v ∈ recvList st \/ exists msg, msg ∈ msgQueue st /\ Dst msg = v.

(** ** Notions of the statements about the order of the queue *)

(** [for !pq.Empty() { msg := pq.Pop(); ... }]: the messages in the order
    in which the queue hands them out. *)
Fixpoint drain (fuel : nat) (mq : MessageQueue) : option (list Message) :=
  if Empty mq then Some []
  else match fuel with
       | O => None
       | S fuel' =>
           '(msg, mq') ← Pop mq;
           rest ← drain fuel' mq';
           Some (msg :: rest)
       end.

(** ** Notions of the statements about the k-ary tree *)

(** The positions that taking the children of [ComputeKaryChildren] any
    number of times leads to from the position [p], in a group of
    [totalNodes] nodes. *)
Inductive kary_reach (totalNodes k p : Z) : Z -> Prop :=
  | kary_self : kary_reach totalNodes k p p
  | kary_child c d children :
      kary_reach totalNodes k p c ->
      ComputeKaryChildren c totalNodes k = Some children -> d ∈ children ->
      kary_reach totalNodes k p d.

(** ** Scenarios *)

(** A stand-in for [math.Cos], [math.Sin] and [math.Acos] in scenarios whose
    nodes are less than 0.1 degrees apart: there [Distance] answers 0 before
    it calls any of them. *)
Definition no_trig : MathLib :=
  {| math_Cos := fun x => x; math_Sin := fun x => x; math_Acos := fun x => x |}.

(** Three nodes in one Geohash cell, as [runMercator] sets Mercator up. *)
Definition origin : LatLonCoordinate := {| Lat := 0; Lon := 0 |}.

Definition same_cell : option Mercator.t :=
  NewMercator (H := no_trig) 3 [origin; origin; origin] [origin; origin; origin]
    0 2 6 9999 3.

(** A generator whose every draw of [rand.NormFloat64] is 0. *)
Definition no_noise : RandLib :=
  {| rng := unit; rand_NormFloat64 := fun g => (0%float, g) |}.

(** [NewSimulatorConfig()]: [BandwidthDefault], [DataSizeSmall]. *)
Definition NewSimulatorConfig : SimulatorConfig :=
  {| Bandwidth := 33000000; DataSize := 300; MaxNodes := 8000 |}.

(** Three nodes of which node 0 knows node 1 and nobody knows node 2. *)
Definition one_edge : BaseAlgorithm :=
  {| BaseName := "base"; SpecifiedRoot := false;
     BaseGraph := Graph.mk 3 1 [[]; [0]; []] [[1]; []; []];
     BaseCoords := [origin; origin; origin]; BaseRoot := 0 |}.

(** A network of one node, as [runMercator] sets Mercator up. *)
Definition single_node : option Mercator.t :=
  NewMercator (H := no_trig) 1 [origin] [origin] 0 2 6 9999 3.

(** Two nodes 40 degrees of longitude apart, in different Geohash cells. *)
Definition far_apart : list LatLonCoordinate :=
  [{| Lat := 10; Lon := 10 |}; {| Lat := 10; Lon := 50 |}].

(** The overlay [runMercator] builds for them. *)
Definition two_cells `{MathLib} : option Mercator.t :=
  NewMercator 2 far_apart far_apart 0 2 6 9999 3.

(** Three nodes in three Geohash cells of two characters, and the binary
    forms of their Geohashes. *)
Definition three_places : list LatLonCoordinate :=
  [{| Lat := 10; Lon := 10 |}; {| Lat := 10; Lon := 50 |}; {| Lat := 10; Lon := 12 |}].

Definition three_bins : list string :=
  default [] ((fun x => x.1.2) <$> hash_nodes 2 3 three_places).

(** The coordinates of [same_cell], and flags that mark nobody. *)
Definition three_origins : list LatLonCoordinate := [origin; origin; origin].
Definition nobody : list bool := [false; false; false].

(** * Part II: properties *)

(** ** Slices and loops *)

Lemma at_Some {A} (xs : list A) i x : at_ xs i = Some x -> 0 <= i < len xs.
Proof.
  unfold at_, len. case_decide; [|done].
  intros Hx%lookup_lt_Some. lia.
Qed.

Lemma at_lt {A} (xs : list A) i : 0 <= i < len xs -> is_Some (at_ xs i).
Proof.
  unfold at_, len. intros [? ?]. case_decide; [|lia].
  apply lookup_lt_is_Some. lia.
Qed.

Lemma at_nat {A} (xs : list A) (k : nat) : at_ xs (Z.of_nat k) = xs !! k.
Proof. unfold at_. case_decide; [|lia]. by rewrite Nat2Z.id. Qed.

Lemma at_set_at_eq {A} (xs : list A) i x :
  0 <= i < len xs -> at_ (set_at xs i x) i = Some x.
Proof.
  unfold at_, set_at, len. intros [? ?]. case_decide; [|lia].
  apply list_lookup_insert_eq. lia.
Qed.

Lemma at_set_at_ne {A} (xs : list A) i j x :
  0 <= i -> i <> j -> at_ (set_at xs i x) j = at_ xs j.
Proof.
  unfold at_, set_at. intros ? ?. case_decide; [|done].
  apply list_lookup_insert_ne. lia.
Qed.

Lemma len_set_at {A} (xs : list A) i x : len (set_at xs i x) = len xs.
Proof. unfold len, set_at. by rewrite length_insert. Qed.

Lemma len_app {A} (xs ys : list A) : len (xs ++ ys) = len xs + len ys.
Proof. unfold len. rewrite length_app. lia. Qed.

Lemma len_nonneg {A} (xs : list A) : 0 <= len xs.
Proof. unfold len. lia. Qed.

Lemma elem_of_range lo hi i : i ∈ range lo hi <-> lo <= i < hi.
Proof.
  unfold range. rewrite list_elem_of_fmap. split.
  - intros (k & -> & Hk). apply elem_of_seq in Hk. lia.
  - intros ?. exists (Z.to_nat (i - lo)). split; [lia|].
    apply elem_of_seq. lia.
Qed.

Lemma range_nil lo hi : hi <= lo -> range lo hi = [].
Proof. unfold range. intros ?. by replace (Z.to_nat (hi - lo)) with 0%nat by lia. Qed.

Lemma range_cons lo hi : lo < hi -> range lo hi = lo :: range (lo + 1) hi.
Proof.
  unfold range. intros ?.
  replace (Z.to_nat (hi - lo)) with (S (Z.to_nat (hi - (lo + 1)))) by lia.
  cbn [seq map]. f_equal; [lia|].
  rewrite <- seq_shift, map_map. apply map_ext. intros; lia.
Qed.

Lemma range_snoc lo hi : lo <= hi -> range lo (hi + 1) = range lo hi ++ [hi].
Proof.
  unfold range. intros ?.
  replace (Z.to_nat (hi + 1 - lo)) with (Z.to_nat (hi - lo) + 1)%nat by lia.
  rewrite seq_app, map_app. cbn. do 2 f_equal. lia.
Qed.

Lemma range_length lo hi : length (range lo hi) = Z.to_nat (hi - lo).
Proof. unfold range. by rewrite length_map, length_seq. Qed.

Lemma for_each_app {S X} (body : S -> X -> option S) xs ys s :
  for_each body (xs ++ ys) s = s' ← for_each body xs s; for_each body ys s'.
Proof.
  revert s. induction xs as [|x xs IH]; intros s; cbn; [done|].
  destruct (body s x); cbn; [apply IH|done].
Qed.

Lemma for_each_total {S X} (body : S -> X -> option S) (f : S -> X -> S) xs s :
  (forall s x, body s x = Some (f s x)) ->
  for_each body xs s = Some (fold_left f xs s).
Proof.
  intros Hb. revert s. induction xs as [|x xs IH]; intros s; cbn; [done|].
  rewrite Hb. cbn. apply IH.
Qed.

(** A loop that writes the same value to every index in turn. *)
Lemma fold_set_at_const {A} (c : A) (xs : list A) (k : nat) :
  (k <= length xs)%nat ->
  fold_left (fun l j => set_at l j c) (range 0 (Z.of_nat k)) xs
  = replicate k c ++ drop k xs.
Proof.
  induction k as [|k IH]; intros Hk.
  - by rewrite range_nil, drop_0.
  - rewrite Nat2Z.inj_succ, <- Z.add_1_r, range_snoc by lia.
    rewrite fold_left_app, IH by lia. cbn. unfold set_at. rewrite Nat2Z.id.
    rewrite insert_app_r_alt; rewrite length_replicate; [|lia].
    rewrite Nat.sub_diag.
    destruct (drop k xs) as [|y ys] eqn:Hd.
    { apply (f_equal length) in Hd. rewrite length_drop in Hd. cbn in Hd. lia. }
    cbn. replace (drop (S k) xs) with ys.
    2:{ rewrite <- (Nat.add_1_r k), <- drop_drop, Hd. done. }
    change (replicate k c ++ [c] ++ ys = (c :: replicate k c) ++ ys).
    by rewrite app_assoc, <- replicate_cons_app.
Qed.

(** A loop that rewrites every element in turn. *)
Lemma fold_set_at_map {A} (f : A -> A) (xs : list A) (k : nat) :
  (k <= length xs)%nat ->
  fold_left (fun l i => match at_ l i with
                        | Some x => set_at l i (f x)
                        | None => l
                        end) (range 0 (Z.of_nat k)) xs
  = map f (take k xs) ++ drop k xs.
Proof.
  induction k as [|k IH]; intros Hk.
  - by rewrite range_nil, drop_0.
  - rewrite Nat2Z.inj_succ, <- Z.add_1_r, range_snoc by lia.
    rewrite fold_left_app, IH by lia. cbn.
    destruct (drop k xs) as [|y ys] eqn:Hd.
    { apply (f_equal length) in Hd. rewrite length_drop in Hd. cbn in Hd. lia. }
    assert (Hl : length (map f (take k xs)) = k).
    { rewrite length_map, length_take. lia. }
    rewrite at_nat, lookup_app_r by lia. rewrite Hl, Nat.sub_diag. cbn.
    unfold set_at. rewrite Nat2Z.id, insert_app_r_alt by lia.
    rewrite Hl, Nat.sub_diag. cbn.
    replace (drop (S k) xs) with ys.
    2:{ rewrite <- (Nat.add_1_r k), <- drop_drop, Hd. done. }
    assert (Hk' : xs !! k = Some y).
    { rewrite <- (take_drop k xs) at 1. rewrite lookup_app_r; rewrite length_take; [|lia].
      replace (k - k `min` length xs)%nat with 0%nat by lia. by rewrite Hd. }
    rewrite (take_S_r _ _ _ Hk'), map_app, <- app_assoc. done.
Qed.

(** ** Mercator: the reset of the per-broadcast state *)

Lemma reset_row_replicate (row : list bool) :
  Mercator.reset_row row = replicate (length row) false.
Proof.
  unfold Mercator.reset_row, len. rewrite fold_set_at_const by lia.
  by rewrite drop_all, app_nil_r.
Qed.

Lemma ResetVisited_Visited (m : Mercator.t) :
  Mercator.Visited (Mercator.ResetVisited m)
  = map (fun row => replicate (length row) false) (Mercator.Visited m).
Proof.
  unfold Mercator.ResetVisited. cbn. unfold len.
  rewrite fold_set_at_map by lia.
  rewrite drop_all, app_nil_r, firstn_all.
  apply map_ext. intros row. apply reset_row_replicate.
Qed.

Lemma ResetVisited_KaryMsgInfo (m : Mercator.t) :
  Mercator.KaryMsgInfo (Mercator.ResetVisited m)
  = replicate (length (Mercator.KaryMsgInfo m)) {| RootNode := -1; IsKary := false |}.
Proof.
  unfold Mercator.ResetVisited. cbn. unfold len.
  rewrite fold_set_at_const by lia. by rewrite drop_all, app_nil_r.
Qed.

(** C5.  When [SetRoot] returns, every [Visited[u][s]] is [false] and every
    [KaryMsgInfo[u]] is [(RootNode = -1, IsKary = false)]; the shape of both
    tables is the one they had, and [TreeRoot] is the new root. *)
Theorem SetRoot_clears_visited_and_kary (m : Mercator.t) (r : Z) :
  let m' := Mercator.SetRoot m r in
  Mercator.Visited m' = map (fun row => replicate (length row) false) (Mercator.Visited m)
  /\ Mercator.KaryMsgInfo m'
     = replicate (length (Mercator.KaryMsgInfo m)) {| RootNode := -1; IsKary := false |}
  /\ (forall u s row b,
        at_ (Mercator.Visited m') u = Some row -> at_ row s = Some b -> b = false)
  /\ (forall u info,
        at_ (Mercator.KaryMsgInfo m') u = Some info
        -> info = {| RootNode := -1; IsKary := false |})
  /\ Mercator.TreeRoot m' = r.
Proof.
  intros m'.
  assert (Hv : Mercator.Visited m'
               = map (fun row => replicate (length row) false) (Mercator.Visited m)).
  { subst m'. unfold Mercator.SetRoot. by rewrite ResetVisited_Visited. }
  assert (Hk : Mercator.KaryMsgInfo m'
               = replicate (length (Mercator.KaryMsgInfo m))
                   {| RootNode := -1; IsKary := false |}).
  { subst m'. unfold Mercator.SetRoot. by rewrite ResetVisited_KaryMsgInfo. }
  split; [done|]. split; [done|]. split; [|split; [|done]].
  - intros u s row b Hrow Hb. rewrite Hv in Hrow.
    unfold at_ in Hrow, Hb. repeat case_decide; try done.
    apply list_lookup_fmap_Some in Hrow as (row0 & -> & _).
    by apply lookup_replicate in Hb as [-> _].
  - intros u info Hinfo. rewrite Hk in Hinfo.
    unfold at_ in Hinfo. case_decide; [|done].
    by apply lookup_replicate in Hinfo as [-> _].
Qed.

(** ** Graph: the edge counter *)

(** C6, at the input [NewGraph(2); DelEdge(0, 1)]: deleting an edge the
    graph does not have leaves both adjacency lists as they were and still
    decrements [M], which no longer is the sum of the out-degrees. *)
Theorem DelEdge_of_absent_edge_breaks_M :
  exists g g',
    Graph.NewGraph 2 = Some g
    /\ Graph.run g [Graph.Del 0 1] = Some g'
    /\ Graph.OutBound g' = Graph.OutBound g
    /\ Graph.InBound g' = Graph.InBound g
    /\ Graph.out_total g' = 0
    /\ Graph.M g' = -1.
Proof. do 2 eexists. repeat split; reflexivity. Qed.

(** ** Mercator: a relay in the cell of the sender *)

Lemma outer_forward_nil (m : Mercator.t) (u src hi : Z) (relay : list Z) :
  hi <= 1 -> Mercator.outer_forward m u src hi relay = Some relay.
Proof. intros ?. unfold Mercator.outer_forward. by rewrite range_nil. Qed.

(** C2, as the code has it.  A relay message ([Step > 0]) to a node whose
    k-ary flag is not set, from a sender in bucket 0 of the receiver, is
    answered with the empty relay list: no target of bucket 0 and none of
    an outer bucket.  The only effect is the mark [Visited[u][Step]]. *)
Theorem Respond_same_cell_relays_nothing (m : Mercator.t) (msg : Message)
    (row : list bool) (seen : bool) (hu hs : string) (info : KaryMessage) :
  0 < Step msg ->
  at_ (Mercator.Visited m) (Dst msg) = Some row ->
  at_ row (Step msg) = Some seen ->
  at_ (Mercator.NodeGeohash m) (Dst msg) = Some hu ->
  at_ (Mercator.NodeGeohash m) (Src msg) = Some hs ->
  at_ (Mercator.KaryMsgInfo m) (Dst msg) = Some info ->
  IsKary info = false ->
  GetGeoBucketIndex hu hs (Mercator.TotalBits m) = 0 ->
  Mercator.Respond m msg
  = Some ([], if seen then m
              else Mercator.with_Visited m
                     (set_at (Mercator.Visited m) (Dst msg) (set_at row (Step msg) true))).
Proof.
  intros Hstep Hrow Hseen Hhu Hhs Hinfo Hkary Hbucket.
  unfold Mercator.Respond. rewrite Hrow. cbn [mbind option_bind].
  rewrite Hseen. cbn [mbind option_bind].
  destruct seen; [done|].
  destruct (Step msg =? 0) eqn:E; [lia|].
  cbn [Mercator.NodeGeohash Mercator.KaryMsgInfo Mercator.TotalBits Mercator.with_Visited].
  rewrite Hhu. cbn [mbind option_bind]. rewrite Hhs. cbn [mbind option_bind].
  rewrite Hinfo. cbn [mbind option_bind]. rewrite Hkary, Hbucket.
  change (0 <? 0) with false. cbn [mbind option_bind].
  by rewrite outer_forward_nil.
Qed.

(** The theorem applies to the message from node 1 to node 0, one hop from
    the root, in the overlay of three nodes in one cell. *)
Lemma Respond_same_cell_relays_nothing_witness :
  exists m m',
    same_cell = Some m
    /\ Mercator.Respond m (NewMessage 1 1 0 1 0 0) = Some ([], m').
Proof.
  let o := eval vm_compute in same_cell in
  match o with Some ?m => exists m end.
  eexists. split; [vm_compute; reflexivity|].
  eapply (Respond_same_cell_relays_nothing _ (NewMessage 1 1 0 1 0 0));
    [cbn; lia | reflexivity.. | vm_compute; reflexivity].
Defined.

(** C2 as the specification states it fails there: bucket 0 of node 0 holds
    nodes 1 and 2, the threshold logic picks node 2 for a message from
    node 1, and [Respond] relays to nobody. *)
Lemma Respond_same_cell_skips_bucket_0 :
  exists m,
    same_cell = Some m
    /\ fst <$> Mercator.k0_forward m 0 1 [] = Some [2]
    /\ fst <$> Mercator.Respond m (NewMessage 1 1 0 1 0 0) = Some [].
Proof.
  let o := eval vm_compute in same_cell in
  match o with Some ?m => exists m end.
  split; [|split]; vm_compute; reflexivity.
Qed.

(** ** Strings *)

Lemma slen_cons c s : slen (String c s) = slen s + 1.
Proof. unfold slen. cbn [String.length]. lia. Qed.

Lemma slen_nonneg s : 0 <= slen s.
Proof. unfold slen. lia. Qed.

Lemma append_nil_l t : String.append EmptyString t = t.
Proof. reflexivity. Qed.

Lemma append_cons c s t : String.append (String c s) t = String c (String.append s t).
Proof. reflexivity. Qed.

Lemma slen_append s t : slen (String.append s t) = slen s + slen t.
Proof.
  induction s as [|c s IH]; [rewrite append_nil_l; change (slen EmptyString) with 0; lia|].
  rewrite append_cons, !slen_cons, IH. lia.
Qed.

Lemma byte_at_0 c s : byte_at (String c s) 0 = Some c.
Proof. reflexivity. Qed.

Lemma byte_at_succ c s i : 0 <= i -> byte_at (String c s) (i + 1) = byte_at s i.
Proof.
  intros ?. unfold byte_at. repeat case_decide; try lia.
  replace (Z.to_nat (i + 1)) with (S (Z.to_nat i)) by lia. done.
Qed.

Lemma byte_at_nil i : byte_at EmptyString i = None.
Proof. unfold byte_at. case_decide; [|done]. by destruct (Z.to_nat i). Qed.

Lemma range_shift lo hi : range (lo + 1) (hi + 1) = map (fun i => i + 1) (range lo hi).
Proof.
  unfold range. replace (hi + 1 - (lo + 1)) with (hi - lo) by lia.
  rewrite map_map. apply map_ext. intros; lia.
Qed.

Lemma fold_left_map_arg {A B C} (f : A -> C -> A) (g : B -> C) (xs : list B) (a : A) :
  fold_left f (map g xs) a = fold_left (fun a x => f a (g x)) xs a.
Proof. revert a. induction xs as [|x xs IH]; intros a; cbn; [done|apply IH]. Qed.

Lemma fold_left_ext_in {A B} (f g : A -> B -> A) (xs : list B) (a : A) :
  (forall a x, x ∈ xs -> f a x = g a x) -> fold_left f xs a = fold_left g xs a.
Proof.
  revert a. induction xs as [|x xs IH]; intros a Hfg; cbn; [done|].
  rewrite Hfg by left. apply IH. intros; apply Hfg. by right.
Qed.

Lemma find_map_arg {A B} (P : B -> bool) (g : A -> B) (xs : list A) :
  List.find P (map g xs) = g <$> List.find (fun x => P (g x)) xs.
Proof.
  induction xs as [|x xs IH]; cbn; [done|]. destruct (P (g x)); [done|apply IH].
Qed.

Lemma find_ext_in {A} (P Q : A -> bool) (xs : list A) :
  (forall x, x ∈ xs -> P x = Q x) -> List.find P xs = List.find Q xs.
Proof.
  induction xs as [|x xs IH]; intros HPQ; cbn; [done|].
  rewrite HPQ by left. destruct (Q x); [done|]. apply IH. intros; apply HPQ. by right.
Qed.

(** ** The XOR distance, position by position *)

Lemma XorDistance_xor_from a b : XorDistance a b = xor_from a b 0.
Proof. reflexivity. Qed.

Lemma xor_from_nil_l b d : xor_from EmptyString b d = d.
Proof.
  unfold xor_from. rewrite range_nil; [done|].
  change (slen EmptyString) with 0. pose proof (slen_nonneg b). lia.
Qed.

Lemma xor_from_nil_r a d : xor_from a EmptyString d = d.
Proof.
  unfold xor_from. rewrite range_nil; [done|].
  change (slen EmptyString) with 0. pose proof (slen_nonneg a). lia.
Qed.

Lemma xor_from_cons x a y b d :
  xor_from (String x a) (String y b) d
  = xor_from a b (if decide (x = y) then d
                  else uint_wrap (d + shl_uint 1 (Z.min (slen a) (slen b)))).
Proof.
  unfold xor_from. rewrite !slen_cons.
  pose proof (slen_nonneg a). pose proof (slen_nonneg b).
  replace (Z.min (slen a + 1) (slen b + 1)) with (Z.min (slen a) (slen b) + 1) by lia.
  set (m := Z.min (slen a) (slen b)).
  rewrite range_cons by lia. cbn [fold_left].
  rewrite !byte_at_0. replace (m + 1 - 0 - 1) with m by lia.
  rewrite (range_shift 0 m), fold_left_map_arg.
  assert (Hd : (if decide (Some x = Some y) then d else uint_wrap (d + shl_uint 1 m))
               = (if decide (x = y) then d else uint_wrap (d + shl_uint 1 m))).
  { repeat case_decide; congruence. }
  rewrite Hd. apply fold_left_ext_in. intros d' i Hi%elem_of_range.
  rewrite !byte_at_succ by lia. replace (m + 1 - (i + 1) - 1) with (m - i - 1) by lia.
  done.
Qed.

Lemma xor_sum_bound a b : 0 <= xor_sum a b < 2 ^ Z.min (slen a) (slen b).
Proof.
  revert b. induction a as [|x a IH]; intros b.
  - cbn [xor_sum]. split; [lia|]. apply Z.pow_pos_nonneg; [lia|].
    change (slen EmptyString) with 0. pose proof (slen_nonneg b). lia.
  - destruct b as [|y b]; cbn [xor_sum].
    + split; [lia|]. apply Z.pow_pos_nonneg; [lia|].
      change (slen EmptyString) with 0. pose proof (slen_nonneg (String x a)). lia.
    + rewrite !slen_cons. specialize (IH b).
      pose proof (slen_nonneg a). pose proof (slen_nonneg b).
      replace (Z.min (slen a + 1) (slen b + 1)) with (Z.min (slen a) (slen b) + 1) by lia.
      rewrite Z.pow_add_r by lia. case_decide; lia.
Qed.

Lemma xor_from_sum a b d :
  0 <= d -> d + xor_sum a b < 2 ^ 64 -> xor_from a b d = d + xor_sum a b.
Proof.
  revert b d. induction a as [|x a IH]; intros [|y b] d Hd Hlt;
    rewrite ?xor_from_nil_l, ?xor_from_nil_r; cbn [xor_sum] in *; try lia.
  rewrite xor_from_cons. pose proof (xor_sum_bound a b) as Hb.
  case_decide.
  - rewrite IH; lia.
  - set (m := Z.min (slen a) (slen b)) in *.
    assert (0 <= m) by (pose proof (slen_nonneg a); pose proof (slen_nonneg b); lia).
    assert (0 < 2 ^ m) by (apply Z.pow_pos_nonneg; lia).
    assert (Hs : shl_uint 1 m = 2 ^ m).
    { unfold shl_uint, uint_wrap. rewrite Z.shiftl_1_l. apply Z.mod_small. lia. }
    rewrite Hs. unfold uint_wrap. rewrite Z.mod_small by lia.
    rewrite IH; lia.
Qed.

(** ** The first differing position *)

Lemma FirstDiffBitPos_nil_l b : FirstDiffBitPos EmptyString b = -1.
Proof.
  unfold FirstDiffBitPos. rewrite range_nil; [done|].
  change (slen EmptyString) with 0. pose proof (slen_nonneg b). lia.
Qed.

Lemma FirstDiffBitPos_nil_r a : FirstDiffBitPos a EmptyString = -1.
Proof.
  unfold FirstDiffBitPos. rewrite range_nil; [done|].
  change (slen EmptyString) with 0. pose proof (slen_nonneg a). lia.
Qed.

Lemma FirstDiffBitPos_cons x a y b :
  FirstDiffBitPos (String x a) (String y b)
  = if decide (x = y)
    then (let r := FirstDiffBitPos a b in if r =? -1 then -1 else r + 1)
    else 0.
Proof.
  unfold FirstDiffBitPos. rewrite !slen_cons.
  pose proof (slen_nonneg a). pose proof (slen_nonneg b).
  replace (Z.min (slen a + 1) (slen b + 1)) with (Z.min (slen a) (slen b) + 1) by lia.
  set (m := Z.min (slen a) (slen b)).
  rewrite range_cons by lia. cbn [List.find]. rewrite !byte_at_0.
  case_decide as Hxy.
  - subst y. rewrite bool_decide_eq_false_2 by (intros Hn; by apply Hn).
    rewrite (range_shift 0 m), find_map_arg.
    rewrite (find_ext_in _ (fun i => bool_decide (byte_at a i <> byte_at b i))).
    2:{ intros i Hi%elem_of_range. by rewrite !byte_at_succ by lia. }
    destruct (List.find _ (range 0 m)) as [i|] eqn:Hf; cbn; [|done].
    apply find_some in Hf as [Hi%list_elem_of_In%elem_of_range _].
    destruct (i =? -1) eqn:E; lia.
  - rewrite bool_decide_eq_true_2; [done|congruence].
Qed.

(** Two strings of one length are equal, or their XOR sum has its highest
    bit at the first differing position, counted from the end. *)
Lemma first_diff_xor_sum a b :
  slen a = slen b ->
  (FirstDiffBitPos a b = -1 /\ a = b /\ xor_sum a b = 0)
  \/ (0 <= FirstDiffBitPos a b < slen a /\ a <> b
      /\ 2 ^ (slen a - FirstDiffBitPos a b - 1) <= xor_sum a b
         < 2 ^ (slen a - FirstDiffBitPos a b)).
Proof.
  revert b. induction a as [|x a IH]; intros [|y b] Hlen.
  - left. by rewrite FirstDiffBitPos_nil_l.
  - rewrite slen_cons in Hlen. change (slen EmptyString) with 0 in Hlen.
    pose proof (slen_nonneg b). lia.
  - rewrite slen_cons in Hlen. change (slen EmptyString) with 0 in Hlen.
    pose proof (slen_nonneg a). lia.
  - rewrite !slen_cons in Hlen. assert (Hl : slen a = slen b) by lia.
    rewrite FirstDiffBitPos_cons, slen_cons. cbn [xor_sum].
    pose proof (slen_nonneg a). pose proof (xor_sum_bound a b) as Hb.
    rewrite <- Hl, Z.min_id in Hb. rewrite <- Hl, Z.min_id.
    case_decide as Hxy.
    + subst y. cbn zeta. destruct (IH b Hl) as [(Hp & -> & Hs)|(Hp & Hne & Hs)].
      * left. rewrite Hp. cbn. rewrite Hs. done.
      * right. destruct (FirstDiffBitPos a b =? -1) eqn:E; [lia|].
        split; [lia|]. split; [congruence|].
        replace (slen a + 1 - (FirstDiffBitPos a b + 1) - 1)
          with (slen a - FirstDiffBitPos a b - 1) by lia.
        replace (slen a + 1 - (FirstDiffBitPos a b + 1))
          with (slen a - FirstDiffBitPos a b) by lia.
        lia.
    + right. split; [lia|]. split; [congruence|].
      replace (slen a + 1 - 0 - 1) with (slen a) by lia.
      replace (slen a + 1 - 0) with (slen a + 1) by lia.
      rewrite Z.pow_add_r by lia. lia.
Qed.

(** ** The highest bit *)

Lemma shift_out_size d idx : shift_out d idx = idx + Z.pos (Pos.size d).
Proof.
  revert idx. induction d as [d IH|d IH|]; intros idx; cbn [shift_out Pos.size];
    rewrite ?IH, ?Pos2Z.inj_succ; lia.
Qed.

Lemma shift_out_bounds d k :
  2 ^ (k - 1) <= Z.pos d < 2 ^ k -> 1 <= k -> shift_out d 0 = k.
Proof.
  intros Hb Hk. rewrite shift_out_size.
  assert (Hs : Z.pos (Pos.size d) = Z.succ (Z.log2 (Z.pos d))).
  { destruct d; cbn [Pos.size Z.log2]; rewrite ?Pos2Z.inj_succ; lia. }
  rewrite Hs, (Z.log2_unique (Z.pos d) (k - 1)); [lia|lia|].
  replace (Z.succ (k - 1)) with k by lia. lia.
Qed.

(** ** The binary form of a Geohash *)

Lemma slen_CharToBits c : slen (CharToBits c) = 5.
Proof.
  unfold CharToBits. cbn [fold_left].
  repeat match goal with |- context [if ?b then _ else _] => destruct b end; reflexivity.
Qed.

Lemma slen_ToBinary h : slen (ToBinary h) = 5 * slen h.
Proof.
  induction h as [|c h IH]; [done|].
  cbn [ToBinary]. rewrite slen_append, slen_CharToBits, slen_cons, IH. lia.
Qed.

Lemma append_inj_len u u' v v' :
  slen u = slen u' -> String.append u v = String.append u' v' -> u = u' /\ v = v'.
Proof.
  revert u'. induction u as [|c u IH]; intros [|c' u'] Hl Heq.
  - done.
  - rewrite slen_cons in Hl. change (slen EmptyString) with 0 in Hl.
    pose proof (slen_nonneg u'). lia.
  - rewrite slen_cons in Hl. change (slen EmptyString) with 0 in Hl.
    pose proof (slen_nonneg u). lia.
  - rewrite !append_cons in Heq. injection Heq as -> Heq.
    rewrite !slen_cons in Hl. destruct (IH u') as [-> ->]; [lia|done|done].
Qed.

Lemma char_of_bits_CharToBits c : c ∈ alphabet -> char_of_bits (CharToBits c) = Some c.
Proof.
  set (ok := fun c => match char_of_bits (CharToBits c) with
                      | Some c' => Ascii.eqb c' c
                      | None => false
                      end).
  assert (Hall : forallb ok alphabet = true) by (vm_compute; reflexivity).
  intros Hc%list_elem_of_In.
  apply (proj1 (forallb_forall ok alphabet) Hall) in Hc. unfold ok in Hc.
  destruct (char_of_bits (CharToBits c)) as [c'|]; [|done].
  by apply Ascii.eqb_eq in Hc as ->.
Qed.

Lemma CharToBits_inj c c' :
  c ∈ alphabet -> c' ∈ alphabet -> CharToBits c = CharToBits c' -> c = c'.
Proof.
  intros Hc Hc' Heq. apply char_of_bits_CharToBits in Hc, Hc'.
  rewrite Heq in Hc. congruence.
Qed.

Lemma ToBinary_inj a b :
  valid_geohash a -> valid_geohash b -> ToBinary a = ToBinary b -> a = b.
Proof.
  unfold valid_geohash. revert b. induction a as [|x a IH]; intros [|y b] Ha Hb Heq.
  - done.
  - apply (f_equal slen) in Heq. rewrite !slen_ToBinary, slen_cons in Heq.
    change (slen EmptyString) with 0 in Heq. pose proof (slen_nonneg b). lia.
  - apply (f_equal slen) in Heq. rewrite !slen_ToBinary, slen_cons in Heq.
    change (slen EmptyString) with 0 in Heq. pose proof (slen_nonneg a). lia.
  - cbn [ToBinary] in Heq. cbn [list_ascii_of_string] in Ha, Hb.
    apply Forall_cons in Ha as [Hx Ha]. apply Forall_cons in Hb as [Hy Hb].
    apply append_inj_len in Heq as [Hc Ht]; [|by rewrite !slen_CharToBits].
    f_equal; [by apply CharToBits_inj|by apply IH].
Qed.

(** ** The bucket index and the first differing bit *)

Lemma valid_geohash_intro h :
  forallb (fun c => bool_decide (c ∈ alphabet)) (list_ascii_of_string h) = true ->
  valid_geohash h.
Proof.
  intros Hall. apply Forall_forall. intros c Hc%list_elem_of_In.
  apply (proj1 (forallb_forall _ _) Hall) in Hc. by apply bool_decide_eq_true_1 in Hc.
Qed.

(** C7, within the width of a [uint].  For valid Geohash strings [a] and [b]
    of one length [prec] with [5 * prec <= 64], the bucket index is 0
    exactly when [a = b], and otherwise it is [totalBits] minus the first
    differing position of the binary forms. *)
Theorem GetGeoBucketIndex_first_diff (a b : string) (prec : Z) :
  valid_geohash a -> valid_geohash b ->
  slen a = prec -> slen b = prec ->
  5 * prec <= 64 ->
  let totalBits := 5 * prec in
  (GetGeoBucketIndex a b totalBits = 0 <-> a = b)
  /\ (a <> b ->
      GetGeoBucketIndex a b totalBits
      = totalBits - FirstDiffBitPos (ToBinary a) (ToBinary b)).
Proof.
  intros Ha Hb Hla Hlb Hw totalBits.
  assert (HlA : slen (ToBinary a) = totalBits) by (rewrite slen_ToBinary; lia).
  assert (HlB : slen (ToBinary b) = totalBits) by (rewrite slen_ToBinary; lia).
  pose proof (xor_sum_bound (ToBinary a) (ToBinary b)) as Hbound.
  rewrite HlA, HlB, Z.min_id in Hbound.
  assert (Hpow : 2 ^ totalBits <= 2 ^ 64).
  { apply Z.pow_le_mono_r; [lia|]. subst totalBits. lia. }
  assert (Hx : XorDistance (ToBinary a) (ToBinary b) = xor_sum (ToBinary a) (ToBinary b)).
  { rewrite XorDistance_xor_from, xor_from_sum; lia. }
  unfold GetGeoBucketIndex. cbn zeta. rewrite Hx.
  destruct (first_diff_xor_sum (ToBinary a) (ToBinary b)) as [(Hp & Heq & Hs)|(Hp & Hne & Hs)];
    [lia| |].
  - apply ToBinary_inj in Heq; [|done..]. rewrite Hs. cbn. split; [done|]. by intros [].
  - rewrite HlA in Hp, Hs. set (p := FirstDiffBitPos (ToBinary a) (ToBinary b)) in *.
    assert (Hab : a <> b) by (intros ->; by apply Hne).
    assert (Hpos : 0 < xor_sum (ToBinary a) (ToBinary b)).
    { assert (0 < 2 ^ (totalBits - p - 1)) by (apply Z.pow_pos_nonneg; lia). lia. }
    destruct (xor_sum (ToBinary a) (ToBinary b)) as [|d|d] eqn:Hd; [lia| |lia].
    change (Z.pos d =? 0) with false. cbn match.
    rewrite (shift_out_bounds d (totalBits - p)); [|by replace (totalBits - p - 1) with (totalBits - p - 1) by lia|lia].
    split; [|done]. split; [lia|done].
Qed.

(** The theorem applies to the Geohash strings [s0] and [s1]. *)
Lemma GetGeoBucketIndex_first_diff_witness :
  (GetGeoBucketIndex "s0" "s1" 10 = 0 <-> "s0"%string = "s1"%string)
  /\ ("s0"%string <> "s1"%string ->
      GetGeoBucketIndex "s0" "s1" 10 = 10 - FirstDiffBitPos (ToBinary "s0") (ToBinary "s1")).
Proof.
  apply (GetGeoBucketIndex_first_diff "s0" "s1" 2);
    [by apply valid_geohash_intro | by apply valid_geohash_intro
    | reflexivity | reflexivity | lia].
Defined.

(** C7 for every length fails at 13 characters: the binary forms have 65
    bits, the first of them is the only one that differs, and [1 << 64] is
    0 in a [uint]. *)
Lemma GetGeoBucketIndex_wraps_at_13 :
  let a := "0000000000000"%string in
  let b := "h000000000000"%string in
  valid_geohash a /\ valid_geohash b
  /\ slen a = 13 /\ slen b = 13
  /\ a <> b
  /\ GetGeoBucketIndex a b (5 * 13) = 0
  /\ 5 * 13 - FirstDiffBitPos (ToBinary a) (ToBinary b) = 65.
Proof.
  cbn zeta. repeat split; try (by apply valid_geohash_intro); try reflexivity.
  discriminate.
Qed.

(** ** The order of [float64] *)

(** The comparisons of binary64, read through their specification
    [SFcompare]: numbers are ordered by sign, exponent and mantissa, and a
    NaN compares with nothing. *)
Ltac sf_cases :=
  cbn [SFcompare SFleb SFltb SFeqb];
  repeat match goal with
         | s : bool |- _ => destruct s
         end;
  cbn [SFcompare SFleb SFltb SFeqb CompOpp];
  repeat match goal with
         | |- context [Pos.compare_cont Eq ?a ?b] =>
             change (Pos.compare_cont Eq a b) with (Pos.compare a b);
             destruct (Pos.compare_spec a b)
         | |- context [Z.compare ?a ?b] => destruct (Z.compare_spec a b)
         end;
  cbn [CompOpp]; try done; try lia.

Lemma SFleb_trans f1 f2 f3 :
  SFleb f1 f2 = true -> SFleb f2 f3 = true -> SFleb f1 f3 = true.
Proof.
  unfold SFleb.
  destruct f1 as [s1|s1| |s1 m1 e1], f2 as [s2|s2| |s2 m2 e2], f3 as [s3|s3| |s3 m3 e3];
    sf_cases.
Qed.

Lemma SFltb_leb_trans f1 f2 f3 :
  SFltb f1 f2 = true -> SFleb f2 f3 = true -> SFltb f1 f3 = true.
Proof.
  unfold SFleb, SFltb.
  destruct f1 as [s1|s1| |s1 m1 e1], f2 as [s2|s2| |s2 m2 e2], f3 as [s3|s3| |s3 m3 e3];
    sf_cases.
Qed.

Lemma SFleb_ltb_trans f1 f2 f3 :
  SFleb f1 f2 = true -> SFltb f2 f3 = true -> SFltb f1 f3 = true.
Proof.
  unfold SFleb, SFltb.
  destruct f1 as [s1|s1| |s1 m1 e1], f2 as [s2|s2| |s2 m2 e2], f3 as [s3|s3| |s3 m3 e3];
    sf_cases.
Qed.

Lemma SFltb_not_leb f1 f2 : SFltb f1 f2 = true -> SFleb f2 f1 = false.
Proof.
  unfold SFleb, SFltb.
  destruct f1 as [s1|s1| |s1 m1 e1], f2 as [s2|s2| |s2 m2 e2]; sf_cases.
Qed.

Lemma SFltb_leb f1 f2 : SFltb f1 f2 = true -> SFleb f1 f2 = true.
Proof. unfold SFleb, SFltb. by destruct (SFcompare f1 f2) as [[]|]. Qed.

Lemma SFleb_total f1 f2 :
  f1 <> S754_nan -> f2 <> S754_nan -> SFltb f1 f2 = false -> SFleb f2 f1 = true.
Proof.
  unfold SFleb, SFltb.
  destruct f1 as [s1|s1| |s1 m1 e1], f2 as [s2|s2| |s2 m2 e2]; sf_cases.
Qed.

Lemma SFeqb_refl f : SFeqb f f = negb (match f with S754_nan => true | _ => false end).
Proof.
  unfold SFeqb. destruct f as [s|s| |s m e]; cbn [SFcompare];
    [by destruct s|by destruct s|done|].
  change (Pos.compare_cont Eq m m) with (Pos.compare m m).
  rewrite Z.compare_refl, Pos.compare_refl. by destruct s.
Qed.

Lemma is_nan_false x : is_nan x = false <-> Prim2SF x <> S754_nan.
Proof.
  unfold is_nan. rewrite FloatAxioms.eqb_spec, SFeqb_refl.
  destruct (Prim2SF x); cbn; split; congruence.
Qed.

Lemma fle_trans x y z :
  PrimFloat.leb x y = true -> PrimFloat.leb y z = true -> PrimFloat.leb x z = true.
Proof. rewrite !FloatAxioms.leb_spec. apply SFleb_trans. Qed.

Lemma flt_le_trans x y z :
  PrimFloat.ltb x y = true -> PrimFloat.leb y z = true -> PrimFloat.ltb x z = true.
Proof. rewrite !FloatAxioms.leb_spec, !FloatAxioms.ltb_spec. apply SFltb_leb_trans. Qed.

Lemma fle_lt_trans x y z :
  PrimFloat.leb x y = true -> PrimFloat.ltb y z = true -> PrimFloat.ltb x z = true.
Proof. rewrite !FloatAxioms.leb_spec, !FloatAxioms.ltb_spec. apply SFleb_ltb_trans. Qed.

Lemma flt_not_ge x y : PrimFloat.ltb x y = true -> PrimFloat.leb y x = false.
Proof. rewrite !FloatAxioms.leb_spec, !FloatAxioms.ltb_spec. apply SFltb_not_leb. Qed.

Lemma flt_le x y : PrimFloat.ltb x y = true -> PrimFloat.leb x y = true.
Proof. rewrite !FloatAxioms.leb_spec, !FloatAxioms.ltb_spec. apply SFltb_leb. Qed.

(** Of two numbers, one is less than the other or the other is at most it. *)
Lemma fle_total x y :
  is_nan x = false -> is_nan y = false ->
  PrimFloat.ltb x y = false -> PrimFloat.leb y x = true.
Proof. rewrite !is_nan_false, FloatAxioms.leb_spec, FloatAxioms.ltb_spec. apply SFleb_total. Qed.

Lemma fle_not_nan x y :
  PrimFloat.leb x y = true -> is_nan x = false /\ is_nan y = false.
Proof.
  rewrite !is_nan_false, FloatAxioms.leb_spec. unfold SFleb.
  destruct (Prim2SF x), (Prim2SF y); cbn; try done.
Qed.

(** ** Vivaldi: the error and the height after an observation *)

Lemma for_each_inv {S X} (I : S -> Prop) (body : S -> X -> option S) xs s :
  I s ->
  (forall s x, x ∈ xs -> I s -> exists s', body s x = Some s' /\ I s') ->
  exists s', for_each body xs s = Some s' /\ I s'.
Proof.
  revert s. induction xs as [|x xs IH]; intros s Hs Hb; cbn; [by exists s|].
  destruct (Hb s x) as (s1 & -> & Hs1); [by left|done|]. cbn.
  apply IH; [done|]. intros s2 y Hy. apply Hb. by right.
Qed.

Lemma move_vector_Some (local peer : list float) (force predictedRTT : float) :
  (length local <= length peer)%nat ->
  is_Some (move_vector local peer force predictedRTT).
Proof.
  intros Hlen. unfold move_vector.
  destruct (for_each_inv (fun vec => len vec = len local)
              (fun vec i =>
                 x ← at_ vec i;
                 y ← at_ peer i;
                 Some (set_at vec i (x + force * (x - y) / predictedRTT)%float))
              (range 0 (len local)) local) as (v & Hv & _); [done| |by rewrite Hv].
  intros vec i Hi%elem_of_range Hvec.
  destruct (at_lt vec i) as [x Hx]; [lia|].
  destruct (at_lt peer i) as [y Hy]; [unfold len in *; lia|].
  rewrite Hx. cbn. rewrite Hy. cbn. eexists. split; [done|]. by rewrite len_set_at.
Qed.

(** A value clamped from below is not below the bound. *)
Lemma clamp_below_not_lt (x c : float) :
  PrimFloat.ltb c c = false ->
  PrimFloat.ltb (if PrimFloat.ltb x c then c else x) c = false.
Proof. intros Hc. by destruct (PrimFloat.ltb x c) eqn:E. Qed.

(** What the two clamps of [Observe] give.  When the peer's vector is not
    shorter than the local one, [Observe] returns; the tests [Error < 0.01]
    and [Height < 0] are then false of the local coordinate, and an error and
    a height that are numbers are at least [ERR_MIN = 0.01] and at least 0.
    A NaN passes both tests. *)
Lemma Observe_clamps (vm : VivaldiModel) (peerID : Z)
    (peerCoord : VivaldiCoordinate) (rtt : float) :
  (length (Vector (LocalCoord vm)) <= length (Vector peerCoord))%nat ->
  exists vm',
    Observe vm peerID peerCoord rtt = Some vm'
    /\ PrimFloat.ltb (Error (LocalCoord vm')) VivaldiMinError = false
    /\ PrimFloat.ltb (Height (LocalCoord vm')) 0 = false
    /\ (is_nan (Error (LocalCoord vm')) = false
        -> PrimFloat.leb VivaldiMinError (Error (LocalCoord vm')) = true)
    /\ (is_nan (Height (LocalCoord vm')) = false
        -> PrimFloat.leb 0 (Height (LocalCoord vm')) = true).
Proof.
  intros Hlen. unfold Observe. cbv zeta.
  match goal with
  | |- context [mbind _ ?o] =>
      assert (Hv : is_Some o)
  end.
  { destruct (fgt _ _); [by apply move_vector_Some|done]. }
  destruct Hv as [v Hv]. rewrite Hv. cbn [mbind option_bind].
  eexists. split; [reflexivity|]. cbn [LocalCoord Error Height].
  assert (He : forall x, PrimFloat.ltb (if PrimFloat.ltb x VivaldiMinError
                                        then VivaldiMinError else x) VivaldiMinError = false).
  { intros x. by apply clamp_below_not_lt. }
  assert (Hh : forall x, PrimFloat.ltb (if PrimFloat.ltb x 0 then 0%float else x) 0 = false).
  { intros x. by apply clamp_below_not_lt. }
  split; [apply He|]. split; [apply Hh|]. split.
  - intros Hn. apply fle_total; [done|done|apply He].
  - intros Hn. apply fle_total; [done|done|apply Hh].
Qed.


(** ** Geohash: decoding and encoding along a path *)

Lemma alphabet_forall (P : ascii -> bool) c :
  forallb P alphabet = true -> c ∈ alphabet -> P c = true.
Proof.
  intros Hall Hc%list_elem_of_In. by apply (proj1 (forallb_forall P alphabet) Hall).
Qed.

Lemma decode_bit_dec_step st b : decode_bit st b = dec_step st (b =? 1).
Proof. destruct st as [[la lo] ev]. cbn. by destruct ev, (b =? 1). Qed.

Lemma decode_char_bits st c :
  decode_char st (IndexRune Base32Charset c) = fold_left dec_step (char_bits c) st.
Proof.
  unfold decode_char, char_bits. rewrite fold_left_map_arg.
  apply fold_left_ext_in. intros; apply decode_bit_dec_step.
Qed.

Lemma decode_loop_bits h st :
  valid_geohash h -> decode_loop h st = fold_left dec_step (bits_of h) st.
Proof.
  unfold valid_geohash. revert st. induction h as [|c h IH]; intros st Hv; [done|].
  cbn [list_ascii_of_string] in Hv. apply Forall_cons in Hv as [Hc Hv].
  cbn [decode_loop bits_of]. rewrite fold_left_app, <- decode_char_bits.
  assert (Hix : (IndexRune Base32Charset c =? -1) = false).
  { apply (alphabet_forall (fun c => negb (IndexRune Base32Charset c =? -1))) in Hc;
      [by apply negb_true_iff in Hc|by vm_compute]. }
  rewrite Hix. by apply IH.
Qed.

Lemma fold_dec_step bs la lo ev :
  fold_left dec_step bs (la, lo, ev)
  = (descend la (lat_bits ev bs), descend lo (lon_bits ev bs),
     if Nat.even (length bs) then ev else negb ev).
Proof.
  revert la lo ev. induction bs as [|b bs IH]; intros la lo ev; [done|].
  cbn [fold_left dec_step length]. unfold lat_bits.
  destruct ev; rewrite IH; unfold lat_bits, descend; cbn [lon_bits negb fold_left];
    rewrite Nat.even_succ, <- Nat.negb_even; by destruct (Nat.even (length bs)).
Qed.

(** The characters written for the bits of a valid string are the string. *)
Lemma chars_of_bits_of h : valid_geohash h -> chars_of_bits 0 0 (bits_of h) = Some h.
Proof.
  unfold valid_geohash. induction h as [|c h IH]; intros Hv; [done|].
  cbn [list_ascii_of_string] in Hv. apply Forall_cons in Hv as [Hc Hv].
  cbn [bits_of]. unfold char_bits. cbn [map app chars_of_bits].
  change (0 + 1 =? 5) with false. change (0 + 1 + 1 =? 5) with false.
  change (0 + 1 + 1 + 1 =? 5) with false. change (0 + 1 + 1 + 1 + 1 =? 5) with false.
  change (0 + 1 + 1 + 1 + 1 + 1 =? 5) with true. cbv iota.
  match goal with
  | |- mbind _ (byte_at Base32Charset ?ix) = _ =>
      assert (Hb : byte_at Base32Charset ix = Some c)
  end.
  { apply (alphabet_forall
             (fun c => bool_decide
                (chars_of_bits 0 0 (char_bits c) = Some (String c EmptyString))))
      in Hc; [|by vm_compute].
    apply bool_decide_eq_true_1 in Hc. unfold char_bits in Hc.
    cbn [map chars_of_bits] in Hc.
    change (0 + 1 =? 5) with false in Hc. change (0 + 1 + 1 =? 5) with false in Hc.
    change (0 + 1 + 1 + 1 =? 5) with false in Hc.
    change (0 + 1 + 1 + 1 + 1 =? 5) with false in Hc.
    change (0 + 1 + 1 + 1 + 1 + 1 =? 5) with true in Hc. cbv iota in Hc.
    destruct (byte_at Base32Charset _) as [c'|]; [|done]. cbn in Hc. congruence. }
  rewrite Hb. cbn [mbind option_bind]. by rewrite IH.
Qed.

Lemma cell_ok_bounds r :
  cell_ok r = true ->
  PrimFloat.leb (Min r) (Mid r) = true /\ PrimFloat.ltb (Mid r) (Max r) = true.
Proof. unfold cell_ok. by intros [? ?]%andb_prop. Qed.

Lemma tree_ok_path d r bs :
  tree_ok d r = true -> (length bs <= d)%nat -> path_ok r bs = true.
Proof.
  revert r bs. induction d as [|d IH]; intros r bs Ht Hl.
  - destruct bs; [|cbn in Hl; lia]. cbn in *. by rewrite Ht.
  - cbn [tree_ok] in Ht. apply andb_prop in Ht as [Hc [H1 H0]%andb_prop].
    destruct bs as [|b bs]; cbn [path_ok]; rewrite Hc; [done|]. cbn [andb].
    cbn in Hl. destruct b; apply IH; (done || lia).
Qed.

(** The midpoint at the end of a path is inside the range the path starts
    from. *)
Lemma path_inside r bs :
  path_ok r bs = true ->
  PrimFloat.leb (Min r) (Mid (descend r bs)) = true
  /\ PrimFloat.ltb (Mid (descend r bs)) (Max r) = true.
Proof.
  revert r. induction bs as [|b bs IH]; intros r Hp; cbn [path_ok] in Hp.
  - apply andb_prop in Hp as [Hc _]. by apply cell_ok_bounds.
  - apply andb_prop in Hp as [[Hlo Hhi]%cell_ok_bounds Hp].
    destruct (IH _ Hp) as [Hmin Hmax]. unfold descend in *. cbn [fold_left].
    destruct b; cbn [halve Min Max] in Hmin, Hmax.
    + split; [by eapply fle_trans|done].
    + split; [done|]. eapply flt_le_trans; [done|]. by apply flt_le.
Qed.

(** The test of [Encode] on that midpoint answers the first bit of the
    path. *)
Lemma path_first_bit r b bs :
  path_ok r (b :: bs) = true -> fge (Mid (descend r (b :: bs))) (Mid r) = b.
Proof.
  cbn [path_ok]. intros [_ Hp]%andb_prop.
  destruct (path_inside _ _ Hp) as [Hmin Hmax]. unfold fge, descend in *.
  cbn [fold_left]. destruct b; cbn [halve Min Max] in Hmin, Hmax; [done|].
  by apply flt_not_ge.
Qed.

Lemma lon_bits_length ev bs :
  (2 * length (lon_bits ev bs) <= length bs + (if ev then 1 else 0))%nat.
Proof.
  revert ev. induction bs as [|b bs IH]; intros ev; [destruct ev; cbn; lia|].
  destruct ev; cbn [lon_bits negb length].
  - specialize (IH false). cbn in IH. lia.
  - specialize (IH true). cbn in IH. lia.
Qed.

Lemma bits_of_length h : length (bits_of h) = (5 * String.length h)%nat.
Proof.
  induction h as [|c h IH]; [done|].
  cbn [bits_of String.length]. rewrite length_app, IH. cbn. lia.
Qed.

Lemma append_nil_r s : String.append s EmptyString = s.
Proof. induction s as [|c s IH]; [done|]. by rewrite append_cons, IH. Qed.

Lemma append_assoc s t u :
  String.append (String.append s t) u = String.append s (String.append t u).
Proof. induction s as [|c s IH]; [done|]. by rewrite !append_cons, IH. Qed.

Lemma slen_0 s : slen s <= 0 -> s = EmptyString.
Proof. destruct s; [done|]. rewrite slen_cons. pose proof (slen_nonneg s). lia. Qed.

(** [Encode] along a path: when the point is the midpoint at the end of the
    paths of its two coordinates, the loop reads the bits of the path. *)
Lemma encode_loop_path (prec : Z) (lat lon : float) bs :
  forall (st : EncState) (fuel : nat) (s : string),
    (length bs <= fuel)%nat ->
    chars_of_bits (bit st) (idx st) bs = Some s ->
    slen (geohash st) + slen s = prec ->
    path_ok (lonRange st) (lon_bits (isEven st) bs) = true ->
    path_ok (latRange st) (lat_bits (isEven st) bs) = true ->
    lon = Mid (descend (lonRange st) (lon_bits (isEven st) bs)) ->
    lat = Mid (descend (latRange st) (lat_bits (isEven st) bs)) ->
    encode_loop fuel prec lat lon st = Some (String.append (geohash st) s).
Proof.
  induction bs as [|b bs IH]; intros st fuel s Hfuel Hs Hlen Hlon Hlat Elon Elat.
  - cbn in Hs. injection Hs as <-. change (slen EmptyString) with 0 in Hlen.
    rewrite append_nil_r. destruct fuel; cbn [encode_loop];
      by destruct (slen (geohash st) <? prec) eqn:E; [lia|].
  - destruct (slen (geohash st) <? prec) eqn:E.
    2:{ assert (s = EmptyString) as -> by (apply slen_0; lia).
        rewrite append_nil_r. destruct fuel; cbn [encode_loop]; by rewrite E. }
    destruct fuel as [|fuel]; [cbn in Hfuel; lia|].
    cbn [encode_loop]. rewrite E.
    cbn [chars_of_bits] in Hs. unfold lat_bits in *.
    destruct st as [la lo ev k ix g]. cbn [bit idx geohash isEven latRange lonRange] in *.
    unfold encode_step. cbn [bit idx geohash isEven latRange lonRange].
    destruct ev; cbn [lon_bits negb] in *.
    + pose proof (path_first_bit _ _ _ Hlon) as Hb. rewrite <- Elon in Hb. rewrite Hb.
      cbn [path_ok] in Hlon. apply andb_prop in Hlon as [_ Hlon].
      assert (Hix : (if b then (la, {| Min := Mid lo; Max := Max lo |}, ix * 2 + 1)
                     else (la, {| Min := Min lo; Max := Mid lo |}, ix * 2))
                    = (la, halve lo b, ix * 2 + (if b then 1 else 0))).
      { destruct b; [done|]. cbn [halve]. by rewrite Z.add_0_r. }
      rewrite Hix. clear Hix.
      destruct (k + 1 =? 5) eqn:Ek.
      * destruct (byte_at Base32Charset _) as [c|]; [|done].
        cbn [mbind option_bind fmap option_fmap option_map] in Hs |- *.
        destruct (chars_of_bits 0 0 bs) as [s'|] eqn:Hs'; [|done].
        cbn in Hs. injection Hs as <-.
        rewrite (IH _ fuel s'); cbn [bit idx geohash isEven latRange lonRange negb];
          try done.
        -- by rewrite append_assoc.
        -- cbn in Hfuel. lia.
        -- rewrite slen_append, !slen_cons in *. change (slen EmptyString) with 0. lia.
      * cbn [mbind option_bind].
        rewrite (IH _ fuel s); cbn [bit idx geohash isEven latRange lonRange negb];
          try done.
        cbn in Hfuel. lia.
    + pose proof (path_first_bit _ _ _ Hlat) as Hb. rewrite <- Elat in Hb. rewrite Hb.
      cbn [path_ok] in Hlat. apply andb_prop in Hlat as [_ Hlat].
      assert (Hix : (if b then ({| Min := Mid la; Max := Max la |}, lo, ix * 2 + 1)
                     else ({| Min := Min la; Max := Mid la |}, lo, ix * 2))
                    = (halve la b, lo, ix * 2 + (if b then 1 else 0))).
      { destruct b; [done|]. cbn [halve]. by rewrite Z.add_0_r. }
      rewrite Hix. clear Hix.
      destruct (k + 1 =? 5) eqn:Ek.
      * destruct (byte_at Base32Charset _) as [c|]; [|done].
        cbn [mbind option_bind fmap option_fmap option_map] in Hs |- *.
        destruct (chars_of_bits 0 0 bs) as [s'|] eqn:Hs'; [|done].
        cbn in Hs. injection Hs as <-.
        rewrite (IH _ fuel s'); cbn [bit idx geohash isEven latRange lonRange negb];
          try done.
        -- by rewrite append_assoc.
        -- cbn in Hfuel. lia.
        -- rewrite slen_append, !slen_cons in *. change (slen EmptyString) with 0. lia.
      * cbn [mbind option_bind].
        rewrite (IH _ fuel s); cbn [bit idx geohash isEven latRange lonRange negb];
          try done.
        cbn in Hfuel. lia.
Qed.

(** Down to 25 halvings of the longitude and of the latitude range, every
    midpoint is computed inside its range: checked on all the ranges. *)
Lemma lon_tree_ok : tree_ok 25 lon0 = true.
Proof. vm_cast_no_check (eq_refl true). Qed.

Lemma lat_tree_ok : tree_ok 25 lat0 = true.
Proof. vm_cast_no_check (eq_refl true). Qed.

(** C8, where [float64] still tells the halves apart.  Encoding the decoded
    midpoint of a valid Geohash string, at the precision of its length,
    gives the string back when the string has at most 10 characters, and
    more generally when every midpoint on its way is computed inside its
    range ([geohash_path_ok]). *)
Theorem Encode_Decode_roundtrip (h : string) :
  valid_geohash h -> slen h <= 10 \/ geohash_path_ok h = true ->
  Encode (slen h) (Decode h).1 (Decode h).2 = Some h.
Proof.
  intros Hv Hlen.
  assert (Hpath : path_ok lon0 (lon_bits true (bits_of h)) = true
                  /\ path_ok lat0 (lat_bits true (bits_of h)) = true).
  { destruct Hlen as [Hlen|Hp]; [|by apply andb_prop in Hp].
    assert (Hbits : (length (bits_of h) <= 50)%nat).
    { rewrite bits_of_length. unfold slen in Hlen. lia. }
    pose proof (lon_bits_length true (bits_of h)) as Hl1.
    pose proof (lon_bits_length false (bits_of h)) as Hl0. cbn in Hl1, Hl0.
    split; apply (tree_ok_path 25);
      [apply lon_tree_ok|lia|apply lat_tree_ok|unfold lat_bits; cbn; lia]. }
  destruct Hpath as [Hplon Hplat]. clear Hlen.
  unfold Decode.
  rewrite decode_loop_bits, fold_dec_step by done. cbn [fst snd].
  unfold Encode. destruct (slen h <=? 0) eqn:E.
  { f_equal. symmetry. apply slen_0. lia. }
  pose proof (encode_loop_path (slen h)
                (Mid (descend lat0 (lat_bits true (bits_of h))))
                (Mid (descend lon0 (lon_bits true (bits_of h))))
                (bits_of h)
                {| latRange := lat0; lonRange := lon0; isEven := true;
                   bit := 0; idx := 0; geohash := EmptyString |}
                (5 * Z.to_nat (slen h)) h) as Hrt.
  cbn [bit idx geohash isEven latRange lonRange] in Hrt.
  rewrite append_nil_l in Hrt. apply Hrt.
  - rewrite bits_of_length. unfold slen. lia.
  - by apply chars_of_bits_of.
  - change (slen EmptyString) with 0. lia.
  - done.
  - done.
  - done.
  - done.
Qed.

(** The theorem applies to the Geohash [ezs42]. *)
Lemma Encode_Decode_roundtrip_witness :
  Encode (slen "ezs42") (Decode "ezs42").1 (Decode "ezs42").2 = Some "ezs42"%string.
Proof.
  apply Encode_Decode_roundtrip; [by apply valid_geohash_intro|left; by vm_compute].
Defined.

(** C8 for every precision fails at 22 characters: the longitude range of
    [00...0] closes to the single point -180, which [Encode] places in the
    upper half of every range that ends there. *)
Lemma Encode_Decode_22_zeros :
  let h := "0000000000000000000000"%string in
  valid_geohash h /\ slen h = 22
  /\ geohash_path_ok h = false
  /\ Decode h = ((-90)%float, (-180)%float)
  /\ Encode (slen h) (Decode h).1 (Decode h).2 = Some "0000000000000000000003"%string.
Proof.
  cbv zeta. split; [by apply valid_geohash_intro|]. split; [reflexivity|].
  repeat split; vm_compute; reflexivity.
Qed.

(** ** The simulator: the statistics of a repetition *)

Lemma add_at_Some xs i x : 0 <= i < len xs -> exists ys, add_at xs i x = Some ys /\ len ys = len xs.
Proof.
  intros Hi. unfold add_at. destruct (at_lt xs i Hi) as [y ->]. cbn.
  eexists. split; [done|]. by rewrite len_set_at.
Qed.

Lemma incr_at_Some xs i : 0 <= i < len xs -> exists ys, incr_at xs i = Some ys /\ len ys = len xs.
Proof.
  intros Hi. unfold incr_at. destruct (at_lt xs i Hi) as [y ->]. cbn.
  eexists. split; [done|]. by rewrite len_set_at.
Qed.

Lemma tally_node_uncovered flags mal leave cr t i :
  uncovered flags mal leave i = true ->
  0 <= i < len (t_recvTime t) -> 0 <= i < len (t_depth t) ->
  tally_node flags mal leave cr t i
  = Some {| t_recvTime := set_at (t_recvTime t) i inf;
            t_recvList := t_recvList t ++ [i];
            t_depth := set_at (t_depth t) i (MaxDepth - 1);
            t_recvCount := t_recvCount t;
            t_avgLatency := t_avgLatency t;
            t_clusterRecvCount := t_clusterRecvCount t;
            t_clusterAvgDepth := t_clusterAvgDepth t;
            t_clusterAvgLatency := t_clusterAvgLatency t |}.
Proof.
  unfold uncovered, tally_node. intros Hu Ht Hd.
  destruct (at_ flags i) as [[]|]; [done| |done]. cbn [mbind option_bind].
  destruct (at_ mal i) as [[]|]; [done| |done]. cbn [mbind option_bind].
  destruct (at_ leave i) as [[]|]; [done| |done]. cbn [mbind option_bind negb].
  destruct (at_lt _ _ Ht) as [x ->]. destruct (at_lt _ _ Hd) as [y ->]. done.
Qed.

Lemma tally_node_covered flags mal leave cr t i n :
  uncovered flags mal leave i = false ->
  0 <= i < n -> len flags = n -> len mal = n -> len leave = n ->
  len (t_recvTime t) = n -> len (t_depth t) = n -> cluster_ok n cr t ->
  exists t',
    tally_node flags mal leave cr t i = Some t'
    /\ t_recvTime t' = t_recvTime t /\ t_recvList t' = t_recvList t
    /\ t_depth t' = t_depth t /\ cluster_ok n cr t'.
Proof.
  unfold uncovered, tally_node. intros Hu Hi Hf Hm Hl Ht Hd Hc.
  destruct (at_lt flags i) as [fl Hfl]; [lia|].
  destruct (at_lt mal i) as [ml Hml]; [lia|].
  destruct (at_lt leave i) as [lv Hlv]; [lia|].
  destruct (at_lt (t_recvTime t) i) as [x Hx]; [lia|].
  destruct (at_lt (t_depth t) i) as [d Hdp]; [lia|].
  rewrite Hfl, Hml, Hlv in Hu. rewrite Hfl. cbn [mbind option_bind].
  destruct fl.
  - cbn [mbind option_bind]. rewrite Hx. cbn [mbind option_bind].
    destruct cr as [cr|]; [|eexists; by split].
    destruct Hc as (Hc1 & Hc2 & Hc3 & Hc4).
    destruct (at_lt (ClusterID cr) i) as [c Hcl]; [lia|]. rewrite Hcl. cbn [mbind option_bind].
    destruct ((0 <=? c) && (c <? K)) eqn:E; [|eexists; by split].
    apply andb_prop in E as [E1 E2].
    destruct (incr_at_Some (t_clusterRecvCount t) c) as (cnt & -> & Hcnt); [lia|].
    cbn [mbind option_bind]. rewrite Hdp. cbn [mbind option_bind].
    destruct (add_at_Some (t_clusterAvgDepth t) c (float_of_int d)) as (cd & -> & Hcd); [lia|].
    cbn [mbind option_bind].
    destruct (add_at_Some (t_clusterAvgLatency t) c x) as (cl & -> & Hcl'); [lia|].
    cbn [mbind option_bind]. eexists. split; [done|]. cbn. repeat split; congruence.
  - rewrite Hml. cbn [mbind option_bind]. destruct ml.
    + cbn [mbind option_bind]. eexists. by split.
    + rewrite Hlv. cbn [mbind option_bind]. destruct lv; [|done].
      cbn [mbind option_bind negb]. eexists. by split.
Qed.

Lemma uncovered_range flags mal leave i :
  uncovered flags mal leave i = true -> 0 <= i < len flags.
Proof.
  unfold uncovered. destruct (at_ flags i) eqn:E; [|done]. intros _. by apply at_Some in E.
Qed.

Lemma tally_nodes_prefix flags mal leave cr t n (k : nat) :
  len flags = n -> len mal = n -> len leave = n ->
  len (t_recvTime t) = n -> len (t_depth t) = n -> cluster_ok n cr t ->
  Z.of_nat k <= n ->
  exists t',
    for_each (tally_node flags mal leave cr) (range 0 (Z.of_nat k)) t = Some t'
    /\ t_recvList t'
       = t_recvList t
         ++ filter (fun i => uncovered flags mal leave i = true) (range 0 (Z.of_nat k))
    /\ len (t_recvTime t') = n /\ len (t_depth t') = n /\ cluster_ok n cr t'
    /\ (forall i, at_ (t_recvTime t') i
                  = if uncovered flags mal leave i && (i <? Z.of_nat k)
                    then Some inf else at_ (t_recvTime t) i)
    /\ (forall i, at_ (t_depth t') i
                  = if uncovered flags mal leave i && (i <? Z.of_nat k)
                    then Some (MaxDepth - 1) else at_ (t_depth t) i).
Proof.
  intros Hf Hm Hl Ht Hd Hc. induction k as [|k IH]; intros Hk.
  - exists t. rewrite range_nil by lia. cbn [for_each]. rewrite filter_nil, app_nil_r.
    split; [done|]. split; [done|]. split; [done|]. split; [done|]. split; [done|].
    split; intros i.
    + destruct (uncovered flags mal leave i) eqn:Hi; cbn [andb]; [|done].
      apply uncovered_range in Hi. change (Z.of_nat 0) with 0.
      destruct (Z.ltb_spec i 0); [lia|done].
    + destruct (uncovered flags mal leave i) eqn:Hi; cbn [andb]; [|done].
      apply uncovered_range in Hi. change (Z.of_nat 0) with 0.
      destruct (Z.ltb_spec i 0); [lia|done].
  - destruct IH as (t1 & Hrun & Hlist & Ht1 & Hd1 & Hc1 & Htime & Hdepth); [lia|].
    rewrite Nat2Z.inj_succ, <- Z.add_1_r, range_snoc, for_each_app, Hrun by lia.
    cbn [mbind option_bind for_each]. rewrite filter_app.
    destruct (uncovered flags mal leave (Z.of_nat k)) eqn:Hu.
    + rewrite tally_node_uncovered by (done || lia). cbn [mbind option_bind].
      eexists. split; [done|]. cbn [t_recvList t_recvTime t_depth].
      rewrite !len_set_at. split.
      { rewrite Hlist, <- app_assoc. f_equal. f_equal.
        rewrite filter_cons_True by done. done. }
      split; [done|]. split; [done|]. split; [by destruct cr|].
      split; intros i.
      * destruct (decide (i = Z.of_nat k)) as [->|Hne].
        -- rewrite at_set_at_eq by lia. rewrite Hu.
           by destruct (Z.of_nat k <? Z.of_nat k + 1) eqn:E; [|lia].
        -- rewrite at_set_at_ne by lia. rewrite Htime.
           destruct (uncovered flags mal leave i) eqn:Hi; cbn; [|done].
           destruct (i <? Z.of_nat k) eqn:E1, (i <? Z.of_nat k + 1) eqn:E2; try done; lia.
      * destruct (decide (i = Z.of_nat k)) as [->|Hne].
        -- rewrite at_set_at_eq by lia. rewrite Hu.
           by destruct (Z.of_nat k <? Z.of_nat k + 1) eqn:E; [|lia].
        -- rewrite at_set_at_ne by lia. rewrite Hdepth.
           destruct (uncovered flags mal leave i) eqn:Hi; cbn; [|done].
           destruct (i <? Z.of_nat k) eqn:E1, (i <? Z.of_nat k + 1) eqn:E2; try done; lia.
    + destruct (tally_node_covered flags mal leave cr t1 (Z.of_nat k) n)
        as (t2 & -> & Ht2 & Hl2 & Hd2 & Hc2); try done; try lia.
      cbn [mbind option_bind]. exists t2. split; [done|].
      rewrite Ht2, Hl2, Hd2. split.
      { rewrite Hlist. f_equal. rewrite filter_cons_False by (by rewrite Hu).
        by rewrite filter_nil, app_nil_r. }
      split; [done|]. split; [done|]. split; [done|].
      split; intros i.
      * rewrite Htime. destruct (uncovered flags mal leave i) eqn:Hi; cbn; [|done].
        destruct (i <? Z.of_nat k) eqn:E1, (i <? Z.of_nat k + 1) eqn:E2; try done; try lia.
        assert (i = Z.of_nat k) by lia. congruence.
      * rewrite Hdepth. destruct (uncovered flags mal leave i) eqn:Hi; cbn; [|done].
        destruct (i <? Z.of_nat k) eqn:E1, (i <? Z.of_nat k + 1) eqn:E2; try done; try lia.
        assert (i = Z.of_nat k) by lia. congruence.
Qed.

Lemma tally_nodes_Some flags mal leave cr t n :
  len flags = n -> len mal = n -> len leave = n ->
  len (t_recvTime t) = n -> len (t_depth t) = n -> cluster_ok n cr t ->
  exists t',
    tally_nodes n flags mal leave cr t = Some t'
    /\ t_recvList t'
       = t_recvList t ++ filter (fun i => uncovered flags mal leave i = true) (range 0 n)
    /\ len (t_recvTime t') = n /\ len (t_depth t') = n /\ cluster_ok n cr t'
    /\ (forall i, at_ (t_recvTime t') i
                  = if uncovered flags mal leave i then Some inf else at_ (t_recvTime t) i)
    /\ (forall i, at_ (t_depth t') i
                  = if uncovered flags mal leave i then Some (MaxDepth - 1)
                    else at_ (t_depth t) i).
Proof.
  intros Hf Hm Hl Ht Hd Hc.
  assert (0 <= n) as Hn by (subst n; apply len_nonneg).
  destruct (tally_nodes_prefix flags mal leave cr t n (Z.to_nat n))
    as (t' & Hrun & Hlist & Ht' & Hd' & Hc' & Htime & Hdepth); try done; [lia|].
  rewrite Z2Nat.id in * by done.
  exists t'. split; [done|]. split; [done|]. split; [done|]. split; [done|]. split; [done|].
  split; intros i.
  - rewrite Htime. destruct (uncovered flags mal leave i) eqn:Hu; [|done].
    apply uncovered_range in Hu. cbn [andb]. destruct (Z.ltb_spec i n); [done|lia].
  - rewrite Hdepth. destruct (uncovered flags mal leave i) eqn:Hu; [|done].
    apply uncovered_range in Hu. cbn [andb]. destruct (Z.ltb_spec i n); [done|lia].
Qed.

Lemma div_at_Some xs i x : 0 <= i < len xs -> exists ys, div_at xs i x = Some ys /\ len ys = len xs.
Proof.
  intros Hi. unfold div_at. destruct (at_lt xs i Hi) as [y ->]. cbn.
  eexists. split; [done|]. by rewrite len_set_at.
Qed.

Lemma cluster_averages_Some counts cdepth clat :
  len counts = K -> len cdepth = K -> len clat = K ->
  is_Some (cluster_averages counts cdepth clat).
Proof.
  intros Hc Hd Hl. unfold cluster_averages.
  destruct (for_each_inv (fun s : list float * list float => len s.1 = K /\ len s.2 = K)
    (fun '(cdepth, clat) c =>
       k ← at_ counts c;
       if 0 <? k then
         cdepth ← div_at cdepth c (float_of_int k);
         clat ← div_at clat c (float_of_int k);
         Some (cdepth, clat)
       else Some (cdepth, clat)) (range 0 K) (cdepth, clat)) as (s' & Hs & _); [done| |by eexists].
  intros [cd cl] c Hin%elem_of_range [H1 H2]. cbn [fst snd] in *.
  destruct (at_lt counts c) as [k ->]; [lia|]. cbn [mbind option_bind].
  destruct (0 <? k); [|by eexists].
  destruct (div_at_Some cd c (float_of_int k)) as (cd' & -> & ?); [lia|]. cbn [mbind option_bind].
  destruct (div_at_Some cl c (float_of_int k)) as (cl' & -> & ?); [lia|]. cbn [mbind option_bind].
  eexists. split; [done|]. cbn. lia.
Qed.

Lemma add_at_lookup xs i x ys j :
  add_at xs i x = Some ys ->
  at_ ys j = if decide (j = i) then (fun y => (y + x)%float) <$> at_ xs i else at_ xs j.
Proof.
  unfold add_at. destruct (at_ xs i) as [y|] eqn:E; [|done]. cbn. intros [= <-].
  apply at_Some in E as Hi. case_decide as Hj.
  - subst j. by rewrite at_set_at_eq.
  - by rewrite at_set_at_ne by lia.
Qed.

Lemma incr_at_lookup xs i ys j :
  incr_at xs i = Some ys ->
  at_ ys j = if decide (j = i) then (fun y => y + 1) <$> at_ xs i else at_ xs j.
Proof.
  unfold incr_at. destruct (at_ xs i) as [y|] eqn:E; [|done]. cbn. intros [= <-].
  apply at_Some in E as Hi. case_decide as Hj.
  - subst j. by rewrite at_set_at_eq.
  - by rewrite at_set_at_ne by lia.
Qed.

Lemma depth_stats_Some nodes dep dist n : forall cdf avg cnt,
  Forall (fun u => 0 <= u < n) nodes -> len dep = n -> len dist = n ->
  len cdf = MaxDepth -> len avg = MaxDepth -> len cnt = MaxDepth ->
  exists cdf' avg' cnt',
    depth_stats nodes dep dist (cdf, avg, cnt) = Some (cdf', avg', cnt')
    /\ len cdf' = MaxDepth /\ len avg' = MaxDepth /\ len cnt' = MaxDepth
    /\ forall d x c, at_ cdf d = Some x -> at_ cnt d = Some c ->
         let k := length (filter (fun u => at_ dep u = Some d) nodes) in
         at_ cdf' d = Some (Nat.iter k (fun y => (y + 1)%float) x)
         /\ at_ cnt' d = Some (c + Z.of_nat k).
Proof.
  unfold depth_stats.
  induction nodes as [|u nodes IH]; intros cdf avg cnt Hn Hdep Hdist Hcdf Havg Hcnt.
  - cbn [for_each]. do 3 eexists. split; [done|]. split; [done|]. split; [done|].
    split; [done|]. intros d x c Hx Hc. cbn. rewrite Hx, Hc. split; [done|].
    f_equal. lia.
  - apply Forall_cons in Hn as [Hu Hn]. cbn [for_each].
    destruct (at_lt dep u) as [d0 Hd0]; [lia|]. rewrite Hd0. cbn [mbind option_bind].
    destruct ((0 <=? d0) && (d0 <? MaxDepth)) eqn:E.
    + apply andb_prop in E as [E1%Z.leb_le E2%Z.ltb_lt].
      destruct (add_at_Some cdf d0 1) as (cdf1 & Hcdf1 & Hl1); [lia|].
      destruct (at_lt dist u) as [x0 Hx0]; [lia|].
      destruct (add_at_Some avg d0 x0) as (avg1 & Havg1 & Hl2); [lia|].
      destruct (incr_at_Some cnt d0) as (cnt1 & Hcnt1 & Hl3); [lia|].
      rewrite Hcdf1. cbn [mbind option_bind]. rewrite Hx0. cbn [mbind option_bind].
      rewrite Havg1. cbn [mbind option_bind]. rewrite Hcnt1. cbn [mbind option_bind].
      destruct (IH cdf1 avg1 cnt1) as (cdf' & avg' & cnt' & Hrun & ? & ? & ? & Hcount);
        try done; try lia.
      exists cdf', avg', cnt'. split; [done|]. split; [done|]. split; [done|].
      split; [done|]. intros d x c Hx Hc. cbn zeta.
      pose proof (add_at_lookup _ _ _ _ d Hcdf1) as Hx1.
      pose proof (incr_at_lookup _ _ _ d Hcnt1) as Hc1.
      case_decide as Hd.
      * subst d0. rewrite Hx in Hx1. rewrite Hc in Hc1. cbn in Hx1, Hc1.
        destruct (Hcount d _ _ Hx1 Hc1) as [-> ->].
        rewrite filter_cons_True by done. cbn [length].
        rewrite Nat.iter_succ_r. split; [done|]. f_equal. lia.
      * rewrite Hx in Hx1. rewrite Hc in Hc1.
        destruct (Hcount d _ _ Hx1 Hc1) as [-> ->].
        rewrite filter_cons_False by congruence. done.
    + destruct (IH cdf avg cnt) as (cdf' & avg' & cnt' & Hrun & ? & ? & ? & Hcount);
        try done.
      exists cdf', avg', cnt'. split; [done|]. split; [done|]. split; [done|].
      split; [done|]. intros d x c Hx Hc. cbn zeta.
      destruct (Hcount d _ _ Hx Hc) as [-> ->].
      rewrite filter_cons_False; [done|].
      intros Heq. rewrite Hd0 in Heq. injection Heq as ->.
      apply at_Some in Hx. unfold MaxDepth in *. lia.
Qed.

Lemma div_at_lookup xs i x ys j :
  div_at xs i x = Some ys ->
  at_ ys j = if decide (j = i) then (fun y => (y / x)%float) <$> at_ xs i else at_ xs j.
Proof.
  unfold div_at. destruct (at_ xs i) as [y|] eqn:E; [|done]. cbn. intros [= <-].
  apply at_Some in E as Hi. case_decide as Hj.
  - subst j. by rewrite at_set_at_eq.
  - by rewrite at_set_at_ne by lia.
Qed.

Lemma normalise_prefix m cnt cdf avg (k : nat) :
  len cdf = MaxDepth -> len avg = MaxDepth -> len cnt = MaxDepth ->
  Z.of_nat k <= MaxDepth ->
  exists cdf' avg',
    for_each
      (fun '(cdf, avg) i =>
         cdf ← div_at cdf i (float_of_int m);
         k ← at_ cnt i;
         if 0 <? k then avg ← div_at avg i (float_of_int k); Some (cdf, avg)
         else Some (cdf, avg))
      (range 0 (Z.of_nat k)) (cdf, avg) = Some (cdf', avg')
    /\ len cdf' = MaxDepth /\ len avg' = MaxDepth
    /\ forall i, at_ cdf' i
                 = if i <? Z.of_nat k then (fun x => (x / float_of_int m)%float) <$> at_ cdf i
                   else at_ cdf i.
Proof.
  intros Hcdf Havg Hcnt. induction k as [|k IH]; intros Hk.
  - exists cdf, avg. rewrite range_nil by lia. split; [done|]. split; [done|]. split; [done|].
    intros i. change (Z.of_nat 0) with 0. destruct (Z.ltb_spec i 0); [|done].
    unfold at_. case_decide; [lia|done].
  - destruct IH as (cdf1 & avg1 & Hrun & Hl1 & Hl2 & Hat); [lia|].
    rewrite Nat2Z.inj_succ, <- Z.add_1_r, range_snoc, for_each_app, Hrun by lia.
    cbn [mbind option_bind for_each].
    destruct (div_at_Some cdf1 (Z.of_nat k) (float_of_int m)) as (cdf2 & Hdiv & Hl3); [lia|].
    rewrite Hdiv. cbn [mbind option_bind].
    destruct (at_lt cnt (Z.of_nat k)) as [c ->]; [lia|]. cbn [mbind option_bind].
    assert (forall i, at_ cdf2 i
                 = if i <? Z.of_nat k + 1 then (fun x => (x / float_of_int m)%float) <$> at_ cdf i
                   else at_ cdf i) as Hat2.
    { intros i. rewrite (div_at_lookup _ _ _ _ i Hdiv). case_decide as Hi.
      - subst i. rewrite Hat. destruct (Z.ltb_spec (Z.of_nat k) (Z.of_nat k)); [lia|].
        destruct (Z.ltb_spec (Z.of_nat k) (Z.of_nat k + 1)); [done|lia].
      - rewrite Hat.
        destruct (Z.ltb_spec i (Z.of_nat k)), (Z.ltb_spec i (Z.of_nat k + 1)); try done; lia. }
    destruct (0 <? c).
    + destruct (div_at_Some avg1 (Z.of_nat k) (float_of_int c)) as (avg2 & -> & Hl4); [lia|].
      cbn [mbind option_bind]. exists cdf2, avg2. split; [done|]. split; [lia|]. split; [lia|done].
    + exists cdf2, avg1. split; [done|]. split; [lia|]. split; [lia|done].
Qed.

Lemma normalise_Some m cnt cdf avg :
  len cdf = MaxDepth -> len avg = MaxDepth -> len cnt = MaxDepth ->
  exists cdf' avg',
    normalise m cnt (cdf, avg) = Some (cdf', avg')
    /\ forall i, at_ cdf' i = (fun x => (x / float_of_int m)%float) <$> at_ cdf i.
Proof.
  intros Hcdf Havg Hcnt.
  destruct (normalise_prefix m cnt cdf avg (Z.to_nat MaxDepth))
    as (cdf' & avg' & Hrun & Hl1 & Hl2 & Hat); try done.
  exists cdf', avg'. split; [done|]. intros i. rewrite Hat.
  destruct (Z.ltb_spec i (Z.of_nat (Z.to_nat MaxDepth))) as [|Hi]; [done|].
  assert (at_ cdf i = None) as ->; [|done].
  unfold at_. case_decide; [|done]. apply lookup_ge_None_2. unfold len in Hcdf; lia.
Qed.

Lemma insert_by_time_perm x xs : insert_by_time x xs ≡ₚ x :: xs.
Proof.
  induction xs as [|y xs IH]; cbn; [done|].
  destruct (PrimFloat.ltb x.1 y.1); [done|]. rewrite IH. apply Permutation_swap.
Qed.

Lemma sort_by_time_Some times nodes n :
  len times = n -> Forall (fun u => 0 <= u < n) nodes ->
  exists sorted, sort_by_time times nodes = Some sorted /\ sorted ≡ₚ nodes.
Proof.
  intros Ht Hn. unfold sort_by_time.
  assert (exists keyed, mapM (fun u => t ← at_ times u; Some (t, u)) nodes = Some keyed
                        /\ map snd keyed = nodes) as (keyed & -> & Hk).
  { induction Hn as [|u nodes Hu Hn IH]; [by exists []|].
    destruct IH as (keyed & Hm & Hk). destruct (at_lt times u) as [t Hu']; [lia|].
    exists ((t, u) :: keyed). cbn. rewrite Hu'. cbn. rewrite Hm. cbn. by rewrite Hk. }
  cbn. eexists. split; [done|]. rewrite <- Hk. apply Permutation_map.
  clear. induction keyed as [|x xs IH]; cbn; [done|].
  by rewrite insert_by_time_perm, IH.
Qed.

Lemma int_of_float_nonneg x : not_negative x = true -> 0 <= int_of_float x.
Proof.
  unfold not_negative, int_of_float. destruct (Prim2SF x) as [| | |s m e]; try done.
  destruct s; [done|]. intros _. destruct (Z.leb_spec 0 e).
  - apply Z.mul_nonneg_nonneg; [lia|]. by apply Z.pow_nonneg.
  - apply Z.div_pos; [lia|]. apply Z.pow_pos_nonneg; lia.
Qed.

Lemma binary_round_aux_sign prec emax s m e l :
  match SpecFloat.binary_round_aux prec emax s m e l with
  | S754_finite s' _ _ => s' = s
  | _ => True
  end.
Proof.
  unfold SpecFloat.binary_round_aux.
  destruct (SpecFloat.shr_fexp prec emax m e l) as [r1 e1].
  destruct (SpecFloat.shr_fexp prec emax _ e1 SpecFloat.loc_Exact) as [r2 e2].
  destruct (SpecFloat.shr_m r2); [done| |done].
  by destruct (e2 <=? emax - prec).
Qed.

Lemma float_of_int_not_negative m : 0 <= m -> not_negative (float_of_int m) = true.
Proof.
  intros Hm. unfold float_of_int, not_negative.
  destruct (Z.ltb_spec m 0); [lia|]. rewrite FloatAxioms.of_uint63_spec.
  pose proof (Uint63.to_Z_bounded (Uint63.of_Z m)) as Hb.
  destruct (Uint63.to_Z (Uint63.of_Z m)) as [|p|p]; [done| |lia].
  unfold SpecFloat.binary_normalize, SpecFloat.binary_round.
  destruct (SpecFloat.shl_align _ _ _) as [mz ez].
  pose proof (binary_round_aux_sign FloatOps.prec FloatOps.emax false (Z.pos mz) ez
                SpecFloat.loc_Exact) as Hs.
  destruct (SpecFloat.binary_round_aux _ _ _ _ _ _) as [| | |s ? ?]; try done.
  by subst s.
Qed.

Lemma mul_not_negative x y :
  not_negative x = true -> not_negative y = true -> not_negative (x * y) = true.
Proof.
  unfold not_negative. rewrite FloatAxioms.mul_spec.
  destruct (Prim2SF x) as [| | |sx mx ex], (Prim2SF y) as [| | |sy my ey]; try done.
  destruct sx, sy; try done. intros _ _. unfold SF64mul, SpecFloat.SFmul.
  pose proof (binary_round_aux_sign FloatOps.prec FloatOps.emax (xorb false false)
                (Z.pos (mx * my)) (ex + ey) SpecFloat.loc_Exact) as Hs.
  destruct (SpecFloat.binary_round_aux _ _ _ _ _ _) as [| | |s ? ?]; try done.
  by subst s.
Qed.

Lemma percentiles_Some m times nodes n fuel : forall pct cnt lat ps,
  pct_values fuel pct = Some ps -> Forall (fun p => not_negative p = true) ps ->
  0 < m -> len nodes = m -> Forall (fun u => 0 <= u < n) nodes -> len times = n ->
  0 <= cnt -> cnt + len ps <= len lat ->
  is_Some (percentiles fuel pct cnt m times nodes lat).
Proof.
  induction fuel as [|fuel IH]; intros pct cnt lat ps Hps Hnn Hm Hnodes Hin Ht Hcnt Hlat;
    cbn [percentiles pct_values] in *; destruct (PrimFloat.leb pct 1); try done.
  destruct (pct_values fuel (pct + 0.05)) as [ps'|] eqn:Hps'; [|done].
  injection Hps as <-. apply Forall_cons in Hnn as [Hp Hnn]. rewrite len_app in Hlat || idtac.
  set (idx := int_of_float (float_of_int m * pct)).
  assert (0 <= idx) as Hidx.
  { apply int_of_float_nonneg, mul_not_negative; [|done].
    apply float_of_int_not_negative. lia. }
  set (idx' := if m <=? idx then m - 1 else idx).
  assert (0 <= idx' < m) as Hidx'.
  { unfold idx'. destruct (Z.leb_spec m idx); lia. }
  destruct (at_lt nodes idx') as [u Hu]; [lia|]. rewrite Hu. cbn [mbind option_bind].
  assert (0 <= u < n) as Hur.
  { rewrite Forall_forall in Hin. apply Hin. unfold at_ in Hu. case_decide; [|done].
    by eapply list_elem_of_lookup_2. }
  destruct (at_lt times u) as [t Htu]; [lia|]. rewrite Htu. cbn [mbind option_bind].
  change (len (pct :: ps')) with (Z.of_nat (S (length ps'))) in Hlat.
  destruct (add_at_Some lat cnt t) as (lat' & -> & Hl); [lia|]. cbn [mbind option_bind].
  apply (IH _ _ _ ps'); try done; [lia|]. unfold len in *. lia.
Qed.

Lemma pct_values_32 :
  exists ps, pct_values 32 0.05 = Some ps /\ Forall (fun p => not_negative p = true) ps
             /\ len ps = 19.
Proof.
  eexists. split; [vm_compute; reflexivity|]. split; [|reflexivity].
  repeat (apply Forall_cons_2; [vm_compute; reflexivity|]). apply Forall_nil_2.
Qed.

Lemma len_replicate {A} (k : Z) (x : A) : 0 <= k -> len (replicate (Z.to_nat k) x) = k.
Proof. intros ?. unfold len. rewrite length_replicate. lia. Qed.

Lemma len_nil_iff {A} (xs : list A) : len xs = 0 <-> xs = [].
Proof. unfold len. destruct xs; cbn; [done|]. split; [lia|done]. Qed.

Section Statistics.
Context `{RandLib} {S : Type}.

Lemma statistics_Some n mal leave cr result (st : SimState S) :
  state_ok n st -> len mal = n -> len leave = n -> result_ok n cr result ->
  recvList st <> [] ->
  let unc := filter (fun i => uncovered (recvFlag st) mal leave i = true) (range 0 n) in
  exists t r,
    tally_nodes n (recvFlag st) mal leave cr (initial_tally result st) = Some t
    /\ t_recvList t = recvList st ++ unc
    /\ (forall i, at_ (t_recvTime t) i
                  = if uncovered (recvFlag st) mal leave i then Some inf
                    else at_ (recvTime st) i)
    /\ (forall i, at_ (t_depth t) i
                  = if uncovered (recvFlag st) mal leave i then Some (MaxDepth - 1)
                    else at_ (depth st) i)
    /\ statistics n mal leave cr result st = Some r
    /\ AvgBandwidth r
       = (AvgBandwidth result
          + bandwidth_ratio (dupMsg st) (len (recvList st) + len unc))%float
    /\ forall d x, at_ (DepthCDF result) d = Some x ->
         at_ (DepthCDF r) d
         = Some (Nat.iter (length (filter (fun u => at_ (t_depth t) u = Some d)
                                          (recvList st ++ unc)))
                          (fun y => (y + 1)%float) x
                 / float_of_int (len (recvList st) + len unc))%float.
Proof.
  intros (Hf & Ht & Hdist & Hd & Hin & _) Hm Hl (Hcdf & Havg & Hlat & Hcr) Hne unc.
  destruct (tally_nodes_Some (recvFlag st) mal leave cr (initial_tally result st) n)
    as (t & Hrun & Hlist & Ht' & Hd' & Hc' & Htime & Hdepth); try done.
  { destruct cr as [c|]; [|done]. cbn. rewrite len_replicate by done. tauto. }
  fold unc in Hlist. cbn [initial_tally t_recvList t_recvTime t_depth] in Hlist, Htime, Hdepth.
  exists t. unfold statistics. rewrite Hrun. cbn [mbind option_bind].
  assert (exists cd cl,
    match cr with
    | Some _ => cluster_averages (t_clusterRecvCount t) (t_clusterAvgDepth t)
                  (t_clusterAvgLatency t)
    | None => Some (t_clusterAvgDepth t, t_clusterAvgLatency t)
    end = Some (cd, cl)) as (cd & cl & ->).
  { destruct cr as [c|]; [|by do 2 eexists].
    destruct Hc' as (? & ? & ? & ?).
    destruct (cluster_averages_Some (t_clusterRecvCount t) (t_clusterAvgDepth t)
                (t_clusterAvgLatency t)) as [[cd cl] ->]; try done. by do 2 eexists. }
  cbn [mbind option_bind].
  assert (Forall (fun u => 0 <= u < n) (t_recvList t)) as Hin'.
  { rewrite Hlist. apply Forall_app. split; [done|].
    apply Forall_forall. intros u [_ Hu%elem_of_range]%list_elem_of_filter. done. }
  destruct (depth_stats_Some (t_recvList t) (t_depth t) (recvDist st) n
              (DepthCDF result) (AvgDist result) (replicate (Z.to_nat MaxDepth) 0))
    as (cdf1 & avg1 & cnt1 & -> & Hl1 & Hl2 & Hl3 & Hcount); try done.
  cbn [mbind option_bind].
  destruct (normalise_Some (len (t_recvList t)) cnt1 cdf1 avg1)
    as (cdf2 & avg2 & -> & Hnorm); try done.
  cbn [mbind option_bind].
  destruct (sort_by_time_Some (t_recvTime t) (t_recvList t) n) as (sorted & -> & Hperm);
    try done.
  cbn [mbind option_bind].
  destruct pct_values_32 as (ps & Hps & Hnn & Hlen).
  destruct (percentiles_Some (len (t_recvList t)) (t_recvTime t) sorted n 32 0.05 0
              (Latency result) ps) as [lat ->]; try done; try lia.
  { rewrite Hlist, len_app. pose proof (len_nonneg unc).
    assert (len (recvList st) <> 0) by (by rewrite len_nil_iff).
    pose proof (len_nonneg (recvList st)). lia. }
  { unfold len. by rewrite Hperm. }
  { by rewrite Hperm. }
  cbn [mbind option_bind]. eexists. split; [done|]. split; [done|]. split; [done|].
  split; [done|]. split; [done|]. cbn [AvgBandwidth DepthCDF].
  rewrite Hlist in Hnorm, Hcount |- *. rewrite len_app in Hnorm |- *. split; [done|].
  intros d x Hx. rewrite Hnorm.
  assert (is_Some (at_ (replicate (Z.to_nat MaxDepth) 0) d)) as [c Hc].
  { apply at_lt. rewrite len_replicate by done. apply at_Some in Hx. lia. }
  destruct (Hcount d x c Hx Hc) as [-> _]. done.
Qed.

End Statistics.

Section EventLoop.
Context `{MathLib} `{RandLib} {S : Type} `{Algorithm S}.

Lemma process_message_ok n root coords mal leave config (st st' : SimState S) :
  state_ok n st ->
  process_message root coords mal leave config st = Some st' ->
  state_ok n st'
  /\ (recvList st <> [] \/ Forall (eq false) (recvFlag st) -> recvList st' <> []).
Proof.
  unfold process_message. intros (Hf & Ht & Hdist & Hd & Hin & Hfl') Hstep.
  destruct (Pop (msgQueue st)) as [[msg mq]|]; [|done]. cbn [mbind option_bind] in Hstep.
  destruct (at_ (recvFlag st) (Dst msg)) as [[]|] eqn:Hfl; [| |done];
    cbn [mbind option_bind] in Hstep.
  - injection Hstep as <-. split; [done|]. cbn [recvList]. intros [?|Hall]; [done|].
    unfold at_ in Hfl. case_decide; [|done]. apply list_elem_of_lookup_2 in Hfl.
    rewrite Forall_forall in Hall. by specialize (Hall _ Hfl).
  - apply at_Some in Hfl as Hu. rewrite Hf in Hu.
    destruct (if decide (Src msg <> Dst msg) then _ else _) as [success|]; [|done].
    cbn [mbind option_bind] in Hstep.
    destruct (if decide (Dst msg <> root) then _ else _) as [dep|] eqn:Hdep; [|done].
    cbn [mbind option_bind] in Hstep.
    assert (len dep = n) as Hdep'.
    { case_decide; [|congruence]. destruct (at_ (depth st) (Src msg)); [|done].
      cbn in Hdep. injection Hdep as <-. by rewrite len_set_at. }
    assert (Forall (fun u => 0 <= u < n) (recvList st ++ [Dst msg])) as Hin'.
    { apply Forall_app. split; [done|]. by apply Forall_singleton. }
    assert (Forall (fun v => at_ (set_at (recvFlag st) (Dst msg) true) v = Some true)
                   (recvList st ++ [Dst msg])) as Hfl''.
    { apply Forall_app. split.
      - eapply Forall_impl; [exact Hfl'|]. intros v Hv. cbn beta in Hv.
        destruct (decide (Dst msg = v)) as [<-|Hne].
        + apply at_set_at_eq. lia.
        + by rewrite at_set_at_ne by (done || lia).
      - apply Forall_singleton, at_set_at_eq. lia. }
    destruct (at_ mal (Dst msg)) as [m|]; [|done]. cbn [mbind option_bind] in Hstep.
    destruct (if m then _ else _) as [[]|]; [| |done]; cbn [mbind option_bind] in Hstep.
    + injection Hstep as <-. unfold state_ok. cbn. rewrite !len_set_at.
      split; [done|]. intros _. by destruct (recvList st).
    + destruct (Respond (algo st) msg) as [[relay a']|]; [|done].
      cbn [mbind option_bind] in Hstep.
      destruct (send_all _ _ _ _ _ _ _ _ _) as [mq'|]; [|done].
      cbn [mbind option_bind] in Hstep.
      injection Hstep as <-. unfold state_ok. cbn. rewrite !len_set_at.
      split; [done|]. intros _. by destruct (recvList st).
Qed.

Lemma event_loop_ok n root coords mal leave config fuel : forall st st' : SimState S,
  state_ok n st ->
  event_loop fuel root coords mal leave config st = Some st' ->
  state_ok n st' /\ (recvList st <> [] -> recvList st' <> []).
Proof.
  induction fuel as [|fuel IH]; intros st st' Hok Hrun; cbn [event_loop] in Hrun;
    (destruct (Empty (msgQueue st)); [by injection Hrun as <-|]); [done|].
  destruct (process_message root coords mal leave config st) as [st1|] eqn:Hstep; [|done].
  cbn [mbind option_bind] in Hrun.
  destruct (process_message_ok _ _ _ _ _ _ _ _ Hok Hstep) as [Hok1 Hne1].
  destruct (IH _ _ Hok1 Hrun) as [Hok' Hne']. split; [done|]. intros Hne.
  apply Hne', Hne1. by left.
Qed.

Lemma event_loop_from_root n root coords mal leave config fuel success a g
    (st : SimState S) :
  0 <= n ->
  event_loop fuel root coords mal leave config
    (init_state n success a g [NewMessage root root root 0 0 0]) = Some st ->
  state_ok n st /\ recvList st <> [].
Proof.
  intros Hn Hrun.
  assert (state_ok n (init_state n success a g [NewMessage root root root 0 0 0])) as Hok.
  { unfold state_ok, init_state. cbn. rewrite !len_replicate by done. by repeat split. }
  destruct fuel as [|fuel]; [done|]. cbn [event_loop] in Hrun.
  change (Empty _) with false in Hrun.
  destruct (process_message _ _ _ _ _ _) as [st1|] eqn:Hstep; [|done].
  cbn [mbind option_bind] in Hrun.
  destruct (process_message_ok _ _ _ _ _ _ _ _ Hok Hstep) as [Hok1 Hne1].
  destruct (event_loop_ok _ _ _ _ _ _ _ _ _ Hok1 Hrun) as [Hok' Hne']. split; [done|].
  apply Hne', Hne1. right. cbn. apply Forall_replicate. done.
Qed.

End EventLoop.

Lemma filter_all {A} (P : A -> Prop) `{forall x, Decision (P x)} (xs : list A) :
  Forall P xs -> filter P xs = xs.
Proof.
  induction 1 as [|x xs Hx _ IH]; [done|]. by rewrite filter_cons_True, IH.
Qed.

Lemma filter_ext_Forall {A} (P Q : A -> Prop) `{forall x, Decision (P x)}
    `{forall x, Decision (Q x)} (xs : list A) :
  Forall (fun x => P x <-> Q x) xs -> filter P xs = filter Q xs.
Proof.
  induction 1 as [|x xs Hx _ IH]; [done|]. rewrite !filter_cons, IH.
  destruct (decide (P x)), (decide (Q x)); tauto.
Qed.

Section Uncovered.
Context `{MathLib} `{RandLib} {S : Type} `{Algorithm S}.

Lemma Push_nil msg : Push [] msg = Some [msg].
Proof. reflexivity. Qed.

(** C10.  In a repetition of [SingleRootSimulation], once the event loop
    has ended in the state [st], the loop over the nodes appends every
    node that was not reached and is neither malicious nor absent to the
    receive list, in the order of the node numbers, with receive time 10^8
    and depth [MaxDepth - 1 = 39], and leaves the receivers as they are.
    The repetition returns; the bandwidth it adds has the length of the
    extended list in both places of [(dupMsg + |recvList|) / |recvList|], and
    [DepthCDF[39]] is incremented once for every such node, as for every
    receiver of depth 39, before the division by that length. *)
Theorem uncovered_nodes_are_counted (fuel : nat) (root rept : Z)
    (coords : list LatLonCoordinate) (malFlags leaveFlags : list bool)
    (config : SimulatorConfig) (clusterResult : option ClusterResult)
    (result : TestResult) (success : list (list Z)) (a : S) (g : rng) (st : SimState S) :
  len malFlags = len coords -> len leaveFlags = len coords ->
  result_ok (len coords) clusterResult result ->
  event_loop fuel root coords malFlags leaveFlags config
    (init_state (len coords) success a g [NewMessage root root root 0 0 0]) = Some st ->
  exists (t : Tally) (r : TestResult) (unc : list Z) (x : float),
    unc = filter (fun i => uncovered (recvFlag st) malFlags leaveFlags i = true)
                 (range 0 (len coords))
    /\ tally_nodes (len coords) (recvFlag st) malFlags leaveFlags clusterResult
         (initial_tally result st) = Some t
    /\ t_recvList t = recvList st ++ unc
    /\ Forall (fun i => at_ (t_recvTime t) i = Some 1e8%float /\ at_ (t_depth t) i = Some 39)
              unc
    /\ Forall (fun u => at_ (t_recvTime t) u = at_ (recvTime st) u
                        /\ at_ (t_depth t) u = at_ (depth st) u)
              (recvList st)
    /\ repetition fuel root coords malFlags leaveFlags config clusterResult
         (result, success, a, g) rept
       = Some (r, successChildren st, algo st, gen st)
    /\ AvgBandwidth r
       = (AvgBandwidth result
          + float_of_int (dupMsg st + (len (recvList st) + len unc))
            / float_of_int (len (recvList st) + len unc))%float
    /\ at_ (DepthCDF result) 39 = Some x
    /\ at_ (DepthCDF r) 39
       = Some (PrimFloat.div
                 (Nat.iter (length (filter (fun u => at_ (depth st) u = Some 39)
                                           (recvList st))
                            + length unc)
                           (fun y => (y + 1)%float) x)
                 (float_of_int (len (recvList st) + len unc))).
Proof.
  intros Hm Hl Hres Hrun.
  destruct (event_loop_from_root _ _ _ _ _ _ _ _ _ _ _ (len_nonneg coords) Hrun)
    as [Hok Hne].
  destruct (statistics_Some _ _ _ _ _ _ Hok Hm Hl Hres Hne)
    as (t & r & Htally & Hlist & Htime & Hdepth & Hstat & Hbw & Hcdf).
  set (unc := filter _ _) in *.
  assert (Forall (fun i => uncovered (recvFlag st) malFlags leaveFlags i = true) unc) as Hunc.
  { apply Forall_forall. by intros i [Hi _]%list_elem_of_filter. }
  assert (Forall (fun u => uncovered (recvFlag st) malFlags leaveFlags u = false)
                 (recvList st)) as Hcov.
  { destruct Hok as (_ & _ & _ & _ & _ & Hfl). eapply Forall_impl; [exact Hfl|].
    intros u Hu. cbn beta in Hu. unfold uncovered. by rewrite Hu. }
  assert (Forall (fun u => at_ (t_recvTime t) u = at_ (recvTime st) u
                           /\ at_ (t_depth t) u = at_ (depth st) u) (recvList st)) as Hsame.
  { eapply Forall_impl; [exact Hcov|]. intros u Hu. cbn beta in Hu.
    by rewrite Htime, Hdepth, Hu. }
  assert (is_Some (at_ (DepthCDF result) 39)) as [x Hx].
  { apply at_lt. destruct Hres as (-> & _). done. }
  exists t, r, unc, x. split; [done|]. split; [done|]. split; [done|]. split.
  { eapply Forall_impl; [exact Hunc|]. intros i Hi. cbn beta in Hi.
    by rewrite Htime, Hdepth, Hi. }
  split; [done|]. split.
  { unfold repetition. rewrite Push_nil. cbn [mbind option_bind]. rewrite Hrun.
    cbn [mbind option_bind]. rewrite Hstat. done. }
  split; [done|]. split; [done|].
  rewrite (Hcdf 39 x Hx), filter_app, length_app. do 4 f_equal.
  - f_equal. apply filter_ext_Forall. eapply Forall_impl; [exact Hsame|].
    intros u [_ Hu]. by rewrite Hu.
  - f_equal. apply filter_all. eapply Forall_impl; [exact Hunc|]. intros i Hi. cbn beta in Hi.
    by rewrite Hdepth, Hi.
Qed.

End Uncovered.

(** Three nodes, an edge from node 0 to node 1: the broadcast of root 0
    reaches node 1 and not node 2, which is counted at depth 39. *)
Lemma uncovered_nodes_are_counted_witness :
  exists (st : @SimState BaseAlgorithm no_noise) (t : Tally) (r : TestResult),
    event_loop (H := no_trig) (H0 := no_noise) 4 0 [origin; origin; origin]
      [false; false; false] [false; false; false] NewSimulatorConfig
      (init_state (H := no_noise) 3 [[]; []; []] one_edge tt [NewMessage 0 0 0 0 0 0]) = Some st
    /\ recvList st = [0; 1]
    /\ tally_nodes 3 (recvFlag st) [false; false; false] [false; false; false] None
         (initial_tally (NewTestResult 3) st) = Some t
    /\ t_recvList t = [0; 1; 2]
    /\ at_ (t_recvTime t) 2 = Some 1e8%float
    /\ at_ (t_depth t) 2 = Some 39
    /\ repetition (H := no_trig) (H0 := no_noise) 4 0 [origin; origin; origin]
         [false; false; false] [false; false; false] NewSimulatorConfig None
         (NewTestResult 3, [[]; []; []], one_edge, tt) 0
       = Some (r, successChildren st, algo st, gen st)
    /\ AvgBandwidth r = (0 + 3 / 3)%float
    /\ at_ (DepthCDF r) 39 = Some ((0 + 1) / 3)%float.
Proof.
  pose proof (uncovered_nodes_are_counted (H := no_trig) (H0 := no_noise) 4 0 0
                [origin; origin; origin] [false; false; false] [false; false; false]
                NewSimulatorConfig None (NewTestResult 3) [[]; []; []] one_edge tt) as Hthm.
  let o := eval vm_compute in
    (event_loop (H := no_trig) (H0 := no_noise) 4 0 [origin; origin; origin]
      [false; false; false] [false; false; false] NewSimulatorConfig
      (init_state (H := no_noise) 3 [[]; []; []] one_edge tt [NewMessage 0 0 0 0 0 0])) in
  match o with Some ?st => specialize (Hthm st); exists st end.
  destruct Hthm as (t & r & unc & x & Hunc & Htally & Hlist & Hall & _ & Hrep & Hbw & Hx & Hcdf);
    [reflexivity | reflexivity | by repeat split | vm_compute; reflexivity |].
  vm_compute in Hunc. subst unc.
  apply Forall_singleton in Hall as [Htime Hdepth].
  injection Hx as <-.
  exists t, r. split; [vm_compute; reflexivity|]. split; [reflexivity|].
  split; [exact Htally|]. split; [exact Hlist|]. split; [exact Htime|].
  split; [exact Hdepth|]. split; [exact Hrep|]. split; [exact Hbw|]. exact Hcdf.
Defined.

(** ** The simulator: a network of one node *)

Section SingleNode.
Context `{MathLib} `{RandLib} {S : Type} `{Algorithm S}.

Lemma event_loop_empty fuel root coords malFlags leaveFlags config (st : SimState S) :
  msgQueue st = [] ->
  event_loop fuel root coords malFlags leaveFlags config st = Some st.
Proof. intros Hq. destruct fuel; cbn [event_loop]; by rewrite Hq. Qed.

(** C4, as the code has it.  For a network of one node that is neither
    malicious nor absent and an algorithm that relays to nobody there, the
    event loop of a single-root simulation from root 0 ends after the
    message of the root to itself, with the root as the sole receiver at
    time 0 and depth 0 and no duplicate; the simulation returns bandwidth
    1, average latency 0 and [DepthCDF[0] = 1].  Every slot of [Latency] is
    [inf = 10^8]: an average below 0.1 is replaced by [inf]. *)
Theorem single_node_simulation (fuel : nat) (c : LatLonCoordinate) (a a' : S) (g : rng)
    (config : SimulatorConfig) :
  Respond (SetRoot a 0) (NewMessage 0 0 0 0 0 0) = Some ([], a') ->
  exists (st : SimState S) (r : TestResult),
    event_loop (Datatypes.S fuel) 0 [c] [false] [false] config
      (init_state 1 [[]] (SetRoot a 0) g [NewMessage 0 0 0 0 0 0]) = Some st
    /\ recvList st = [0] /\ dupMsg st = 0
    /\ at_ (recvTime st) 0 = Some 0%float /\ at_ (depth st) 0 = Some 0
    /\ SingleRootSimulation (Datatypes.S fuel) 0 1 [c] [false] [false] a g config None
       = Some (r, algo st, gen st)
    /\ AvgBandwidth r = 1%float
    /\ AvgLatency r = 0%float
    /\ Latency r = replicate 21 1e8%float
    /\ DepthCDF r = 1%float :: replicate 39 0%float
    /\ SuccessChildren r = [[]].
Proof.
  intros Hr.
  set (st := {| recvFlag := [true]; recvTime := [0%float]; recvDist := [0%float];
                recvParent := [0]; depth := [0]; recvList := [0]; dupMsg := 0;
                successChildren := [[]]; msgQueue := []; algo := a';
                gen := (CalculateProcessingDelay g).2 |}).
  assert (event_loop (Datatypes.S fuel) 0 [c] [false] [false] config
            (init_state 1 [[]] (SetRoot a 0) g [NewMessage 0 0 0 0 0 0]) = Some st) as Hrun.
  { cbn [event_loop]. change (Empty _) with false. cbv iota.
    assert (process_message 0 [c] [false] [false] config
              (init_state 1 [[]] (SetRoot a 0) g [NewMessage 0 0 0 0 0 0]) = Some st) as ->.
    { unfold process_message.
      change (Pop _) with (Some (NewMessage 0 0 0 0 0 0, @nil Message)).
      cbn [mbind option_bind]. cbn. rewrite Hr. cbn. done. }
    cbn [mbind option_bind]. by apply event_loop_empty. }
  exists st. eexists. split; [exact Hrun|]. split; [done|]. split; [done|].
  split; [done|]. split; [done|]. split.
  { unfold SingleRootSimulation. change (range 0 1) with [0]. cbn [for_each].
    unfold repetition. change (len [c]) with 1. change (replicate (Z.to_nat 1) []) with [@nil Z].
    rewrite Push_nil. cbn [mbind option_bind]. rewrite Hrun. cbn [mbind option_bind].
    vm_compute. reflexivity. }
  repeat split; vm_compute; reflexivity.
Qed.

End SingleNode.

(** The theorem applies to the Mercator overlay of one node. *)
Lemma single_node_simulation_witness :
  exists (m : Mercator.t) (st : @SimState Mercator.t no_noise) (r : TestResult),
    single_node = Some m
    /\ recvList st = [0]
    /\ SingleRootSimulation (H := no_trig) (H0 := no_noise) 1 0 1 [origin] [false] [false]
         m tt NewSimulatorConfig None = Some (r, algo st, gen st)
    /\ AvgBandwidth r = 1%float
    /\ Latency r = replicate 21 1e8%float
    /\ DepthCDF r = 1%float :: replicate 39 0%float.
Proof.
  let o := eval vm_compute in single_node in
  match o with
  | Some ?m =>
      exists m;
      edestruct (single_node_simulation (H := no_trig) (H0 := no_noise) 0 origin m)
        as (st & r & _ & Hlist & _ & _ & _ & Hsim & Hbw & _ & Hlat & Hcdf & _);
        [vm_compute; reflexivity|]
  end.
  exists st, r. split; [vm_compute; reflexivity|]. split; [exact Hlist|].
  split; [exact Hsim|]. split; [exact Hbw|]. split; [exact Hlat|]. exact Hcdf.
Defined.

(** C4 as the specification states it fails on the Mercator overlay of one
    node: the simulation reports the latency 10^8, not 0, in every slot. *)
Lemma single_node_latency_is_inf :
  exists (m : Mercator.t) (r : TestResult),
    single_node = Some m
    /\ fst <$> (fst <$> SingleRootSimulation (H := no_trig) (H0 := no_noise) 1 0 1 [origin]
                          [false] [false] m tt NewSimulatorConfig None) = Some r
    /\ AvgBandwidth r = 1%float
    /\ at_ (DepthCDF r) 0 = Some 1%float
    /\ Forall (fun x => x = 1e8%float /\ PrimFloat.eqb x 0 = false) (Latency r).
Proof.
  let o := eval vm_compute in single_node in
  match o with Some ?m => exists m end.
  eexists. split; [vm_compute; reflexivity|]. split; [vm_compute; reflexivity|].
  split; [reflexivity|]. split; [reflexivity|].
  repeat (apply Forall_cons_2; [split; vm_compute; reflexivity|]). apply Forall_nil_2.
Qed.

(** ** The queue: messages of one receive time *)

Lemma flt_irrefl x : PrimFloat.ltb x x = false.
Proof.
  destruct (PrimFloat.ltb x x) eqn:E; [|done].
  pose proof (flt_le _ _ E). pose proof (flt_not_ge _ _ E). congruence.
Qed.

Lemma at_replicate {A} (k : nat) (x : A) i :
  0 <= i < Z.of_nat k -> at_ (replicate k x) i = Some x.
Proof.
  intros Hi. unfold at_. case_decide; [|lia]. apply lookup_replicate_2. lia.
Qed.

Lemma set_at_replicate {A} (k : nat) (x : A) i : set_at (replicate k x) i x = replicate k x.
Proof.
  unfold set_at. destruct (decide (Z.to_nat i < k)%nat).
  - apply list_insert_id, lookup_replicate_2. done.
  - apply list_insert_ge. rewrite length_replicate. lia.
Qed.

Lemma Less_replicate (k : nat) (msg : Message) i j :
  0 <= i < Z.of_nat k -> 0 <= j < Z.of_nat k -> Less (replicate k msg) i j = Some false.
Proof.
  intros Hi Hj. unfold Less. rewrite !at_replicate by done. cbn. by rewrite flt_irrefl.
Qed.

Lemma Swap_replicate (k : nat) (msg : Message) i j :
  0 <= i < Z.of_nat k -> 0 <= j < Z.of_nat k ->
  Swap (replicate k msg) i j = Some (replicate k msg).
Proof.
  intros Hi Hj. unfold Swap. rewrite (at_replicate k msg i), (at_replicate k msg j) by done.
  cbn [mbind option_bind]. by rewrite !set_at_replicate.
Qed.

Lemma heap_up_replicate (k : nat) (msg : Message) fuel j :
  0 <= j < Z.of_nat k -> heap_up fuel (replicate k msg) j = Some (replicate k msg).
Proof.
  intros Hj.
  assert (Z.quot (j - 1) 2 <> j -> 0 <= Z.quot (j - 1) 2 < Z.of_nat k) as Hi.
  { intros Hne. destruct (decide (j = 0)) as [->|]; [done|].
    pose proof (Z.quot_pos (j - 1) 2). pose proof (Z.quot_lt_upper_bound (j - 1) 2 j). lia. }
  destruct fuel; cbn [heap_up];
    (destruct (Z.eqb_spec (Z.quot (j - 1) 2) j); [done|]);
    by rewrite Less_replicate by auto.
Qed.

Lemma heap_down_replicate (k : nat) (msg : Message) fuel i n :
  0 <= i -> n <= Z.of_nat k -> heap_down fuel (replicate k msg) i n = Some (replicate k msg).
Proof.
  intros Hi Hn.
  assert (n <= 2 * i + 1 \/ 2 * i + 1 < n) as [Hle|Hlt] by lia.
  - destruct fuel; cbn [heap_down]; by destruct (Z.leb_spec n (2 * i + 1)); [|lia].
  - assert ((if 2 * i + 1 + 1 <? n then Less (replicate k msg) (2 * i + 1 + 1) (2 * i + 1)
             else Some false) = Some false) as Hright.
    { destruct (Z.ltb_spec (2 * i + 1 + 1) n); [|done]. apply Less_replicate; lia. }
    destruct fuel; cbn [heap_down];
      (destruct (Z.leb_spec n (2 * i + 1)); [lia|]);
      (destruct (Z.ltb_spec (2 * i + 1) 0); [lia|]); cbn [orb];
      rewrite Hright; cbn [mbind option_bind];
      rewrite Less_replicate by lia; done.
Qed.

Lemma Push_replicate (k : nat) (msg : Message) : Push (replicate k msg) msg = Some (replicate (S k) msg).
Proof.
  unfold Push. rewrite <- replicate_cons_app.
  change (msg :: replicate k msg) with (replicate (S k) msg).
  apply heap_up_replicate. unfold len. rewrite length_replicate. lia.
Qed.

Lemma Pop_replicate (k : nat) (msg : Message) : Pop (replicate (S k) msg) = Some (msg, replicate k msg).
Proof.
  unfold Pop. rewrite Swap_replicate by (unfold len; rewrite ?length_replicate; lia).
  cbn [mbind option_bind].
  rewrite heap_down_replicate by (unfold len; rewrite ?length_replicate; lia).
  cbn [mbind option_bind]. rewrite length_replicate.
  change (replicate (S k) msg) with (msg :: replicate k msg).
  rewrite replicate_cons_app, last_snoc. cbn [mbind option_bind].
  replace (S k - 1)%nat with (length (replicate k msg)) by (rewrite length_replicate; lia).
  by rewrite take_app_length.
Qed.


(** ** The simulator: the delay of the first hop *)

Section FirstHop.
Context `{MathLib} `{RandLib} {S : Type} `{Algorithm S}.

(** Every message of every relay list, whatever the algorithm and the step
    of the message relayed, is sent with three times the distance. *)
Lemma relay_message_delay root u msg recvTimeU delayTime coords config v cu cv :
  at_ coords u = Some cu -> at_ coords v = Some cv ->
  relay_message root u msg recvTimeU delayTime coords config v
  = Some (NewMessage root u v (Step msg + 1) (recvTimeU + delayTime)%float
            (recvTimeU
             + (Distance cu cv * 3
                + CalculateTransmissionDelay (DataSize config) (Bandwidth config))
             + delayTime)%float).
Proof.
  intros Hu Hv. unfold relay_message, CalculatePropagationDelay.
  by rewrite Hu, Hv.
Qed.

Lemma send_all_replicate root u msg t d coords config v new (k : nat) : forall j : nat,
  relay_message root u msg t d coords config v = Some new ->
  send_all root u msg t d coords config (replicate k v) (replicate j new)
  = Some (replicate (k + j) new).
Proof.
  unfold send_all. induction k as [|k IH]; intros j Hnew; cbn [replicate for_each]; [done|].
  rewrite Hnew. cbn [mbind option_bind]. rewrite Push_replicate. cbn [mbind option_bind].
  rewrite (IH (Datatypes.S j) Hnew). by rewrite Nat.add_succ_r.
Qed.

Lemma process_message_duplicate root coords mal leave config (st : SimState S) msg mq :
  Pop (msgQueue st) = Some (msg, mq) -> at_ (recvFlag st) (Dst msg) = Some true ->
  process_message root coords mal leave config st = Some (drop_duplicates st 1 mq).
Proof. intros Hpop Hflag. unfold process_message. by rewrite Hpop; cbn; rewrite Hflag. Qed.

Lemma event_loop_duplicates root coords mal leave config msg (k : nat) :
  forall (fuel : nat) (st : SimState S),
  msgQueue st = replicate k msg -> at_ (recvFlag st) (Dst msg) = Some true ->
  event_loop (k + fuel) root coords mal leave config st
  = Some (drop_duplicates st (Z.of_nat k) []).
Proof.
  induction k as [|k IH]; intros fuel st Hq Hflag.
  - rewrite event_loop_empty by done. destruct st. cbn in *. subst.
    unfold drop_duplicates. cbn. do 2 f_equal. lia.
  - cbn [Nat.add event_loop]. rewrite Hq. change (Empty _) with false. cbv iota.
    rewrite (process_message_duplicate _ _ _ _ _ _ msg (replicate k msg));
      [|by rewrite Hq, Pop_replicate|done].
    cbn [mbind option_bind]. rewrite IH by done.
    unfold drop_duplicates. cbn. do 2 f_equal. lia.
Qed.

Lemma process_message_relay root coords mal leave config (st : SimState S) msg mq
    success dep relay a' mq' :
  Pop (msgQueue st) = Some (msg, mq) ->
  at_ (recvFlag st) (Dst msg) = Some false ->
  (if decide (Src msg <> Dst msg) then
     ch ← at_ (successChildren st) (Src msg);
     Some (set_at (successChildren st) (Src msg) (ch ++ [Dst msg]))
   else Some (successChildren st)) = Some success ->
  (if decide (Dst msg <> root) then
     d ← at_ (depth st) (Src msg);
     Some (set_at (depth st) (Dst msg) (d + 1))
   else Some (depth st)) = Some dep ->
  at_ mal (Dst msg) = Some false -> at_ leave (Dst msg) = Some false ->
  Respond (algo st) msg = Some (relay, a') ->
  send_all root (Dst msg) msg (RecvTime msg) (CalculateProcessingDelay (gen st)).1
    coords config relay mq = Some mq' ->
  process_message root coords mal leave config st
  = Some {| recvFlag := set_at (recvFlag st) (Dst msg) true;
            recvTime := set_at (recvTime st) (Dst msg) (RecvTime msg);
            recvDist := set_at (recvDist st) (Dst msg) (RecvTime msg - SendTime msg)%float;
            recvParent := set_at (recvParent st) (Dst msg) (Src msg);
            depth := dep;
            recvList := recvList st ++ [Dst msg];
            dupMsg := dupMsg st;
            successChildren := success;
            msgQueue := mq';
            algo := a';
            gen := (CalculateProcessingDelay (gen st)).2 |}.
Proof.
  intros Hpop Hflag Hsucc Hdep Hmal Hleave Hresp Hsend. unfold process_message.
  rewrite Hpop. cbn [mbind option_bind]. rewrite Hflag. cbn [mbind option_bind].
  rewrite Hsucc. cbn [mbind option_bind]. rewrite Hdep. cbn [mbind option_bind].
  rewrite Hmal. cbn [mbind option_bind]. rewrite Hleave. cbn [mbind option_bind].
  rewrite Hresp. cbn [mbind option_bind]. rewrite Hsend. done.
Qed.

End FirstHop.

Section MercatorFirstHop.
Context `{MathLib} `{RandLib}.

(** C1 on the overlay [runMercator] builds for two nodes in different
    cells, for every [math] library and every generator.  The root relays
    its own message, of step 0, once for each of its six buckets that hold
    node 1; every one of these messages is sent with the propagation delay
    [Distance * 3 + transmission], the coefficient of every other hop and of
    every other algorithm, and node 1 receives the broadcast at that time
    plus the processing delay of the root.  The other five copies arrive as
    duplicates. *)
Theorem Mercator_first_hop_has_coefficient_3 (g : rng) :
  exists (m : Mercator.t) (st1 st : SimState Mercator.t) (hop delay : float),
    two_cells = Some m
    /\ hop = (Distance {| Lat := 10; Lon := 10 |} {| Lat := 10; Lon := 50 |} * 3
              + CalculateTransmissionDelay 300 33000000)%float
    /\ delay = (CalculateProcessingDelay g).1
    /\ process_message 0 far_apart [false; false] [false; false] NewSimulatorConfig
         (init_state 2 [[]; []] (SetRoot m 0) g [NewMessage 0 0 0 0 0 0]) = Some st1
    /\ msgQueue st1
       = replicate 6 (NewMessage 0 0 1 1 (0 + delay)%float (0 + hop + delay)%float)
    /\ event_loop 7 0 far_apart [false; false] [false; false] NewSimulatorConfig
         (init_state 2 [[]; []] (SetRoot m 0) g [NewMessage 0 0 0 0 0 0]) = Some st
    /\ recvList st = [0; 1]
    /\ depth st = [0; 1]
    /\ recvTime st = [0%float; (0 + hop + delay)%float]
    /\ dupMsg st = 5.
Proof.
  let o := eval vm_compute in two_cells in
  match o with Some ?m => exists m end.
  match goal with |- context [SetRoot ?m 0] => set (m0 := m) end.
  set (root_msg := NewMessage 0 0 0 0 0 0).
  set (init := init_state 2 [[]; []] (SetRoot m0 0) g [root_msg]).
  set (hop := (Distance {| Lat := 10; Lon := 10 |} {| Lat := 10; Lon := 50 |} * 3
               + CalculateTransmissionDelay 300 33000000)%float).
  set (delay := (CalculateProcessingDelay g).1).
  set (hop_msg := NewMessage 0 0 1 1 (0 + delay)%float (0 + hop + delay)%float).
  let r := eval vm_compute in (Respond (SetRoot m0 0) root_msg) in
  match r with Some (_, ?m) => pose (m1 := m) end.
  assert (Respond (SetRoot m0 0) root_msg = Some (replicate 6 1, m1)) as Hresp0
    by (vm_compute; reflexivity).
  let r := eval vm_compute in (Respond m1 hop_msg) in
  match r with Some (_, ?m) => pose (m2 := m) end.
  assert (Respond m1 hop_msg = Some ([], m2)) as Hresp1 by (vm_compute; reflexivity).
  epose proof (process_message_relay 0 far_apart [false; false] [false; false]
                 NewSimulatorConfig init root_msg [] _ _ _ _ _
                 (Pop_replicate 0 root_msg) eq_refl eq_refl eq_refl eq_refl eq_refl
                 Hresp0
                 (send_all_replicate 0 0 root_msg 0 delay far_apart NewSimulatorConfig 1
                    hop_msg 6 0
                    (relay_message_delay 0 0 root_msg 0 delay far_apart NewSimulatorConfig 1
                       _ _ eq_refl eq_refl))) as Hstep1.
  match type of Hstep1 with _ = Some ?s => set (st1 := s) in * end.
  epose proof (process_message_relay 0 far_apart [false; false] [false; false]
                 NewSimulatorConfig st1 hop_msg (replicate 5 hop_msg) _ _ _ _ _
                 (Pop_replicate 5 hop_msg) eq_refl eq_refl eq_refl eq_refl eq_refl
                 Hresp1 eq_refl) as Hstep2.
  match type of Hstep2 with _ = Some ?s => set (st2 := s) in * end.
  pose proof (event_loop_duplicates 0 far_apart [false; false] [false; false]
                NewSimulatorConfig hop_msg 5 0 st2 eq_refl eq_refl) as Hrest.
  exists st1, (drop_duplicates st2 5 []), hop, delay.
  split; [vm_compute; reflexivity|]. split; [reflexivity|]. split; [reflexivity|].
  split; [exact Hstep1|]. split; [reflexivity|]. split.
  { change 7%nat with (Datatypes.S (Datatypes.S (5 + 0))). cbn [event_loop].
    change (Empty (msgQueue init)) with false. cbv iota. rewrite Hstep1.
    cbn [mbind option_bind]. change (Empty (msgQueue st1)) with false. cbv iota.
    rewrite Hstep2. cbn [mbind option_bind]. exact Hrest. }
  repeat split; reflexivity.
Qed.

End MercatorFirstHop.

(** ** The k-buckets: stable deduplication *)

Lemma filter_filter_ne (P : Z -> Prop) `{forall y, Decision (P y)} (x : Z) (xs : list Z) :
  ~ P x -> filter P (filter (fun y => y <> x) xs) = filter P xs.
Proof.
  intros Hx. rewrite list_filter_filter. apply list_filter_iff. intros y. split; [tauto|].
  intros Hy. split; [done|]. by intros ->.
Qed.

Lemma first_occurrences_filter (P : Z -> Prop) `{forall y, Decision (P y)} (xs : list Z) :
  first_occurrences (filter P xs) = filter P (first_occurrences xs).
Proof.
  induction xs as [|x xs IH]; [done|]. cbn [first_occurrences].
  destruct (decide (P x)) as [Hx|Hx].
  - rewrite !filter_cons_True by done. cbn [first_occurrences]. rewrite IH. f_equal.
    rewrite !list_filter_filter. apply list_filter_iff. intros y. tauto.
  - rewrite !filter_cons_False by done. rewrite IH. by rewrite filter_filter_ne.
Qed.

Lemma dedup_fold (xs : list Z) : forall (seen : gset Z) (out : list Z),
  (fold_left
     (fun '(seen, out) v =>
        if decide (v ∈ seen) then (seen, out)
        else ({[v]} ∪ seen, out ++ [v]))
     xs (seen, out)).2
  = out ++ first_occurrences (filter (fun v => v ∉ seen) xs).
Proof.
  induction xs as [|x xs IH]; intros seen out; cbn [fold_left].
  - by rewrite app_nil_r.
  - destruct (decide (x ∈ seen)) as [Hx|Hx].
    + rewrite IH. by rewrite filter_cons_False by tauto.
    + rewrite IH, filter_cons_True by done. cbn [first_occurrences].
      rewrite <- app_assoc. cbn [app]. do 2 f_equal.
      rewrite <- first_occurrences_filter, list_filter_filter. f_equal.
      apply list_filter_iff. intros y.
      rewrite not_elem_of_union, not_elem_of_singleton. tauto.
Qed.

Lemma DedupIntsStable_first_occurrences xs : DedupIntsStable xs = first_occurrences xs.
Proof.
  unfold DedupIntsStable. destruct (Z.leb_spec (len xs) 1) as [Hl|Hl].
  - destruct xs as [|x [|y xs]]; [done|done|]. unfold len in Hl. cbn in Hl. lia.
  - rewrite dedup_fold. cbn [app]. f_equal. apply filter_all.
    apply Forall_forall. intros y _. apply not_elem_of_empty.
Qed.

Lemma dedup_row_prefix (row : list (list Z)) (k : nat) :
  (k <= length row)%nat ->
  for_each (fun row b => bkt ← at_ row b; Some (set_at row b (DedupIntsStable bkt)))
           (range 0 (Z.of_nat k)) row
  = Some (map first_occurrences (take k row) ++ drop k row).
Proof.
  induction k as [|k IH]; intros Hk.
  - by rewrite range_nil, drop_0.
  - rewrite Nat2Z.inj_succ, <- Z.add_1_r, range_snoc, for_each_app, IH by lia.
    cbn [mbind option_bind for_each].
    destruct (lookup_lt_is_Some_2 row k) as [bkt Hb]; [lia|].
    assert (at_ (map first_occurrences (take k row) ++ drop k row) (Z.of_nat k) = Some bkt) as ->.
    { rewrite at_nat, lookup_app_r by (rewrite length_map, length_take; lia).
      rewrite length_map, length_take, lookup_drop.
      replace (k + (k - k `min` length row))%nat with k by lia. done. }
    cbn [mbind option_bind]. f_equal. unfold set_at. rewrite Nat2Z.id.
    rewrite insert_app_r_alt by (rewrite length_map, length_take; lia).
    rewrite length_map, length_take.
    replace (k - k `min` length row)%nat with 0%nat by lia.
    rewrite (drop_S _ _ _ Hb). cbn [insert list_insert].
    rewrite (take_S_r _ _ _ Hb), map_app, <- app_assoc. cbn.
    by rewrite DedupIntsStable_first_occurrences.
Qed.

Lemma dedup_row_map totalBits (row : list (list Z)) :
  len row = totalBits + 1 -> dedup_row totalBits row = Some (map first_occurrences row).
Proof.
  intros Hl. unfold dedup_row, len in *.
  replace (totalBits + 1) with (Z.of_nat (length row)) by lia.
  rewrite dedup_row_prefix by lia. by rewrite firstn_all, drop_all, app_nil_r.
Qed.

(** ** The k-buckets: the sort of the candidates *)

Lemma flt_trans x y z :
  PrimFloat.ltb x y = true -> PrimFloat.ltb y z = true -> PrimFloat.ltb x z = true.
Proof. intros Hxy Hyz. eapply flt_le_trans; [exact Hxy|]. by apply flt_le. Qed.

Lemma flt_asym x y : PrimFloat.ltb x y = true -> PrimFloat.ltb y x = false.
Proof.
  intros Hxy. destruct (PrimFloat.ltb y x) eqn:E; [|done].
  pose proof (flt_trans _ _ _ Hxy E) as Hxx. by rewrite flt_irrefl in Hxx.
Qed.

Lemma set_at_middle {A} (pre post : list A) (x y : A) :
  set_at (pre ++ x :: post) (len pre) y = pre ++ y :: post.
Proof.
  unfold set_at, len. rewrite Nat2Z.id, insert_app_r_alt by done.
  by rewrite Nat.sub_diag.
Qed.

Lemma at_middle {A} (pre post : list A) (x : A) : at_ (pre ++ x :: post) (len pre) = Some x.
Proof. unfold len. rewrite at_nat. apply list_lookup_middle. done. Qed.

Lemma sift_perm rest : forall h passed,
  (sift h rest passed).1 :: (sift h rest passed).2 ≡ₚ h :: passed ++ rest.
Proof.
  induction rest as [|y rest IH]; intros h passed; cbn [sift].
  - by rewrite app_nil_r.
  - destruct (fgt h.1 y.1).
    + rewrite IH, <- app_assoc. cbn [app]. rewrite <- !Permutation_middle.
      apply Permutation_swap.
    + rewrite IH, <- app_assoc. done.
Qed.

Lemma sift_least rest : forall h passed,
  Forall (fun y : cand => PrimFloat.ltb y.1 h.1 = false) passed ->
  Forall (fun y : cand => PrimFloat.ltb y.1 (sift h rest passed).1.1 = false)
         (sift h rest passed).2.
Proof.
  induction rest as [|y rest IH]; intros h passed Hp; cbn [sift]; [done|].
  unfold fgt. destruct (PrimFloat.ltb y.1 h.1) eqn:E; apply IH.
  - apply Forall_app. split.
    + eapply Forall_impl; [exact Hp|]. intros d Hd. cbn beta in Hd.
      destruct (PrimFloat.ltb d.1 y.1) eqn:E'; [|done].
      by rewrite (flt_trans _ _ _ E' E) in Hd.
    + apply Forall_singleton. by apply flt_asym.
  - apply Forall_app. split; [done|]. by apply Forall_singleton.
Qed.

Lemma len_cons {A} (x : A) xs : len (x :: xs) = len xs + 1.
Proof. unfold len. cbn [length]. lia. Qed.

Lemma sort_swap_middle (pre passed rest : list cand) (h y : cand) :
  sort_swap (pre ++ h :: passed ++ y :: rest) (len pre) (len pre + 1 + len passed)
  = Some (pre ++ (if fgt h.1 y.1 then y else h)
              :: (passed ++ [if fgt h.1 y.1 then h else y]) ++ rest).
Proof.
  assert (len (pre ++ h :: passed) = len pre + 1 + len passed) as Hb.
  { rewrite len_app, len_cons. lia. }
  unfold sort_swap. rewrite at_middle. cbn [mbind option_bind].
  replace (pre ++ h :: passed ++ y :: rest) with ((pre ++ h :: passed) ++ y :: rest)
    by (by rewrite <- app_assoc).
  rewrite <- Hb, at_middle. cbn [mbind option_bind].
  destruct (fgt h.1 y.1); f_equal.
  - assert (set_at ((pre ++ h :: passed) ++ y :: rest) (len pre) y
            = (pre ++ y :: passed) ++ y :: rest) as ->.
    { rewrite <- !app_assoc. cbn [app]. apply set_at_middle. }
    replace (len (pre ++ h :: passed)) with (len (pre ++ y :: passed))
      by (rewrite !len_app, !len_cons; lia).
    rewrite set_at_middle, <- !app_assoc. done.
  - rewrite <- !app_assoc. done.
Qed.

Lemma sort_inner (pre rest : list cand) : forall (h : cand) (passed : list cand),
  for_each (fun cs b => sort_swap cs (len pre) b)
    (range (len pre + 1 + len passed) (len pre + 1 + len passed + len rest))
    (pre ++ h :: passed ++ rest)
  = Some (pre ++ (sift h rest passed).1 :: (sift h rest passed).2).
Proof.
  induction rest as [|y rest IH]; intros h passed.
  - rewrite range_nil by (unfold len; cbn; lia). cbn. by rewrite app_nil_r.
  - pose proof (len_nonneg rest). pose proof (len_nonneg passed). pose proof (len_nonneg pre).
    rewrite len_cons, range_cons by lia. cbn [for_each sift].
    rewrite sort_swap_middle. cbn [mbind option_bind].
    specialize (IH (if fgt h.1 y.1 then y else h)
                   (passed ++ [if fgt h.1 y.1 then h else y])).
    rewrite len_app, len_cons in IH. change (len []) with 0 in IH.
    replace (len pre + 1 + (len passed + (0 + 1))) with (len pre + 1 + len passed + 1) in IH
      by lia.
    replace (len pre + 1 + len passed + 1 + len rest)
      with (len pre + 1 + len passed + (len rest + 1)) in IH by lia.
    rewrite IH. by destruct (fgt h.1 y.1).
Qed.

Lemma sort_outer (n : nat) : forall (pre suffix : list cand),
  length suffix = n ->
  exists sorted,
    for_each
      (fun cs a => for_each (fun cs b => sort_swap cs a b) (range (a + 1) (len cs)) cs)
      (range (len pre) (len pre + len suffix - 1)) (pre ++ suffix)
    = Some (pre ++ sorted)
    /\ sorted ≡ₚ suffix /\ ascending sorted.
Proof.
  induction n as [|n IH]; intros pre suffix Hn.
  - destruct suffix; [|done]. exists []. rewrite range_nil by (unfold len; cbn; lia).
    split; [done|]. split; [done|]. constructor.
  - destruct suffix as [|h rest]; [done|]. injection Hn as Hn.
    destruct (decide (rest = [])) as [->|Hne].
    { exists [h]. rewrite range_nil by (unfold len; cbn; lia).
      split; [done|]. split; [done|]. repeat constructor. }
    assert (0 < len rest) as Hpos by (destruct rest; [done|unfold len; cbn; lia]).
    pose proof (len_nonneg pre).
    rewrite len_cons, range_cons by lia. cbn [for_each].
    pose proof (sort_inner pre rest h []) as Hin. cbn [app] in Hin.
    change (len []) with 0 in Hin.
    replace (len pre + 1 + 0) with (len pre + 1) in Hin by lia.
    replace (len (pre ++ h :: rest)) with (len pre + 1 + len rest)
      by (rewrite len_app, len_cons; lia).
    rewrite Hin. cbn [mbind option_bind].
    pose proof (sift_perm rest h []) as Hperm. cbn [app] in Hperm.
    pose proof (sift_least rest h [] (Forall_nil_2 _)) as Hleast.
    destruct (sift h rest []) as [h' r]. cbn [fst snd] in *.
    assert (length r = n) as Hr.
    { apply Permutation_length in Hperm. cbn in Hperm. lia. }
    destruct (IH (pre ++ [h']) r Hr) as (sorted & Hrun & Hp & Hs).
    rewrite len_app in Hrun. change (len [h']) with 1 in Hrun.
    replace (len pre + 1 + len r - 1) with (len pre + (len rest + 1) - 1) in Hrun
      by (unfold len; lia).
    rewrite <- app_assoc in Hrun. cbn [app] in Hrun.
    exists (h' :: sorted). split.
    { rewrite Hrun, <- app_assoc. done. }
    split; [by rewrite Hp|]. constructor; [done|]. by rewrite Hp.
Qed.

Lemma sort_candidates_sorted (cs : list cand) :
  exists sorted, sort_candidates cs = Some sorted /\ sorted ≡ₚ cs /\ ascending sorted.
Proof.
  destruct (sort_outer (length cs) [] cs eq_refl) as (sorted & Hrun & Hp & Hs).
  exists sorted. split; [|done]. unfold sort_candidates. cbn [app] in Hrun.
  change (len []) with 0 in Hrun. by rewrite Z.add_0_l in Hrun.
Qed.

(** ** The k-buckets: the code against the specification *)

Lemma bucket_of_Some row b bkt : at_ row b = Some bkt -> bucket_of row b = bkt.
Proof. unfold bucket_of. by intros ->. Qed.

Section Fill.
Context `{MathLib}.
Variables (bins : list string) (coords : list LatLonCoordinate).
Variables (bin : Z -> string) (pos : Z -> LatLonCoordinate) (K T : Z).
Hypothesis Hbin : forall j, 0 <= j < len bins -> at_ bins j = Some (bin j).
Hypothesis Hpos : forall j, 0 <= j < len bins -> at_ coords j = Some (pos j).

Lemma scan_body_spec i row cands conn j :
  0 <= i < len bins -> 0 <= j < len bins -> len row = T + 1 ->
  exists conn',
    scan_body bins coords K T i (bin i) (row, cands, conn) j
    = Some ((spec_scan_step bin pos K T i (row, cands) j).1,
            (spec_scan_step bin pos K T i (row, cands) j).2, conn')
    /\ len (spec_scan_step bin pos K T i (row, cands) j).1 = T + 1.
Proof.
  intros Hi Hj Hrow. unfold scan_body, spec_scan_step, real_bucket. cbn [fst snd].
  change (diff_pos ?a ?b) with (FirstDiffBitPos a b).
  destruct (Z.eqb_spec i j) as [->|Hij].
  { rewrite decide_False by tauto. by eexists. }
  rewrite (Hbin j Hj). cbn [mbind option_bind].
  set (dp := FirstDiffBitPos (bin i) (bin j)).
  destruct (Z.eqb_spec dp (-1)) as [Hdp|Hdp].
  { rewrite decide_False by lia. by eexists. }
  destruct (Z.leb_spec 1 (T - dp)) as [H1|H1]; cbn [andb];
    [|rewrite decide_False by lia; by eexists].
  destruct (Z.leb_spec (T - dp) T) as [H2|H2];
    [|rewrite decide_False by lia; by eexists].
  destruct (at_lt row (T - dp)) as [bkt Hb]; [lia|].
  rewrite Hb, (bucket_of_Some _ _ _ Hb). cbn [mbind option_bind].
  destruct (Z.ltb_spec (len bkt) K) as [H3|H3].
  - rewrite (Hpos i Hi), (Hpos j Hj). cbn [mbind option_bind].
    rewrite decide_True by (split; [congruence|lia]). cbn [fst snd].
    eexists. split; [done|]. by rewrite len_set_at.
  - rewrite decide_False by lia. by eexists.
Qed.

Lemma scan_loop_spec i js : forall row cands conn,
  0 <= i < len bins -> Forall (fun j => 0 <= j < len bins) js -> len row = T + 1 ->
  exists conn',
    for_each (scan_body bins coords K T i (bin i)) js (row, cands, conn)
    = Some ((fold_left (spec_scan_step bin pos K T i) js (row, cands)).1,
            (fold_left (spec_scan_step bin pos K T i) js (row, cands)).2, conn')
    /\ len (fold_left (spec_scan_step bin pos K T i) js (row, cands)).1 = T + 1.
Proof.
  induction js as [|j js IH]; intros row cands conn Hi Hjs Hrow.
  - by eexists.
  - apply Forall_cons in Hjs as [Hj Hjs]. cbn [for_each fold_left].
    destruct (scan_body_spec i row cands conn j Hi Hj Hrow) as (conn1 & -> & Hrow1).
    cbn [mbind option_bind].
    destruct (spec_scan_step bin pos K T i (row, cands) j) as [row1 cands1].
    by apply IH.
Qed.

Lemma second_write_prefix row B (sorted : list cand) conn bkt (k : nat) :
  at_ row B = Some bkt -> (k <= length sorted)%nat ->
  for_each
    (fun '(row, connections) c =>
       cd ← at_ sorted c;
       bkt ← at_ row B;
       Some (set_at row B (bkt ++ [cd.2]), connections + 1))
    (range 0 (Z.of_nat k)) (row, conn)
  = Some (set_at row B (bkt ++ (take k sorted).*2), conn + Z.of_nat k).
Proof.
  intros Hb. apply at_Some in Hb as HB. induction k as [|k IH]; intros Hk.
  - rewrite range_nil by lia. cbn. rewrite app_nil_r, Z.add_0_r.
    unfold set_at. rewrite list_insert_id; [done|].
    unfold at_ in Hb. by case_decide.
  - rewrite Nat2Z.inj_succ, <- Z.add_1_r, range_snoc, for_each_app, IH by lia.
    cbn [mbind option_bind for_each].
    destruct (lookup_lt_is_Some_2 sorted k) as [cd Hcd]; [lia|].
    rewrite at_nat, Hcd. cbn [mbind option_bind].
    rewrite at_set_at_eq by done. cbn [mbind option_bind]. f_equal. f_equal; [|lia].
    unfold set_at. rewrite list_insert_insert_eq.
    by rewrite (take_S_r _ _ _ Hcd), fmap_app, <- app_assoc.
Qed.

Lemma second_write_spec row B (sorted : list cand) conn bkt :
  at_ row B = Some bkt ->
  exists conn',
    second_write row B sorted K conn
    = Some (set_at row B (bkt ++ (take (Z.to_nat (Z.min K (len sorted))) sorted).*2), conn').
Proof.
  intros Hb. unfold second_write.
  set (limit := if len sorted <? K then len sorted else K).
  assert (limit = Z.min K (len sorted)) as -> by (unfold limit; destruct (Z.ltb_spec (len sorted) K); lia).
  pose proof (len_nonneg sorted).
  destruct (Z.le_gt_cases 0 (Z.min K (len sorted))) as [Hl|Hl].
  - replace (range 0 (Z.min K (len sorted)))
      with (range 0 (Z.of_nat (Z.to_nat (Z.min K (len sorted))))) by (by rewrite Z2Nat.id).
    rewrite (second_write_prefix _ _ _ _ bkt) by (done || unfold len in *; lia).
    by eexists.
  - rewrite range_nil by lia. cbn [for_each].
    replace (Z.to_nat (Z.min K (len sorted))) with 0%nat by lia.
    cbn. rewrite app_nil_r. unfold set_at. rewrite list_insert_id; [by eexists|].
    unfold at_ in Hb. by case_decide.
Qed.

Lemma fill_bucket_spec i row conn B :
  0 <= i < len bins -> len row = T + 1 -> 1 <= B <= T ->
  exists row' conn',
    fill_bucket bins coords K T i (bin i) (row, conn) B = Some (row', conn')
    /\ spec_bucket_step bin pos K T (len bins) i B row row'
    /\ len row' = T + 1.
Proof.
  intros Hi Hrow HB. unfold fill_bucket, spec_bucket_step.
  destruct (at_lt row B) as [bkt Hb]; [lia|].
  rewrite Hb, (bucket_of_Some _ _ _ Hb). cbn [mbind option_bind].
  destruct (Z.leb_spec K (len bkt)) as [Hfull|Hfree].
  { exists row, conn. split; [done|]. split; [|done]. by rewrite decide_True. }
  destruct (scan_loop_spec i (range 0 (len bins)) row [] conn Hi) as (conn1 & -> & Hrow1);
    [|done|].
  { apply Forall_forall. by intros j Hj%elem_of_range. }
  fold (spec_scan bin pos K T (len bins) i row) in Hrow1 |- *.
  destruct (spec_scan bin pos K T (len bins) i row) as [row1 cands]. cbn [fst snd] in *.
  cbn [mbind option_bind].
  destruct (sort_candidates_sorted cands) as (sorted & -> & Hperm & Hasc).
  cbn [mbind option_bind].
  destruct (at_lt row1 B) as [bkt1 Hb1]; [lia|].
  destruct (second_write_spec row1 B sorted conn1 bkt1 Hb1) as (conn2 & ->).
  do 2 eexists. split; [done|]. split; [|by rewrite len_set_at].
  rewrite decide_False by lia. cbn [fst snd]. eexists. split.
  - exists sorted. split; [done|]. split; [done|]. reflexivity.
  - rewrite (bucket_of_Some _ _ _ Hb1). do 4 f_equal.
    unfold len. by rewrite Hperm.
Qed.

Lemma fill_buckets_spec i Bs : forall row conn,
  0 <= i < len bins -> len row = T + 1 -> Forall (fun B => 1 <= B <= T) Bs ->
  exists row' conn',
    for_each (fill_bucket bins coords K T i (bin i)) Bs (row, conn) = Some (row', conn')
    /\ spec_buckets (spec_bucket_step bin pos K T (len bins) i) Bs row row'
    /\ len row' = T + 1.
Proof.
  induction Bs as [|B Bs IH]; intros row conn Hi Hrow HBs.
  - by do 2 eexists.
  - apply Forall_cons in HBs as [HB HBs]. cbn [for_each spec_buckets].
    destruct (fill_bucket_spec i row conn B Hi Hrow HB) as (row1 & conn1 & -> & Hstep & Hrow1).
    cbn [mbind option_bind].
    destruct (IH row1 conn1 Hi Hrow1 HBs) as (row' & conn' & -> & Hrest & Hrow').
    exists row', conn'. split; [done|]. split; [|done]. by exists row1.
Qed.

Lemma fill_node_spec (kb : KBucketTable) conn i row :
  0 <= T -> 0 <= i < len bins -> at_ kb i = Some row -> len row = T + 1 ->
  exists final conn',
    fill_node bins coords K T (kb, conn) i = Some (set_at kb i final, conn')
    /\ spec_fill_node bin pos K T (len bins) i row final
    /\ len final = T + 1.
Proof.
  intros HT Hi Hkb Hrow. unfold fill_node, spec_fill_node.
  destruct (Z.ltb_spec T 0); [lia|]. rewrite (Hbin i Hi), Hkb. cbn [mbind option_bind].
  destruct (fill_buckets_spec i (range 1 (T + 1)) row conn Hi Hrow)
    as (row' & conn' & -> & Hsteps & Hrow').
  { apply Forall_forall. intros B HB%elem_of_range. lia. }
  cbn [mbind option_bind]. rewrite (dedup_row_map T row' Hrow'). cbn [mbind option_bind].
  do 2 eexists. split; [done|]. split; [by exists row'|].
  unfold len in *. by rewrite length_map.
Qed.

Lemma fill_nodes_prefix (kb : KBucketTable) (k : nat) :
  0 <= T -> len kb = len bins -> Forall (fun row => len row = T + 1) kb ->
  Z.of_nat k <= len bins ->
  exists kb' conn,
    for_each (fill_node bins coords K T) (range 0 (Z.of_nat k)) (kb, 0) = Some (kb', conn)
    /\ len kb' = len kb
    /\ forall i row, at_ kb i = Some row ->
         exists final,
           at_ kb' i = Some final /\ len final = T + 1
           /\ if i <? Z.of_nat k then spec_fill_node bin pos K T (len bins) i row final
              else final = row.
Proof.
  intros HT Hlen Hrows. induction k as [|k IH]; intros Hk.
  - exists kb, 0. rewrite range_nil by lia. split; [done|]. split; [done|].
    intros i row Hi. exists row. split; [done|]. split.
    + rewrite Forall_forall in Hrows. apply Hrows. unfold at_ in Hi. case_decide; [|done].
      by eapply list_elem_of_lookup_2.
    + apply at_Some in Hi. by destruct (Z.ltb_spec i (Z.of_nat 0)); [lia|].
  - destruct IH as (kb1 & conn1 & Hrun & Hlen1 & Hat); [lia|].
    rewrite Nat2Z.inj_succ, <- Z.add_1_r, range_snoc, for_each_app, Hrun by lia.
    cbn [mbind option_bind for_each].
    destruct (at_lt kb (Z.of_nat k)) as [row Hrow]; [lia|].
    destruct (Hat _ _ Hrow) as (row1 & Hrow1 & Hl1 & Hsame).
    destruct (Z.ltb_spec (Z.of_nat k) (Z.of_nat k)); [lia|]. subst row1.
    destruct (fill_node_spec kb1 conn1 (Z.of_nat k) row HT)
      as (final & conn' & Hfill & Hspec & Hlf); [lia|done|done|].
    do 2 eexists. split; [by rewrite Hfill|]. split; [by rewrite len_set_at|].
    intros i rowi Hi. destruct (decide (i = Z.of_nat k)) as [->|Hne].
    + rewrite at_set_at_eq by lia. exists final. split; [done|]. split; [done|].
      destruct (Z.ltb_spec (Z.of_nat k) (Z.of_nat k + 1)); [|lia]. congruence.
    + rewrite at_set_at_ne by lia. destruct (Hat _ _ Hi) as (f & Hf & Hlf' & Hs).
      exists f. split; [done|]. split; [done|].
      destruct (Z.ltb_spec i (Z.of_nat k)), (Z.ltb_spec i (Z.of_nat k + 1)); try done; lia.
Qed.

(** C3.  On a table with a row of [TotalBits + 1] buckets for each of the
    nodes, [FillOtherKBuckets] returns, and the row it leaves for every
    node [i] is the one the specification describes: for [B = 1, ...,
    TotalBits] in turn, bucket [B] is skipped when it holds at least [K]
    entries; otherwise every [j != i] whose real bucket [TotalBits -
    FirstDiffBitPos(bin(i), bin(j))] lies in [[1, TotalBits]] and is not at
    capacity is appended to its real bucket and recorded with its
    distance, and the [min(K, |cands|)] candidates of smallest distance are
    appended to bucket [B], whatever it holds; at the end every bucket is
    reduced to the first occurrences of its entries and is not cut to
    [K]. *)
Theorem FillOtherKBuckets_as_specified (kb : KBucketTable) :
  0 <= T -> len kb = len bins -> Forall (fun row => len row = T + 1) kb ->
  exists kb' conn,
    FillOtherKBuckets kb bins coords K T = Some (kb', conn)
    /\ len kb' = len kb
    /\ forall i row, at_ kb i = Some row ->
         exists final,
           at_ kb' i = Some final
           /\ spec_fill_node bin pos K T (len bins) i row final.
Proof.
  intros HT Hlen Hrows. unfold FillOtherKBuckets.
  destruct (fill_nodes_prefix kb (Z.to_nat (len bins)) HT Hlen Hrows)
    as (kb' & conn & Hrun & Hlen' & Hat).
  { pose proof (len_nonneg bins). lia. }
  rewrite Z2Nat.id in Hrun, Hat by apply len_nonneg.
  exists kb', conn. split; [done|]. split; [done|].
  intros i row Hi. destruct (Hat _ _ Hi) as (final & Hf & _ & Hs).
  exists final. split; [done|]. apply at_Some in Hi.
  destruct (Z.ltb_spec i (len bins)); [done|lia].
Qed.

End Fill.

(** The theorem applies to the empty table of three nodes with ten bits
    and buckets of six. *)
Lemma FillOtherKBuckets_as_specified_witness :
  exists kb' conn,
    FillOtherKBuckets (H := no_trig) (replicate 3 (replicate 11 [])) three_bins three_places
      6 10 = Some (kb', conn)
    /\ len kb' = 3
    /\ forall i row, at_ (replicate 3 (replicate 11 ([] : list Z))) i = Some row ->
         exists final,
           at_ kb' i = Some final
           /\ spec_fill_node (H := no_trig) (fun j => default EmptyString (at_ three_bins j))
                (fun j => default origin (at_ three_places j)) 6 10 3 i row final.
Proof.
  apply (FillOtherKBuckets_as_specified (H := no_trig) three_bins three_places
           (fun j => default EmptyString (at_ three_bins j))
           (fun j => default origin (at_ three_places j)) 6 10).
  - intros j Hj. destruct (at_lt three_bins j Hj) as [x Hx]. by rewrite Hx.
  - intros j Hj. destruct (at_lt three_places j Hj) as [x Hx]. by rewrite Hx.
  - lia.
  - reflexivity.
  - repeat constructor.
Defined.

(** ** Graph: the adjacency lists *)

Lemma Contains_elem_of xs v : Graph.Contains xs v = true <-> v ∈ xs.
Proof.
  unfold Graph.Contains. rewrite existsb_exists. split.
  - intros (x & Hx%list_elem_of_In & ->%Z.eqb_eq). done.
  - intros Hv. exists v. split; [by apply list_elem_of_In|apply Z.eqb_refl].
Qed.

Lemma index_of_Some xs v i :
  Graph.index_of xs v = Some i -> xs !! i = Some v.
Proof.
  revert i. induction xs as [|x xs IH]; intros i; cbn; [done|].
  destruct (Z.eqb_spec x v) as [->|Hne].
  - by intros [= <-].
  - destruct (Graph.index_of xs v) as [k|]; [|done]. cbn. intros [= <-]. by apply IH.
Qed.

Lemma index_of_None xs v : Graph.index_of xs v = None <-> v ∉ xs.
Proof.
  induction xs as [|x xs IH]; cbn.
  - split; [intros _; apply not_elem_of_nil|done].
  - rewrite not_elem_of_cons. destruct (Z.eqb_spec x v) as [->|Hne].
    + split; [done|]. by intros [? _].
    + destruct (Graph.index_of xs v) as [k|]; cbn.
      * split; [done|]. intros [_ Hv]. by apply IH in Hv.
      * split; [|done]. intros _. split; [congruence|]. by apply IH.
Qed.

(** The swap with the last element removes one occurrence and keeps the
    rest, in another order. *)
Lemma swap_remove_delete xs v i :
  Graph.index_of xs v = Some i -> Graph.swap_remove xs v ≡ₚ delete i xs.
Proof.
  intros Hi. unfold Graph.swap_remove. rewrite Hi.
  apply index_of_Some in Hi.
  apply list_elem_of_split_length in Hi as (l1 & l2 & -> & ->).
  rewrite delete_middle.
  destruct (decide (l2 = [])) as [->|Hne].
  - rewrite last_snoc, list_insert_id by (by apply list_lookup_middle).
    rewrite length_app. cbn [length].
    replace (length l1 + 1 - 1)%nat with (length l1) by lia.
    by rewrite take_app_length, app_nil_r.
  - destruct (exists_last Hne) as (l2' & z & ->).
    replace (l1 ++ v :: l2' ++ [z]) with ((l1 ++ v :: l2') ++ [z])
      by (by rewrite <- app_assoc).
    rewrite last_snoc, <- app_assoc. cbn [app].
    rewrite insert_app_r_alt by done. rewrite Nat.sub_diag. cbn [insert list_insert].
    replace (l1 ++ z :: l2' ++ [z]) with ((l1 ++ z :: l2') ++ [z])
      by (by rewrite <- app_assoc).
    replace (length (l1 ++ v :: l2' ++ [z]) - 1)%nat with (length (l1 ++ z :: l2'))
      by (rewrite !length_app; cbn; rewrite length_app; cbn; lia).
    rewrite take_app_length. rewrite <- Permutation_middle.
    by rewrite app_assoc, <- Permutation_cons_append.
Qed.

Lemma swap_remove_absent xs v : v ∉ xs -> Graph.swap_remove xs v = xs.
Proof. intros Hv%index_of_None. unfold Graph.swap_remove. by rewrite Hv. Qed.

Lemma swap_remove_NoDup xs v : NoDup xs -> NoDup (Graph.swap_remove xs v).
Proof.
  intros Hnd. destruct (Graph.index_of xs v) as [i|] eqn:Hi.
  - rewrite (swap_remove_delete _ _ _ Hi). 
    eapply sublist_NoDup; [exact Hnd|apply sublist_delete].
  - by rewrite swap_remove_absent by (by apply index_of_None).
Qed.

Lemma swap_remove_elem_of xs v x :
  NoDup xs -> x ∈ Graph.swap_remove xs v <-> x ∈ xs /\ x <> v.
Proof.
  intros Hnd. destruct (Graph.index_of xs v) as [i|] eqn:Hi.
  - rewrite (swap_remove_delete _ _ _ Hi). apply index_of_Some in Hi.
    apply list_elem_of_split_length in Hi as (l1 & l2 & -> & ->).
    rewrite delete_middle. apply NoDup_app in Hnd as (Hn1 & Hn12 & Hn2).
    apply NoDup_cons in Hn2 as [Hv2 Hn2].
    rewrite !elem_of_app, elem_of_cons. split.
    + intros [Hx|Hx]; (split; [tauto|]); intros ->; [|done].
      apply (Hn12 _ Hx). by left.
    + intros [[Hx|[->|Hx]] Hne]; tauto.
  - apply index_of_None in Hi. rewrite swap_remove_absent by done.
    split; [|tauto]. intros Hx. split; [done|]. by intros ->.
Qed.

Lemma swap_remove_length xs v :
  len (Graph.swap_remove xs v) = len xs - (if Graph.Contains xs v then 1 else 0).
Proof.
  destruct (Graph.index_of xs v) as [i|] eqn:Hi.
  - unfold len. rewrite (swap_remove_delete _ _ _ Hi). apply index_of_Some in Hi as Hl.
    rewrite length_delete by done.
    assert (Graph.Contains xs v = true) as ->.
    { apply Contains_elem_of. by eapply list_elem_of_lookup_2. }
    apply lookup_lt_Some in Hl. lia.
  - apply index_of_None in Hi as Hv. rewrite swap_remove_absent by done.
    destruct (Graph.Contains xs v) eqn:E; [|lia]. by apply Contains_elem_of in E.
Qed.

Lemma at_set_at {A} (xs : list A) i j x :
  0 <= i < len xs -> at_ (set_at xs i x) j = if decide (j = i) then Some x else at_ xs j.
Proof.
  intros Hi. case_decide as Hj.
  - subst j. by apply at_set_at_eq.
  - apply at_set_at_ne; [lia|congruence].
Qed.

Lemma out_total_set_at (xs : list (list Z)) i l l' :
  at_ xs i = Some l ->
  foldr (fun l acc => len l + acc) 0 (set_at xs i l')
  = foldr (fun l acc => len l + acc) 0 xs - len l + len l'.
Proof.
  unfold at_, set_at. case_decide; [|done]. generalize (Z.to_nat i) as k. clear.
  induction xs as [|x xs IH]; intros [|k]; try done.
  - intros [= ->]. cbn. lia.
  - intros Hk. change (<[S k := l']> (x :: xs)) with (x :: <[k := l']> xs).
    cbn [foldr]. rewrite (IH _ Hk). lia.
Qed.

(** What a call of [AddEdge] that returns does. *)
Lemma AddEdge_cases g u v g' b :
  Graph.AddEdge g u v = Some (g', b) ->
  (b = false /\ g' = g /\ (u = v \/ Graph.edge g u v))
  \/ (b = true /\ u <> v /\ ~ Graph.edge g u v
      /\ exists outU inV,
           at_ (Graph.OutBound g) u = Some outU /\ at_ (Graph.InBound g) v = Some inV
           /\ g' = {| Graph.N := Graph.N g; Graph.M := Graph.M g + 1;
                      Graph.InBound := set_at (Graph.InBound g) v (inV ++ [u]);
                      Graph.OutBound := set_at (Graph.OutBound g) u (outU ++ [v]) |}).
Proof.
  unfold Graph.AddEdge. destruct (Z.eqb_spec u v) as [->|Hne].
  { intros [= <- <-]. left. tauto. }
  destruct (at_ (Graph.OutBound g) u) as [outU|] eqn:Hout; [|done]. cbn [mbind option_bind].
  destruct (Graph.Contains outU v) eqn:Hc.
  { intros [= <- <-]. left. split; [done|]. split; [done|]. right.
    exists outU. split; [done|]. by apply Contains_elem_of. }
  destruct (at_ (Graph.InBound g) v) as [inV|] eqn:Hin; [|done]. cbn [mbind option_bind].
  intros [= <- <-]. right. split; [done|]. split; [done|]. split.
  - intros (l & Hl & Hv). rewrite Hout in Hl. injection Hl as <-.
    apply Contains_elem_of in Hv. congruence.
  - by exists outU, inV.
Qed.

Lemma DelEdge_cases g u v g' :
  Graph.DelEdge g u v = Some g' ->
  exists outU inV,
    at_ (Graph.OutBound g) u = Some outU /\ at_ (Graph.InBound g) v = Some inV
    /\ g' = {| Graph.N := Graph.N g; Graph.M := Graph.M g - 1;
               Graph.InBound := set_at (Graph.InBound g) v (Graph.swap_remove inV u);
               Graph.OutBound := set_at (Graph.OutBound g) u (Graph.swap_remove outU v) |}.
Proof.
  unfold Graph.DelEdge.
  destruct (at_ (Graph.OutBound g) u) as [outU|] eqn:Hout; [|done]. cbn [mbind option_bind].
  destruct (at_ (Graph.InBound g) v) as [inV|] eqn:Hin; [|done]. cbn [mbind option_bind].
  intros [= <-]. by exists outU, inV.
Qed.

Lemma edge_set_at g g' u l l' :
  at_ (Graph.OutBound g) u = Some l ->
  Graph.OutBound g' = set_at (Graph.OutBound g) u l' ->
  forall a c, Graph.edge g' a c <-> if decide (a = u) then c ∈ l' else Graph.edge g a c.
Proof.
  intros Hl Hg' a c. unfold Graph.edge. rewrite Hg'.
  rewrite at_set_at by (by eapply at_Some). case_decide; [|done].
  split; [by intros (? & [= <-] & ?)|]. intros Hc. by exists l'.
Qed.

Lemma redge_set_at g g' v l l' :
  at_ (Graph.InBound g) v = Some l ->
  Graph.InBound g' = set_at (Graph.InBound g) v l' ->
  forall a c, Graph.redge g' a c <-> if decide (c = v) then a ∈ l' else Graph.redge g a c.
Proof.
  intros Hl Hg' a c. unfold Graph.redge. rewrite Hg'.
  rewrite at_set_at by (by eapply at_Some). case_decide; [|done].
  split; [by intros (? & [= <-] & ?)|]. intros Hc. by exists l'.
Qed.

Lemma Forall_set_at {A} (P : A -> Prop) (xs : list A) i x :
  Forall P xs -> P x -> Forall P (set_at xs i x).
Proof. intros Hxs Hx. unfold set_at. by apply Forall_insert. Qed.

Lemma Forall_at {A} (P : A -> Prop) (xs : list A) i x :
  Forall P xs -> at_ xs i = Some x -> P x.
Proof.
  intros Hxs Hx. unfold at_ in Hx. case_decide; [|done].
  rewrite Forall_forall in Hxs. apply Hxs. by eapply list_elem_of_lookup_2.
Qed.

Lemma edge_elem_of g u l c : at_ (Graph.OutBound g) u = Some l -> Graph.edge g u c <-> c ∈ l.
Proof.
  intros Hl. unfold Graph.edge. split; [|by exists l].
  intros (l' & Hl' & Hc). congruence.
Qed.

Lemma redge_elem_of g v l a : at_ (Graph.InBound g) v = Some l -> Graph.redge g a v <-> a ∈ l.
Proof.
  intros Hl. unfold Graph.redge. split; [|by exists l].
  intros (l' & Hl' & Hc). congruence.
Qed.

Lemma NewGraph_consistent n g : Graph.NewGraph n = Some g -> Graph.consistent g.
Proof.
  unfold Graph.NewGraph. case_decide; [|done]. intros [= <-]. split; cbn.
  - by rewrite !length_replicate.
  - intros u v. split.
    + intros (l & Hl & Hv). unfold at_ in Hl. case_decide; [|done].
      apply lookup_replicate in Hl as [-> _]. by apply elem_of_nil in Hv.
    + intros (l & Hl & Hv). unfold at_ in Hl. case_decide; [|done].
      apply lookup_replicate in Hl as [-> _]. by apply elem_of_nil in Hv.
  - intros u (l & Hl & Hv). unfold at_ in Hl. cbn in Hl. case_decide; [|done].
    apply lookup_replicate in Hl as [-> _]. by apply elem_of_nil in Hv.
  - apply Forall_replicate. constructor.
  - apply Forall_replicate. constructor.
Qed.

Lemma AddEdge_consistent g u v g' b :
  Graph.consistent g -> Graph.AddEdge g u v = Some (g', b) -> Graph.consistent g'.
Proof.
  intros [Hlen Hiff Hloop Hout Hin] Hadd.
  apply AddEdge_cases in Hadd
    as [(_ & -> & _)|(_ & Hne & Hnew & outU & inV & HoutU & HinV & ->)]; [done|].
  match goal with |- Graph.consistent ?x => set (g' := x) end.
  pose proof (edge_set_at g g' u outU (outU ++ [v]) HoutU eq_refl) as He.
  pose proof (redge_set_at g g' v inV (inV ++ [u]) HinV eq_refl) as Hr.
  pose proof (fun c => edge_elem_of g u outU c HoutU) as Ho.
  pose proof (fun a => redge_elem_of g v inV a HinV) as Hi.
  split.
  - unfold g', set_at. cbn [Graph.OutBound Graph.InBound]. by rewrite !length_insert.
  - intros a c. rewrite He, Hr.
    destruct (decide (a = u)) as [->|Ha], (decide (c = v)) as [->|Hc].
    + rewrite !elem_of_app, !list_elem_of_singleton. tauto.
    + rewrite elem_of_app, list_elem_of_singleton, <- Ho, Hiff. tauto.
    + rewrite elem_of_app, list_elem_of_singleton, <- Hi, Hiff. tauto.
    + apply Hiff.
  - intros a. rewrite He. case_decide as Ha; [|apply Hloop]. subst a.
    rewrite elem_of_app, list_elem_of_singleton, <- Ho. intros [Hu|Hu]; [|done].
    by apply (Hloop u).
  - unfold g'. cbn [Graph.OutBound].
    apply Forall_set_at; [done|]. apply NoDup_app.
    split; [apply (Forall_at NoDup _ _ _ Hout HoutU)|].
    split; [|apply NoDup_singleton]. intros x Hx ->%list_elem_of_singleton.
    apply Hnew. by apply Ho.
  - unfold g'. cbn [Graph.InBound].
    apply Forall_set_at; [done|]. apply NoDup_app.
    split; [apply (Forall_at NoDup _ _ _ Hin HinV)|].
    split; [|apply NoDup_singleton]. intros x Hx ->%list_elem_of_singleton.
    apply Hnew, Hiff. by apply Hi.
Qed.

Lemma DelEdge_consistent g u v g' :
  Graph.consistent g -> Graph.DelEdge g u v = Some g' -> Graph.consistent g'.
Proof.
  intros [Hlen Hiff Hloop Hout Hin] Hdel.
  apply DelEdge_cases in Hdel as (outU & inV & HoutU & HinV & ->).
  match goal with |- Graph.consistent ?x => set (g' := x) end.
  pose proof (edge_set_at g g' u outU (Graph.swap_remove outU v) HoutU eq_refl) as He.
  pose proof (redge_set_at g g' v inV (Graph.swap_remove inV u) HinV eq_refl) as Hr.
  pose proof (fun c => edge_elem_of g u outU c HoutU) as Ho.
  pose proof (fun a => redge_elem_of g v inV a HinV) as Hi.
  pose proof (Forall_at NoDup _ _ _ Hout HoutU) as Hno.
  pose proof (Forall_at NoDup _ _ _ Hin HinV) as Hni.
  split.
  - unfold g', set_at. cbn [Graph.OutBound Graph.InBound]. by rewrite !length_insert.
  - intros a c. rewrite He, Hr.
    destruct (decide (a = u)) as [->|Ha], (decide (c = v)) as [->|Hc].
    + rewrite !swap_remove_elem_of by done. tauto.
    + rewrite swap_remove_elem_of, <- Ho, Hiff by done. tauto.
    + rewrite swap_remove_elem_of, <- Hi, Hiff by done. tauto.
    + apply Hiff.
  - intros a. rewrite He. case_decide as Ha; [|apply Hloop]. subst a.
    rewrite swap_remove_elem_of, <- Ho by done. intros [Hu _]. by apply (Hloop u).
  - unfold g'. cbn [Graph.OutBound]. apply Forall_set_at; [done|]. by apply swap_remove_NoDup.
  - unfold g'. cbn [Graph.InBound]. apply Forall_set_at; [done|]. by apply swap_remove_NoDup.
Qed.

Lemma step_consistent g o g' :
  Graph.consistent g -> Graph.step g o = Some g' -> Graph.consistent g'.
Proof.
  intros Hg. destruct o as [u v|u v]; cbn [Graph.step].
  - destruct (Graph.AddEdge g u v) as [[g1 b]|] eqn:Hadd; [|done]. cbn. intros [= <-].
    by eapply AddEdge_consistent.
  - by apply DelEdge_consistent.
Qed.

Lemma run_preserves_consistent os : forall g g',
  Graph.consistent g -> Graph.run g os = Some g' -> Graph.consistent g'.
Proof.
  unfold Graph.run. induction os as [|o os IH]; intros g g' Hg; cbn [for_each].
  - by intros [= <-].
  - destruct (Graph.step g o) as [g1|] eqn:Hstep; [|done]. cbn [mbind option_bind].
    apply IH. by eapply step_consistent.
Qed.

(** X1.  After any sequence of [AddEdge] and [DelEdge] calls on
    [NewGraph(n)] that does not panic, the adjacency lists are consistent:
    [v] is in [OutBound[u]] exactly when [u] is in [InBound[v]], no node
    is its own neighbour and no list holds a node twice. *)
Theorem run_consistent n g os g' :
  Graph.NewGraph n = Some g -> Graph.run g os = Some g' -> Graph.consistent g'.
Proof. intros Hg%NewGraph_consistent. by apply run_preserves_consistent. Qed.

(** The theorem applies to three calls on a graph of three nodes. *)
Lemma run_consistent_witness :
  exists g g',
    Graph.NewGraph 3 = Some g
    /\ Graph.run g [Graph.Add 0 1; Graph.Add 1 2; Graph.Del 0 1] = Some g'
    /\ Graph.consistent g'.
Proof.
  exists (Graph.mk 3 0 [[]; []; []] [[]; []; []]).
  let o := eval vm_compute in
    (Graph.run (Graph.mk 3 0 [[]; []; []] [[]; []; []])
       [Graph.Add 0 1; Graph.Add 1 2; Graph.Del 0 1]) in
  match o with Some ?g' => exists g' end.
  split; [reflexivity|]. split; [reflexivity|].
  apply (run_consistent 3 (Graph.mk 3 0 [[]; []; []] [[]; []; []])
           [Graph.Add 0 1; Graph.Add 1 2; Graph.Del 0 1]); reflexivity.
Defined.

Lemma step_edge_counter g o g' :
  Graph.step g o = Some g' ->
  Graph.M g' - Graph.out_total g'
  = Graph.M g - Graph.out_total g - absent_deletes g [o].
Proof.
  unfold absent_deletes. intros Hstep. rewrite Hstep.
  destruct o as [u v|u v]; cbn [Graph.step] in Hstep.
  - destruct (Graph.AddEdge g u v) as [[g1 b]|] eqn:Hadd; [|done].
    injection Hstep as ->.
    apply AddEdge_cases in Hadd
      as [(_ & -> & _)|(_ & Hne & Hnew & outU & inV & HoutU & HinV & ->)]; [lia|].
    unfold Graph.out_total. cbn [Graph.OutBound Graph.M].
    rewrite (out_total_set_at _ _ _ _ HoutU), len_app. change (len [v]) with 1. lia.
  - apply DelEdge_cases in Hstep as (outU & inV & HoutU & HinV & ->).
    unfold Graph.out_total. cbn [Graph.OutBound Graph.M].
    rewrite (out_total_set_at _ _ _ _ HoutU), swap_remove_length, HoutU.
    change (default [] (Some outU)) with outU. destruct (Graph.Contains outU v); lia.
Qed.

(** X2.  After any sequence of calls on [NewGraph(n)], the counter [M] is
    the sum of the out-degrees less the number of [DelEdge] calls for an
    edge that was not in the graph: [AddEdge] counts exactly the edges it
    inserts, [DelEdge] decrements whether or not it removes one. *)
Theorem run_edge_counter n g os g' :
  Graph.NewGraph n = Some g -> Graph.run g os = Some g' ->
  Graph.M g' = Graph.out_total g' - absent_deletes g os.
Proof.
  intros Hnew Hrun.
  assert (Graph.M g - Graph.out_total g = 0) as H0.
  { unfold Graph.NewGraph in Hnew. case_decide; [|done]. injection Hnew as <-.
    unfold Graph.out_total. cbn [Graph.M Graph.OutBound].
    assert (forall k : nat, foldr (fun l acc => len l + acc) 0 (replicate k (@nil Z)) = 0)
      as ->; [|done].
    intros k. induction k as [|k IH]; [done|]. cbn [replicate foldr]. rewrite IH. done. }
  enough (Graph.M g' - Graph.out_total g'
          = Graph.M g - Graph.out_total g - absent_deletes g os) by lia.
  clear Hnew H0. unfold Graph.run in Hrun. revert g Hrun.
  induction os as [|o os IH]; intros g Hrun; cbn [for_each] in Hrun.
  - injection Hrun as <-. cbn. lia.
  - destruct (Graph.step g o) as [g1|] eqn:Hstep; [|done]. cbn [mbind option_bind] in Hrun.
    rewrite (IH _ Hrun). pose proof (step_edge_counter _ _ _ Hstep) as H1.
    cbn [absent_deletes] in H1 |- *. rewrite Hstep in H1 |- *. lia.
Qed.

(** The theorem applies to a sequence with one deletion of an edge that is
    not there. *)
Lemma run_edge_counter_witness :
  exists g g',
    Graph.NewGraph 3 = Some g
    /\ Graph.run g [Graph.Add 0 1; Graph.Del 1 2; Graph.Del 0 1] = Some g'
    /\ absent_deletes g [Graph.Add 0 1; Graph.Del 1 2; Graph.Del 0 1] = 1
    /\ Graph.M g'
       = Graph.out_total g' - absent_deletes g [Graph.Add 0 1; Graph.Del 1 2; Graph.Del 0 1].
Proof.
  exists (Graph.mk 3 0 [[]; []; []] [[]; []; []]).
  let o := eval vm_compute in
    (Graph.run (Graph.mk 3 0 [[]; []; []] [[]; []; []])
       [Graph.Add 0 1; Graph.Del 1 2; Graph.Del 0 1]) in
  match o with Some ?g' => exists g' end.
  split; [reflexivity|]. split; [reflexivity|]. split; [reflexivity|].
  apply (run_edge_counter 3 (Graph.mk 3 0 [[]; []; []] [[]; []; []])
           [Graph.Add 0 1; Graph.Del 1 2; Graph.Del 0 1]); reflexivity.
Defined.

(** X3.  [AddEdge(u, v)] returns [true] exactly when [u != v] and the edge
    is new; otherwise it leaves the graph as it is.  Afterwards the edges
    are the old ones and, unless it is a self-loop, [(u, v)], and a second
    call changes nothing and returns [false]. *)
Theorem AddEdge_inserts_once g u v g' b :
  Graph.AddEdge g u v = Some (g', b) ->
  (b = true <-> u <> v /\ ~ Graph.edge g u v)
  /\ (b = false -> g' = g)
  /\ (forall a c, Graph.edge g' a c <-> Graph.edge g a c \/ (u <> v /\ a = u /\ c = v))
  /\ Graph.AddEdge g' u v = Some (g', false).
Proof.
  intros Hadd.
  apply AddEdge_cases in Hadd
    as [(-> & -> & Hold)|(-> & Hne & Hnew & outU & inV & HoutU & HinV & ->)].
  - split; [split; [done|]; intros [? ?]; destruct Hold; tauto|]. split; [done|].
    split.
    + intros a c. split; [tauto|]. intros [?|(Hne & -> & ->)]; [done|].
      by destruct Hold.
    + unfold Graph.AddEdge. destruct (Z.eqb_spec u v); [done|].
      destruct Hold as [?|(l & -> & Hv%Contains_elem_of)]; [done|].
      cbn [mbind option_bind]. by rewrite Hv.
  - split; [tauto|]. split; [done|].
    match goal with |- context [Graph.edge ?x _ _] => set (g' := x) end.
    pose proof (edge_set_at g g' u outU (outU ++ [v]) HoutU eq_refl) as He.
    split.
    + intros a c. rewrite He. case_decide as Ha.
      * subst a. rewrite elem_of_app, list_elem_of_singleton, (edge_elem_of g u outU c HoutU).
        tauto.
      * tauto.
    + unfold Graph.AddEdge. destruct (Z.eqb_spec u v); [done|].
      assert (at_ (Graph.OutBound g') u = Some (outU ++ [v])) as ->.
      { unfold g'. cbn [Graph.OutBound]. apply at_set_at_eq. by eapply at_Some. }
      cbn [mbind option_bind].
      assert (Graph.Contains (outU ++ [v]) v = true) as ->; [|done].
      apply Contains_elem_of, elem_of_app. right. by apply list_elem_of_singleton.
Qed.

(** The theorem applies to the first edge of a graph of two nodes. *)
Lemma AddEdge_inserts_once_witness :
  exists g g',
    Graph.NewGraph 2 = Some g
    /\ Graph.AddEdge g 0 1 = Some (g', true)
    /\ Graph.AddEdge g' 0 1 = Some (g', false).
Proof.
  exists (Graph.mk 2 0 [[]; []] [[]; []]), (Graph.mk 2 1 [[]; [0]] [[1]; []]).
  split; [reflexivity|]. split; [reflexivity|].
  apply (AddEdge_inserts_once (Graph.mk 2 0 [[]; []] [[]; []]) 0 1 _ true). reflexivity.
Defined.

(** X4.  On consistent adjacency lists, [DelEdge(u, v)] removes the edge
    [(u, v)] and no other: the swap with the last element is invisible in
    the edge set. *)
Theorem DelEdge_removes_the_edge g u v g' :
  Graph.consistent g -> Graph.DelEdge g u v = Some g' ->
  forall a c, Graph.edge g' a c <-> Graph.edge g a c /\ ~ (a = u /\ c = v).
Proof.
  intros [Hlen Hiff Hloop Hout Hin] Hdel a c.
  apply DelEdge_cases in Hdel as (outU & inV & HoutU & HinV & ->).
  match goal with |- context [Graph.edge ?x _ _] => set (g' := x) end.
  rewrite (edge_set_at g g' u outU (Graph.swap_remove outU v) HoutU eq_refl).
  pose proof (Forall_at NoDup _ _ _ Hout HoutU) as Hno.
  case_decide as Ha; [|tauto]. subst a.
  rewrite swap_remove_elem_of, (edge_elem_of g u outU c HoutU) by done. tauto.
Qed.

(** The theorem applies to the deletion of one of two opposite edges. *)
Lemma DelEdge_removes_the_edge_witness :
  exists g g',
    Graph.run (Graph.mk 2 0 [[]; []] [[]; []]) [Graph.Add 0 1; Graph.Add 1 0] = Some g
    /\ Graph.DelEdge g 0 1 = Some g'
    /\ forall a c, Graph.edge g' a c <-> Graph.edge g a c /\ ~ (a = 0 /\ c = 1).
Proof.
  exists (Graph.mk 2 2 [[1]; [0]] [[1]; [0]]), (Graph.mk 2 1 [[1]; []] [[]; [0]]).
  split; [reflexivity|]. split; [reflexivity|].
  apply DelEdge_removes_the_edge; [|reflexivity].
  apply (run_preserves_consistent [Graph.Add 0 1; Graph.Add 1 0]
           (Graph.mk 2 0 [[]; []] [[]; []])); [|reflexivity].
  by apply (NewGraph_consistent 2).
Defined.

(** ** The queue: a binary heap on the receive times *)

Lemma heap_parent_lt k : 0 < k -> 0 <= heap_parent k < k.
Proof.
  intros Hk. unfold heap_parent. rewrite Z.quot_div_nonneg by lia.
  pose proof (Z.div_mod (k - 1) 2). pose proof (Z.mod_pos_bound (k - 1) 2). lia.
Qed.

Lemma heap_parent_child k i :
  0 < k -> heap_parent k = i <-> k = 2 * i + 1 \/ k = 2 * i + 2.
Proof.
  intros Hk. unfold heap_parent. rewrite Z.quot_div_nonneg by lia.
  pose proof (Z.div_mod (k - 1) 2). pose proof (Z.mod_pos_bound (k - 1) 2).
  split; [lia|]. intros [->| ->].
  - replace (2 * i + 1 - 1) with (i * 2) by lia. by rewrite Z.div_mul.
  - replace (2 * i + 2 - 1) with (1 + i * 2) by lia. by rewrite Z.div_add.
Qed.

Lemma Swap_spec mq i j a b :
  at_ mq i = Some a -> at_ mq j = Some b ->
  exists mq',
    Swap mq i j = Some mq' /\ mq' ≡ₚ mq /\ len mq' = len mq
    /\ forall k, at_ mq' k
                 = if decide (k = j) then Some a
                   else if decide (k = i) then Some b else at_ mq k.
Proof.
  intros Ha Hb. unfold Swap. rewrite Ha, Hb. cbn [mbind option_bind].
  eexists. split; [done|]. apply at_Some in Ha as Hi. apply at_Some in Hb as Hj.
  split; [|split].
  - unfold set_at, at_ in *. repeat case_decide; try done.
    by apply Permutation_insert_swap.
  - by rewrite !len_set_at.
  - intros k. rewrite at_set_at by (by rewrite len_set_at).
    case_decide; [done|]. by rewrite at_set_at.
Qed.

Lemma heap_up_total fuel : forall mq j,
  0 <= j < len mq -> j <= Z.of_nat fuel ->
  exists mq', heap_up fuel mq j = Some mq' /\ mq' ≡ₚ mq.
Proof.
  induction fuel as [|fuel IH]; intros mq j Hj Hfuel; cbn [heap_up].
  - assert (j = 0) as -> by lia. exists mq. by split.
  - destruct (Z.eqb_spec (Z.quot (j - 1) 2) j) as [|Hne]; [by exists mq|].
    assert (0 < j) as Hpos.
    { destruct (decide (j = 0)) as [->|]; [done|lia]. }
    pose proof (heap_parent_lt j Hpos) as Hp. unfold heap_parent in Hp.
    destruct (at_lt mq j) as [b Hb]; [lia|].
    destruct (at_lt mq (Z.quot (j - 1) 2)) as [a Ha]; [lia|].
    unfold Less. rewrite Hb, Ha. cbn [mbind option_bind].
    destruct (PrimFloat.ltb (RecvTime b) (RecvTime a)); cbn [negb]; [|by exists mq].
    destruct (Swap_spec mq _ _ _ _ Ha Hb) as (mq1 & -> & Hperm & Hlen & _).
    cbn [mbind option_bind].
    destruct (IH mq1 (Z.quot (j - 1) 2)) as (mq' & -> & Hperm'); [lia|lia|].
    exists mq'. split; [done|]. by rewrite Hperm'.
Qed.

Lemma no_later_trans a b c : no_later a b -> no_later b c -> no_later a c.
Proof. apply fle_trans. Qed.

Lemma not_earlier a b :
  is_nan (RecvTime a) = false -> is_nan (RecvTime b) = false ->
  PrimFloat.ltb (RecvTime a) (RecvTime b) = false -> no_later b a.
Proof. apply fle_total. Qed.

Lemma earlier_no_later a b : PrimFloat.ltb (RecvTime a) (RecvTime b) = true -> no_later a b.
Proof. apply flt_le. Qed.

Lemma no_nan_at (mq : MessageQueue) k m :
  Forall (fun m => is_nan (RecvTime m) = false) mq -> at_ mq k = Some m ->
  is_nan (RecvTime m) = false.
Proof. intros Hall Hm. by apply (Forall_at _ _ _ _ Hall Hm). Qed.

(** The child [heap.down] compares with its parent: the earlier of the
    two, or the only one. *)
Lemma pick_child (mq : MessageQueue) i n :
  0 <= i -> 2 * i + 1 < n -> n <= len mq ->
  exists (r : bool) j c,
    (if 2 * i + 1 + 1 <? n then Less mq (2 * i + 1 + 1) (2 * i + 1) else Some false) = Some r
    /\ j = (if r then 2 * i + 1 + 1 else 2 * i + 1)
    /\ 2 * i + 1 <= j < n /\ heap_parent j = i /\ at_ mq j = Some c
    /\ (Forall (fun m => is_nan (RecvTime m) = false) mq ->
        forall k d, 0 < k < n -> heap_parent k = i -> at_ mq k = Some d -> no_later c d).
Proof.
  intros Hi Hlt Hn.
  destruct (at_lt mq (2 * i + 1)) as [c1 Hc1]; [lia|].
  assert (heap_parent (2 * i + 1) = i) as Hp1 by (apply heap_parent_child; lia).
  destruct (Z.ltb_spec (2 * i + 1 + 1) n) as [H2|H2].
  - destruct (at_lt mq (2 * i + 1 + 1)) as [c2 Hc2]; [lia|].
    assert (heap_parent (2 * i + 1 + 1) = i) as Hp2 by (apply heap_parent_child; lia).
    unfold Less. rewrite Hc2, Hc1. cbn [mbind option_bind].
    destruct (PrimFloat.ltb (RecvTime c2) (RecvTime c1)) eqn:E.
    + exists true, (2 * i + 1 + 1), c2. split; [done|]. split; [done|]. split; [lia|].
      split; [done|]. split; [done|]. intros Hnan k d Hk Hpk Hd.
      apply heap_parent_child in Hpk as [->| ->]; [| |lia].
      * rewrite Hc1 in Hd. injection Hd as <-. by apply earlier_no_later.
      * replace (2 * i + 2) with (2 * i + 1 + 1) in Hd by lia. rewrite Hc2 in Hd.
        injection Hd as <-. apply not_earlier; [by eapply no_nan_at..|]. apply flt_irrefl.
    + exists false, (2 * i + 1), c1. split; [done|]. split; [done|]. split; [lia|].
      split; [done|]. split; [done|]. intros Hnan k d Hk Hpk Hd.
      apply heap_parent_child in Hpk as [->| ->]; [| |lia].
      * rewrite Hc1 in Hd. injection Hd as <-.
        apply not_earlier; [by eapply no_nan_at..|]. apply flt_irrefl.
      * replace (2 * i + 2) with (2 * i + 1 + 1) in Hd by lia. rewrite Hc2 in Hd.
        injection Hd as <-. apply not_earlier; [by eapply no_nan_at..|done].
  - exists false, (2 * i + 1), c1. split; [done|]. split; [done|]. split; [lia|].
    split; [done|]. split; [done|]. intros Hnan k d Hk Hpk Hd.
    apply heap_parent_child in Hpk as [->| ->]; [|lia|lia].
    rewrite Hc1 in Hd. injection Hd as <-.
    apply not_earlier; [by eapply no_nan_at..|]. apply flt_irrefl.
Qed.

Lemma heap_down_spec fuel : forall mq i n,
  0 <= i -> n <= len mq -> n - i <= Z.of_nat fuel ->
  exists mq',
    heap_down fuel mq i n = Some mq' /\ mq' ≡ₚ mq
    /\ (forall k, n <= k -> at_ mq' k = at_ mq k)
    /\ (Forall (fun m => is_nan (RecvTime m) = false) mq -> down_inv mq i n ->
        heap_prefix mq' n).
Proof.
  assert (forall mq i n, n <= 2 * i + 1 -> down_inv mq i n -> heap_prefix mq n) as Hleaf.
  { intros mq i n Hn [Hinv _] k a b Hk Hb Ha.
    destruct (decide (heap_parent k = i)) as [Hp|Hp]; [|by eapply Hinv].
    apply heap_parent_child in Hp; lia. }
  induction fuel as [|fuel IH]; intros mq i n Hi Hn Hfuel; cbn [heap_down].
  - destruct (Z.leb_spec n (2 * i + 1)); [|lia]. exists mq. repeat split; try done.
    intros _. by apply Hleaf.
  - destruct (Z.leb_spec n (2 * i + 1)) as [|Hlt].
    { exists mq. repeat split; try done. intros _. by apply Hleaf. }
    destruct (Z.ltb_spec (2 * i + 1) 0); [lia|]. cbn [orb].
    destruct (pick_child mq i n Hi Hlt Hn) as (r & j & c & -> & Hj & Hjn & Hpj & Hc & Hmin).
    cbn [mbind option_bind]. rewrite <- Hj.
    destruct (at_lt mq i) as [x Hx]; [lia|].
    unfold Less. rewrite Hc, Hx. cbn [mbind option_bind].
    destruct (PrimFloat.ltb (RecvTime c) (RecvTime x)) eqn:E; cbn [negb].
    + destruct (Swap_spec mq i j x c Hx Hc) as (mq1 & -> & Hperm & Hlen & Hat).
      cbn [mbind option_bind].
      destruct (IH mq1 j n) as (mq' & -> & Hperm' & Htail & Hheap); [lia|lia|lia|].
      exists mq'. split; [done|]. split; [by rewrite Hperm'|]. split.
      { intros k Hk. rewrite Htail, Hat by done. by rewrite !decide_False by lia. }
      intros Hnan [Hinv1 Hinv2]. apply Hheap; [by rewrite Hperm|]. split.
      * intros k a b Hk Hpk. rewrite !Hat.
        pose proof (heap_parent_lt k (proj1 Hk)) as Hpl.
        destruct (decide (k = j)) as [->|Hkj].
        { rewrite Hpj, decide_False, decide_True by (done || lia).
          intros [= <-] [= <-]. by apply earlier_no_later. }
        destruct (decide (k = i)) as [->|Hki].
        { rewrite !decide_False by lia. intros [= <-] Ha.
          apply (Hinv2 ltac:(lia) j a c); [lia|done|done|done]. }
        rewrite decide_False by done.
        destruct (decide (heap_parent k = i)) as [Hpi|Hpi].
        { intros Hb [= <-]. by apply (Hmin Hnan k b). }
        intros Hb Ha. by apply (Hinv1 k a b).
      * intros Hj0 k a b Hk Hpk. rewrite !Hat, Hpj.
        pose proof (heap_parent_lt k (proj1 Hk)) as Hpl.
        rewrite !(decide_False (P := k = j)), !(decide_False (P := k = i)) by lia.
        rewrite decide_False, decide_True by (done || lia).
        intros Hb [= <-]. apply (Hinv1 k c b); [done|lia|done|by rewrite Hpk].
    + exists mq. repeat split; try done. intros Hnan [Hinv1 Hinv2] k a b Hk Hb Ha.
      destruct (decide (heap_parent k = i)) as [Hp|Hp]; [|by eapply Hinv1].
      rewrite Hp, Hx in Ha. injection Ha as <-.
      apply (no_later_trans _ c); [|by apply (Hmin Hnan k b)].
      apply not_earlier; [by eapply no_nan_at..|done].
Qed.

Lemma heap_up_heap fuel : forall mq j mq',
  0 <= j < len mq ->
  Forall (fun m => is_nan (RecvTime m) = false) mq -> up_inv mq j ->
  heap_up fuel mq j = Some mq' ->
  heap_prefix mq' (len mq').
Proof.
  assert (forall mq j, 0 <= j < len mq ->
            (0 < j -> forall a b, at_ mq j = Some b -> at_ mq (heap_parent j) = Some a ->
                        no_later a b) ->
            up_inv mq j -> heap_prefix mq (len mq)) as Hstop.
  { intros mq j Hj Hjp [Hinv _] k a b Hk Hb Ha.
    destruct (decide (k = j)) as [->|Hne].
    - apply Hjp; [lia|done|done].
    - apply (Hinv k a b); [lia|done|done|done]. }
  induction fuel as [|fuel IH]; intros mq j mq' Hj Hnan Hinv; cbn [heap_up];
    fold (heap_parent j).
  - destruct (Z.eqb_spec (heap_parent j) j) as [Heq|Hne].
    { intros [= <-]. apply (Hstop mq j); [done| |done]. intros Hpos.
      pose proof (heap_parent_lt j Hpos). lia. }
    assert (0 < j) as Hpos by (destruct (decide (j = 0)) as [->|]; [done|lia]).
    pose proof (heap_parent_lt j Hpos) as Hp.
    destruct (at_lt mq j) as [x Hx]; [lia|].
    destruct (at_lt mq (heap_parent j)) as [p Hpp]; [lia|].
    unfold Less. rewrite Hx, Hpp. cbn [mbind option_bind].
    destruct (PrimFloat.ltb (RecvTime x) (RecvTime p)) eqn:E; cbn [negb]; [done|].
    intros [= <-]. apply (Hstop mq j); [done| |done].
    intros _ a b Hb Ha. rewrite Hx in Hb. rewrite Hpp in Ha. injection Hb as <-.
    injection Ha as <-. apply not_earlier; [by eapply no_nan_at..|done].
  - destruct (Z.eqb_spec (heap_parent j) j) as [Heq|Hne].
    { intros [= <-]. apply (Hstop mq j); [done| |done]. intros Hpos.
      pose proof (heap_parent_lt j Hpos). lia. }
    assert (0 < j) as Hpos by (destruct (decide (j = 0)) as [->|]; [done|lia]).
    pose proof (heap_parent_lt j Hpos) as Hp.
    destruct (at_lt mq j) as [x Hx]; [lia|].
    destruct (at_lt mq (heap_parent j)) as [p Hpp]; [lia|].
    unfold Less. rewrite Hx, Hpp. cbn [mbind option_bind].
    destruct (PrimFloat.ltb (RecvTime x) (RecvTime p)) eqn:E; cbn [negb].
    + destruct (Swap_spec mq _ _ p x Hpp Hx) as (mq1 & -> & Hperm & Hlen & Hat).
      cbn [mbind option_bind]. intros Hup.
      apply (IH mq1 (heap_parent j) mq'); [lia|by rewrite Hperm| |done].
      destruct Hinv as [Hinv1 Hinv2]. set (i := heap_parent j) in *.
      assert (no_later x p) as Hxp by (by apply earlier_no_later).
      split.
      * intros k a b Hk Hki. rewrite !Hat.
        pose proof (heap_parent_lt k Hk) as Hpl.
        destruct (decide (k = j)) as [->|Hkj].
        { fold i. rewrite decide_False, decide_True by (done || lia).
          by intros [= <-] [= <-]. }
        rewrite decide_False by done.
        destruct (decide (heap_parent k = j)) as [Hq|Hq].
        { intros Hb [= <-]. by apply (Hinv2 Hpos k p b). }
        destruct (decide (heap_parent k = i)) as [Hq'|Hq'].
        { intros Hb [= <-]. apply (no_later_trans _ p); [done|].
          apply (Hinv1 k p b); [done|done|done|by rewrite Hq']. }
        intros Hb Ha. by apply (Hinv1 k a b).
      * intros Hi0 k a b Hk Hpk. rewrite !Hat.
        pose proof (heap_parent_lt i Hi0) as Hgl.
        rewrite (decide_False (P := heap_parent i = j)),
          (decide_False (P := heap_parent i = i)) by lia.
        assert (no_later a p -> at_ mq (heap_parent i) = Some a -> True) as _ by done.
        destruct (decide (k = j)) as [->|Hkj].
        { intros [= <-] Ha. apply (Hinv1 i a p); [done|lia|done|done]. }
        rewrite decide_False by (intros ->; pose proof (heap_parent_lt i Hi0); lia).
        intros Hb Ha. apply (no_later_trans _ p).
        -- apply (Hinv1 i a p); [done|lia|done|done].
        -- apply (Hinv1 k p b); [done|done|done|by rewrite Hpk].
    + intros [= <-]. apply (Hstop mq j); [done| |done].
      intros _ a b Hb Ha. rewrite Hx in Hb. rewrite Hpp in Ha. injection Hb as <-.
      injection Ha as <-. apply not_earlier; [by eapply no_nan_at..|done].
Qed.

Lemma at_app_l {A} (xs ys : list A) k : k < len xs -> at_ (xs ++ ys) k = at_ xs k.
Proof.
  intros Hk. unfold at_, len in *. case_decide; [|done]. apply lookup_app_l. lia.
Qed.

Lemma at_take {A} (xs : list A) (n : nat) k : k < Z.of_nat n -> at_ (take n xs) k = at_ xs k.
Proof.
  intros Hk. unfold at_. case_decide; [|done]. apply lookup_take_lt. lia.
Qed.

(** The message at the top of a heap is no later than any other. *)
Lemma heap_root_least mq root :
  heap_ok mq -> at_ mq 0 = Some root -> Forall (no_later root) mq.
Proof.
  intros [Hnan Hord] Hroot.
  assert (forall (k : nat) m, at_ mq (Z.of_nat k) = Some m -> no_later root m) as Hall.
  { intros k. induction (lt_wf k) as [k _ IH]. intros m Hm.
    destruct (decide (k = 0)%nat) as [->|Hk].
    - change (Z.of_nat 0) with 0 in Hm. rewrite Hroot in Hm. injection Hm as <-.
      unfold no_later. apply fle_total; [by eapply no_nan_at..|apply flt_irrefl].
    - pose proof (heap_parent_lt (Z.of_nat k) ltac:(lia)) as Hp.
      destruct (at_lt mq (heap_parent (Z.of_nat k))) as [a Ha].
      { apply at_Some in Hm. lia. }
      apply (no_later_trans _ a).
      + apply (IH (Z.to_nat (heap_parent (Z.of_nat k)))); [lia|].
        by rewrite Z2Nat.id by lia.
      + by apply (Hord (Z.of_nat k)); [lia|..]. }
  apply Forall_forall. intros m [k Hk]%list_elem_of_lookup.
  apply (Hall k). by rewrite at_nat.
Qed.

Lemma Push_heap (mq : MessageQueue) (msg : Message) :
  exists mq',
    Push mq msg = Some mq' /\ mq' ≡ₚ msg :: mq
    /\ (heap_ok mq -> is_nan (RecvTime msg) = false -> heap_ok mq').
Proof.
  unfold Push. pose proof (len_nonneg mq) as Hl.
  assert (len (mq ++ [msg]) = len mq + 1) as Hlen by (by rewrite len_app).
  destruct (heap_up_total (length (mq ++ [msg])) (mq ++ [msg]) (len (mq ++ [msg]) - 1))
    as (mq' & Hup & Hperm); [lia|unfold len; lia|].
  exists mq'. split; [done|]. split; [by rewrite Hperm, <- Permutation_cons_append|].
  intros [Hnan Hord] Hmsg. split.
  { rewrite Hperm. apply Forall_app. split; [done|]. by apply Forall_singleton. }
  intros k a b Hk Hb Ha.
  assert (heap_prefix mq' (len mq')) as Hpre;
    [|apply (Hpre k a b); [apply at_Some in Hb; lia|done|done]].
  apply (heap_up_heap (length (mq ++ [msg])) (mq ++ [msg]) (len (mq ++ [msg]) - 1));
    [lia| | |done].
  { apply Forall_app. split; [done|]. by apply Forall_singleton. }
  rewrite Hlen. replace (len mq + 1 - 1) with (len mq) by lia. split.
  - intros k' a' b' Hk' Hne' Hb' Ha'. apply at_Some in Hb' as Hkl.
    pose proof (heap_parent_lt k' Hk').
    rewrite at_app_l in Hb', Ha' by lia. by apply (Hord k').
  - intros _ k' a' b' Hk' Hpk Hb' _. apply at_Some in Hb'.
    apply heap_parent_child in Hpk; lia.
Qed.

(** X5.  [Push] always returns; the new queue holds the messages of the old
    one and the new message; and when the old queue is a heap on the
    receive times and the new time is a number, the new queue is a heap
    again. *)
Theorem Push_keeps_heap (mq : MessageQueue) (msg : Message) :
  exists mq',
    Push mq msg = Some mq' /\ mq' ≡ₚ msg :: mq
    /\ (heap_ok mq -> is_nan (RecvTime msg) = false -> heap_ok mq').
Proof. apply Push_heap. Qed.

Lemma Pop_heap (mq : MessageQueue) :
  mq <> [] ->
  exists msg mq',
    Pop mq = Some (msg, mq') /\ msg :: mq' ≡ₚ mq
    /\ (heap_ok mq -> heap_ok mq' /\ Forall (no_later msg) mq).
Proof.
  intros Hne. unfold Pop. pose proof (len_nonneg mq) as Hl.
  assert (0 < len mq) as Hpos by (destruct mq; [done|unfold len; cbn; lia]).
  destruct (at_lt mq 0) as [root Hroot]; [lia|].
  destruct (at_lt mq (len mq - 1)) as [lst Hlst]; [lia|].
  destruct (Swap_spec mq 0 (len mq - 1) root lst Hroot Hlst)
    as (mq1 & -> & Hperm1 & Hlen1 & Hat1).
  cbn [mbind option_bind].
  destruct (heap_down_spec (length mq1) mq1 0 (len mq - 1))
    as (mq2 & -> & Hperm2 & Htail & Hheap); [lia|lia|unfold len in *; lia|].
  cbn [mbind option_bind].
  assert (length mq2 = S (Z.to_nat (len mq - 1))) as Hlen2.
  { rewrite Hperm2. unfold len in *. lia. }
  assert (at_ mq2 (len mq - 1) = Some root) as Hlast.
  { rewrite Htail, Hat1 by lia. by rewrite decide_True. }
  assert (exists front, mq2 = front ++ [root] /\ length front = Z.to_nat (len mq - 1))
    as (front & -> & Hfl).
  { exists (take (Z.to_nat (len mq - 1)) mq2). split; [|rewrite length_take; lia].
    rewrite <- (take_drop (Z.to_nat (len mq - 1)) mq2) at 1. f_equal.
    unfold at_ in Hlast. case_decide; [|lia].
    rewrite (drop_S _ _ _ Hlast), drop_ge by lia. done. }
  rewrite last_snoc. cbn [mbind option_bind]. rewrite length_app. cbn [length].
  replace (length front + 1 - 1)%nat with (length front) by lia.
  rewrite take_app_length.
  exists root, front. split; [done|]. split.
  { by rewrite <- Hperm1, <- Hperm2, <- Permutation_cons_append. }
  intros [Hnan Hord]. split; [|by apply heap_root_least].
  assert (Forall (fun m => is_nan (RecvTime m) = false) (front ++ [root])) as Hnan2.
  { by rewrite Hperm2, Hperm1. }
  split.
  { by apply Forall_app in Hnan2 as [? _]. }
  intros k a b Hk Hb Ha. apply at_Some in Hb as Hkl.
  assert (k < len mq - 1) as Hkn by (unfold len in *; lia).
  pose proof (heap_parent_lt k Hk).
  rewrite <- (at_app_l front [root]) in Hb, Ha by (unfold len in *; lia).
  apply (Hheap ltac:(by rewrite Hperm1)) with (k := k); [|lia|done|done].
  split.
  - intros k' a' b' Hk' Hp'. pose proof (heap_parent_lt k' (proj1 Hk')).
    rewrite !Hat1. rewrite !decide_False by lia. intros Hb' Ha'.
    by apply (Hord k'); [lia|..].
  - lia.
Qed.

(** X6.  [Pop] on a queue that is not empty returns a message and the queue
    of the other messages; when the queue is a heap on the receive times,
    no message of the queue is received earlier than the one returned, and
    what is left is a heap again. *)
Theorem Pop_earliest (mq : MessageQueue) :
  mq <> [] ->
  exists msg mq',
    Pop mq = Some (msg, mq') /\ msg :: mq' ≡ₚ mq
    /\ (heap_ok mq -> heap_ok mq' /\ Forall (no_later msg) mq).
Proof. apply Pop_heap. Qed.

(** The theorem applies to a heap of three messages. *)
Lemma Pop_earliest_witness :
  exists msg mq',
    Pop [NewMessage 0 0 1 1 0 1; NewMessage 0 0 2 1 0 3; NewMessage 0 0 3 1 0 2]
    = Some (msg, mq')
    /\ msg :: mq'
       ≡ₚ [NewMessage 0 0 1 1 0 1; NewMessage 0 0 2 1 0 3; NewMessage 0 0 3 1 0 2]
    /\ (heap_ok [NewMessage 0 0 1 1 0 1; NewMessage 0 0 2 1 0 3; NewMessage 0 0 3 1 0 2] ->
        heap_ok mq'
        /\ Forall (no_later msg)
             [NewMessage 0 0 1 1 0 1; NewMessage 0 0 2 1 0 3; NewMessage 0 0 3 1 0 2]).
Proof. apply Pop_earliest. discriminate. Defined.

(** ** Geohash: the shape of what [Encode] returns *)

Lemma get_elem_of (s : string) (n : nat) (c : ascii) :
  String.get n s = Some c -> c ∈ list_ascii_of_string s.
Proof.
  revert n. induction s as [|x s IH]; intros [|n] Hget; cbn in *; try done.
  - injection Hget as ->. apply list_elem_of_here.
  - apply list_elem_of_further. by eapply IH.
Qed.

Lemma byte_at_below (s : string) (i : Z) :
  0 <= i < slen s -> exists c, byte_at s i = Some c /\ c ∈ list_ascii_of_string s.
Proof.
  intros Hi. unfold byte_at. rewrite decide_True by lia.
  destruct (String.get (Z.to_nat i) s) as [c|] eqn:Hget.
  - exists c. split; [done|]. by eapply get_elem_of.
  - exfalso. revert i Hi Hget. unfold slen.
    induction s as [|x s IH]; intros i Hi Hget; cbn in *; [lia|].
    destruct (Z.to_nat i) as [|n] eqn:Hn; [done|].
    apply (IH (Z.of_nat n)); [lia|]. by rewrite Nat2Z.id.
Qed.

Lemma list_ascii_of_string_append (s t : string) :
  list_ascii_of_string (String.append s t) = list_ascii_of_string s ++ list_ascii_of_string t.
Proof.
  induction s as [|c s IH]; [done|].
  rewrite append_cons. cbn [list_ascii_of_string app]. by rewrite IH.
Qed.

Lemma valid_geohash_snoc (s : string) (c : ascii) :
  valid_geohash s -> c ∈ alphabet -> valid_geohash (String.append s (String c EmptyString)).
Proof.
  unfold valid_geohash. intros Hs Hc. rewrite list_ascii_of_string_append.
  apply Forall_app. split; [done|]. cbn. by apply Forall_cons_2; [|apply Forall_nil_2].
Qed.

(** A turn of the loop either completes a character, or adds a bit to the
    index of the next one. *)
Lemma encode_step_shape (lat lon : float) (st : EncState) :
  0 <= bit st < 5 -> 0 <= idx st < 2 ^ bit st ->
  exists st', encode_step lat lon st = Some st'
    /\ ((bit st = 4 /\ bit st' = 0 /\ idx st' = 0
         /\ exists c, c ∈ alphabet
                      /\ geohash st' = String.append (geohash st) (String c EmptyString))
        \/ (bit st < 4 /\ bit st' = bit st + 1 /\ 0 <= idx st' < 2 ^ bit st'
            /\ geohash st' = geohash st)).
Proof.
  intros Hb Hi. unfold encode_step.
  assert (Hpow : 2 ^ (bit st + 1) = 2 * 2 ^ bit st).
  { rewrite Z.pow_add_r by lia. lia. }
  set (choice := if isEven st then _ else _).
  assert (Hix : 0 <= choice.2 < 2 ^ (bit st + 1)).
  { unfold choice. destruct (isEven st);
      match goal with |- context [if ?c then _ else _] => destruct c end; cbn [snd]; lia. }
  destruct choice as [[la lo] ix]. cbn [snd] in Hix.
  destruct (Z.eqb_spec (bit st + 1) 5) as [H5|H5].
  - assert (bit st = 4) as Hb4 by lia. rewrite Hb4 in Hix.
    destruct (byte_at_below Base32Charset ix) as (c & -> & Hc).
    { change (slen Base32Charset) with 32. change (2 ^ (4 + 1)) with 32 in Hix. lia. }
    eexists. split; [done|]. left. cbn. repeat split; [lia|]. by exists c.
  - eexists. split; [done|]. right. cbn. repeat split; lia.
Qed.

Lemma encode_loop_shape (precision : Z) (lat lon : float) (fuel : nat) :
  forall st : EncState,
    0 <= bit st < 5 -> 0 <= idx st < 2 ^ bit st -> valid_geohash (geohash st) ->
    5 * (precision - slen (geohash st)) - bit st <= Z.of_nat fuel ->
    exists s, encode_loop fuel precision lat lon st = Some s
      /\ slen s = Z.max precision (slen (geohash st)) /\ valid_geohash s.
Proof.
  induction fuel as [|fuel IH]; intros st Hb Hi Hv Hfuel.
  - cbn [encode_loop]. destruct (Z.ltb_spec (slen (geohash st)) precision); [lia|].
    exists (geohash st). repeat split; [lia|done].
  - cbn [encode_loop]. destruct (Z.ltb_spec (slen (geohash st)) precision) as [Hlt|Hge].
    + destruct (encode_step_shape lat lon st Hb Hi) as (st' & -> & Hst'). cbn.
      destruct Hst' as [(Hb4 & Hb' & Hi' & c & Hc & Hg)|(Hb4 & Hb' & Hi' & Hg)].
      * destruct (IH st') as (s & Hs & Hlen & Hvs).
        -- lia.
        -- rewrite Hb', Hi'. change (2 ^ 0) with 1. lia.
        -- rewrite Hg. by apply valid_geohash_snoc.
        -- rewrite Hg, slen_append, slen_cons. change (slen EmptyString) with 0. lia.
        -- exists s. repeat split; [done| |done].
           rewrite Hlen, Hg, slen_append, slen_cons. change (slen EmptyString) with 0. lia.
      * destruct (IH st') as (s & Hs & Hlen & Hvs).
        -- lia.
        -- done.
        -- by rewrite Hg.
        -- rewrite Hg. lia.
        -- exists s. repeat split; [done| |done]. rewrite Hlen, Hg. lia.
    + exists (geohash st). repeat split; [lia|done].
Qed.

Lemma Encode_shape (precision : Z) (lat lon : float) :
  exists s, Encode precision lat lon = Some s
    /\ slen s = Z.max precision 0 /\ valid_geohash s.
Proof.
  unfold Encode. destruct (Z.leb_spec precision 0) as [Hle|Hlt].
  - exists EmptyString. repeat split; [|apply Forall_nil_2].
    change (slen EmptyString) with 0. lia.
  - edestruct (encode_loop_shape precision lat lon (5 * Z.to_nat precision)) as (s & Hs & Hlen & Hv);
      [| | |
       |exists s; split; [exact Hs|split; [|exact Hv]]].
    + cbn. lia.
    + cbn. lia.
    + apply Forall_nil_2.
    + cbn [bit geohash]. change (slen EmptyString) with 0. lia.
    + rewrite Hlen. cbn [geohash]. change (slen EmptyString) with 0. lia.
Qed.

(** X7.  Whatever the coordinates are, numbers out of range, infinities and
    NaN included, [Encode] returns a string of exactly [Precision] characters
    of the Base32 alphabet, and the empty string when [Precision] is not
    positive. *)
Theorem Encode_length_and_alphabet (precision : Z) (lat lon : float) :
  exists s, Encode precision lat lon = Some s
    /\ slen s = Z.max precision 0 /\ valid_geohash s.
Proof. apply Encode_shape. Qed.

(** ** Geohash: characters outside the alphabet *)

Lemma IndexRune_from_spec (s : string) (c : ascii) (i : Z) :
  if decide (c ∈ list_ascii_of_string s)
  then i <= IndexRune_from s c i < i + slen s
  else IndexRune_from s c i = -1.
Proof.
  revert i. induction s as [|x s IH]; intros i.
  - rewrite decide_False; [done|]. cbn. apply not_elem_of_nil.
  - cbn [IndexRune_from list_ascii_of_string]. rewrite slen_cons.
    pose proof (slen_nonneg s) as Hs.
    destruct (Ascii.eqb_spec x c) as [->|Hne].
    + rewrite decide_True by apply list_elem_of_here. lia.
    + specialize (IH (i + 1)). destruct (decide (c ∈ list_ascii_of_string s)) as [Hin|Hin].
      * rewrite decide_True by by apply list_elem_of_further. lia.
      * rewrite decide_False; [done|]. intros [?|?]%elem_of_cons; congruence.
Qed.

Lemma IndexRune_foreign (c : ascii) : c ∉ alphabet -> IndexRune Base32Charset c = -1.
Proof.
  intros Hc. pose proof (IndexRune_from_spec Base32Charset c 0) as H.
  by rewrite decide_False in H.
Qed.

Lemma IndexRune_known (c : ascii) : c ∈ alphabet -> 0 <= IndexRune Base32Charset c < 32.
Proof.
  intros Hc. pose proof (IndexRune_from_spec Base32Charset c 0) as H.
  by rewrite decide_True in H.
Qed.

Lemma decode_loop_drop_foreign (s : string) (st : DecState) :
  decode_loop s st = decode_loop (drop_foreign s) st.
Proof.
  revert st. induction s as [|c s IH]; intros st; [done|].
  cbn [decode_loop drop_foreign]. destruct (decide (c ∈ alphabet)) as [Hc|Hc].
  - cbn [decode_loop]. destruct (_ =? -1); apply IH.
  - rewrite IndexRune_foreign by done. cbn. apply IH.
Qed.

Lemma CharToBits_foreign (c : ascii) : c ∉ alphabet -> CharToBits c = CharToBits "0"%char.
Proof. intros Hc. unfold CharToBits. by rewrite IndexRune_foreign. Qed.

(** X8.  Neither [Decode] nor [ToBinary] rejects a character that is not of
    the Base32 alphabet, and they do not treat it alike: [Decode] skips it,
    and [ToBinary] writes the five bits of ['0'] for it.  For [ToBinary] the
    string is one of ASCII characters, whose runes are its bytes: a character
    of several bytes is one rune to the loop of [ToBinary] and gets five bits
    as a whole. *)
Theorem foreign_characters (s : string) :
  Decode s = Decode (drop_foreign s)
  /\ (ascii_only s ->
      ToBinary s = ToBinary (zero_foreign s) /\ slen (ToBinary s) = 5 * slen s).
Proof.
  split.
  - unfold Decode. by rewrite decode_loop_drop_foreign.
  - intros _. split; [|apply slen_ToBinary].
    induction s as [|c s IH]; [done|]. cbn [ToBinary zero_foreign]. rewrite IH. f_equal.
    destruct (decide (c ∈ alphabet)); [done|]. by apply CharToBits_foreign.
Qed.

(** The theorem applies to a cell name with an exclamation mark and a
    capital letter in it. *)
Lemma foreign_characters_witness :
  Decode "u!4Ap" = Decode "u4p"
  /\ ToBinary "u!4Ap" = ToBinary "u040p"
  /\ slen (ToBinary "u!4Ap") = 25.
Proof.
  destruct (foreign_characters "u!4Ap") as [Hd Hb].
  split; [exact Hd|]. apply Hb.
  unfold ascii_only. repeat (apply Forall_cons_2; [vm_compute; lia|]). apply Forall_nil_2.
Defined.

(** ** Geohash: the bucket index *)

Lemma XorDistance_sym (a b : string) : XorDistance a b = XorDistance b a.
Proof.
  unfold XorDistance. rewrite (Z.min_comm (slen b)). apply fold_left_ext_in.
  intros d i _. repeat case_decide; congruence.
Qed.

Lemma uint_wrap_bounds (z : Z) : 0 <= uint_wrap z < 2 ^ 64.
Proof. unfold uint_wrap. apply Z.mod_pos_bound. lia. Qed.

Lemma fold_left_inv {A B} (P : A -> Prop) (f : A -> B -> A) (l : list B) (a : A) :
  (forall x y, P x -> P (f x y)) -> P a -> P (fold_left f l a).
Proof.
  intros Hf. revert a. induction l as [|y l IH]; intros a Ha; [done|].
  cbn. apply IH. by apply Hf.
Qed.

Lemma XorDistance_bounds (a b : string) : 0 <= XorDistance a b < 2 ^ 64.
Proof.
  unfold XorDistance. apply (fold_left_inv (fun d => 0 <= d < 2 ^ 64)); [|lia].
  intros d i Hd. case_decide; [done|apply uint_wrap_bounds].
Qed.

Lemma XorDistance_self (a : string) : XorDistance a a = 0.
Proof.
  unfold XorDistance. apply (fold_left_inv (fun d => d = 0)); [|done].
  intros d i ->. by rewrite decide_True.
Qed.

Lemma shift_out_le (d : positive) (k : Z) : Z.pos d < 2 ^ k -> 0 <= k -> shift_out d 0 <= k.
Proof.
  intros Hd Hk. rewrite shift_out_size.
  assert (Hs : Z.pos (Pos.size d) = Z.succ (Z.log2 (Z.pos d))).
  { destruct d; cbn [Pos.size Z.log2]; rewrite ?Pos2Z.inj_succ; lia. }
  rewrite Hs. apply Z.log2_lt_pow2 in Hd; lia.
Qed.

Lemma shift_out_pos (d : positive) : 0 < shift_out d 0.
Proof. rewrite shift_out_size. lia. Qed.

(** X9.  The bucket index of two hashes does not depend on their order nor on
    [totalBits], it is [0] for a hash and itself, and it lies between [0]
    and five times the length of the shorter hash, and never above [64]:
    with hashes of [p <= 12] characters it is an index of a table of
    [5 * p + 1] buckets. *)
Theorem GetGeoBucketIndex_range (hashA hashB : string) (totalBits totalBits' : Z) :
  GetGeoBucketIndex hashA hashB totalBits = GetGeoBucketIndex hashB hashA totalBits'
  /\ GetGeoBucketIndex hashA hashA totalBits = 0
  /\ 0 <= GetGeoBucketIndex hashA hashB totalBits
     <= Z.min 64 (5 * Z.min (slen hashA) (slen hashB)).
Proof.
  split; [|split].
  - unfold GetGeoBucketIndex. by rewrite XorDistance_sym.
  - unfold GetGeoBucketIndex. by rewrite XorDistance_self.
  - unfold GetGeoBucketIndex.
    pose proof (XorDistance_bounds (ToBinary hashA) (ToBinary hashB)) as Hb.
    pose proof (slen_nonneg hashA) as HlA. pose proof (slen_nonneg hashB) as HlB.
    destruct (Z.eqb_spec (XorDistance (ToBinary hashA) (ToBinary hashB)) 0) as [|Hne]; [lia|].
    destruct (XorDistance (ToBinary hashA) (ToBinary hashB)) as [|d|d] eqn:Hd; [done| |lia].
    pose proof (shift_out_pos d) as Hpos. split; [lia|].
    apply Z.min_glb; [apply shift_out_le; lia|].
    destruct (Z.le_gt_cases 64 (5 * Z.min (slen hashA) (slen hashB))) as [Hbig|Hsmall].
    + etrans; [apply shift_out_le with (k := 64); lia|done].
    + pose proof (xor_sum_bound (ToBinary hashA) (ToBinary hashB)) as Hsum.
      rewrite !slen_ToBinary in Hsum.
      replace (Z.min (5 * slen hashA) (5 * slen hashB))
        with (5 * Z.min (slen hashA) (slen hashB)) in Hsum by lia.
      assert (2 ^ (5 * Z.min (slen hashA) (slen hashB)) <= 2 ^ 63) as Hpow
        by (apply Z.pow_le_mono_r; lia).
      assert (2 ^ 63 < 2 ^ 64) by done.
      rewrite XorDistance_xor_from, xor_from_sum in Hd by lia.
      apply shift_out_le; lia.
Qed.

(** ** The first differing position *)

Lemma byte_at_cons_pos (c : ascii) (s : string) (i : Z) :
  0 < i -> byte_at (String c s) i = byte_at s (i - 1).
Proof. intros Hi. rewrite <- (byte_at_succ c s (i - 1)) by lia. f_equal. lia. Qed.

(** X10.  [FirstDiffBitPos] compares the two strings over the length of the
    shorter one only: it returns [-1] exactly when they agree there, so also
    for a string and a proper prefix of it, and otherwise the least position
    where they differ; the order of the arguments does not matter. *)
Theorem FirstDiffBitPos_spec (aBin bBin : string) :
  let r := FirstDiffBitPos aBin bBin in
  let minLen := Z.min (slen aBin) (slen bBin) in
  ((r = -1 /\ forall i, 0 <= i < minLen -> byte_at aBin i = byte_at bBin i)
   \/ (0 <= r < minLen /\ byte_at aBin r <> byte_at bBin r
       /\ forall i, 0 <= i < r -> byte_at aBin i = byte_at bBin i))
  /\ FirstDiffBitPos bBin aBin = r
  /\ forall t, FirstDiffBitPos aBin (String.append aBin t) = -1.
Proof.
  cbv zeta. split; [|split].
  - revert bBin. induction aBin as [|x a IH]; intros [|y b].
    + left. split; [apply FirstDiffBitPos_nil_l|]. change (slen EmptyString) with 0. lia.
    + left. split; [apply FirstDiffBitPos_nil_l|]. intros i.
      change (slen EmptyString) with 0. pose proof (slen_nonneg (String y b)). lia.
    + left. split; [apply FirstDiffBitPos_nil_r|]. intros i.
      change (slen EmptyString) with 0. pose proof (slen_nonneg (String x a)). lia.
    + rewrite FirstDiffBitPos_cons, !slen_cons. cbv zeta.
      pose proof (slen_nonneg a). pose proof (slen_nonneg b).
      destruct (decide (x = y)) as [->|Hxy].
      * destruct (IH b) as [(Hr & Hall)|(Hr & Hne & Hall)].
        -- left. rewrite Hr. split; [done|]. intros i Hi.
           destruct (decide (i = 0)) as [->|Hi0]; [done|].
           rewrite !byte_at_cons_pos by lia. apply Hall. lia.
        -- right. destruct (Z.eqb_spec (FirstDiffBitPos a b) (-1)) as [?|_]; [lia|].
           split; [lia|]. split.
           ++ rewrite !byte_at_cons_pos by lia.
              by replace (FirstDiffBitPos a b + 1 - 1) with (FirstDiffBitPos a b) by lia.
           ++ intros i Hi. destruct (decide (i = 0)) as [->|Hi0]; [done|].
              rewrite !byte_at_cons_pos by lia. apply Hall. lia.
      * right. split; [lia|]. split; [|intros; lia].
        rewrite !byte_at_0. congruence.
  - unfold FirstDiffBitPos. rewrite (Z.min_comm (slen bBin)). f_equal.
    induction (range 0 (Z.min (slen aBin) (slen bBin))) as [|i l IHl]; [done|].
    cbn [find]. rewrite IHl.
    by destruct (decide (byte_at aBin i = byte_at bBin i)) as [Heq|Hne];
      [rewrite !bool_decide_eq_false_2 by (intros Hn; by apply Hn)
      |rewrite !bool_decide_eq_true_2 by congruence].
  - intros t. induction aBin as [|x a IH]; [apply FirstDiffBitPos_nil_l|].
    rewrite append_cons, FirstDiffBitPos_cons, decide_True by done. cbv zeta.
    by rewrite IH.
Qed.

(** ** The k-ary tree over a group *)

Lemma int_wrap_id (z : Z) : - 2 ^ 63 <= z < 2 ^ 63 -> int_wrap z = z.
Proof. intros Hz. unfold int_wrap. rewrite Z.mod_small by lia. lia. Qed.

Lemma int_wrap_bounds (z : Z) : - 2 ^ 63 <= int_wrap z < 2 ^ 63.
Proof.
  unfold int_wrap. pose proof (Z.mod_pos_bound (z + 2 ^ 63) (2 ^ 64) ltac:(lia)). lia.
Qed.

Lemma kary_fold (nodeIdx totalNodes k : Z) (j : nat) :
  fold_left
    (fun children i =>
       let childIdx := nodeIdx * k + i in
       if childIdx <? totalNodes then children ++ [childIdx] else children)
    (range 1 (Z.of_nat j + 1)) []
  = range (nodeIdx * k + 1) (Z.min (nodeIdx * k + Z.of_nat j + 1) totalNodes).
Proof.
  induction j as [|j IH].
  - cbn [fold_left range]. rewrite !range_nil; [done|lia|lia].
  - replace (Z.of_nat (S j)) with (Z.of_nat j + 1) by lia.
    rewrite range_snoc, fold_left_app, IH by lia. cbn [fold_left].
    destruct (Z.ltb_spec (nodeIdx * k + (Z.of_nat j + 1)) totalNodes) as [Hlt|Hge].
    + rewrite !Z.min_l by lia.
      replace (nodeIdx * k + (Z.of_nat j + 1) + 1) with (nodeIdx * k + Z.of_nat j + 1 + 1) by lia.
      rewrite (range_snoc (nodeIdx * k + 1) (nodeIdx * k + Z.of_nat j + 1)) by lia.
      do 2 f_equal. lia.
    + f_equal. lia.
Qed.

(** The children of a position, when [k] is a capacity [make] accepts and
    [nodeIdx * k + k] is an [int]. *)
Lemma kary_children_spec (nodeIdx totalNodes k : Z) :
  0 < k -> 8 * k <= maxAlloc -> 0 <= nodeIdx -> nodeIdx * k + k < 2 ^ 63 ->
  exists children,
    ComputeKaryChildren nodeIdx totalNodes k = Some children
    /\ children = range (nodeIdx * k + 1) (Z.min (nodeIdx * k + k + 1) totalNodes)
    /\ forall c, c ∈ children <-> c < totalNodes /\ (c - 1) / k = nodeIdx.
Proof.
  intros Hk Hcap Hn Hfit. eexists. split; [|split; [reflexivity|]].
  - unfold ComputeKaryChildren. rewrite decide_True by lia. f_equal.
    assert (0 <= nodeIdx * k) as Hnk by nia.
    rewrite (fold_left_ext_in _
               (fun children i =>
                  let childIdx := nodeIdx * k + i in
                  if childIdx <? totalNodes then children ++ [childIdx] else children)).
    2:{ intros children i Hi%elem_of_range. cbv zeta.
        rewrite (int_wrap_id (nodeIdx * k)) by lia. by rewrite int_wrap_id by lia. }
    replace (k + 1) with (Z.of_nat (Z.to_nat k) + 1) by lia.
    rewrite kary_fold. do 2 f_equal. lia.
  - intros c. rewrite elem_of_range. split.
    + intros Hc. split; [lia|]. symmetry.
      apply (Z.div_unique_pos (c - 1) k nodeIdx (c - 1 - nodeIdx * k)); lia.
    + intros [Hc <-]. pose proof (Z.div_mod (c - 1) k ltac:(lia)) as Hdm.
      pose proof (Z.mod_pos_bound (c - 1) k Hk).
      set (q := (c - 1) / k) in *. set (r := (c - 1) mod k) in *.
      replace (q * k) with (k * q) by lia. lia.
Qed.

(** Outside that range the product wraps around: position [2 ^ 62] with
    [k = 4] has the children of position 0. *)
Lemma ComputeKaryChildren_wraps : ComputeKaryChildren (2 ^ 62) 10 4 = Some [1; 2; 3; 4].
Proof. reflexivity. Qed.

(** X11.  For a positive [k] that [make] accepts as a capacity, and a
    position [nodeIdx >= 0] whose [nodeIdx * k + k] is an [int] (below
    [2 ^ 63], so that nothing wraps around), [ComputeKaryChildren] returns
    and lists, in ascending order, the positions below [totalNodes] among the
    [k] positions that follow [nodeIdx * k]: a position [c] is a child of
    [nodeIdx] exactly when [c < totalNodes] and [(c - 1) / k], rounded down,
    is [nodeIdx], so no position is the child of two such positions. *)
Theorem ComputeKaryChildren_tree (nodeIdx totalNodes k : Z) :
  0 < k -> 8 * k <= maxAlloc -> 0 <= nodeIdx -> nodeIdx * k + k < 2 ^ 63 ->
  exists children,
    ComputeKaryChildren nodeIdx totalNodes k = Some children
    /\ children = range (nodeIdx * k + 1) (Z.min (nodeIdx * k + k + 1) totalNodes)
    /\ forall c, c ∈ children <-> c < totalNodes /\ (c - 1) / k = nodeIdx.
Proof. apply kary_children_spec. Qed.

Lemma ComputeKaryChildren_tree_witness :
  0 < 3 /\ 8 * 3 <= maxAlloc /\ 0 <= 1 /\ 1 * 3 + 3 < 2 ^ 63
  /\ exists children,
    ComputeKaryChildren 1 6 3 = Some children
    /\ children = range (1 * 3 + 1) (Z.min (1 * 3 + 3 + 1) 6)
    /\ forall c, c ∈ children <-> c < 6 /\ (c - 1) / 3 = 1.
Proof.
  assert (0 < 3) as H1 by lia.
  assert (8 * 3 <= maxAlloc) as H2 by (vm_compute; discriminate).
  assert (0 <= 1) as H3 by lia.
  assert (1 * 3 + 3 < 2 ^ 63) as H4 by lia.
  repeat (split; [assumption|]). exact (ComputeKaryChildren_tree 1 6 3 H1 H2 H3 H4).
Defined.

(** ** Removing duplicates *)

Lemma first_occurrences_elem_of (xs : list Z) (y : Z) :
  y ∈ first_occurrences xs <-> y ∈ xs.
Proof.
  induction xs as [|x xs IH]; [done|]. cbn [first_occurrences].
  rewrite !elem_of_cons, list_elem_of_filter, IH.
  destruct (decide (y = x)); tauto.
Qed.

Lemma first_occurrences_NoDup (xs : list Z) : NoDup (first_occurrences xs).
Proof.
  induction xs as [|x xs IH]; [apply NoDup_nil_2|]. cbn [first_occurrences].
  apply NoDup_cons_2; [|by apply NoDup_filter].
  rewrite list_elem_of_filter. by intros [? _].
Qed.

Lemma first_occurrences_sublist (xs : list Z) : first_occurrences xs `sublist_of` xs.
Proof.
  induction xs as [|x xs IH]; [done|]. cbn [first_occurrences].
  apply sublist_skip. etrans; [apply sublist_filter|done].
Qed.

Lemma first_occurrences_id (xs : list Z) : NoDup xs -> first_occurrences xs = xs.
Proof.
  induction 1 as [|x xs Hx _ IH]; [done|]. cbn [first_occurrences]. rewrite IH. f_equal.
  apply filter_all, Forall_forall. intros y Hy ->. done.
Qed.

Lemma first_occurrences_snoc (xs : list Z) (x : Z) :
  first_occurrences (xs ++ [x])
  = if decide (x ∈ xs) then first_occurrences xs else first_occurrences xs ++ [x].
Proof.
  induction xs as [|y xs IH]; [done|].
  cbn [app first_occurrences]. rewrite IH.
  destruct (decide (x = y)) as [->|Hne].
  - rewrite (decide_True (P := y ∈ y :: xs)) by left.
    destruct (decide (y ∈ xs)); [done|].
    rewrite filter_app, filter_cons_False, filter_nil, app_nil_r; [done|]. by intros H.
  - destruct (decide (x ∈ xs)) as [Hin|Hnin].
    + by rewrite (decide_True (P := x ∈ y :: xs)) by by right.
    + rewrite (decide_False (P := x ∈ y :: xs)).
      2:{ intros [?|?]%elem_of_cons; congruence. }
      by rewrite filter_app, (filter_cons_True _ x) by done.
Qed.

(** X12.  [DedupIntsStable] keeps of every value its first occurrence and
    nothing else.  Value by value from the left: the empty list stays empty,
    and a value [x] appended to [xs] is dropped when [xs] has it already and
    is appended to the result for [xs] otherwise; from the front, the head
    [x] of [x :: xs] is kept and every later [x] goes.  So the result has no
    value twice, has the values of the input, keeps their order, and is the
    input itself exactly when the input has no value twice; a second pass
    changes nothing. *)
Theorem DedupIntsStable_spec (xs : list Z) :
  DedupIntsStable [] = []
  /\ (forall x, DedupIntsStable (xs ++ [x])
                = if decide (x ∈ xs) then DedupIntsStable xs else DedupIntsStable xs ++ [x])
  /\ (forall x, DedupIntsStable (x :: xs)
                = x :: filter (fun y => y <> x) (DedupIntsStable xs))
  /\ NoDup (DedupIntsStable xs)
  /\ (forall x, x ∈ DedupIntsStable xs <-> x ∈ xs)
  /\ DedupIntsStable xs `sublist_of` xs
  /\ (DedupIntsStable xs = xs <-> NoDup xs)
  /\ DedupIntsStable (DedupIntsStable xs) = DedupIntsStable xs.
Proof.
  split; [done|].
  split; [intros x; rewrite !DedupIntsStable_first_occurrences; apply first_occurrences_snoc|].
  split; [intros x; by rewrite !DedupIntsStable_first_occurrences|].
  rewrite !DedupIntsStable_first_occurrences.
  split; [apply first_occurrences_NoDup|].
  split; [apply first_occurrences_elem_of|].
  split; [apply first_occurrences_sublist|].
  split.
  - split; [|apply first_occurrences_id].
    intros <-. apply first_occurrences_NoDup.
  - apply first_occurrences_id, first_occurrences_NoDup.
Qed.

(** ** Mercator: what [Respond] never does *)

Lemma for_each_preserves {S X} (I : S -> Prop) (body : S -> X -> option S) xs s s' :
  for_each body xs s = Some s' -> I s ->
  (forall s x s', I s -> body s x = Some s' -> I s') -> I s'.
Proof.
  intros Hrun Hs Hb. revert s Hs Hrun. induction xs as [|x xs IH]; intros s Hs Hrun; cbn in Hrun.
  - by injection Hrun as <-.
  - destruct (body s x) as [s1|] eqn:Hs1; [|done]. cbn in Hrun.
    apply (IH s1); [by eapply Hb|done].
Qed.

Lemma append_except_sender (relay xs : list Z) (src : Z) :
  src ∉ relay -> src ∉ append_except relay xs src.
Proof.
  intros Hr. unfold append_except. rewrite elem_of_app, list_elem_of_filter. tauto.
Qed.

Lemma kary_forward_frame (m : Mercator.t) (u src root : Z) (relay : list Z) st :
  Mercator.kary_forward m u src root relay = Some st ->
  src ∉ relay -> respond_frame src m st.
Proof.
  unfold Mercator.kary_forward. intros Hrun Hrelay.
  destruct (at_ (Mercator.NodeGeohash m) root) as [h|]; [|done]. cbn [mbind option_bind] in Hrun.
  set (same := Mercator.sort_Ints _) in Hrun.
  set (m1 := match Mercator.GeohashGroups m !! h with Some _ => _ | None => m end) in Hrun.
  assert (respond_frame src m (relay, m1)) as Hm1.
  { unfold m1. by destruct (Mercator.GeohashGroups m !! h). }
  clearbody m1. destruct (Mercator.position same u =? -1); [by injection Hrun as <-|].
  destruct (ComputeKaryChildren _ _ _) as [children|]; [|done].
  cbn [mbind option_bind] in Hrun.
  apply (for_each_preserves (respond_frame src m) _ _ _ _ Hrun Hm1).
  clear. intros [r m2] c [r' m'] Hinv Hbody.
  destruct (c <? len same); [|by injection Hbody as <- <-].
  destruct (at_ same c) as [v|]; [|done]. cbn [mbind option_bind] in Hbody.
  destruct (decide (v <> src)) as [Hv|Hv]; [|by injection Hbody as <- <-].
  destruct (at_ (Mercator.KaryMsgInfo m2) v); [|done]. cbn [mbind option_bind] in Hbody.
  injection Hbody as <- <-. destruct Hinv as (? & ? & ? & ? & ? & Hr).
  repeat split; try done. cbn [fst]. cbn [fst] in Hr.
  rewrite elem_of_app, list_elem_of_singleton. intros [?|?]; [done|congruence].
Qed.

Lemma k0_forward_frame (m : Mercator.t) (u src : Z) (relay : list Z) st :
  Mercator.k0_forward m u src relay = Some st ->
  src ∉ relay -> respond_frame src m st.
Proof.
  unfold Mercator.k0_forward. intros Hrun Hrelay.
  destruct (at_ (Mercator.KBuckets m) u) as [row|]; [|done]. cbn [mbind option_bind] in Hrun.
  destruct (at_ row 0) as [k0|]; [|done]. cbn [mbind option_bind] in Hrun.
  destruct (len k0 <=? Mercator.K0Threshold m); [|by eapply kary_forward_frame].
  injection Hrun as <-. repeat split; try done. by apply append_except_sender.
Qed.

Lemma outer_forward_sender (m : Mercator.t) (u src hi : Z) (relay relay' : list Z) :
  Mercator.outer_forward m u src hi relay = Some relay' -> src ∉ relay -> src ∉ relay'.
Proof.
  unfold Mercator.outer_forward. intros Hrun Hrelay.
  apply (for_each_preserves (fun r => src ∉ r) _ _ _ _ Hrun Hrelay).
  clear. intros r b r' Hr Hbody.
  destruct (at_ (Mercator.KBuckets m) u) as [row|]; [|done]. cbn [mbind option_bind] in Hbody.
  destruct (at_ row b) as [bkt|]; [|done]. cbn [mbind option_bind] in Hbody.
  injection Hbody as <-. by apply append_except_sender.
Qed.

(** What a call of [Respond] that has returned leaves behind. *)
Lemma Respond_frame (m : Mercator.t) (msg : Message) (relay : list Z) (m' : Mercator.t) :
  Mercator.Respond m msg = Some (relay, m') ->
  (Src msg ∉ relay)
  /\ Mercator.KBuckets m' = Mercator.KBuckets m
  /\ Mercator.NodeGeohash m' = Mercator.NodeGeohash m
  /\ Mercator.Graph m' = Mercator.Graph m
  /\ Mercator.TotalBits m' = Mercator.TotalBits m
  /\ exists row seen,
       at_ (Mercator.Visited m) (Dst msg) = Some row /\ at_ row (Step msg) = Some seen
       /\ Mercator.Visited m'
          = if seen then Mercator.Visited m
            else set_at (Mercator.Visited m) (Dst msg) (set_at row (Step msg) true).
Proof.
  unfold Mercator.Respond. intros Hrun.
  destruct (at_ (Mercator.Visited m) (Dst msg)) as [row|] eqn:Hrow; [|done].
  cbn [mbind option_bind] in Hrun.
  destruct (at_ row (Step msg)) as [seen|] eqn:Hseen; [|done].
  cbn [mbind option_bind] in Hrun.
  destruct seen.
  { injection Hrun as <- <-. split; [apply not_elem_of_nil|]. repeat split; try done.
    by exists row, true. }
  set (m1 := Mercator.with_Visited m _) in Hrun.
  assert (forall (st : list Z * Mercator.t) (relay' : list Z),
            respond_frame (Src msg) m1 st -> Src msg ∉ relay' ->
            (Src msg ∉ relay')
            /\ Mercator.KBuckets st.2 = Mercator.KBuckets m
            /\ Mercator.NodeGeohash st.2 = Mercator.NodeGeohash m
            /\ Mercator.Graph st.2 = Mercator.Graph m
            /\ Mercator.TotalBits st.2 = Mercator.TotalBits m
            /\ exists row0 seen,
                 Some row = Some row0 /\ at_ row0 (Step msg) = Some seen
                 /\ Mercator.Visited st.2
                    = if seen then Mercator.Visited m
                      else set_at (Mercator.Visited m) (Dst msg) (set_at row0 (Step msg) true))
    as Hend.
  { intros st relay' (HV & HK & HN & HG & HT & _) Hr. repeat split; try done.
    exists row, false. by rewrite HV. }
  destruct (Step msg =? 0).
  - destruct (Mercator.k0_forward m1 _ _ _) as [[r1 m2]|] eqn:Hk0; [|done].
    cbn [mbind option_bind] in Hrun.
    apply k0_forward_frame in Hk0 as Hf; [|apply not_elem_of_nil].
    destruct (at_ (Mercator.KBuckets m2) (Dst msg)) as [row2|]; [|done].
    cbn [mbind option_bind] in Hrun.
    destruct (Mercator.outer_forward m2 _ _ _ _) as [r2|] eqn:Hout; [|done].
    cbn [mbind option_bind] in Hrun. injection Hrun as <- <-.
    apply outer_forward_sender in Hout; [|apply Hf].
    apply (Hend (r1, m2) r2 Hf Hout).
  - destruct (at_ (Mercator.NodeGeohash m1) (Dst msg)) as [hu|]; [|done].
    cbn [mbind option_bind] in Hrun.
    destruct (at_ (Mercator.NodeGeohash m1) (Src msg)) as [hs|]; [|done].
    cbn [mbind option_bind] in Hrun.
    destruct (at_ (Mercator.KaryMsgInfo m1) (Dst msg)) as [info|]; [|done].
    cbn [mbind option_bind] in Hrun.
    destruct (if IsKary info then _ else _) as [[r1 m2]|] eqn:Hfirst; [|done].
    cbn [mbind option_bind] in Hrun.
    assert (respond_frame (Src msg) m1 (r1, m2)) as Hf.
    { destruct (IsKary info).
      - eapply kary_forward_frame; [done|apply not_elem_of_nil].
      - destruct (0 <? _).
        + eapply k0_forward_frame; [done|apply not_elem_of_nil].
        + injection Hfirst as <- <-. repeat split; try done. apply not_elem_of_nil. }
    destruct (Mercator.outer_forward m2 _ _ _ _) as [r2|] eqn:Hout; [|done].
    cbn [mbind option_bind] in Hrun. injection Hrun as <- <-.
    apply outer_forward_sender in Hout; [|apply Hf].
    apply (Hend (r1, m2) r2 Hf Hout).
Qed.

Lemma Respond_marks (m : Mercator.t) (msg : Message) (relay : list Z) (m' : Mercator.t) :
  Mercator.Respond m msg = Some (relay, m') -> marked m' (Dst msg) (Step msg).
Proof.
  intros (_ & _ & _ & _ & _ & row & seen & Hrow & Hseen & HV)%Respond_frame.
  unfold marked. rewrite HV. destruct seen; [by exists row|].
  apply at_Some in Hrow as Hu. apply at_Some in Hseen as Hs.
  exists (set_at row (Step msg) true). by rewrite !at_set_at_eq.
Qed.

Lemma Respond_keeps_marks (m : Mercator.t) (msg : Message) (relay : list Z) (m' : Mercator.t)
    (u step : Z) :
  Mercator.Respond m msg = Some (relay, m') -> marked m u step -> marked m' u step.
Proof.
  intros (_ & _ & _ & _ & _ & row & seen & Hrow & Hseen & HV)%Respond_frame (r & Hr & Hm).
  unfold marked. rewrite HV. destruct seen; [by exists r|].
  apply at_Some in Hrow as Hu. apply at_Some in Hseen as Hs.
  rewrite at_set_at by done. destruct (decide (u = Dst msg)) as [->|Hne]; [|by exists r].
  eexists. split; [done|]. rewrite at_set_at by done.
  destruct (decide (step = Step msg)); [done|]. congruence.
Qed.

Lemma Respond_marked (m : Mercator.t) (msg : Message) :
  marked m (Dst msg) (Step msg) -> Mercator.Respond m msg = Some ([], m).
Proof. intros (row & Hrow & Hseen). unfold Mercator.Respond. by rewrite Hrow; cbn; rewrite Hseen. Qed.

(** X13.  The relay list of [Respond] never holds the sender of the message,
    whatever the buckets and the groups hold; and [Respond] changes neither
    the buckets, nor the Geohashes, nor the graph. *)
Theorem Respond_never_relays_to_sender (m : Mercator.t) (msg : Message) (relay : list Z)
    (m' : Mercator.t) :
  Mercator.Respond m msg = Some (relay, m') ->
  (Src msg ∉ relay)
  /\ Mercator.KBuckets m' = Mercator.KBuckets m
  /\ Mercator.NodeGeohash m' = Mercator.NodeGeohash m
  /\ Mercator.Graph m' = Mercator.Graph m.
Proof.
  intros (Hsrc & HK & HN & HG & _)%Respond_frame. by repeat split.
Qed.

(** The source of a broadcast in the overlay of three nodes in one cell:
    node 0 relays to nodes 1 and 2, not to itself. *)
Lemma Respond_never_relays_to_sender_witness :
  exists m m',
    same_cell = Some m
    /\ Mercator.Respond m (NewMessage 0 0 0 0 0 0) = Some ([1; 2], m')
    /\ (0 ∉ [1; 2])
    /\ Mercator.KBuckets m' = Mercator.KBuckets m
    /\ Mercator.NodeGeohash m' = Mercator.NodeGeohash m
    /\ Mercator.Graph m' = Mercator.Graph m.
Proof.
  let o := eval vm_compute in same_cell in
  match o with
  | Some ?m =>
      let r := eval vm_compute in (Mercator.Respond m (NewMessage 0 0 0 0 0 0)) in
      match r with
      | Some (_, ?m') =>
          exists m, m'; split; [vm_compute; reflexivity|];
          split; [vm_compute; reflexivity|];
          apply (Respond_never_relays_to_sender m (NewMessage 0 0 0 0 0 0) [1; 2] m');
          vm_compute; reflexivity
      end
  end.
Defined.

(** X14.  A node answers a step once.  After [Respond] has returned for a
    message, the mark [Visited[Dst][Step]] is set, no later [Respond] clears
    a mark, and every message to the same node with the same [Step], from
    whatever sender, gets the empty relay list and changes nothing. *)
Theorem Respond_answers_once (m : Mercator.t) (msg : Message) (relay : list Z)
    (m' : Mercator.t) :
  Mercator.Respond m msg = Some (relay, m') ->
  (forall msg', Dst msg' = Dst msg -> Step msg' = Step msg ->
                Mercator.Respond m' msg' = Some ([], m'))
  /\ (forall u step, marked m u step -> marked m' u step).
Proof.
  intros Hrun. split.
  - intros msg' Hd Hs. apply Respond_marked. rewrite Hd, Hs. by eapply Respond_marks.
  - intros u step. by eapply Respond_keeps_marks.
Qed.

Lemma Respond_answers_once_witness :
  exists m m',
    same_cell = Some m
    /\ Mercator.Respond m (NewMessage 0 0 0 0 0 0) = Some ([1; 2], m')
    /\ (forall msg', Dst msg' = 0 -> Step msg' = 0 ->
                     Mercator.Respond m' msg' = Some ([], m'))
    /\ (forall u step, marked m u step -> marked m' u step).
Proof.
  let o := eval vm_compute in same_cell in
  match o with
  | Some ?m =>
      let r := eval vm_compute in (Mercator.Respond m (NewMessage 0 0 0 0 0 0)) in
      match r with
      | Some (_, ?m') =>
          exists m, m'; split; [vm_compute; reflexivity|];
          split; [vm_compute; reflexivity|];
          apply (Respond_answers_once m (NewMessage 0 0 0 0 0 0) [1; 2] m');
          vm_compute; reflexivity
      end
  end.
Defined.

(** ** Mercator: a second broadcast without [SetRoot] *)

Lemma Pop_singleton (msg : Message) : Pop [msg] = Some (msg, []).
Proof. reflexivity. Qed.

Section Repeat.
Context `{MathLib} `{RandLib}.

Lemma process_message_marked root coords mal leave config (st st' : SimState Mercator.t)
    (u step : Z) :
  process_message root coords mal leave config st = Some st' ->
  marked (algo st) u step -> marked (algo st') u step.
Proof.
  unfold process_message. intros Hstep Hm.
  destruct (Pop (msgQueue st)) as [[msg mq]|]; [|done]. cbn [mbind option_bind] in Hstep.
  destruct (at_ (recvFlag st) (Dst msg)) as [[]|]; [| |done];
    cbn [mbind option_bind] in Hstep; [by injection Hstep as <-|].
  destruct (if decide (Src msg <> Dst msg) then _ else _) as [success|]; [|done].
  cbn [mbind option_bind] in Hstep.
  destruct (if decide (Dst msg <> root) then _ else _) as [dep|]; [|done].
  cbn [mbind option_bind] in Hstep.
  destruct (at_ mal (Dst msg)) as [isMal|]; [|done]. cbn [mbind option_bind] in Hstep.
  destruct (if isMal then _ else _) as [[]|]; [| |done]; cbn [mbind option_bind] in Hstep;
    [by injection Hstep as <-|].
  destruct (Respond (algo st) msg) as [[relayList algo']|] eqn:Hresp; [|done].
  cbn [mbind option_bind] in Hstep.
  destruct (send_all _ _ _ _ _ _ _ _ _) as [mq'|]; [|done]. cbn [mbind option_bind] in Hstep.
  injection Hstep as <-. cbn [algo]. by eapply Respond_keeps_marks.
Qed.

Lemma event_loop_marked root coords mal leave config (u step : Z) (fuel : nat) :
  forall st st' : SimState Mercator.t,
    event_loop fuel root coords mal leave config st = Some st' ->
    marked (algo st) u step -> marked (algo st') u step.
Proof.
  induction fuel as [|fuel IH]; intros st st' Hrun Hm; cbn [event_loop] in Hrun;
    (destruct (Empty (msgQueue st)); [by injection Hrun as <-|]); [done|].
  destruct (process_message root coords mal leave config st) as [st1|] eqn:Hstep; [|done].
  cbn [mbind option_bind] in Hrun. eapply IH; [done|]. by eapply process_message_marked.
Qed.

(** The message of the root to itself, at the start of a repetition. *)
Lemma first_message root coords mal leave config n success (a : Mercator.t) g
    (st' : SimState Mercator.t) :
  at_ mal root = Some false -> at_ leave root = Some false ->
  process_message root coords mal leave config
    (init_state n success a g [NewMessage root root root 0 0 0]) = Some st' ->
  exists relay a',
    Mercator.Respond a (NewMessage root root root 0 0 0) = Some (relay, a')
    /\ algo st' = a' /\ recvList st' = [root] /\ dupMsg st' = 0
    /\ (relay = [] -> msgQueue st' = []).
Proof.
  intros Hmal Hleave. unfold process_message, init_state.
  cbn [msgQueue recvFlag successChildren depth algo gen recvList dupMsg recvTime recvDist
       recvParent].
  rewrite Pop_singleton. cbn [mbind option_bind]. intros Hstep.
  change (Dst (NewMessage root root root 0 0 0)) with root in Hstep.
  change (Src (NewMessage root root root 0 0 0)) with root in Hstep.
  destruct (at_ (replicate (Z.to_nat n) false) root) as [b|] eqn:Hflag; [|done].
  cbn [mbind option_bind] in Hstep.
  assert (b = false) as ->.
  { apply at_Some in Hflag as Hr. unfold len in Hr. rewrite length_replicate in Hr.
    rewrite at_replicate in Hflag by done. congruence. }
  rewrite !decide_False in Hstep by (intros Hne; by apply Hne).
  cbn [mbind option_bind] in Hstep. rewrite Hmal in Hstep. cbn [mbind option_bind] in Hstep.
  rewrite Hleave in Hstep. cbn [mbind option_bind] in Hstep.
  destruct (Respond a (NewMessage root root root 0 0 0)) as [[relay a']|] eqn:Hresp; [|done].
  cbn [mbind option_bind] in Hstep.
  destruct (send_all _ _ _ _ _ _ _ _ _) as [mq'|] eqn:Hsend; [|done].
  cbn [mbind option_bind] in Hstep. injection Hstep as <-.
  exists relay, a'. cbn. repeat split; try done.
  intros ->. cbn in Hsend. by injection Hsend as <-.
Qed.

(** X15.  [SingleRootSimulation] calls [SetRoot] once, before its repetitions,
    and the marks of Mercator last until the next [SetRoot].  So when the
    event loop of a repetition has ended, with a root that is neither
    malicious nor absent, the event loop of the next repetition, which
    starts from the algorithm and the generator the first one has left,
    delivers the message of the root to the root and to no other node: the
    root relays nothing. *)
Theorem Mercator_second_repetition_reaches_only_the_root (fuel1 fuel2 : nat) (root : Z)
    (coords : list LatLonCoordinate) (malFlags leaveFlags : list bool)
    (config : SimulatorConfig) (success : list (list Z)) (m : Mercator.t) (g : rng)
    (st1 : SimState Mercator.t) :
  at_ malFlags root = Some false -> at_ leaveFlags root = Some false ->
  event_loop fuel1 root coords malFlags leaveFlags config
    (init_state (len coords) success m g [NewMessage root root root 0 0 0]) = Some st1 ->
  exists st2,
    event_loop (Datatypes.S fuel2) root coords malFlags leaveFlags config
      (init_state (len coords) (successChildren st1) (algo st1) (gen st1)
         [NewMessage root root root 0 0 0]) = Some st2
    /\ recvList st2 = [root] /\ dupMsg st2 = 0 /\ msgQueue st2 = []
    /\ algo st2 = algo st1 /\ successChildren st2 = successChildren st1.
Proof.
  intros Hmal Hleave Hrun.
  assert (marked (algo st1) root 0 /\ 0 <= root < len coords) as [Hmark Hroot].
  { destruct fuel1 as [|fuel1]; [done|]. cbn [event_loop] in Hrun.
    change (Empty _) with false in Hrun. cbv iota in Hrun.
    destruct (process_message _ _ _ _ _ _) as [sta|] eqn:Hstep; [|done].
    cbn [mbind option_bind] in Hrun. split.
    - apply (event_loop_marked _ _ _ _ _ _ _ _ _ _ Hrun).
      destruct (first_message _ _ _ _ _ _ _ _ _ _ Hmal Hleave Hstep)
        as (relay & a' & Hresp & <- & _).
      apply (Respond_marks _ _ _ _ Hresp).
    - apply at_Some in Hmal as Hr. unfold process_message, init_state in Hstep.
      cbn [msgQueue recvFlag] in Hstep. rewrite Pop_singleton in Hstep.
      cbn [mbind option_bind] in Hstep.
      change (Dst (NewMessage root root root 0 0 0)) with root in Hstep.
      destruct (at_ (replicate (Z.to_nat (len coords)) false) root) as [b|] eqn:Hflag; [|done].
      apply at_Some in Hflag. unfold len in Hflag |- *. rewrite length_replicate in Hflag. lia. }
  cbn [event_loop]. change (Empty _) with false. cbv iota.
  unfold process_message, init_state.
  cbn [msgQueue recvFlag successChildren depth algo gen recvList dupMsg recvTime recvDist
       recvParent].
  rewrite Pop_singleton. cbn [mbind option_bind].
  change (Dst (NewMessage root root root 0 0 0)) with root.
  change (Src (NewMessage root root root 0 0 0)) with root.
  rewrite (at_replicate _ false) by (unfold len in *; lia). cbn [mbind option_bind].
  rewrite !decide_False by (intros Hne; by apply Hne). cbn [mbind option_bind].
  rewrite Hmal. cbn [mbind option_bind]. rewrite Hleave. cbn [mbind option_bind].
  change (Respond (algo st1) (NewMessage root root root 0 0 0))
    with (Mercator.Respond (algo st1) (NewMessage root root root 0 0 0)).
  rewrite Respond_marked by done. cbn [mbind option_bind send_all for_each].
  eexists. split; [apply event_loop_empty; reflexivity|]. by cbn.
Qed.

End Repeat.

(** Two broadcasts from node 0 in the overlay of three nodes in one cell:
    the first reaches the three nodes, the second only node 0. *)
Lemma Mercator_second_repetition_reaches_only_the_root_witness :
  exists (m : Mercator.t) (st1 : SimState (H := no_noise) Mercator.t),
    same_cell = Some m
    /\ event_loop (H := no_trig) (H0 := no_noise) 8 0 three_origins nobody nobody NewSimulatorConfig
         (init_state (H := no_noise) (len three_origins) [[]; []; []] m tt [NewMessage 0 0 0 0 0 0])
       = Some st1
    /\ recvList st1 = [0; 1; 2]
    /\ exists st2,
         event_loop (H := no_trig) (H0 := no_noise) 1 0 three_origins nobody nobody NewSimulatorConfig
           (init_state (H := no_noise) (len three_origins) (successChildren st1) (algo st1) (gen st1)
              [NewMessage 0 0 0 0 0 0]) = Some st2
         /\ recvList st2 = [0] /\ dupMsg st2 = 0 /\ msgQueue st2 = []
         /\ algo st2 = algo st1 /\ successChildren st2 = successChildren st1.
Proof.
  let o := eval vm_compute in same_cell in
  match o with
  | Some ?m =>
      let r := eval vm_compute in
        (event_loop (H := no_trig) (H0 := no_noise) 8 0 three_origins nobody nobody
           NewSimulatorConfig
           (init_state (H := no_noise) (len three_origins) [[]; []; []] m tt [NewMessage 0 0 0 0 0 0])) in
      match r with
      | Some ?st1 =>
          exists m, st1; split; [vm_compute; reflexivity|];
          split; [vm_compute; reflexivity|];
          split; [vm_compute; reflexivity|];
          apply (Mercator_second_repetition_reaches_only_the_root (H := no_trig)
                   (H0 := no_noise) 8 0 0 three_origins nobody nobody NewSimulatorConfig
                   [[]; []; []] m tt st1);
          vm_compute; reflexivity
      end
  end.
Defined.

(** ** The event loop: every node receives once, and the records form a tree *)

Lemma Push_perm (mq : MessageQueue) (msg : Message) (mq' : MessageQueue) :
  Push mq msg = Some mq' -> mq' ≡ₚ msg :: mq.
Proof.
  unfold Push. pose proof (len_nonneg mq) as Hl.
  assert (len (mq ++ [msg]) = len mq + 1) as Hlen by (by rewrite len_app).
  destruct (heap_up_total (length (mq ++ [msg])) (mq ++ [msg]) (len (mq ++ [msg]) - 1))
    as (mq1 & -> & Hperm); [lia|unfold len; lia|].
  intros [= <-]. by rewrite Hperm, <- Permutation_cons_append.
Qed.

Lemma Pop_perm (mq : MessageQueue) (msg : Message) (mq' : MessageQueue) :
  Pop mq = Some (msg, mq') -> msg :: mq' ≡ₚ mq.
Proof.
  destruct (decide (mq = [])) as [->|Hne]; [done|].
  unfold Pop. pose proof (len_nonneg mq) as Hl.
  assert (0 < len mq) as Hpos by (destruct mq; [done|unfold len; cbn; lia]).
  destruct (at_lt mq 0) as [root Hroot]; [lia|].
  destruct (at_lt mq (len mq - 1)) as [lst Hlst]; [lia|].
  destruct (Swap_spec mq 0 (len mq - 1) root lst Hroot Hlst)
    as (mq1 & -> & Hperm1 & Hlen1 & Hat1).
  cbn [mbind option_bind].
  destruct (heap_down_spec (length mq1) mq1 0 (len mq - 1))
    as (mq2 & -> & Hperm2 & Htail & _); [lia|lia|unfold len in *; lia|].
  cbn [mbind option_bind].
  assert (length mq2 = Datatypes.S (Z.to_nat (len mq - 1))) as Hlen2.
  { rewrite Hperm2. unfold len in *. lia. }
  assert (at_ mq2 (len mq - 1) = Some root) as Hlast.
  { rewrite Htail, Hat1 by lia. by rewrite decide_True. }
  assert (exists front, mq2 = front ++ [root] /\ length front = Z.to_nat (len mq - 1))
    as (front & -> & Hfl).
  { exists (take (Z.to_nat (len mq - 1)) mq2). split; [|rewrite length_take; lia].
    rewrite <- (take_drop (Z.to_nat (len mq - 1)) mq2) at 1. f_equal.
    unfold at_ in Hlast. case_decide; [|lia].
    rewrite (drop_S _ _ _ Hlast), drop_ge by lia. done. }
  rewrite last_snoc. cbn [mbind option_bind]. rewrite length_app. cbn [length].
  replace (length front + 1 - 1)%nat with (length front) by lia.
  rewrite take_app_length. intros [= <- <-].
  by rewrite <- Hperm1, <- Hperm2, <- Permutation_cons_append.
Qed.

Lemma sender_ok_mono (root : Z) (nodes : list Z) (u : Z) (msg : Message) :
  (nodes = [] -> u = root) ->
  sender_ok root nodes msg -> sender_ok root (nodes ++ [u]) msg.
Proof.
  intros Hu [Hin|(-> & Hs & Hd)]; left.
  - apply elem_of_app. by left.
  - rewrite Hs, (Hu eq_refl). cbn. apply list_elem_of_here.
Qed.

Section Tree.
Context `{MathLib} `{RandLib} {S : Type} `{Algorithm S}.

Lemma send_all_senders root u msg t d coords config relayList :
  forall (mq mq' : MessageQueue) (nodes : list Z),
    send_all root u msg t d coords config relayList mq = Some mq' ->
    u ∈ nodes -> Forall (sender_ok root nodes) mq -> Forall (sender_ok root nodes) mq'.
Proof.
  unfold send_all. induction relayList as [|v vs IH]; intros mq mq' nodes Hrun Hu Hmq;
    cbn [for_each] in Hrun; [by injection Hrun as <-|].
  destruct (relay_message root u msg t d coords config v) as [new|] eqn:Hnew; [|done].
  cbn [mbind option_bind] in Hrun.
  destruct (Push mq new) as [mq1|] eqn:Hpush; [|done]. cbn [mbind option_bind] in Hrun.
  apply (IH mq1 mq' nodes Hrun Hu). apply Push_perm in Hpush. rewrite Hpush.
  apply Forall_cons_2; [|done]. left. unfold relay_message in Hnew.
  destruct (CalculatePropagationDelay _ _ _ _ _); [|done]. by injection Hnew as <-.
Qed.

(** The state after a first receipt keeps the invariant. *)
Lemma receive_inv root n (st : SimState S) (msg : Message) (success : list (list Z))
    (dep : list Z) (tm ds : list float) (q : MessageQueue) (a : S) (g : rng) :
  tree_inv root n st ->
  sender_ok root (recvList st) msg ->
  at_ (recvFlag st) (Dst msg) = Some false ->
  (if decide (Src msg <> Dst msg) then
     ch ← at_ (successChildren st) (Src msg);
     Some (set_at (successChildren st) (Src msg) (ch ++ [Dst msg]))
   else Some (successChildren st)) = Some success ->
  (if decide (Dst msg <> root) then
     d ← at_ (depth st) (Src msg);
     Some (set_at (depth st) (Dst msg) (d + 1))
   else Some (depth st)) = Some dep ->
  Forall (sender_ok root (recvList st ++ [Dst msg])) q ->
  tree_inv root n
    {| recvFlag := set_at (recvFlag st) (Dst msg) true; recvTime := tm; recvDist := ds;
       recvParent := set_at (recvParent st) (Dst msg) (Src msg); depth := dep;
       recvList := recvList st ++ [Dst msg]; dupMsg := dupMsg st;
       successChildren := success; msgQueue := q; algo := a; gen := g |}.
Proof.
  intros (Hlf & Hlp & Hld & Hnd & Hflag & _ & Hhead & Hd0 & Hproot & Hdpos & Htree)
         Hsender Hfl Hsucc Hdep Hq.
  set (u := Dst msg) in *. set (s := Src msg) in *.
  apply at_Some in Hfl as Hu. rewrite Hlf in Hu.
  assert (u ∉ recvList st) as Hnin.
  { intros Hin%Hflag. congruence. }
  assert ((recvList st = [] /\ s = root /\ u = root
           /\ success = successChildren st /\ dep = depth st)
          \/ (root ∈ recvList st /\ u <> root /\ s ∈ recvList st /\ s <> u
              /\ exists ch d,
                   at_ (successChildren st) s = Some ch
                   /\ success = set_at (successChildren st) s (ch ++ [u])
                   /\ at_ (depth st) s = Some d
                   /\ dep = set_at (depth st) u (d + 1))) as Hcases.
  { destruct Hhead as [Hnil|[rest Hrest]].
    - left. destruct Hsender as [Hin|(_ & Hs & Hd)]; [rewrite Hnil in Hin; by apply not_elem_of_nil in Hin|].
      fold s in Hs. fold u in Hd.
      rewrite decide_False in Hsucc by (intros Hne; apply Hne; congruence).
      rewrite decide_False in Hdep by (intros Hne; by apply Hne).
      injection Hsucc as <-. injection Hdep as <-. done.
    - right. assert (root ∈ recvList st) as Hroot by (rewrite Hrest; apply list_elem_of_here).
      assert (u <> root) as Hur by (intros ->; done).
      destruct Hsender as [Hin|(Hnil & _)]; [|by rewrite Hrest in Hnil].
      assert (s <> u) as Hsu by (intros Heq; apply Hnin; by rewrite <- Heq).
      rewrite decide_True in Hsucc by done. rewrite decide_True in Hdep by done.
      destruct (at_ (successChildren st) s) as [ch|]; [|done].
      destruct (at_ (depth st) s) as [d|]; [|done].
      cbn [mbind option_bind] in Hsucc, Hdep. injection Hsucc as <-. injection Hdep as <-.
      repeat split; try done. by exists ch, d. }
  assert (Forall (fun d => 0 <= d) dep) as Hdpos'.
  { destruct Hcases as [(_ & _ & _ & _ & ->)|(_ & _ & _ & _ & ch & d & _ & _ & Hds & ->)];
      [done|].
    apply Forall_insert; [done|]. unfold at_ in Hds. case_decide; [|done].
    apply (Forall_lookup_1 _ _ _ _ Hdpos) in Hds. lia. }
  unfold tree_inv.
  cbn [recvFlag recvParent depth recvList msgQueue successChildren].
  split; [by rewrite len_set_at|]. split; [by rewrite len_set_at|].
  split.
  { destruct Hcases as [(_ & _ & _ & _ & ->)|(_ & _ & _ & _ & ch & d & _ & _ & _ & ->)];
      [done|by rewrite len_set_at]. }
  split.
  { apply NoDup_app. split; [done|]. split; [|apply NoDup_singleton].
    intros w Hw Hw'%list_elem_of_singleton. by subst w. }
  split.
  { intros w. rewrite at_set_at by lia. rewrite elem_of_app, list_elem_of_singleton.
    destruct (decide (w = u)) as [->|Hne]; [tauto|]. rewrite Hflag. tauto. }
  split; [done|]. split.
  { right. destruct Hhead as [Hnil|[rest Hrest]].
    - exists []. rewrite Hnil. destruct Hcases as [(_ & _ & -> & _)|(Hin & _)]; [done|].
      rewrite Hnil in Hin. by apply not_elem_of_nil in Hin.
    - exists (rest ++ [u]). by rewrite Hrest. }
  split.
  { intros d. destruct Hcases as [(_ & _ & _ & _ & ->)|(_ & Hur & _ & _ & ch & d' & _ & _ & _ & ->)];
      [apply Hd0|].
    rewrite at_set_at_ne by lia. apply Hd0. }
  split.
  { intros Hroot. destruct Hcases as [(_ & Hs & Hur & _)|(Hin & Hur & _)].
    - rewrite Hur, Hs. apply at_set_at_eq. lia.
    - rewrite at_set_at_ne by lia. by apply Hproot. }
  split; [done|].
  intros w [Hw|Hw]%elem_of_app Hwr; [|apply list_elem_of_singleton in Hw as ->].
  - assert (w <> u) as Hwu by (intros ->; done).
    destruct (Htree w Hw Hwr) as (p & d & ch & Hp & Hpin & Hpw & Hdp & Hd & Hdw & Hch & Hwch).
    assert (p <> u) as Hpu by (intros ->; done).
    unfold hangs_below.
    cbn [recvFlag recvParent depth recvList msgQueue successChildren].
    destruct Hcases as [(_ & _ & _ & -> & ->)
                       |(_ & _ & _ & _ & ch' & d' & Hch' & -> & _ & ->)].
    + exists p, d, ch. rewrite at_set_at_ne by lia. repeat split; try done.
      apply elem_of_app. by left.
    + apply at_Some in Hch' as Hs.
      exists p, d, (if decide (p = s) then ch' ++ [u] else ch).
      rewrite !at_set_at_ne by lia. rewrite (at_set_at (successChildren st)) by done.
      repeat split; try done.
      * apply elem_of_app. by left.
      * by destruct (decide (p = s)).
      * destruct (decide (p = s)) as [->|]; [|done].
        apply elem_of_app. left. congruence.
  - destruct Hcases as [(_ & _ & ? & _)|(_ & _ & Hs & Hsu & ch & d & Hch & -> & Hds & ->)];
      [done|].
    apply at_Some in Hch as Hsr. unfold hangs_below.
    cbn [recvFlag recvParent depth recvList msgQueue successChildren].
    exists s, d, (ch ++ [u]).
    rewrite !at_set_at_eq by lia. rewrite at_set_at_ne by lia.
    repeat split; try done.
    + apply elem_of_app. by left.
    + unfold at_ in Hds. case_decide; [|done].
      apply (Forall_lookup_1 _ _ _ _ Hdpos) in Hds. lia.
    + apply elem_of_app. right. apply list_elem_of_here.
Qed.

Lemma process_message_tree root n coords mal leave config (st st' : SimState S) :
  tree_inv root n st ->
  process_message root coords mal leave config st = Some st' ->
  tree_inv root n st'.
Proof.
  intros Hinv Hstep. unfold process_message in Hstep.
  destruct (Pop (msgQueue st)) as [[msg mq]|] eqn:Hpop; [|done].
  cbn [mbind option_bind] in Hstep. apply Pop_perm in Hpop.
  assert (sender_ok root (recvList st) msg /\ Forall (sender_ok root (recvList st)) mq)
    as [Hmsg Hmq].
  { destruct Hinv as (_ & _ & _ & _ & _ & Hq & _). rewrite <- Hpop in Hq.
    by apply Forall_cons in Hq. }
  destruct (at_ (recvFlag st) (Dst msg)) as [[]|] eqn:Hfl; [| |done];
    cbn [mbind option_bind] in Hstep.
  { injection Hstep as <-. destruct Hinv as (? & ? & ? & ? & ? & _ & ? & ? & ? & ? & ?).
    unfold tree_inv. cbn [recvFlag recvParent depth recvList msgQueue successChildren].
    repeat (split; [assumption|]). assumption. }
  destruct (if decide (Src msg <> Dst msg) then _ else _) as [success|] eqn:Hsucc; [|done].
  cbn [mbind option_bind] in Hstep.
  destruct (if decide (Dst msg <> root) then _ else _) as [dep|] eqn:Hdep; [|done].
  cbn [mbind option_bind] in Hstep.
  assert (forall w, sender_ok root (recvList st) w ->
                    sender_ok root (recvList st ++ [Dst msg]) w) as Hmono.
  { intros w. apply sender_ok_mono. intros Hnil.
    destruct Hmsg as [Hin|(_ & _ & Hd)]; [|done].
    rewrite Hnil in Hin. by apply not_elem_of_nil in Hin. }
  assert (Forall (sender_ok root (recvList st ++ [Dst msg])) mq) as Hmq'.
  { eapply Forall_impl; [exact Hmq|exact Hmono]. }
  destruct (at_ mal (Dst msg)) as [isMal|]; [|done]. cbn [mbind option_bind] in Hstep.
  destruct (if isMal then _ else _) as [[]|]; [| |done]; cbn [mbind option_bind] in Hstep.
  { injection Hstep as <-. by apply receive_inv. }
  destruct (Respond (algo st) msg) as [[relayList algo']|]; [|done].
  cbn [mbind option_bind] in Hstep.
  destruct (send_all _ _ _ _ _ _ _ _ _) as [mq'|] eqn:Hsend; [|done].
  cbn [mbind option_bind] in Hstep. injection Hstep as <-.
  apply receive_inv; try done.
  apply (send_all_senders _ _ _ _ _ _ _ _ _ _ _ Hsend); [|done].
  apply elem_of_app. right. apply list_elem_of_here.
Qed.

Lemma event_loop_tree root n coords mal leave config (fuel : nat) :
  forall st st' : SimState S,
    tree_inv root n st ->
    event_loop fuel root coords mal leave config st = Some st' ->
    tree_inv root n st' /\ msgQueue st' = [].
Proof.
  induction fuel as [|fuel IH]; intros st st' Hinv Hrun; cbn [event_loop] in Hrun;
    (destruct (Empty (msgQueue st)) eqn:Hempty;
     [injection Hrun as <-; split; [done|];
      by apply len_nil_iff, Z.eqb_eq|]); [done|].
  destruct (process_message root coords mal leave config st) as [st1|] eqn:Hstep; [|done].
  cbn [mbind option_bind] in Hrun. eapply IH; [|done]. by eapply process_message_tree.
Qed.

Lemma init_state_tree root n success (a : S) (g : rng) :
  0 <= n -> tree_inv root n (init_state n success a g [NewMessage root root root 0 0 0]).
Proof.
  intros Hn. unfold tree_inv, init_state.
  cbn [recvFlag recvParent depth recvList msgQueue successChildren].
  rewrite !len_replicate by done.
  assert (forall {A} (x y : A) i, at_ (replicate (Z.to_nat n) x) i = Some y -> y = x) as Hrep.
  { intros A x y i Hi. apply at_Some in Hi as Hr. unfold len in Hr.
    rewrite length_replicate in Hr. rewrite at_replicate in Hi by done. congruence. }
  split; [done|]. split; [done|]. split; [done|]. split; [apply NoDup_nil_2|].
  split.
  { intros u. split; [by intros Hu%Hrep|]. intros Hu. by apply not_elem_of_nil in Hu. }
  split; [apply Forall_singleton; by right|]. split; [by left|].
  split; [intros d Hd; by apply Hrep in Hd|].
  split; [intros Hu; by apply not_elem_of_nil in Hu|].
  split; [by apply Forall_replicate|].
  intros u Hu. by apply not_elem_of_nil in Hu.
Qed.

(** X16.  The event loop of a repetition, whatever the algorithm relays.  When
    it has ended the queue is empty and the receive list starts with the
    root, holds no node twice and holds exactly the nodes whose flag is
    set.  The root is its own parent at depth 0; every other receiver has
    a parent that has received too, at a depth of at least 0 and one less
    than its own, and stands in the list of successful children of that
    parent: the parents form a tree on the receivers, rooted at the root,
    in which [depth] is the distance to the root. *)
Theorem broadcast_tree (fuel : nat) (root n : Z) (coords : list LatLonCoordinate)
    (malFlags leaveFlags : list bool) (config : SimulatorConfig)
    (success : list (list Z)) (a : S) (g : rng) (st : SimState S) :
  0 <= n ->
  event_loop fuel root coords malFlags leaveFlags config
    (init_state n success a g [NewMessage root root root 0 0 0]) = Some st ->
  msgQueue st = []
  /\ (exists rest, recvList st = root :: rest)
  /\ NoDup (recvList st)
  /\ (forall u, u ∈ recvList st <-> at_ (recvFlag st) u = Some true)
  /\ at_ (recvParent st) root = Some root
  /\ at_ (depth st) root = Some 0
  /\ forall u, u ∈ recvList st -> u <> root -> hangs_below st u.
Proof.
  intros Hn Hrun.
  destruct (event_loop_from_root _ _ _ _ _ _ _ _ _ _ _ Hn Hrun) as [_ Hne].
  destruct (event_loop_tree _ _ _ _ _ _ _ _ _ (init_state_tree root n success a g Hn) Hrun)
    as [(Hlf & Hlp & Hld & Hnd & Hflag & _ & Hhead & Hd0 & Hproot & _ & Htree) Hq].
  destruct Hhead as [?|[rest Hrest]]; [done|].
  assert (root ∈ recvList st) as Hroot by (rewrite Hrest; apply list_elem_of_here).
  split; [done|]. split; [by exists rest|]. split; [done|].
  split; [intros u; by rewrite Hflag|]. split; [by apply Hproot|]. split; [|done].
  apply Hflag, at_Some in Hroot. destruct (at_lt (depth st) root) as [d Hd]; [lia|].
  by rewrite Hd, (Hd0 d Hd).
Qed.

End Tree.

(** The broadcast from node 0 in a graph of three nodes whose only edge
    goes from node 0 to node 1. *)
Lemma broadcast_tree_witness :
  0 <= 3
  /\ exists st : SimState (H := no_noise) BaseAlgorithm,
       event_loop (H := no_trig) (H0 := no_noise) 8 0 three_origins nobody nobody
         NewSimulatorConfig
         (init_state (H := no_noise) 3 [[]; []; []] one_edge tt [NewMessage 0 0 0 0 0 0])
       = Some st
       /\ recvList st = [0; 1]
       /\ msgQueue st = []
       /\ (exists rest, recvList st = 0 :: rest)
       /\ NoDup (recvList st)
       /\ (forall u, u ∈ recvList st <-> at_ (recvFlag st) u = Some true)
       /\ at_ (recvParent st) 0 = Some 0
       /\ at_ (depth st) 0 = Some 0
       /\ forall u, u ∈ recvList st -> u <> 0 -> hangs_below st u.
Proof.
  split; [lia|].
  let r := eval vm_compute in
    (event_loop (H := no_trig) (H0 := no_noise) 8 0 three_origins nobody nobody
       NewSimulatorConfig
       (init_state (H := no_noise) 3 [[]; []; []] one_edge tt [NewMessage 0 0 0 0 0 0])) in
  match r with
  | Some ?st =>
      exists st; split; [vm_compute; reflexivity|];
      split; [vm_compute; reflexivity|];
      apply (broadcast_tree (H := no_trig) (H0 := no_noise) 8 0 3 three_origins nobody
               nobody NewSimulatorConfig [[]; []; []] one_edge tt st);
      [lia|vm_compute; reflexivity]
  end.
Defined.

(** ** The percentiles: nineteen turns *)

Lemma at_map {A B} (f : A -> B) (xs : list A) (i : Z) : at_ (map f xs) i = f <$> at_ xs i.
Proof. unfold at_. case_decide; [|done]. apply list_lookup_fmap. Qed.

Lemma percentiles_slots (nonMalNode : Z) (times : list float) (nodes : list Z) (fuel : nat) :
  forall (pct : float) (cnt : Z) (latency latency' : list float) (ps : list float),
    pct_values fuel pct = Some ps ->
    percentiles fuel pct cnt nonMalNode times nodes latency = Some latency' ->
    forall i, i < cnt \/ cnt + len ps <= i -> at_ latency' i = at_ latency i.
Proof.
  induction fuel as [|fuel IH]; intros pct cnt latency latency' ps Hps Hrun i Hi;
    cbn [percentiles pct_values] in *; destruct (PrimFloat.leb pct 1); try done;
    try (by injection Hrun as <-).
  destruct (pct_values fuel (pct + 0.05)) as [ps'|] eqn:Hps'; [|done].
  injection Hps as <-. rewrite len_cons in Hi. pose proof (len_nonneg ps') as Hl.
  destruct (at_ nodes _) as [u|]; [|done]. cbn [mbind option_bind] in Hrun.
  destruct (at_ times u) as [t|]; [|done]. cbn [mbind option_bind] in Hrun.
  unfold add_at in Hrun. destruct (at_ latency cnt) as [y|] eqn:Hy; [|done].
  cbn [mbind option_bind] in Hrun.
  rewrite (IH _ _ _ _ _ Hps' Hrun i) by lia.
  apply at_Some in Hy. apply at_set_at_ne; lia.
Qed.

Section LastSlots.
Context `{MathLib} `{RandLib} {S : Type} `{Algorithm S}.

Lemma statistics_slots n mal leave cr (result result' : TestResult) (st : SimState S) (i : Z) :
  statistics n mal leave cr result st = Some result' -> 19 <= i ->
  at_ (Latency result') i = at_ (Latency result) i.
Proof.
  unfold statistics. intros Hrun Hi.
  destruct (tally_nodes _ _ _ _ _ _) as [t|]; [|done]. cbn [mbind option_bind] in Hrun.
  destruct (match cr with Some _ => _ | None => _ end) as [[cdepth clat]|]; [|done].
  cbn [mbind option_bind] in Hrun.
  destruct (depth_stats _ _ _ _) as [[[cdf avg] depthCnt]|]; [|done].
  cbn [mbind option_bind] in Hrun.
  destruct (normalise _ _ _) as [[cdf' avg']|]; [|done]. cbn [mbind option_bind] in Hrun.
  destruct (sort_by_time _ _) as [sorted|]; [|done]. cbn [mbind option_bind] in Hrun.
  destruct (percentiles _ _ _ _ _ _ _) as [latency|] eqn:Hpct; [|done].
  cbn [mbind option_bind] in Hrun. injection Hrun as <-. cbn [Latency].
  destruct pct_values_32 as (ps & Hps & _ & Hlen).
  apply (percentiles_slots _ _ _ _ _ _ _ _ _ Hps Hpct). lia.
Qed.

(** X17.  The loop [for pct := 0.05; pct <= 1.0; pct += 0.05] runs nineteen
    times and not twenty, because the sum of twenty times [0.05] in
    [float64] is above [1.0]: no repetition writes [Latency[19]], the slot of
    the 100% percentile, nor [Latency[20]].  In the result of
    [SingleRootSimulation] both slots hold what the final loop makes of [0],
    which is [inf = 10^8] for one repetition. *)
Theorem last_percentile_is_never_measured (fuel : nat) (root reptTime : Z)
    (coords : list LatLonCoordinate) (malFlags leaveFlags : list bool)
    (a a' : S) (g g' : rng) (config : SimulatorConfig)
    (clusterResult : option ClusterResult) (result : TestResult) :
  SingleRootSimulation fuel root reptTime coords malFlags leaveFlags a g config clusterResult
  = Some (result, a', g') ->
  at_ (Latency result) 19 = Some (average_latency reptTime 0)
  /\ at_ (Latency result) 20 = Some (average_latency reptTime 0)
  /\ average_latency 1 0 = inf.
Proof.
  unfold SingleRootSimulation. intros Hrun.
  destruct (for_each _ _ _) as [[[[res success] a1] g1]|] eqn:Hloop; [|done].
  cbn [mbind option_bind] in Hrun. injection Hrun as <- _ _. cbn [Latency].
  assert (at_ (Latency res) 19 = Some 0%float /\ at_ (Latency res) 20 = Some 0%float)
    as [H19 H20].
  { apply (for_each_preserves
             (fun st : TestResult * list (list Z) * S * rng =>
                at_ (Latency st.1.1.1) 19 = Some 0%float
                /\ at_ (Latency st.1.1.1) 20 = Some 0%float) _ _ _ _ Hloop); [done|].
    clear. intros [[[r0 s0] a0] g0] rept [[[r1 s1] a1] g1] [H19 H20] Hrep.
    unfold repetition in Hrep.
    destruct (Push _ _) as [mq|]; [|done]. cbn [mbind option_bind] in Hrep.
    destruct (event_loop _ _ _ _ _ _ _) as [st|]; [|done]. cbn [mbind option_bind] in Hrep.
    destruct (statistics _ _ _ _ _ _) as [r|] eqn:Hstat; [|done].
    cbn [mbind option_bind] in Hrep. injection Hrep as <- _ _ _. cbn [fst].
    by rewrite !(statistics_slots _ _ _ _ _ _ _ _ Hstat) by lia. }
  rewrite !at_map, H19, H20. split; [reflexivity|]. split; [reflexivity|].
  vm_compute. reflexivity.
Qed.

End LastSlots.

(** The simulation of the broadcast from node 0 over a graph of three
    nodes. *)
Lemma last_percentile_is_never_measured_witness :
  exists (result : TestResult) (a' : BaseAlgorithm),
    SingleRootSimulation (H := no_trig) (H0 := no_noise) 8 0 1 three_origins nobody nobody
      one_edge tt NewSimulatorConfig None = Some (result, a', tt)
    /\ at_ (Latency result) 19 = Some (average_latency 1 0)
    /\ at_ (Latency result) 20 = Some (average_latency 1 0)
    /\ average_latency 1 0 = inf.
Proof.
  let r := eval vm_compute in
    (SingleRootSimulation (H := no_trig) (H0 := no_noise) 8 0 1 three_origins nobody nobody
       one_edge tt NewSimulatorConfig None) in
  match r with
  | Some (?res, ?a', _) =>
      exists res, a'; split; [vm_compute; reflexivity|];
      apply (last_percentile_is_never_measured (H := no_trig) (H0 := no_noise) 8 0 1
               three_origins nobody nobody one_edge a' tt tt NewSimulatorConfig None res);
      vm_compute; reflexivity
  end.
Defined.

(** ** The Geohashes and the groups of an overlay *)

Lemma hash_nodes_prefix (geoPrec : Z) (displayCoords : list LatLonCoordinate) (k : nat) :
  forall hashes bins groups,
    for_each
      (fun '(hashes, bins, groups) i =>
         c ← at_ displayCoords i;
         h ← Encode geoPrec (Lat c) (Lon c);
         Some (hashes ++ [h], bins ++ [ToBinary h],
               <[h := default [] (groups !! h) ++ [i]]> groups))
      (range 0 (Z.of_nat k)) ([], [], (∅ : gmap string (list Z)))
    = Some (hashes, bins, groups) ->
    len hashes = Z.of_nat k
    /\ Forall (fun h => valid_geohash h /\ slen h = Z.max geoPrec 0) hashes
    /\ (forall i, 0 <= i < Z.of_nat k ->
          exists c, at_ displayCoords i = Some c
                    /\ Encode geoPrec (Lat c) (Lon c) = at_ hashes i)
    /\ bins = map ToBinary hashes
    /\ forall h, default [] (groups !! h)
                 = filter (fun i => at_ hashes i = Some h) (range 0 (Z.of_nat k)).
Proof.
  induction k as [|k IH]; intros hashes bins groups Hrun.
  - cbn in Hrun. injection Hrun as <- <- <-. repeat split; try done.
    + intros i Hi. lia.
  - replace (Z.of_nat (Datatypes.S k)) with (Z.of_nat k + 1) in * by lia.
    rewrite range_snoc, for_each_app in Hrun by lia.
    destruct (for_each _ (range 0 (Z.of_nat k)) _) as [[[hs bs] gs]|] eqn:Hpre; [|done].
    cbn [mbind option_bind for_each] in Hrun.
    destruct (at_ displayCoords (Z.of_nat k)) as [c|] eqn:Hc; [|done].
    cbn [mbind option_bind] in Hrun.
    destruct (Encode_shape geoPrec (Lat c) (Lon c)) as (h & Hh & Hlen & Hvalid).
    rewrite Hh in Hrun. cbn [mbind option_bind] in Hrun. injection Hrun as <- <- <-.
    destruct (IH hs bs gs eq_refl) as (Hl & Hall & Hcs & Hbs & Hgs).
    assert (forall i h', 0 <= i < Z.of_nat k ->
              (at_ (hs ++ [h]) i = Some h' <-> at_ hs i = Some h')) as Hold.
    { intros i h' Hi. by rewrite at_app_l by lia. }
    assert (at_ (hs ++ [h]) (Z.of_nat k) = Some h) as Hnew.
    { rewrite <- Hl. apply (at_middle hs [] h). }
    split; [rewrite len_app, Hl; unfold len; cbn; lia|].
    split; [apply Forall_app; split; [done|]; by apply Forall_singleton|].
    split.
    { intros i Hi. destruct (decide (i = Z.of_nat k)) as [->|Hne].
      - exists c. by rewrite Hnew.
      - destruct (Hcs i) as (c' & Hc' & He); [lia|]. exists c'.
        split; [done|]. rewrite He. symmetry. apply at_app_l. lia. }
    split; [by rewrite map_app, Hbs|].
    intros h'. rewrite range_snoc, filter_app by lia.
    rewrite (filter_ext_Forall (fun i => at_ (hs ++ [h]) i = Some h')
               (fun i => at_ hs i = Some h') (range 0 (Z.of_nat k))).
    2:{ apply Forall_forall. intros i Hi%elem_of_range. by apply Hold. }
    rewrite <- Hgs. destruct (decide (h' = h)) as [->|Hne].
    + rewrite lookup_insert_eq. cbn [default]. f_equal.
      by rewrite filter_cons_True, filter_nil by done.
    + rewrite lookup_insert_ne by done.
      rewrite filter_cons_False, filter_nil by (rewrite Hnew; congruence).
      by rewrite app_nil_r.
Qed.

(** X18.  The first loop of [fillKBuckets].  Every node gets the Geohash of
    its display coordinates, a string of [GeoPrec] characters of the
    alphabet, and the binary form of it; and [GeohashGroups] maps a Geohash
    to the nodes that have it, in ascending order: the groups split the
    nodes. *)
Theorem hash_nodes_spec (geoPrec n : Z) (displayCoords : list LatLonCoordinate)
    (hashes bins : list string) (groups : gmap string (list Z)) :
  hash_nodes geoPrec n displayCoords = Some (hashes, bins, groups) ->
  len hashes = Z.max n 0
  /\ Forall (fun h => valid_geohash h /\ slen h = Z.max geoPrec 0) hashes
  /\ (forall i, 0 <= i < n ->
        exists c, at_ displayCoords i = Some c
                  /\ Encode geoPrec (Lat c) (Lon c) = at_ hashes i)
  /\ bins = map ToBinary hashes
  /\ forall h, default [] (groups !! h)
               = filter (fun i => at_ hashes i = Some h) (range 0 n).
Proof.
  unfold hash_nodes. intros Hrun.
  assert (range 0 n = range 0 (Z.of_nat (Z.to_nat n))) as Hr.
  { unfold range. f_equal. f_equal. lia. }
  rewrite Hr in Hrun |- *.
  destruct (hash_nodes_prefix _ _ _ _ _ _ Hrun) as (Hl & Hall & Hcs & Hbs & Hgs).
  split; [lia|]. split; [done|]. split; [|done].
  intros i Hi. apply Hcs. lia.
Qed.

(** Three nodes in three cells. *)
Lemma hash_nodes_spec_witness :
  exists hashes bins groups,
    hash_nodes 2 3 three_places = Some (hashes, bins, groups)
    /\ len hashes = Z.max 3 0
    /\ Forall (fun h => valid_geohash h /\ slen h = Z.max 2 0) hashes
    /\ (forall i, 0 <= i < 3 ->
          exists c, at_ three_places i = Some c
                    /\ Encode 2 (Lat c) (Lon c) = at_ hashes i)
    /\ bins = map ToBinary hashes
    /\ forall h, default [] (groups !! h)
                 = filter (fun i => at_ hashes i = Some h) (range 0 3).
Proof.
  let r := eval vm_compute in (hash_nodes 2 3 three_places) in
  match r with
  | Some (?hs, ?bs, ?gs) =>
      exists hs, bs, gs; split; [vm_compute; reflexivity|];
      apply (hash_nodes_spec 2 3 three_places hs bs gs); vm_compute; reflexivity
  end.
Defined.

(** ** [Clamp] *)

Lemma is_nan_true (x : float) : is_nan x = true -> Prim2SF x = S754_nan.
Proof.
  destruct (is_nan x) eqn:E; [|done]. intros _.
  destruct (Prim2SF x) eqn:Ex; try done; exfalso;
    (assert (is_nan x = false) as Hn by (apply is_nan_false; congruence)); congruence.
Qed.

Lemma flt_nan_l (x y : float) : is_nan x = true -> PrimFloat.ltb x y = false.
Proof. intros Hx%is_nan_true. by rewrite FloatAxioms.ltb_spec, Hx. Qed.

Lemma flt_nan_r (x y : float) : is_nan y = true -> PrimFloat.ltb x y = false.
Proof.
  intros Hy%is_nan_true. rewrite FloatAxioms.ltb_spec, Hy.
  unfold SFltb, SFcompare. by destruct (Prim2SF x) as [| | |[] ? ?].
Qed.

(** X19.  For bounds [min <= max], [Clamp] returns a number between them for
    every number [val], and [val] itself when it lies between them; but it
    does not clamp a NaN: both comparisons fail and the NaN is returned. *)
Theorem Clamp_range (val min max : float) :
  PrimFloat.leb min max = true ->
  if is_nan val then Clamp val min max = val
  else PrimFloat.leb min (Clamp val min max) = true
       /\ PrimFloat.leb (Clamp val min max) max = true
       /\ (Clamp val min max = val
           <-> PrimFloat.leb min val = true /\ PrimFloat.leb val max = true).
Proof.
  intros Hmm. destruct (fle_not_nan _ _ Hmm) as [Hmin Hmax].
  unfold Clamp, fgt. destruct (is_nan val) eqn:Hval.
  - by rewrite flt_nan_l, flt_nan_r.
  - destruct (PrimFloat.ltb val min) eqn:Hlo.
    + split; [by apply fle_total, flt_irrefl|]. split; [done|].
      pose proof (flt_not_ge _ _ Hlo) as Hge. split.
      * intros <-. by rewrite flt_irrefl in Hlo.
      * intros [? _]. congruence.
    + apply (fle_total _ _ Hval Hmin) in Hlo.
      destruct (PrimFloat.ltb max val) eqn:Hhi.
      * split; [done|]. split; [by apply fle_total, flt_irrefl|].
        pose proof (flt_not_ge _ _ Hhi) as Hge. split.
        -- intros <-. by rewrite flt_irrefl in Hhi.
        -- intros [_ ?]. congruence.
      * apply (fle_total _ _ Hmax Hval) in Hhi. by repeat split.
Qed.

Lemma Clamp_range_witness :
  PrimFloat.leb 0 100 = true
  /\ if is_nan 150 then Clamp 150 0 100 = 150%float
     else PrimFloat.leb 0 (Clamp 150 0 100) = true
          /\ PrimFloat.leb (Clamp 150 0 100) 100 = true
          /\ (Clamp 150 0 100 = 150%float
              <-> PrimFloat.leb 0 150 = true /\ PrimFloat.leb 150 100 = true).
Proof. split; [reflexivity|]. apply (Clamp_range 150 0 100). reflexivity. Defined.

(** ** The graph of an overlay: an edge for every entry of a bucket *)

Lemma AddEdge_edges g u v g' b :
  Graph.AddEdge g u v = Some (g', b) ->
  (forall a c, Graph.edge g' a c <-> Graph.edge g a c \/ (a = u /\ a <> c /\ c = v))
  /\ Graph.M g' = Graph.M g + (if b then 1 else 0)
  /\ Graph.N g' = Graph.N g.
Proof.
  intros Hadd.
  apply AddEdge_cases in Hadd
    as [(-> & -> & Hold)|(-> & Hne & Hnew & outU & inV & HoutU & HinV & ->)].
  - split; [|split; [lia|done]]. intros a c. split; [tauto|].
    intros [?|(-> & Hac & ->)]; [done|]. by destruct Hold.
  - split; [|done].
    match goal with |- context [Graph.edge ?x _ _] => set (g' := x) end.
    pose proof (edge_set_at g g' u outU (outU ++ [v]) HoutU eq_refl) as He.
    intros a c. rewrite He. case_decide as Ha.
    + subst a. rewrite elem_of_app, list_elem_of_singleton, (edge_elem_of g u outU c HoutU).
      split; [intros [?| ->]; [by left|right; done]|]. intros [?|(_ & _ & ->)]; tauto.
    + tauto.
Qed.

Lemma connect_bucket_spec (u : Z) (bkt : list Z) : forall g cnt g' cnt',
  for_each
    (fun '(g, edges) neighbor =>
       '(g', added) ← Graph.AddEdge g u neighbor;
       Some (g', if (added : bool) then edges + 1 else edges))
    bkt (g, cnt) = Some (g', cnt') ->
  (forall a c, Graph.edge g' a c <-> Graph.edge g a c \/ (a = u /\ a <> c /\ c ∈ bkt))
  /\ cnt' - cnt = Graph.M g' - Graph.M g /\ Graph.N g' = Graph.N g.
Proof.
  induction bkt as [|v vs IH]; intros g cnt g' cnt' Hrun; cbn [for_each] in Hrun.
  - injection Hrun as <- <-. split; [|split; [lia|done]]. intros a c. split; [tauto|].
    intros [?|(_ & _ & Hc)]; [done|]. by apply not_elem_of_nil in Hc.
  - destruct (Graph.AddEdge g u v) as [[g1 b]|] eqn:Hadd; [|done].
    cbn [mbind option_bind] in Hrun.
    destruct (AddEdge_edges _ _ _ _ _ Hadd) as (He1 & HM1 & HN1).
    destruct (IH _ _ _ _ Hrun) as (He & HM & HN).
    split; [|split; [destruct b; lia|congruence]].
    intros a c. rewrite He, He1, elem_of_cons. split.
    + intros [[?|(? & ? & ->)]|(? & ? & ?)]; tauto.
    + intros [?|(? & ? & [->|?])]; tauto.
Qed.

Lemma connect_row_spec (u : Z) (row : list (list Z)) : forall g cnt g' cnt',
  for_each
    (fun st bkt =>
       for_each
         (fun '(g, edges) neighbor =>
            '(g', added) ← Graph.AddEdge g u neighbor;
            Some (g', if (added : bool) then edges + 1 else edges))
         bkt st)
    row (g, cnt) = Some (g', cnt') ->
  (forall a c, Graph.edge g' a c
               <-> Graph.edge g a c \/ (a = u /\ a <> c /\ exists bkt, bkt ∈ row /\ c ∈ bkt))
  /\ cnt' - cnt = Graph.M g' - Graph.M g /\ Graph.N g' = Graph.N g.
Proof.
  induction row as [|bkt row IH]; intros g cnt g' cnt' Hrun; cbn [for_each] in Hrun.
  - injection Hrun as <- <-. split; [|split; [lia|done]]. intros a c. split; [tauto|].
    intros [?|(_ & _ & bkt & Hb & _)]; [done|]. by apply not_elem_of_nil in Hb.
  - destruct (for_each _ bkt (g, cnt)) as [[g1 cnt1]|] eqn:Hbkt; [|done].
    cbn [mbind option_bind] in Hrun.
    destruct (connect_bucket_spec _ _ _ _ _ _ Hbkt) as (He1 & HM1 & HN1).
    destruct (IH _ _ _ _ Hrun) as (He & HM & HN).
    split; [|split; [lia|congruence]].
    intros a c. rewrite He, He1. split.
    + intros [[?|(? & ? & ?)]|(? & ? & b & ? & ?)]; [tauto| |].
      * right. repeat split; [done..|]. exists bkt. split; [apply list_elem_of_here|done].
      * right. repeat split; [done..|]. exists b. split; [by apply list_elem_of_further|done].
    + intros [?|(? & ? & b & [->|?]%elem_of_cons & ?)]; [tauto|tauto|].
      right. repeat split; [done..|]. by exists b.
Qed.

Lemma connect_nodes_spec (kBuckets : KBucketTable) (nodes : list Z) : forall g cnt g' cnt',
  for_each
    (fun st i =>
       row ← at_ kBuckets i;
       for_each
         (fun st bkt =>
            for_each
              (fun '(g, edges) neighbor =>
                 '(g', added) ← Graph.AddEdge g i neighbor;
                 Some (g', if (added : bool) then edges + 1 else edges))
              bkt st)
         row st)
    nodes (g, cnt) = Some (g', cnt') ->
  (forall a c, Graph.edge g' a c
               <-> Graph.edge g a c \/ (a ∈ nodes /\ a <> c /\ in_buckets kBuckets a c))
  /\ cnt' - cnt = Graph.M g' - Graph.M g /\ Graph.N g' = Graph.N g.
Proof.
  induction nodes as [|i nodes IH]; intros g cnt g' cnt' Hrun; cbn [for_each] in Hrun.
  - injection Hrun as <- <-. split; [|split; [lia|done]]. intros a c. split; [tauto|].
    intros [?|(Ha & _)]; [done|]. by apply not_elem_of_nil in Ha.
  - destruct (at_ kBuckets i) as [row|] eqn:Hrow; [|done]. cbn [mbind option_bind] in Hrun.
    destruct (for_each _ row (g, cnt)) as [[g1 cnt1]|] eqn:Hfirst; [|done].
    cbn [mbind option_bind] in Hrun.
    destruct (connect_row_spec _ _ _ _ _ _ Hfirst) as (He1 & HM1 & HN1).
    destruct (IH _ _ _ _ Hrun) as (He & HM & HN).
    split; [|split; [lia|congruence]].
    intros a c. rewrite He, He1, elem_of_cons. unfold in_buckets. split.
    + intros [[?|(-> & ? & bkt & ? & ?)]|(? & ? & ?)]; [tauto| |tauto].
      right. split; [by left|]. split; [done|]. by exists row, bkt.
    + intros [?|([->|?] & ? & r & bkt & Hr & ? & ?)]; [tauto| |].
      * left. right. repeat split; [done|]. exists bkt. split; [congruence|done].
      * right. split; [done|]. split; [done|]. by exists r, bkt.
Qed.

(** X20.  The last loop of [fillKBuckets].  When it returns, the graph has the
    edges it had and an edge from every node below [n] to every other node
    that stands in one of its buckets, and no others; the number it returns
    is the number of edges the graph has gained. *)
Theorem connect_buckets_spec (kBuckets : KBucketTable) (n : Z) (g g' : Graph.t)
    (edges : Z) :
  connect_buckets kBuckets n g = Some (g', edges) ->
  (forall a c, Graph.edge g' a c
               <-> Graph.edge g a c \/ (0 <= a < n /\ a <> c /\ in_buckets kBuckets a c))
  /\ edges = Graph.M g' - Graph.M g
  /\ Graph.N g' = Graph.N g.
Proof.
  unfold connect_buckets. intros Hrun.
  destruct (connect_nodes_spec _ _ _ _ _ _ Hrun) as (He & HM & HN).
  split; [|split; [lia|done]]. intros a c. rewrite He, elem_of_range. tauto.
Qed.

(** Two nodes whose buckets hold each other, and node 0 itself and node 1
    twice. *)
Lemma connect_buckets_spec_witness :
  exists g g',
    Graph.NewGraph 2 = Some g
    /\ connect_buckets [[[0; 1]; [1]]; [[0]]] 2 g = Some (g', 2)
    /\ (forall a c, Graph.edge g' a c
                    <-> Graph.edge g a c
                        \/ (0 <= a < 2 /\ a <> c /\ in_buckets [[[0; 1]; [1]]; [[0]]] a c))
    /\ 2 = Graph.M g' - Graph.M g
    /\ Graph.N g' = Graph.N g.
Proof.
  exists (Graph.mk 2 0 [[]; []] [[]; []]), (Graph.mk 2 2 [[1]; [0]] [[1]; [0]]).
  split; [reflexivity|]. split; [reflexivity|].
  apply (connect_buckets_spec [[[0; 1]; [1]]; [[0]]] 2). reflexivity.
Defined.

(** ** Bucket 0: the other nodes of the group *)

Lemma append_to_spec (kb : KBucketTable) (i b x : Z) (kb' : KBucketTable) :
  append_to kb i b x = Some kb' ->
  forall r b' y, in_bucket kb' r b' y <-> in_bucket kb r b' y \/ (r = i /\ b' = b /\ y = x).
Proof.
  unfold append_to. intros Hrun r b' y.
  destruct (at_ kb i) as [row|] eqn:Hrow; [|done]. cbn [mbind option_bind] in Hrun.
  destruct (at_ row b) as [bkt|] eqn:Hbkt; [|done]. cbn [mbind option_bind] in Hrun.
  injection Hrun as <-. apply at_Some in Hrow as Hi. apply at_Some in Hbkt as Hb.
  unfold in_bucket. rewrite (at_set_at kb) by done.
  destruct (decide (r = i)) as [->|Hne].
  - split.
    + intros (row' & bkt' & [= <-] & Hb' & Hy). rewrite at_set_at in Hb' by done.
      destruct (decide (b' = b)) as [->|Hnb].
      * injection Hb' as <-. apply elem_of_app in Hy as [Hy|Hy%list_elem_of_singleton].
        -- left. by exists row, bkt.
        -- by right.
      * left. by exists row, bkt'.
    + intros [(row' & bkt' & Hr' & Hb' & Hy)|(_ & -> & ->)].
      * assert (row' = row) as -> by congruence.
        eexists _, (if decide (b' = b) then bkt ++ [x] else bkt').
        split; [done|]. rewrite at_set_at by done.
        destruct (decide (b' = b)) as [->|]; [|done]. split; [done|].
        apply elem_of_app. left. congruence.
      * eexists _, (bkt ++ [x]). split; [done|]. rewrite at_set_at_eq by done.
        split; [done|]. apply elem_of_app. right. apply list_elem_of_here.
  - split; [by left|]. intros [?|(? & _)]; [done|congruence].
Qed.

Lemma k0_inner_spec (group : list Z) (i : Z) (js : list Z) : forall kb pc kb' pc',
  for_each
    (fun '(kb, pairCount) j =>
       if i =? j then Some (kb, pairCount)
       else
         gi ← at_ group i;
         gj ← at_ group j;
         kb' ← append_to kb gi 0 gj;
         Some (kb', pairCount + 1))
    js (kb, pc) = Some (kb', pc') ->
  forall r b x,
    in_bucket kb' r b x
    <-> in_bucket kb r b x
        \/ (b = 0 /\ exists j, j ∈ js /\ i <> j /\ at_ group i = Some r /\ at_ group j = Some x).
Proof.
  induction js as [|j js IH]; intros kb pc kb' pc' Hrun r b x; cbn [for_each] in Hrun.
  - injection Hrun as <- <-. split; [tauto|]. intros [?|(_ & j & Hj & _)]; [done|].
    by apply not_elem_of_nil in Hj.
  - destruct (Z.eqb_spec i j) as [->|Hij].
    + cbn [mbind option_bind] in Hrun. rewrite (IH _ _ _ _ Hrun). split.
      * intros [?|(? & j' & ? & ? & ?)]; [tauto|]. right. split; [done|]. exists j'.
        split; [by apply list_elem_of_further|done].
      * intros [?|(? & j' & [->|?]%elem_of_cons & ? & ?)]; [tauto|done|].
        right. split; [done|]. by exists j'.
    + destruct (at_ group i) as [gi|] eqn:Hgi; [|done]. cbn [mbind option_bind] in Hrun.
      destruct (at_ group j) as [gj|] eqn:Hgj; [|done]. cbn [mbind option_bind] in Hrun.
      destruct (append_to kb gi 0 gj) as [kb1|] eqn:Happ; [|done].
      cbn [mbind option_bind] in Hrun.
      rewrite (IH _ _ _ _ Hrun), (append_to_spec _ _ _ _ _ Happ). split.
      * intros [[?|(-> & -> & ->)]|(? & j' & ? & ? & ?)]; [tauto| |].
        -- right. split; [done|]. exists j. split; [apply list_elem_of_here|done].
        -- right. split; [done|]. exists j'. split; [by apply list_elem_of_further|done].
      * intros [?|(-> & j' & [->|?]%elem_of_cons & ? & Hr & Hx)]; [tauto| |].
        -- left. right. split; [congruence|]. split; [done|congruence].
        -- right. split; [done|]. by exists j'.
Qed.

Lemma k0_group_spec (group : list Z) (places : list Z) : forall kb pc kb' pc',
  for_each
    (fun st i =>
       for_each
         (fun '(kb, pairCount) j =>
            if i =? j then Some (kb, pairCount)
            else
              gi ← at_ group i;
              gj ← at_ group j;
              kb' ← append_to kb gi 0 gj;
              Some (kb', pairCount + 1))
         (range 0 (len group)) st)
    places (kb, pc) = Some (kb', pc') ->
  forall r b x,
    in_bucket kb' r b x
    <-> in_bucket kb r b x
        \/ (b = 0 /\ exists i j, i ∈ places /\ i <> j
                                 /\ at_ group i = Some r /\ at_ group j = Some x).
Proof.
  induction places as [|i places IH]; intros kb pc kb' pc' Hrun r b x; cbn [for_each] in Hrun.
  - injection Hrun as <- <-. split; [tauto|]. intros [?|(_ & i & j & Hi & _)]; [done|].
    by apply not_elem_of_nil in Hi.
  - destruct (for_each _ (range 0 (len group)) (kb, pc)) as [[kb1 pc1]|] eqn:Hin; [|done].
    cbn [mbind option_bind] in Hrun.
    rewrite (IH _ _ _ _ Hrun), (k0_inner_spec _ _ _ _ _ _ _ Hin). split.
    + intros [[?|(? & j & ? & ? & ? & ?)]|(? & i' & j & ? & ?)]; [tauto| |].
      * right. split; [done|]. exists i, j. split; [apply list_elem_of_here|done].
      * right. split; [done|]. exists i', j. split; [by apply list_elem_of_further|done].
    + intros [?|(? & i' & j & [->|?]%elem_of_cons & ? & ? & Hx)]; [tauto| |].
      * left. right. split; [done|]. exists j. split; [|done].
        apply at_Some in Hx. by apply elem_of_range.
      * right. split; [done|]. by exists i', j.
Qed.

Lemma k0_groups_spec (gs : list (string * list Z)) : forall kb pc kb' pc',
  for_each
    (fun st (g : string * list Z) =>
       let group := g.2 in
       if 1 <? len group then
         for_each
           (fun st i =>
              for_each
                (fun '(kb, pairCount) j =>
                   if i =? j then Some (kb, pairCount)
                   else
                     gi ← at_ group i;
                     gj ← at_ group j;
                     kb' ← append_to kb gi 0 gj;
                     Some (kb', pairCount + 1))
                (range 0 (len group)) st)
           (range 0 (len group)) st
       else Some st)
    gs (kb, pc) = Some (kb', pc') ->
  forall r b x,
    in_bucket kb' r b x
    <-> in_bucket kb r b x
        \/ (b = 0 /\ exists g i j, g ∈ gs /\ i <> j
                                   /\ at_ g.2 i = Some r /\ at_ g.2 j = Some x).
Proof.
  induction gs as [|g gs IH]; intros kb pc kb' pc' Hrun r b x; cbn [for_each] in Hrun.
  - injection Hrun as <- <-. split; [tauto|]. intros [?|(_ & g & i & j & Hg & _)]; [done|].
    by apply not_elem_of_nil in Hg.
  - destruct (Z.ltb_spec 1 (len g.2)) as [Hlen|Hlen].
    + destruct (for_each _ (range 0 (len g.2)) (kb, pc)) as [[kb1 pc1]|] eqn:Hin; [|done].
      cbn [mbind option_bind] in Hrun.
      rewrite (IH _ _ _ _ Hrun), (k0_group_spec _ _ _ _ _ _ Hin). split.
      * intros [[?|(? & i & j & ? & ?)]|(? & g' & i & j & ? & ?)]; [tauto| |].
        -- right. split; [done|]. exists g, i, j. split; [apply list_elem_of_here|done].
        -- right. split; [done|]. exists g', i, j.
           split; [by apply list_elem_of_further|done].
      * intros [?|(? & g' & i & j & [->|?]%elem_of_cons & ? & Hr & ?)]; [tauto| |].
        -- left. right. split; [done|]. exists i, j. split; [|done].
           apply at_Some in Hr. by apply elem_of_range.
        -- right. split; [done|]. by exists g', i, j.
    + cbn [mbind option_bind] in Hrun. rewrite (IH _ _ _ _ Hrun). split.
      * intros [?|(? & g' & i & j & ? & ?)]; [tauto|]. right. split; [done|].
        exists g', i, j. split; [by apply list_elem_of_further|done].
      * intros [?|(? & g' & i & j & [->|?]%elem_of_cons & ? & Hr & Hx)]; [tauto| |].
        -- apply at_Some in Hr, Hx. lia.
        -- right. split; [done|]. by exists g', i, j.
Qed.

(** X21.  [FillK0Bucket] adds to bucket 0 of a node the nodes that stand at
    another place of a group the node stands in, and nothing else; the
    other buckets keep what they hold.  With groups that hold no node twice,
    as [fillKBuckets] makes them, a node gets the other nodes of its
    Geohash and never itself. *)
Theorem FillK0Bucket_spec (kBuckets : KBucketTable) (geohashGroups : gmap string (list Z))
    (kBuckets' : KBucketTable) (pairCount : Z) :
  FillK0Bucket kBuckets geohashGroups = Some (kBuckets', pairCount) ->
  forall r b x,
    in_bucket kBuckets' r b x
    <-> in_bucket kBuckets r b x
        \/ (b = 0 /\ exists h group i j,
                       geohashGroups !! h = Some group /\ i <> j
                       /\ at_ group i = Some r /\ at_ group j = Some x).
Proof.
  unfold FillK0Bucket. intros Hrun r b x. rewrite (k0_groups_spec _ _ _ _ _ Hrun). split.
  - intros [?|(? & [h g] & i & j & Hg%elem_of_map_to_list & ?)]; [tauto|].
    right. split; [done|]. by exists h, g, i, j.
  - intros [?|(? & h & g & i & j & Hg%elem_of_map_to_list & ?)]; [tauto|].
    right. split; [done|]. by exists (h, g), i, j.
Qed.

(** A group of three nodes: six entries, two in bucket 0 of each node. *)
Lemma FillK0Bucket_spec_witness :
  exists kBuckets',
    FillK0Bucket [[[]; []]; [[]; []]; [[]; []]] {[ "s0"%string := [0; 1; 2] ]}
    = Some (kBuckets', 6)
    /\ at_ kBuckets' 1 = Some [[0; 2]; []]
    /\ forall r b x,
         in_bucket kBuckets' r b x
         <-> in_bucket [[[]; []]; [[]; []]; [[]; []]] r b x
             \/ (b = 0 /\ exists h group i j,
                            ({[ "s0"%string := [0; 1; 2] ]} : gmap string (list Z)) !! h
                            = Some group
                            /\ i <> j /\ at_ group i = Some r /\ at_ group j = Some x).
Proof.
  let r := eval vm_compute in
    (FillK0Bucket [[[]; []]; [[]; []]; [[]; []]] {[ "s0"%string := [0; 1; 2] ]}) in
  match r with
  | Some (?kb, _) =>
      exists kb; split; [vm_compute; reflexivity|]; split; [reflexivity|];
      apply (FillK0Bucket_spec [[[]; []]; [[]; []]; [[]; []]]
               {[ "s0"%string := [0; 1; 2] ]} kb 6);
      vm_compute; reflexivity
  end.
Defined.

(** ** Selection: [NthElement] *)

Lemma swap_at_spec {A} (xs : list A) i j a b :
  at_ xs i = Some a -> at_ xs j = Some b ->
  exists xs',
    swap_at xs i j = Some xs' /\ xs' ≡ₚ xs /\ len xs' = len xs
    /\ forall k, at_ xs' k
                 = if decide (k = j) then Some a
                   else if decide (k = i) then Some b else at_ xs k.
Proof.
  intros Ha Hb. unfold swap_at. rewrite Ha, Hb. cbn [mbind option_bind].
  eexists. split; [done|]. apply at_Some in Ha as Hi. apply at_Some in Hb as Hj.
  split; [|split].
  - unfold set_at, at_ in *. repeat case_decide; try done.
    by apply Permutation_insert_swap.
  - by rewrite !len_set_at.
  - intros k. rewrite at_set_at by (by rewrite len_set_at).
    case_decide; [done|]. by rewrite at_set_at by done.
Qed.

Lemma fnot_le_lt (x y : float) :
  is_nan x = false -> is_nan y = false ->
  PrimFloat.leb y x = false -> PrimFloat.ltb x y = true.
Proof.
  intros Hx Hy Hle. destruct (PrimFloat.ltb x y) eqn:Hlt; [done|].
  apply (fle_total _ _ Hx Hy) in Hlt. congruence.
Qed.

Lemma partition_loop (s : list float) (left right : Z) (pivot : float) (k : nat) :
  0 <= left -> left + Z.of_nat k <= right -> right < len s ->
  exists sk i,
    for_each
      (fun '(slice, i) j =>
         x ← at_ slice j;
         if PrimFloat.leb x pivot then
           slice ← swap_at slice i j;
           Some (slice, i + 1)
         else Some (slice, i))
      (range left (left + Z.of_nat k)) (s, left) = Some (sk, i)
    /\ left <= i <= left + Z.of_nat k
    /\ sk ≡ₚ s /\ len sk = len s
    /\ (forall a, a < left \/ left + Z.of_nat k <= a -> at_ sk a = at_ s a)
    /\ (forall a y, left <= a < i -> at_ sk a = Some y -> PrimFloat.leb y pivot = true)
    /\ (forall b y, i <= b < left + Z.of_nat k -> at_ sk b = Some y ->
                    PrimFloat.leb y pivot = false)
    /\ (forall a, left <= a < left + Z.of_nat k ->
                  exists a', left <= a' < left + Z.of_nat k /\ at_ sk a = at_ s a').
Proof.
  intros Hleft. induction k as [|k IH]; intros Hk Hright.
  - exists s, left. rewrite Z.add_0_r, range_nil by lia. repeat split; try done; try lia.
  - destruct IH as (sk & i & Hrun & Hi & Hperm & Hlen & Hout & Hlow & Hhigh & Horig);
      [lia|lia|].
    replace (left + Z.of_nat (Datatypes.S k)) with (left + Z.of_nat k + 1) by lia.
    rewrite range_snoc, for_each_app, Hrun by lia. cbn [mbind option_bind for_each].
    set (j := left + Z.of_nat k) in *.
    destruct (at_lt sk j) as [x Hx]; [lia|]. rewrite Hx. cbn [mbind option_bind].
    assert (at_ s j = Some x) as Hxj by (rewrite <- Hout; [done|lia]).
    destruct (PrimFloat.leb x pivot) eqn:Hle.
    + destruct (at_lt sk i) as [yi Hyi]; [lia|].
      destruct (swap_at_spec sk i j yi x Hyi Hx) as (s' & -> & Hp' & Hl' & Hat').
      cbn [mbind option_bind]. exists s', (i + 1).
      split; [done|]. split; [lia|]. split; [by rewrite Hp'|]. split; [lia|].
      split; [|split; [|split]].
      * intros a Ha. rewrite Hat', !decide_False by lia. apply Hout. lia.
      * intros a y Ha. rewrite Hat'. destruct (decide (a = j)) as [->|Haj].
        -- assert (i = j) as Hij by lia. rewrite Hij in Hyi. congruence.
        -- destruct (decide (a = i)) as [->|Hai]; [congruence|].
           apply Hlow. lia.
      * intros b y Hb. rewrite Hat'. destruct (decide (b = j)) as [->|Hbj].
        -- intros [= <-]. apply (Hhigh i); [lia|done].
        -- rewrite decide_False by lia. apply Hhigh. lia.
      * intros a Ha. rewrite Hat'. destruct (decide (a = j)) as [->|Haj].
        -- destruct (decide (i = j)) as [Hij|Hij].
           ++ exists j. split; [lia|]. rewrite Hxj. rewrite Hij in Hyi. congruence.
           ++ destruct (Horig i) as (a' & Ha' & He); [lia|]. exists a'.
              split; [lia|]. by rewrite <- He.
        -- destruct (decide (a = i)) as [->|Hai].
           ++ exists j. split; [lia|done].
           ++ destruct (Horig a) as (a' & Ha' & He); [lia|]. exists a'. split; [lia|done].
    + exists sk, i. split; [done|]. split; [lia|]. split; [done|]. split; [done|].
      split; [|split; [|split]].
      * intros a Ha. apply Hout. lia.
      * done.
      * intros b y Hb Hy. destruct (decide (b = j)) as [->|Hbj]; [congruence|].
        apply (Hhigh b); [lia|done].
      * intros a Ha. destruct (decide (a = j)) as [->|Haj].
        -- exists j. split; [lia|]. by rewrite Hx.
        -- destruct (Horig a) as (a' & Ha' & He); [lia|]. exists a'. split; [lia|done].
Qed.

(** [partition] puts the pivot between what does not exceed it and what
    does. *)
Lemma partition_spec (s : list float) (left right : Z) :
  0 <= left -> left <= right -> right < len s ->
  exists s' p pivot,
    partition s left right = Some (s', p) /\ at_ s right = Some pivot
    /\ left <= p <= right /\ rearranged s s' left right
    /\ at_ s' p = Some pivot
    /\ (forall a y, left <= a < p -> at_ s' a = Some y -> PrimFloat.leb y pivot = true)
    /\ (forall b y, p < b <= right -> at_ s' b = Some y -> PrimFloat.leb y pivot = false).
Proof.
  intros Hleft Hlr Hright. unfold partition.
  destruct (at_lt s right) as [pivot Hpivot]; [lia|]. rewrite Hpivot.
  cbn [mbind option_bind].
  destruct (partition_loop s left right pivot (Z.to_nat (right - left)))
    as (sk & i & Hrun & Hi & Hperm & Hlen & Hout & Hlow & Hhigh & Horig); [lia..|].
  replace (left + Z.of_nat (Z.to_nat (right - left))) with right in * by lia.
  rewrite Hrun. cbn [mbind option_bind].
  assert (at_ sk right = Some pivot) as Hpk by (rewrite Hout; [done|lia]).
  destruct (at_lt sk i) as [yi Hyi]; [lia|].
  destruct (swap_at_spec sk i right yi pivot Hyi Hpk) as (s' & -> & Hp' & Hl' & Hat').
  cbn [mbind option_bind]. exists s', i, pivot.
  split; [done|]. split; [done|]. split; [lia|]. split; [|split; [|split]].
  - split; [by rewrite Hp'|]. split.
    + intros a Ha. rewrite Hat', !decide_False by lia. apply Hout. lia.
    + intros a Ha. rewrite Hat'. destruct (decide (a = right)) as [->|Har].
      * destruct (decide (i = right)) as [Hir|Hir].
        -- exists right. split; [lia|]. rewrite Hir in Hyi. congruence.
        -- destruct (Horig i) as (a' & Ha' & He); [lia|]. exists a'.
           split; [lia|]. by rewrite <- He.
      * destruct (decide (a = i)) as [->|Hai].
        -- exists right. split; [lia|done].
        -- destruct (Horig a) as (a' & Ha' & He); [lia|]. exists a'. split; [lia|done].
  - rewrite Hat'. destruct (decide (i = right)) as [Hir|Hir]; [|by rewrite decide_True].
    rewrite Hir in Hyi. congruence.
  - intros a y Ha. rewrite Hat', !decide_False by lia. apply Hlow. lia.
  - intros b y Hb. rewrite Hat'. destruct (decide (b = right)) as [->|Hbr].
    + intros [= <-]. apply (Hhigh i); [lia|done].
    + rewrite decide_False by lia. apply Hhigh. lia.
Qed.

Lemma rearranged_refl (xs : list float) (lo hi : Z) : rearranged xs xs lo hi.
Proof. split; [done|]. split; [done|]. intros a Ha. by exists a. Qed.

Lemma rearranged_trans (xs ys zs : list float) (lo hi lo' hi' : Z) :
  lo <= lo' -> hi' <= hi ->
  rearranged xs ys lo hi -> rearranged ys zs lo' hi' -> rearranged xs zs lo hi.
Proof.
  intros Hlo Hhi (Hp1 & Ho1 & Hi1) (Hp2 & Ho2 & Hi2).
  split; [by rewrite Hp2|]. split.
  - intros a Ha. rewrite Ho2 by lia. apply Ho1. lia.
  - intros a Ha. destruct (decide (lo' <= a <= hi')) as [Hin|Hout].
    + destruct (Hi2 a Hin) as (a' & Ha' & ->). apply Hi1. lia.
    + rewrite Ho2 by lia. by apply Hi1.
Qed.

Lemma quickSelect_spec (fuel : nat) :
  forall (s : list float) (left right k : Z),
    0 <= left -> right < len s -> left <= k <= right -> right - left <= Z.of_nat fuel ->
    exists s',
      quickSelect fuel s left right k = Some s' /\ rearranged s s' left right
      /\ (Forall (fun x => is_nan x = false) s -> selected s' left right k).
Proof.
  induction fuel as [|fuel IH]; intros s left right k Hleft Hright Hk Hfuel;
    cbn [quickSelect].
  - destruct (Z.leb_spec right left); [|lia]. assert (left = k /\ right = k) as [-> ->] by lia.
    exists s. split; [done|]. split; [apply rearranged_refl|]. intros _.
    destruct (at_lt s k) as [x Hx]; [lia|]. exists x. split; [done|]. split; intros; lia.
  - destruct (Z.leb_spec right left).
    { assert (left = k /\ right = k) as [-> ->] by lia.
      exists s. split; [done|]. split; [apply rearranged_refl|]. intros _.
      destruct (at_lt s k) as [x Hx]; [lia|]. exists x. split; [done|]. split; intros; lia. }
    destruct (partition_spec s left right) as
      (s1 & p & pivot & -> & Hpivot & Hp & Hre & Hsp & Hlow & Hhigh); [lia..|].
    cbn [mbind option_bind].
    assert (len s1 = len s) as Hl1.
    { destruct Hre as (Hperm & _). unfold len. by rewrite Hperm. }
    assert (Forall (fun x => is_nan x = false) s ->
            Forall (fun x => is_nan x = false) s1) as Hnan1.
    { destruct Hre as (Hperm & _). by rewrite Hperm. }
    assert (forall xs a x, Forall (fun x => is_nan x = false) xs -> at_ xs a = Some x ->
                           is_nan x = false) as Hnn.
    { intros xs a x Hall Ha. unfold at_ in Ha. case_decide; [|done].
      by apply (Forall_lookup_1 _ _ _ _ Hall Ha). }
    destruct (Z.eqb_spec p k) as [->|Hpk].
    { exists s1. split; [done|]. split; [done|]. intros Hnan%Hnan1.
      exists pivot. split; [done|]. split; [done|].
      intros b y Hb Hy. apply flt_le, fnot_le_lt;
        [apply (Hnn s1 k pivot Hnan Hsp)|apply (Hnn s1 b y Hnan Hy)|by eapply Hhigh]. }
    destruct (Z.ltb_spec k p) as [Hlt|Hge].
    + destruct (IH s1 left (p - 1) k) as (s2 & -> & Hre2 & Hsel); [lia..|].
      exists s2. split; [done|]. split; [by apply (rearranged_trans s s1 s2 left right left (p - 1)); try lia|].
      intros Hnan%Hnan1. destruct (Hsel Hnan) as (x & Hx & Hbefore & Hafter).
      destruct Hre2 as (Hperm2 & Hout2 & Hin2).
      assert (Forall (fun x => is_nan x = false) s2) as Hnan2 by (by rewrite Hperm2).
      assert (PrimFloat.leb x pivot = true) as Hxp.
      { destruct (Hin2 k) as (a' & Ha' & He); [lia|]. rewrite Hx in He.
        apply (Hlow a'); [lia|done]. }
      exists x. split; [done|]. split; [done|].
      intros b y Hb Hy. destruct (decide (b <= p - 1)) as [Hbp|Hbp]; [by apply (Hafter b); [lia|]|].
      rewrite Hout2 in Hy by lia. destruct (decide (b = p)) as [->|Hne]; [congruence|].
      apply flt_le. apply (fle_lt_trans _ pivot); [done|].
      apply fnot_le_lt; [apply (Hnn s1 p pivot Hnan Hsp)|apply (Hnn s1 b y Hnan Hy)|].
      apply (Hhigh b); [lia|done].
    + destruct (IH s1 (p + 1) right k) as (s2 & -> & Hre2 & Hsel); [lia..|].
      exists s2. split; [done|]. split; [by apply (rearranged_trans s s1 s2 left right (p + 1) right); try lia|].
      intros Hnan%Hnan1. destruct (Hsel Hnan) as (x & Hx & Hbefore & Hafter).
      destruct Hre2 as (Hperm2 & Hout2 & Hin2).
      assert (Forall (fun x => is_nan x = false) s2) as Hnan2 by (by rewrite Hperm2).
      assert (PrimFloat.ltb pivot x = true) as Hxp.
      { destruct (Hin2 k) as (a' & Ha' & He); [lia|]. rewrite Hx in He.
        apply fnot_le_lt; [apply (Hnn s1 p pivot Hnan Hsp)|apply (Hnn s2 k x Hnan2 Hx)|].
        apply (Hhigh a'); [lia|done]. }
      exists x. split; [done|]. split; [|done].
      intros a y Ha Hy. destruct (decide (p + 1 <= a)) as [Hap|Hap]; [by apply (Hbefore a); [lia|]|].
      rewrite Hout2 in Hy by lia. destruct (decide (a = p)) as [->|Hne].
      * apply flt_le. congruence.
      * apply flt_le. apply (fle_lt_trans _ pivot); [|done]. apply (Hlow a); [lia|done].
Qed.

(** X22.  [NthElement] always returns, and rearranges the slice without losing
    or adding a value; for an [n] outside the slice it changes nothing.  On
    a slice of numbers (no NaN), the value it leaves at place [n] is the
    n-th smallest: no value before it exceeds it, and it exceeds no value
    after it. *)
Theorem NthElement_selects (slice : list float) (n : Z) :
  exists slice',
    NthElement slice n = Some slice' /\ slice' ≡ₚ slice
    /\ (n < 0 \/ len slice <= n -> slice' = slice)
    /\ (Forall (fun x => is_nan x = false) slice -> 0 <= n < len slice ->
        selected slice' 0 (len slice - 1) n).
Proof.
  unfold NthElement.
  destruct (Z.ltb_spec n 0) as [Hneg|Hn]; cbn [orb].
  { exists slice. repeat split; try done. lia. }
  destruct (Z.leb_spec (len slice) n) as [Hbig|Hlt].
  { exists slice. repeat split; try done. lia. }
  destruct (quickSelect_spec (length slice) slice 0 (len slice - 1) n)
    as (s' & -> & (Hperm & _) & Hsel); [lia|lia|lia|unfold len; lia|].
  exists s'. split; [done|]. split; [done|]. split; [lia|]. intros Hnan _. by apply Hsel.
Qed.

(** The median of three numbers. *)
Lemma NthElement_selects_witness :
  exists slice',
    NthElement [3; 1; 2]%float 1 = Some slice'
    /\ slice' ≡ₚ [3; 1; 2]%float
    /\ at_ slice' 1 = Some 2%float
    /\ selected slice' 0 2 1.
Proof.
  destruct (NthElement_selects [3; 1; 2]%float 1) as (slice' & Hrun & Hperm & _ & Hsel).
  exists slice'. split; [exact Hrun|]. split; [exact Hperm|]. split.
  - vm_compute in Hrun. injection Hrun as <-. reflexivity.
  - apply Hsel; [|vm_compute; split; [discriminate|reflexivity]].
    repeat (apply Forall_cons_2; [reflexivity|]). apply Forall_nil_2.
Defined.

(** ** Geohash: a shorter hash is a prefix of a longer one *)

Lemma encode_step_grows (lat lon : float) (st st' : EncState) :
  encode_step lat lon st = Some st' ->
  exists t, geohash st' = String.append (geohash st) t.
Proof.
  unfold encode_step. intros Hstep.
  destruct (if isEven st then _ else _) as [[la lo] ix].
  destruct (bit st + 1 =? 5).
  - destruct (byte_at Base32Charset ix) as [c|]; [|done]. cbn [mbind option_bind] in Hstep.
    injection Hstep as <-. by eexists.
  - injection Hstep as <-. exists EmptyString. cbn [geohash]. by rewrite append_nil_r.
Qed.

Lemma encode_loop_grows (precision : Z) (lat lon : float) (fuel : nat) :
  forall (st : EncState) (s : string),
    encode_loop fuel precision lat lon st = Some s ->
    exists t, s = String.append (geohash st) t.
Proof.
  induction fuel as [|fuel IH]; intros st s Hrun; cbn [encode_loop] in Hrun;
    (destruct (slen (geohash st) <? precision);
     [|injection Hrun as <-; exists EmptyString; by rewrite append_nil_r]); [done|].
  destruct (encode_step lat lon st) as [st'|] eqn:Hstep; [|done].
  cbn [mbind option_bind] in Hrun.
  destruct (encode_step_grows _ _ _ _ Hstep) as (t1 & Ht1).
  destruct (IH _ _ Hrun) as (t2 & ->). exists (String.append t1 t2).
  by rewrite Ht1, append_assoc.
Qed.

Lemma encode_loop_prefix (p q : Z) (lat lon : float) (fuel1 : nat) :
  p <= q ->
  forall (fuel2 : nat) (st : EncState) (s1 s2 : string),
    encode_loop fuel1 p lat lon st = Some s1 ->
    encode_loop fuel2 q lat lon st = Some s2 ->
    exists t, s2 = String.append s1 t.
Proof.
  intros Hpq. induction fuel1 as [|fuel1 IH]; intros fuel2 st s1 s2 Hrun1 Hrun2;
    cbn [encode_loop] in Hrun1;
    (destruct (Z.ltb_spec (slen (geohash st)) p) as [Hlt|Hge];
     [|injection Hrun1 as <-; by eapply encode_loop_grows]); [done|].
  destruct fuel2 as [|fuel2]; cbn [encode_loop] in Hrun2;
    (destruct (Z.ltb_spec (slen (geohash st)) q); [|lia]); [done|].
  destruct (encode_step lat lon st) as [st'|]; [|done].
  cbn [mbind option_bind] in Hrun1, Hrun2. by eapply IH.
Qed.

(** X23.  The Geohash of a point at a precision is a prefix of its Geohash at
    every higher precision: two points in one cell of the finer grid are in
    one cell of the coarser grid. *)
Theorem Encode_prefix (p q : Z) (lat lon : float) :
  p <= q ->
  exists s t,
    Encode p lat lon = Some s /\ Encode q lat lon = Some (String.append s t).
Proof.
  intros Hpq.
  destruct (Encode_shape p lat lon) as (s1 & Hs1 & _).
  destruct (Encode_shape q lat lon) as (s2 & Hs2 & _).
  exists s1. rewrite Hs1, Hs2. unfold Encode in Hs1, Hs2.
  destruct (Z.leb_spec p 0) as [Hp|Hp].
  { injection Hs1 as <-. by exists s2. }
  destruct (Z.leb_spec q 0); [lia|].
  destruct (encode_loop_prefix p q lat lon _ Hpq _ _ _ _ Hs1 Hs2) as (t & ->).
  by exists t.
Qed.

Lemma Encode_prefix_witness :
  2 <= 4
  /\ exists s t,
       Encode 2 48.85 2.35 = Some s /\ Encode 4 48.85 2.35 = Some (String.append s t).
Proof. split; [lia|]. apply (Encode_prefix 2 4 48.85 2.35). lia. Defined.

(** ** Flooding: the receivers are the nodes that can be reached *)

Section Flood.
Context `{MathLib} `{RandLib}.

Lemma send_all_messages root u msg t d coords config relayList :
  forall (mq mq' : MessageQueue),
    send_all root u msg t d coords config relayList mq = Some mq' ->
    (forall m, m ∈ mq' -> m ∈ mq \/ (Src m = u /\ Dst m ∈ relayList))
    /\ (forall m, m ∈ mq -> m ∈ mq')
    /\ (forall v, v ∈ relayList -> exists m, m ∈ mq' /\ Dst m = v).
Proof.
  unfold send_all. induction relayList as [|v vs IH]; intros mq mq' Hrun;
    cbn [for_each] in Hrun.
  - injection Hrun as <-. split; [by left|]. split; [done|].
    intros v Hv. by apply not_elem_of_nil in Hv.
  - destruct (relay_message root u msg t d coords config v) as [new|] eqn:Hnew; [|done].
    cbn [mbind option_bind] in Hrun.
    destruct (Push mq new) as [mq1|] eqn:Hpush; [|done]. cbn [mbind option_bind] in Hrun.
    apply Push_perm in Hpush. destruct (IH _ _ Hrun) as (Hfrom & Hkeep & Hall).
    assert (Src new = u /\ Dst new = v) as [Hs Hd].
    { unfold relay_message in Hnew. destruct (CalculatePropagationDelay _ _ _ _ _); [|done].
      by injection Hnew as <-. }
    split; [|split].
    + intros m Hm. destruct (Hfrom m Hm) as [Hm1|(? & ?)].
      * rewrite Hpush in Hm1. apply elem_of_cons in Hm1 as [->|?]; [|by left].
        right. split; [done|]. rewrite Hd. apply list_elem_of_here.
      * right. split; [done|]. by apply list_elem_of_further.
    + intros m Hm. apply Hkeep. rewrite Hpush. by apply list_elem_of_further.
    + intros w [->|Hw]%elem_of_cons; [|by apply Hall].
      exists new. split; [|done]. apply Hkeep. rewrite Hpush. apply list_elem_of_here.
Qed.

Lemma process_message_flood (ba : BaseAlgorithm) root n coords mal leave config
    (st st' : SimState BaseAlgorithm) :
  tree_inv root n st -> flood_inv ba mal leave root st ->
  process_message root coords mal leave config st = Some st' ->
  flood_inv ba mal leave root st'.
Proof.
  intros Htree (Halgo & Hq & Hlist & Hnext) Hstep. unfold process_message in Hstep.
  destruct (Pop (msgQueue st)) as [[msg mq]|] eqn:Hpop; [|done].
  cbn [mbind option_bind] in Hstep. apply Pop_perm in Hpop.
  assert (forall m, m ∈ msgQueue st <-> m = msg \/ m ∈ mq) as Hmem.
  { intros m. by rewrite <- Hpop, elem_of_cons. }
  assert (reached (BaseGraph ba) mal leave root (Dst msg)
          /\ Forall (fun m => reached (BaseGraph ba) mal leave root (Dst m)) mq)
    as [Hmsg Hmq].
  { rewrite <- Hpop in Hq. by apply Forall_cons in Hq. }
  assert (sender_ok root (recvList st) msg) as Hsender.
  { destruct Htree as (_ & _ & _ & _ & _ & Hs & _). rewrite <- Hpop in Hs.
    by apply Forall_cons in Hs as [? _]. }
  destruct (at_ (recvFlag st) (Dst msg)) as [[]|] eqn:Hfl; [| |done];
    cbn [mbind option_bind] in Hstep.
  { injection Hstep as <-. unfold flood_inv.
    cbn [algo msgQueue recvList]. split; [done|]. split; [done|]. split; [done|].
    intros u v Hu Hm Hl He. destruct (Hnext u v Hu Hm Hl He) as [?|(m & Hin & Hd)]; [by left|].
    apply Hmem in Hin as [->|?]; [|right; by exists m].
    left. rewrite <- Hd. by apply Htree. }
  destruct (if decide (Src msg <> Dst msg) then _ else _) as [success|]; [|done].
  cbn [mbind option_bind] in Hstep.
  destruct (if decide (Dst msg <> root) then _ else _) as [dep|]; [|done].
  cbn [mbind option_bind] in Hstep.
  assert (forall u v (q : MessageQueue),
            (forall m, m ∈ mq -> m ∈ q) ->
            u ∈ recvList st -> at_ mal u = Some false -> at_ leave u = Some false ->
            Graph.edge (BaseGraph ba) u v ->
            v ∈ recvList st ++ [Dst msg] \/ exists m, m ∈ q /\ Dst m = v) as Hold.
  { intros u v q Hsub Hu Hm Hl He.
    destruct (Hnext u v Hu Hm Hl He) as [?|(m & Hin & Hd)].
    - left. apply elem_of_app. by left.
    - apply Hmem in Hin as [->|?]; [|right; exists m; split; [by apply Hsub|done]].
      left. rewrite <- Hd. apply elem_of_app. right. apply list_elem_of_here. }
  assert (Forall (reached (BaseGraph ba) mal leave root) (recvList st ++ [Dst msg])) as Hl'.
  { apply Forall_app. split; [done|]. by apply Forall_singleton. }
  destruct (at_ mal (Dst msg)) as [isMal|] eqn:HisMal; [|done].
  cbn [mbind option_bind] in Hstep.
  destruct (if isMal then _ else _) as [[]|] eqn:Hsilent; [| |done];
    cbn [mbind option_bind] in Hstep.
  { injection Hstep as <-. unfold flood_inv. cbn [algo msgQueue recvList].
    split; [done|]. split; [done|]. split; [done|].
    intros u v [Hu|Hu%list_elem_of_singleton]%elem_of_app Hm Hl He; [by apply (Hold u v mq)|].
    subst u. rewrite HisMal in Hm. injection Hm as ->. congruence. }
  assert (isMal = false /\ at_ leave (Dst msg) = Some false) as [-> Hleave].
  { by destruct isMal. }
  rewrite Halgo in Hstep.
  change (Respond ba msg)
    with (nbU ← Graph.Outbound (BaseGraph ba) (Dst msg);
          Some (append_except [] nbU (Src msg), ba)) in Hstep.
  destruct (Graph.Outbound (BaseGraph ba) (Dst msg)) as [nbU|] eqn:Hout; [|done].
  cbn [mbind option_bind] in Hstep.
  destruct (send_all _ _ _ _ _ _ _ _ _) as [mq'|] eqn:Hsend; [|done].
  cbn [mbind option_bind] in Hstep. injection Hstep as <-.
  destruct (send_all_messages _ _ _ _ _ _ _ _ _ _ Hsend) as (Hfrom & Hkeep & Hall).
  unfold flood_inv. cbn [algo msgQueue recvList].
  split; [done|]. split; [|split; [done|]].
  - apply Forall_forall. intros m Hm. destruct (Hfrom m Hm) as [Hin|(_ & Hd)].
    + by apply (proj1 (Forall_forall _ _) Hmq).
    + unfold append_except in Hd. cbn [app] in Hd.
      apply list_elem_of_filter in Hd as [_ Hd].
      apply (reached_step _ _ _ _ (Dst msg)); [done..|]. by exists nbU.
  - intros u v [Hu|Hu%list_elem_of_singleton]%elem_of_app Hm Hl He;
      [by apply (Hold u v mq')|].
    subst u. destruct He as (l & Hl2 & Hv). unfold Graph.Outbound in Hout.
    assert (l = nbU) as -> by congruence.
    destruct (decide (v = Src msg)) as [->|Hne].
    + left. destruct Hsender as [Hin|(_ & Hs & Hd)].
      * apply elem_of_app. by left.
      * rewrite Hs, <- Hd. apply elem_of_app. right. apply list_elem_of_here.
    + right. apply Hall. unfold append_except. cbn [app]. by apply list_elem_of_filter.
Qed.

Lemma event_loop_flood (ba : BaseAlgorithm) root n coords mal leave config (fuel : nat) :
  forall st st' : SimState BaseAlgorithm,
    tree_inv root n st -> flood_inv ba mal leave root st ->
    event_loop fuel root coords mal leave config st = Some st' ->
    flood_inv ba mal leave root st'.
Proof.
  induction fuel as [|fuel IH]; intros st st' Htree Hinv Hrun; cbn [event_loop] in Hrun;
    (destruct (Empty (msgQueue st)); [by injection Hrun as <-|]); [done|].
  destruct (process_message root coords mal leave config st) as [st1|] eqn:Hstep; [|done].
  cbn [mbind option_bind] in Hrun.
  apply (IH st1); [by eapply process_message_tree|by eapply process_message_flood|done].
Qed.

(** X24.  Flooding, the [Respond] of [BaseAlgorithm].  When the event loop of
    a repetition has ended, the receivers are exactly the nodes that a flood
    can reach: the root, and every out-neighbour of a receiver that is
    neither malicious nor absent.  No reachable node is missed and no other
    node receives. *)
Theorem flood_reaches_exactly (fuel : nat) (root n : Z) (coords : list LatLonCoordinate)
    (malFlags leaveFlags : list bool) (config : SimulatorConfig)
    (success : list (list Z)) (ba : BaseAlgorithm) (g : rng)
    (st : SimState BaseAlgorithm) :
  0 <= n ->
  event_loop fuel root coords malFlags leaveFlags config
    (init_state n success ba g [NewMessage root root root 0 0 0]) = Some st ->
  forall v, v ∈ recvList st <-> reached (BaseGraph ba) malFlags leaveFlags root v.
Proof.
  intros Hn Hrun.
  pose proof (init_state_tree root n success ba g Hn) as Htree0.
  assert (flood_inv ba malFlags leaveFlags root
            (init_state n success ba g [NewMessage root root root 0 0 0])) as Hinv0.
  { unfold flood_inv, init_state. cbn [algo msgQueue recvList].
    split; [done|]. split; [apply Forall_singleton; constructor|].
    split; [apply Forall_nil_2|]. intros u v Hu. by apply not_elem_of_nil in Hu. }
  destruct (event_loop_flood _ _ _ _ _ _ _ _ _ _ Htree0 Hinv0 Hrun)
    as (_ & _ & Hlist & Hnext).
  destruct (event_loop_tree _ _ _ _ _ _ _ _ _ Htree0 Hrun)
    as [(_ & _ & _ & _ & _ & _ & Hhead & _) Hq].
  destruct (event_loop_from_root _ _ _ _ _ _ _ _ _ _ _ Hn Hrun) as [_ Hne].
  intros v. split.
  - intros Hv. by apply (proj1 (Forall_forall _ _) Hlist).
  - induction 1 as [|u v Hu IH Hm Hl He].
    + destruct Hhead as [?|[rest ->]]; [done|]. apply list_elem_of_here.
    + destruct (Hnext u v IH Hm Hl He) as [?|(m & Hin & _)]; [done|].
      rewrite Hq in Hin. by apply not_elem_of_nil in Hin.
Qed.

End Flood.

(** The flood from node 0 in a graph of three nodes whose only edge goes
    from node 0 to node 1: nodes 0 and 1 receive. *)
Lemma flood_reaches_exactly_witness :
  0 <= 3
  /\ exists st : SimState (H := no_noise) BaseAlgorithm,
       event_loop (H := no_trig) (H0 := no_noise) 8 0 three_origins nobody nobody
         NewSimulatorConfig
         (init_state (H := no_noise) 3 [[]; []; []] one_edge tt [NewMessage 0 0 0 0 0 0])
       = Some st
       /\ recvList st = [0; 1]
       /\ forall v, v ∈ recvList st <-> reached (BaseGraph one_edge) nobody nobody 0 v.
Proof.
  split; [lia|].
  let r := eval vm_compute in
    (event_loop (H := no_trig) (H0 := no_noise) 8 0 three_origins nobody nobody
       NewSimulatorConfig
       (init_state (H := no_noise) 3 [[]; []; []] one_edge tt [NewMessage 0 0 0 0 0 0])) in
  match r with
  | Some ?st =>
      exists st; split; [vm_compute; reflexivity|];
      split; [vm_compute; reflexivity|];
      apply (flood_reaches_exactly (H := no_trig) (H0 := no_noise) 8 0 3 three_origins
               nobody nobody NewSimulatorConfig [[]; []; []] one_edge tt st);
      [lia|vm_compute; reflexivity]
  end.
Defined.

(** ** The queue hands the messages out in the order of their times *)

Lemma heap_ok_nil : heap_ok [].
Proof. split; [apply Forall_nil_2|]. intros k a b _ Hb.
  apply at_Some in Hb. unfold len in Hb. cbn in Hb. lia.
Qed.

Lemma push_all_heap (msgs : list Message) : forall mq : MessageQueue,
  heap_ok mq -> Forall (fun m => is_nan (RecvTime m) = false) msgs ->
  exists mq', for_each Push msgs mq = Some mq' /\ mq' ≡ₚ mq ++ msgs /\ heap_ok mq'.
Proof.
  induction msgs as [|m msgs IH]; intros mq Hheap Hnan; cbn [for_each].
  - exists mq. by rewrite app_nil_r.
  - apply Forall_cons in Hnan as [Hm Hnan].
    destruct (Push_heap mq m) as (mq1 & -> & Hperm1 & Hheap1). cbn [mbind option_bind].
    destruct (IH mq1) as (mq' & Hrun & Hperm & Hheap'); [by apply Hheap1|done|].
    exists mq'. split; [done|]. split; [|done].
    by rewrite Hperm, Hperm1, <- Permutation_middle.
Qed.

Lemma drain_sorted (fuel : nat) : forall mq : MessageQueue,
  heap_ok mq -> (length mq <= fuel)%nat ->
  exists out, drain fuel mq = Some out /\ out ≡ₚ mq /\ StronglySorted no_later out.
Proof.
  induction fuel as [|fuel IH]; intros mq Hheap Hlen.
  - destruct mq; [|cbn in Hlen; lia]. exists []. repeat split; [done|constructor].
  - destruct (decide (mq = [])) as [->|Hne].
    { exists []. repeat split; [done|constructor]. }
    cbn [drain]. assert (Empty mq = false) as ->.
    { unfold Empty. apply Z.eqb_neq. by rewrite len_nil_iff. }
    destruct (Pop_heap mq Hne) as (msg & mq' & -> & Hperm & Hpop).
    destruct (Hpop Hheap) as [Hheap' Hleast]. cbn [mbind option_bind].
    destruct (IH mq') as (rest & -> & Hrest & Hsorted).
    { done. }
    { apply Permutation_length in Hperm. cbn [length] in Hperm. lia. }
    cbn [mbind option_bind]. exists (msg :: rest). split; [done|].
    split; [by rewrite Hrest|]. constructor; [done|].
    rewrite Hrest. rewrite <- Hperm in Hleast. by apply Forall_cons in Hleast as [_ ?].
Qed.

(** X25.  [Push] and [Pop] together.  Whatever the order in which messages
    whose times are numbers are pushed on the empty queue, popping until
    the queue is empty hands out the same messages, each once, and in the
    order of their receive times: no message comes after one that is
    received later.  The event loop processes the messages in this order. *)
Theorem queue_hands_out_in_time_order (msgs : list Message) :
  Forall (fun m => is_nan (RecvTime m) = false) msgs ->
  exists mq out,
    for_each Push msgs [] = Some mq
    /\ drain (length msgs) mq = Some out
    /\ out ≡ₚ msgs
    /\ StronglySorted no_later out.
Proof.
  intros Hnan.
  destruct (push_all_heap msgs [] heap_ok_nil Hnan) as (mq & Hpush & Hperm & Hheap).
  cbn [app] in Hperm.
  destruct (drain_sorted (length msgs) mq Hheap) as (out & Hout & Hperm' & Hsorted).
  { apply Permutation_length in Hperm. lia. }
  exists mq, out. split; [done|]. split; [done|]. split; [by rewrite Hperm'|done].
Qed.

(** Four messages, pushed out of order. *)
Lemma queue_hands_out_in_time_order_witness :
  exists mq,
    for_each Push
      [NewMessage 0 0 1 1 0 3; NewMessage 0 0 2 1 0 1; NewMessage 0 0 3 1 0 4;
       NewMessage 0 0 4 1 0 2] [] = Some mq
    /\ drain 4 mq
       = Some [NewMessage 0 0 2 1 0 1; NewMessage 0 0 4 1 0 2; NewMessage 0 0 1 1 0 3;
               NewMessage 0 0 3 1 0 4].
Proof.
  destruct (queue_hands_out_in_time_order
              [NewMessage 0 0 1 1 0 3; NewMessage 0 0 2 1 0 1; NewMessage 0 0 3 1 0 4;
               NewMessage 0 0 4 1 0 2]) as (mq & out & Hpush & Hdrain & _).
  { repeat (apply Forall_cons_2; [reflexivity|]). apply Forall_nil_2. }
  exists mq. split; [exact Hpush|].
  vm_compute in Hpush. injection Hpush as <-. vm_compute. reflexivity.
Defined.

(** ** The k-ary tree spans the positions from position 0 *)

(** X26.  The tree that [ComputeKaryChildren] lays over the positions
    [0 .. totalNodes - 1] of a group, for a positive [k] that [make] accepts
    as a capacity and a group whose [totalNodes * k] is an [int] (below
    [2 ^ 63], so that nothing wraps around).  The children of a position are
    positions above it: taking children again and again from a position [p]
    of the group leads to [p] and to positions between [p] and [totalNodes]
    only, never to a position below [p].  From position 0 it leads to every
    position of the group. *)
Theorem kary_tree_spans_from_0 (totalNodes k p : Z) :
  0 < k -> 8 * k <= maxAlloc -> totalNodes * k < 2 ^ 63 -> 0 <= p < totalNodes ->
  (forall c, kary_reach totalNodes k p c -> c = p \/ (p < c < totalNodes))
  /\ (forall c, 0 <= c < totalNodes -> kary_reach totalNodes k 0 c).
Proof.
  intros Hk Hcap Hfit Hp.
  assert (forall c, 0 <= c < totalNodes -> c * k + k < 2 ^ 63) as Hfits.
  { intros c Hc. nia. }
  split.
  - induction 1 as [|c d children Hc IH Hch Hd]; [by left|]. right.
    destruct (kary_children_spec c totalNodes k Hk Hcap) as (cs & Hcs & -> & _);
      [lia|apply Hfits; lia|].
    assert (children = range (c * k + 1) (Z.min (c * k + k + 1) totalNodes)) as ->
      by congruence.
    apply elem_of_range in Hd. assert (c <= c * k) by nia. lia.
  - assert (forall (m : nat) c, 0 <= c <= Z.of_nat m -> c < totalNodes ->
                                kary_reach totalNodes k 0 c) as Hall.
    { induction m as [|m IH]; intros c Hc Hct.
      - assert (c = 0) as -> by lia. constructor.
      - destruct (decide (c = 0)) as [->|Hne]; [constructor|].
        pose proof (Z.div_mod (c - 1) k ltac:(lia)) as Hdm.
        pose proof (Z.mod_pos_bound (c - 1) k Hk) as Hmod.
        assert (0 <= (c - 1) / k) as Hq0 by (apply Z.div_pos; lia).
        assert ((c - 1) / k <= c - 1) as Hq1.
        { set (q := (c - 1) / k) in *. assert (q <= k * q) by nia. lia. }
        destruct (kary_children_spec ((c - 1) / k) totalNodes k Hk Hcap)
          as (cs & Hcs & _ & Hin); [lia|apply Hfits; lia|].
        apply (kary_child _ _ _ ((c - 1) / k) c cs); [apply IH; lia|done|].
        by apply Hin. }
    intros c [Hc0 Hct]. apply (Hall (Z.to_nat c)); lia.
Qed.

Lemma kary_tree_spans_from_0_witness :
  0 < 3 /\ 8 * 3 <= maxAlloc /\ 6 * 3 < 2 ^ 63 /\ 0 <= 1 < 6
  /\ (forall c, kary_reach 6 3 1 c -> c = 1 \/ (1 < c < 6))
  /\ (forall c, 0 <= c < 6 -> kary_reach 6 3 0 c).
Proof.
  assert (0 < 3) as H1 by lia.
  assert (8 * 3 <= maxAlloc) as H2 by (vm_compute; discriminate).
  assert (6 * 3 < 2 ^ 63) as H3 by lia.
  assert (0 <= 1 < 6) as H4 by lia.
  repeat (split; [assumption|]). exact (kary_tree_spans_from_0 6 3 1 H1 H2 H3 H4).
Defined.

(** ** Bucket 0 of a fresh overlay: the other nodes of the cell *)

Lemma InitializeKBuckets_empty (n totalBits : Z) (kb : KBucketTable) (r b x : Z) :
  InitializeKBuckets n totalBits = Some kb -> ~ in_bucket kb r b x.
Proof.
  unfold InitializeKBuckets. repeat case_decide; try done. intros [= <-].
  intros (row & bkt & Hrow & Hbkt & Hx).
  unfold at_ in Hrow, Hbkt. repeat case_decide; try done.
  apply lookup_replicate in Hrow as [-> _]. apply lookup_replicate in Hbkt as [-> _].
  by apply not_elem_of_nil in Hx.
Qed.

Lemma NoDup_at_inj {A} (xs : list A) (i j : Z) (x : A) :
  NoDup xs -> at_ xs i = Some x -> at_ xs j = Some x -> i = j.
Proof.
  intros Hnd Hi Hj. unfold at_ in Hi, Hj. repeat case_decide; try done.
  pose proof (NoDup_lookup _ _ _ _ Hnd Hi Hj). lia.
Qed.

Lemma elem_of_at {A} (xs : list A) (x : A) : x ∈ xs <-> exists i, at_ xs i = Some x.
Proof.
  rewrite list_elem_of_lookup. split.
  - intros [k Hk]. exists (Z.of_nat k). by rewrite at_nat.
  - intros [i Hi]. unfold at_ in Hi. case_decide; [|done]. by eexists.
Qed.

(** X27.  The first fills of [fillKBuckets] together.  After the Geohashes are
    computed, the buckets allocated and [FillK0Bucket] run, bucket 0 of a
    node holds exactly the other nodes with the same Geohash, and the other
    buckets are empty. *)
Theorem bucket_0_is_the_cell (geoPrec n totalBits : Z)
    (displayCoords : list LatLonCoordinate) (hashes bins : list string)
    (groups : gmap string (list Z)) (kb kb' : KBucketTable) (pairCount : Z) :
  hash_nodes geoPrec n displayCoords = Some (hashes, bins, groups) ->
  InitializeKBuckets n totalBits = Some kb ->
  FillK0Bucket kb groups = Some (kb', pairCount) ->
  forall r b x,
    in_bucket kb' r b x
    <-> b = 0 /\ r <> x /\ exists h, at_ hashes r = Some h /\ at_ hashes x = Some h.
Proof.
  intros Hhash Hinit Hfill r b x.
  assert (range 0 n = range 0 (Z.of_nat (Z.to_nat n))) as Hr.
  { unfold range. f_equal. f_equal. lia. }
  unfold hash_nodes in Hhash. rewrite Hr in Hhash.
  destruct (hash_nodes_prefix _ _ _ _ _ _ Hhash) as (Hlen & _ & _ & _ & Hgroups).
  assert (forall h g, groups !! h = Some g ->
            NoDup g /\ forall y, y ∈ g <-> at_ hashes y = Some h) as Hgroup.
  { intros h g Hg. specialize (Hgroups h). rewrite Hg in Hgroups. simpl in Hgroups.
    subst g. split.
    - apply NoDup_filter. unfold range. apply NoDup_fmap_2; [intros ? ?; lia|apply NoDup_seq].
    - intros y. rewrite list_elem_of_filter, elem_of_range. split; [tauto|].
      intros Hy. split; [done|]. apply at_Some in Hy. lia. }
  rewrite (k0_groups_spec _ _ _ _ _ Hfill). split.
  - intros [Hold|(-> & [h g] & i & j & Hg%elem_of_map_to_list & Hij & Hi & Hj)].
    { by apply (InitializeKBuckets_empty _ _ _ _ _ _ Hinit) in Hold. }
    cbn [snd] in Hi, Hj. destruct (Hgroup h g Hg) as [Hnd Hmem].
    split; [done|]. split.
    + intros ->. apply Hij. by eapply NoDup_at_inj.
    + exists h. split; apply Hmem, elem_of_at; by eexists.
  - intros (-> & Hrx & h & Hhr & Hhx). right. split; [done|].
    destruct (groups !! h) as [g|] eqn:Hg.
    + destruct (Hgroup h g Hg) as [Hnd Hmem].
      apply Hmem, elem_of_at in Hhr as [i Hi]. apply Hmem, elem_of_at in Hhx as [j Hj].
      exists (h, g), i, j. split; [by apply elem_of_map_to_list|].
      split; [|done]. intros ->. congruence.
    + exfalso. specialize (Hgroups h). rewrite Hg in Hgroups. simpl in Hgroups.
      assert (r ∈ filter (fun i => at_ hashes i = Some h) (range 0 (Z.of_nat (Z.to_nat n))))
        as Hin.
      { apply list_elem_of_filter. split; [done|]. apply elem_of_range.
        apply at_Some in Hhr. lia. }
      rewrite <- Hgroups in Hin. by apply not_elem_of_nil in Hin.
Qed.

(** Three nodes of which the first and the last are in one cell. *)
Lemma bucket_0_is_the_cell_witness :
  exists hashes bins groups kb kb',
    hash_nodes 2 3 [origin; {| Lat := 10; Lon := 50 |}; origin] = Some (hashes, bins, groups)
    /\ InitializeKBuckets 3 10 = Some kb
    /\ FillK0Bucket kb groups = Some (kb', 2)
    /\ (fun row => bucket_of row 0) <$> at_ kb' 0 = Some [2]
    /\ forall r b x,
         in_bucket kb' r b x
         <-> b = 0 /\ r <> x /\ exists h, at_ hashes r = Some h /\ at_ hashes x = Some h.
Proof.
  let r := eval vm_compute in
    (hash_nodes 2 3 [origin; {| Lat := 10; Lon := 50 |}; origin]) in
  match r with
  | Some (?hs, ?bs, ?gs) =>
      let k := eval vm_compute in (InitializeKBuckets 3 10) in
      match k with
      | Some ?kb =>
          let f := eval vm_compute in (FillK0Bucket kb gs) in
          match f with
          | Some (?kb', _) =>
              exists hs, bs, gs, kb, kb';
              split; [vm_compute; reflexivity|];
              split; [vm_compute; reflexivity|];
              split; [vm_compute; reflexivity|];
              split; [vm_compute; reflexivity|];
              apply (bucket_0_is_the_cell 2 3 10
                       [origin; {| Lat := 10; Lon := 50 |}; origin] hs bs gs kb kb' 2);
              vm_compute; reflexivity
          end
      end
  end.
Defined.
